(** * TPIE external-memory engine: merge sorter and parallel pipelining core

    A shallow embedding of [tpie/pipelining/merge_sorter.h] and of the
    producer / worker hand-off of [tpie/pipelining/parallel.h], together with
    the properties the engine specification states about them.

    Conventions.
    - [size_t], [memory_size_type] and [stream_size_type] values are natural
      numbers; every arithmetic operation of the source that can leave the
      range of a 64-bit word goes through [SizeT], which wraps modulo 2^64.
      Counters that are only ever incremented by one per stored item or per
      run ([++m_currentRunItemCount], [++m_finishedRuns], ...) are plain
      successors: they count objects held in memory or on disk.
    - Code that can throw, trip an assertion or run into undefined behaviour
      returns an [outcome]; [while] loops whose termination depends on the
      data take a [fuel] argument and answer [OutOfFuel] when it is spent.
    - Temp files live in one store ([m_runFiles], a list of item lists);
      a [file_stream] is an index into that store plus a cursor, so that a
      reader and a writer opened on the same temp file really share it. *)

From Stdlib Require Import NArith ZArith Lia.
From stdpp Require Import base tactics option list numbers strings sorting.
From Equations Require Import Equations.

Open Scope nat_scope.

(** ** 64-bit unsigned arithmetic *)

Module SizeT.

Definition modulus : N := 18446744073709551616%N.

Definition wrap (n : N) : nat := N.to_nat (n mod modulus).

Definition fits (n : nat) : Prop := (N.of_nat n < modulus)%N.

Definition add (a b : nat) : nat := wrap (N.of_nat a + N.of_nat b).

Definition mul (a b : nat) : nat := wrap (N.of_nat a * N.of_nat b).

Definition sub (a b : nat) : nat :=
  wrap (N.of_nat a + (modulus - N.of_nat b mod modulus)).

End SizeT.

(** ** Outcomes of fallible code *)

Inductive failure : Type :=
| AssertionFailed (msg : string)
| RuntimeError (msg : string)
| IndexOutOfRange
| DivisionByZero
| EndOfStream
| SeekOutOfRange.

Inductive outcome (A : Type) : Type :=
| Done (a : A)
| Fail (e : failure)
| OutOfFuel.

Arguments Done {A} a.
Arguments Fail {A} e.
Arguments OutOfFuel {A}.

Global Instance outcome_bind : MBind outcome := λ A B k m,
  match m with
  | Done a => k a
  | Fail e => Fail e
  | OutOfFuel => OutOfFuel
  end.

Global Instance outcome_ret : MRet outcome := λ A a, Done a.

(** Modelled from the spec: the [tp_assert] macro ([tpie/tpie_assert.h]) is
    not among the sources.  Section 7 classes a failed internal check as an
    [InvariantViolation], which is fatal: the call does not proceed. *)
Definition tp_assert (condition : bool) (message : string) : outcome unit :=
  if condition then Done tt else Fail (AssertionFailed message).

(** ** Sort parameters *)

(** Modelled from the spec: [tpie/pipelining/sort_parameters.h] is not among
    the sources; the fields are the ones [merge_sorter] reads and writes
    (section 3, "Sort parameters"). *)
Record sort_parameters : Type := {
  memoryPhase2 : nat;
  memoryPhase3 : nat;
  memoryPhase4 : nat;
  runLength : nat;
  internalReportThreshold : nat;
  fanout : nat;
  finalFanout : nat
}.

(** ** Run geometry *)

(** [merge_sorter::calculate_run_length]: the loop multiplies [fanout] into
    the accumulator [mergeLevel] times. *)
Fixpoint calculate_run_length_loop (runLength fanout iterations : nat) : nat :=
  match iterations with
  | 0 => runLength
  | S k => calculate_run_length_loop (SizeT.mul runLength fanout) fanout k
  end.

Definition calculate_run_length (initialRunLength fanout mergeLevel : nat) : nat :=
  calculate_run_length_loop initialRunLength fanout mergeLevel.

(** [merge_sorter::run_file_index].  The remainder by a zero [fanout] is
    undefined in the source. *)
Definition run_file_index (p : sort_parameters) (mergeLevel runNumber : nat)
  : outcome nat :=
  if decide (fanout p = 0) then Fail DivisionByZero
  else Done (SizeT.add (SizeT.mul (mergeLevel mod 2) (fanout p))
                       (runNumber mod fanout p)).

(** ** Temp files and file streams *)

Section MergeSorter.

Context {T : Type}.

(** The value-initialised item that [array<T>::resize] fills new slots with. *)
Variable T_default : T.

(** The comparator [pred_t]. *)
Variable pred : T → T → bool.

(** [tpie::parallel_sort] ([tpie/parallel_sort.h]) is not among the sources:
    the sorter is parametric in it and the theorems assume what its test
    suite checks, namely that it agrees with a comparison sort. *)
Variable parallel_sort : list T → list T.

(** The array [m_runFiles]: the items each temp file currently holds. *)
Local Abbreviation run_files := (list (list T)).

(** Modelled from the spec: [tpie/file_stream.h] is not among the sources.
    Section 3 gives a stream a length and a cursor [pos] in [0, len];
    section 4.1 gives the operations: [read_item] fails with [EndOfStream]
    at [pos = len], [write_item] appends at [pos = len] and overwrites
    below, [seek] fails with [OutOfRange] outside [0, len]. *)
Record file_stream : Type := {
  fs_file : nat;
  fs_offset : nat
}.

Definition fs_size (files : run_files) (fs : file_stream) : nat :=
  length (files !!! fs_file fs).

Definition fs_can_read (files : run_files) (fs : file_stream) : bool :=
  bool_decide (fs_offset fs < fs_size files fs).

Definition fs_read (files : run_files) (fs : file_stream)
  : outcome (T * file_stream) :=
  match (files !!! fs_file fs) !! fs_offset fs with
  | Some x => Done (x, {| fs_file := fs_file fs; fs_offset := S (fs_offset fs) |})
  | None => Fail EndOfStream
  end.

Definition fs_seek (files : run_files) (fs : file_stream) (offset : nat)
  : outcome file_stream :=
  if decide (offset ≤ fs_size files fs)
  then Done {| fs_file := fs_file fs; fs_offset := offset |}
  else Fail SeekOutOfRange.

Definition fs_write (x : T) (files : run_files) (fs : file_stream)
  : run_files * file_stream :=
  let content := files !!! fs_file fs in
  let content' :=
    if decide (fs_offset fs < length content)
    then <[fs_offset fs := x]> content
    else content ++ [x] in
  (<[fs_file fs := content']> files,
   {| fs_file := fs_file fs; fs_offset := S (fs_offset fs) |}).

(** [array::at]: bounds-checked access to a temp file. *)
Definition at_ (files : run_files) (idx : nat) : outcome (list T) :=
  match files !! idx with
  | Some content => Done content
  | None => Fail IndexOutOfRange
  end.

(** ** The k-way merger *)

(** Modelled from the spec: [tpie/pipelining/merger.h] is not among the
    sources.  Section 4.3: a heap of [(item, run_id)] ordered by the
    comparator on the item, the run index breaking ties; [pop_and_push]
    replaces the top by the next item of the same run.  The sorter hands
    the merger streams positioned on the first item of each run and the
    run length; at most that many items are taken from each stream. *)
Record merger : Type := {
  pq : list (T * nat);
  m_in : list file_stream;
  itemsRead : list nat;
  m_runLength : nat
}.

Definition heap_before (a b : T * nat) : bool :=
  pred a.1 b.1 || (negb (pred b.1 a.1) && bool_decide (a.2 < b.2)).

(** The top of the heap and the heap without it. *)
Fixpoint pq_extract (h : list (T * nat)) : option ((T * nat) * list (T * nat)) :=
  match h with
  | [] => None
  | e :: h' =>
      match pq_extract h' with
      | None => Some (e, [])
      | Some (m, r) =>
          if heap_before e m then Some (e, m :: r) else Some (m, e :: r)
      end
  end.

Definition merger_new : merger :=
  {| pq := []; m_in := []; itemsRead := []; m_runLength := 0 |}.

Definition merger_can_pull (m : merger) : bool :=
  match pq m with [] => false | _ => true end.

(** [merger::reset()] *)
Definition merger_clear (m : merger) : merger :=
  {| pq := []; m_in := []; itemsRead := []; m_runLength := m_runLength m |}.

(** The loop of [merger::reset(inputs, runLength)] that reads the first item
    of every stream. *)
Fixpoint merger_fill (files : run_files) (i : nat) (inputs : list file_stream)
  : outcome (list (T * nat) * list file_stream) :=
  match inputs with
  | [] => Done ([], [])
  | fs :: rest =>
      '(x, fs') ← fs_read files fs;
      '(h, ins) ← merger_fill files (S i) rest;
      Done ((x, i) :: h, fs' :: ins)
  end.

Definition merger_reset (files : run_files) (inputs : list file_stream)
    (runLength : nat) (m : merger) : outcome merger :=
  tp_assert (negb (merger_can_pull m)) "Reset before we are done";;
  '(h, ins) ← merger_fill files 0 inputs;
  Done {| pq := h; m_in := ins;
          itemsRead := replicate (length inputs) 1;
          m_runLength := runLength |}.

Definition merger_pull (files : run_files) (m : merger) : outcome (T * merger) :=
  tp_assert (merger_can_pull m) "pull() while !can_pull()";;
  match pq_extract (pq m) with
  | None => Fail IndexOutOfRange
  | Some ((el, i), rest) =>
      match m_in m !! i, itemsRead m !! i with
      | Some fs, Some k =>
          m' ← (if fs_can_read files fs && bool_decide (k < m_runLength m)
                then
                  '(x, fs') ← fs_read files fs;
                  Done {| pq := (x, i) :: rest;
                          m_in := <[i := fs']> (m_in m);
                          itemsRead := <[i := S k]> (itemsRead m);
                          m_runLength := m_runLength m |}
                else
                  Done {| pq := rest; m_in := m_in m;
                          itemsRead := itemsRead m;
                          m_runLength := m_runLength m |});
          Done (el, if merger_can_pull m' then m' else merger_clear m')
      | _, _ => Fail IndexOutOfRange
      end
  end.

(** ** The merge sorter *)

Record merge_sorter : Type := {
  p : sort_parameters;
  m_parametersSet : bool;
  m_merger : merger;
  m_runFiles : run_files;
  m_finishedRuns : nat;
  m_currentRunItems : list T;
  m_currentRunItemCount : nat;
  m_reportInternal : bool;
  m_itemsPulled : nat;
  pull_prepared : bool
}.

Definition set_p v s := {|
  p := v; m_parametersSet := m_parametersSet s; m_merger := m_merger s;
  m_runFiles := m_runFiles s; m_finishedRuns := m_finishedRuns s;
  m_currentRunItems := m_currentRunItems s;
  m_currentRunItemCount := m_currentRunItemCount s;
  m_reportInternal := m_reportInternal s; m_itemsPulled := m_itemsPulled s;
  pull_prepared := pull_prepared s |}.

Definition set_parametersSet v s := {|
  p := p s; m_parametersSet := v; m_merger := m_merger s;
  m_runFiles := m_runFiles s; m_finishedRuns := m_finishedRuns s;
  m_currentRunItems := m_currentRunItems s;
  m_currentRunItemCount := m_currentRunItemCount s;
  m_reportInternal := m_reportInternal s; m_itemsPulled := m_itemsPulled s;
  pull_prepared := pull_prepared s |}.

Definition set_merger v s := {|
  p := p s; m_parametersSet := m_parametersSet s; m_merger := v;
  m_runFiles := m_runFiles s; m_finishedRuns := m_finishedRuns s;
  m_currentRunItems := m_currentRunItems s;
  m_currentRunItemCount := m_currentRunItemCount s;
  m_reportInternal := m_reportInternal s; m_itemsPulled := m_itemsPulled s;
  pull_prepared := pull_prepared s |}.

Definition set_runFiles v s := {|
  p := p s; m_parametersSet := m_parametersSet s; m_merger := m_merger s;
  m_runFiles := v; m_finishedRuns := m_finishedRuns s;
  m_currentRunItems := m_currentRunItems s;
  m_currentRunItemCount := m_currentRunItemCount s;
  m_reportInternal := m_reportInternal s; m_itemsPulled := m_itemsPulled s;
  pull_prepared := pull_prepared s |}.

Definition set_finishedRuns v s := {|
  p := p s; m_parametersSet := m_parametersSet s; m_merger := m_merger s;
  m_runFiles := m_runFiles s; m_finishedRuns := v;
  m_currentRunItems := m_currentRunItems s;
  m_currentRunItemCount := m_currentRunItemCount s;
  m_reportInternal := m_reportInternal s; m_itemsPulled := m_itemsPulled s;
  pull_prepared := pull_prepared s |}.

Definition set_currentRunItems v s := {|
  p := p s; m_parametersSet := m_parametersSet s; m_merger := m_merger s;
  m_runFiles := m_runFiles s; m_finishedRuns := m_finishedRuns s;
  m_currentRunItems := v;
  m_currentRunItemCount := m_currentRunItemCount s;
  m_reportInternal := m_reportInternal s; m_itemsPulled := m_itemsPulled s;
  pull_prepared := pull_prepared s |}.

Definition set_currentRunItemCount v s := {|
  p := p s; m_parametersSet := m_parametersSet s; m_merger := m_merger s;
  m_runFiles := m_runFiles s; m_finishedRuns := m_finishedRuns s;
  m_currentRunItems := m_currentRunItems s;
  m_currentRunItemCount := v;
  m_reportInternal := m_reportInternal s; m_itemsPulled := m_itemsPulled s;
  pull_prepared := pull_prepared s |}.

Definition set_reportInternal v s := {|
  p := p s; m_parametersSet := m_parametersSet s; m_merger := m_merger s;
  m_runFiles := m_runFiles s; m_finishedRuns := m_finishedRuns s;
  m_currentRunItems := m_currentRunItems s;
  m_currentRunItemCount := m_currentRunItemCount s;
  m_reportInternal := v; m_itemsPulled := m_itemsPulled s;
  pull_prepared := pull_prepared s |}.

Definition set_itemsPulled v s := {|
  p := p s; m_parametersSet := m_parametersSet s; m_merger := m_merger s;
  m_runFiles := m_runFiles s; m_finishedRuns := m_finishedRuns s;
  m_currentRunItems := m_currentRunItems s;
  m_currentRunItemCount := m_currentRunItemCount s;
  m_reportInternal := m_reportInternal s; m_itemsPulled := v;
  pull_prepared := pull_prepared s |}.

Definition set_pull_prepared v s := {|
  p := p s; m_parametersSet := m_parametersSet s; m_merger := m_merger s;
  m_runFiles := m_runFiles s; m_finishedRuns := m_finishedRuns s;
  m_currentRunItems := m_currentRunItems s;
  m_currentRunItemCount := m_currentRunItemCount s;
  m_reportInternal := m_reportInternal s; m_itemsPulled := m_itemsPulled s;
  pull_prepared := v |}.

(** The constructor initialises [m_parametersSet], the merger, an empty
    array of temp files and [pull_prepared]; the four counters and flags
    below are left indeterminate until [begin] and [end] assign them. *)
Definition merge_sorter_new (params : sort_parameters)
    (finishedRuns currentRunItemCount itemsPulled : nat)
    (reportInternal : bool) : merge_sorter := {|
  p := params; m_parametersSet := false; m_merger := merger_new;
  m_runFiles := []; m_finishedRuns := finishedRuns;
  m_currentRunItems := [];
  m_currentRunItemCount := currentRunItemCount;
  m_reportInternal := reportInternal; m_itemsPulled := itemsPulled;
  pull_prepared := false |}.

(** [set_parameters(runLength, fanout)] *)
Definition set_parameters (runLength fanout : nat) (s : merge_sorter)
  : merge_sorter :=
  set_parametersSet true
    (set_p {| memoryPhase2 := memoryPhase2 (p s);
              memoryPhase3 := memoryPhase3 (p s);
              memoryPhase4 := memoryPhase4 (p s);
              runLength := runLength;
              internalReportThreshold := runLength;
              fanout := fanout;
              finalFanout := fanout |} s).

(** [open_run_file_write]: free the temp file when the run is the first one
    written to it at this level, open it and seek to its end. *)
Definition open_run_file_write (params : sort_parameters) (files : run_files)
    (mergeLevel runNumber : nat) : outcome (run_files * file_stream) :=
  idx ← run_file_index params mergeLevel runNumber;
  files' ← (if decide (runNumber < fanout params)
            then at_ files idx;; Done (<[idx := []]> files)
            else Done files);
  content ← at_ files' idx;
  Done (files', {| fs_file := idx; fs_offset := length content |}).

(** [open_run_file_read]: open the temp file and seek to the run. *)
Definition open_run_file_read (params : sort_parameters) (files : run_files)
    (mergeLevel runNumber : nat) : outcome file_stream :=
  idx ← run_file_index params mergeLevel runNumber;
  at_ files idx;;
  fs_seek files {| fs_file := idx; fs_offset := 0 |}
    (SizeT.mul
       (calculate_run_length (runLength params) (fanout params) mergeLevel)
       (runNumber / fanout params)).

(** [begin] *)
Definition begin (s : merge_sorter) : outcome merge_sorter :=
  tp_assert (m_parametersSet s) "Parameters not set";;
  Done (set_finishedRuns 0
          (set_currentRunItemCount 0
             (set_runFiles (replicate (SizeT.mul (fanout (p s)) 2) [])
                (set_currentRunItems (replicate (runLength (p s)) T_default)
                   s)))).

(** [sort_current_run]: sorts the first [m_currentRunItemCount] slots. *)
Definition sort_current_run (s : merge_sorter) : outcome merge_sorter :=
  let n := m_currentRunItemCount s in
  let a := m_currentRunItems s in
  if decide (n ≤ length a)
  then Done (set_currentRunItems (parallel_sort (take n a) ++ drop n a) s)
  else Fail IndexOutOfRange.

(** The body of the write loop of [empty_current_run]. *)
Fixpoint write_items (items : list T) (files : run_files) (fs : file_stream)
  : run_files * file_stream :=
  match items with
  | [] => (files, fs)
  | x :: rest => let '(files', fs') := fs_write x files fs in
                 write_items rest files' fs'
  end.

(** [empty_current_run] *)
Definition empty_current_run (s : merge_sorter) : outcome merge_sorter :=
  '(files, fs) ← open_run_file_write (p s) (m_runFiles s) 0 (m_finishedRuns s);
  if decide (m_currentRunItemCount s ≤ length (m_currentRunItems s))
  then
    let '(files', _) :=
      write_items (take (m_currentRunItemCount s) (m_currentRunItems s))
                  files fs in
    Done (set_finishedRuns (S (m_finishedRuns s))
            (set_currentRunItemCount 0 (set_runFiles files' s)))
  else Fail IndexOutOfRange.

(** [push] *)
Definition push (item : T) (s : merge_sorter) : outcome merge_sorter :=
  tp_assert (m_parametersSet s) "Parameters not set";;
  s1 ← (if decide (runLength (p s) ≤ m_currentRunItemCount s)
        then s' ← sort_current_run s; empty_current_run s'
        else Done s);
  if decide (m_currentRunItemCount s1 < length (m_currentRunItems s1))
  then Done (set_currentRunItemCount (S (m_currentRunItemCount s1))
               (set_currentRunItems
                  (<[m_currentRunItemCount s1 := item]> (m_currentRunItems s1))
                  s1))
  else Fail IndexOutOfRange.

(** [end] *)
Definition end_ (s : merge_sorter) : outcome merge_sorter :=
  tp_assert (m_parametersSet s) "Parameters not set";;
  s1 ← sort_current_run s;
  if decide (m_finishedRuns s1 = 0
             ∧ m_currentRunItemCount s1 ≤ internalReportThreshold (p s1))
  then Done (set_itemsPulled 0 (set_reportInternal true s1))
  else
    s2 ← empty_current_run (set_reportInternal false s1);
    Done (set_currentRunItems [] s2).

(** The loop of [initialize_merger] and of [initialize_final_merger] that
    opens run [runNumber + i] of [mergeLevel] for each [i] in [indices]. *)
Definition open_runs (params : sort_parameters) (files : run_files)
    (mergeLevel runNumber : nat) (indices : list nat)
  : outcome (list file_stream) :=
  mapM (λ i, open_run_file_read params files mergeLevel (SizeT.add runNumber i))
       indices.

(** [initialize_merger] *)
Definition initialize_merger (mergeLevel runNumber runCount : nat)
    (s : merge_sorter) : outcome merge_sorter :=
  ins ← open_runs (p s) (m_runFiles s) mergeLevel runNumber (seq 0 runCount);
  let runLength :=
    calculate_run_length (runLength (p s)) (fanout (p s)) mergeLevel in
  m ← merger_reset (m_runFiles s) ins runLength (m_merger s);
  Done (set_merger m s).

(** The loop of [merge_runs]: [while (m_merger.can_pull())
    out.write(m_merger.pull())]. *)
Fixpoint merge_runs_loop (fuel : nat) (out : file_stream) (s : merge_sorter)
  : outcome merge_sorter :=
  if merger_can_pull (m_merger s) then
    match fuel with
    | 0 => OutOfFuel
    | S fuel' =>
        '(x, m') ← merger_pull (m_runFiles s) (m_merger s);
        let '(files', out') := fs_write x (m_runFiles s) out in
        merge_runs_loop fuel' out' (set_runFiles files' (set_merger m' s))
    end
  else Done s.

(** [merge_runs] *)
Definition merge_runs (fuel : nat) (mergeLevel runNumber runCount : nat)
    (s : merge_sorter) : outcome (nat * merge_sorter) :=
  s1 ← initialize_merger mergeLevel runNumber runCount s;
  if decide (fanout (p s1) = 0) then Fail DivisionByZero else
  let nextRunNumber := runNumber / fanout (p s1) in
  '(files, out) ← open_run_file_write (p s1) (m_runFiles s1)
                    (S mergeLevel) nextRunNumber;
  s2 ← merge_runs_loop fuel out (set_runFiles files s1);
  Done (nextRunNumber, s2).

(** [initialize_final_merger] *)
Definition initialize_final_merger (fuel : nat) (finalMergeLevel runCount : nat)
    (s : merge_sorter) : outcome merge_sorter :=
  if decide (finalFanout (p s) < runCount) then
    let i := SizeT.sub (finalFanout (p s)) 1 in
    let n := SizeT.sub runCount (SizeT.sub (finalFanout (p s)) 1) in
    '(runNumber, s1) ← merge_runs fuel finalMergeLevel i n s;
    ins ← open_runs (p s1) (m_runFiles s1) finalMergeLevel 0
            (seq 0 (SizeT.sub (finalFanout (p s1)) 1));
    long ← open_run_file_read (p s1) (m_runFiles s1)
             (S finalMergeLevel) runNumber;
    let runLength :=
      calculate_run_length (runLength (p s1)) (fanout (p s1))
                           (S finalMergeLevel) in
    m ← merger_reset (m_runFiles s1) (ins ++ [long]) runLength (m_merger s1);
    Done (set_merger m s1)
  else initialize_merger finalMergeLevel 0 runCount s.

(** The [for] loop of [prepare_pull]: one pass over the runs of
    [mergeLevel], [fanout] runs at a time. *)
Fixpoint prepare_pull_for (fuel budget : nat) (mergeLevel runCount : nat)
    (i newRunCount : nat) (s : merge_sorter) : outcome (nat * merge_sorter) :=
  if decide (i < runCount) then
    match fuel with
    | 0 => OutOfFuel
    | S fuel' =>
        let n := Nat.min (SizeT.sub runCount i) (fanout (p s)) in
        '(_, s1) ← merge_runs budget mergeLevel i n s;
        prepare_pull_for fuel' budget mergeLevel runCount
          (SizeT.add i (fanout (p s1))) (S newRunCount) s1
    end
  else Done (newRunCount, s).

(** The [while] loop of [prepare_pull]. *)
Fixpoint prepare_pull_while (fuel budget : nat) (mergeLevel runCount : nat)
    (s : merge_sorter) : outcome (nat * nat * merge_sorter) :=
  if decide (fanout (p s) < runCount) then
    match fuel with
    | 0 => OutOfFuel
    | S fuel' =>
        '(newRunCount, s1) ←
          prepare_pull_for budget budget mergeLevel runCount 0 0 s;
        prepare_pull_while fuel' budget (S mergeLevel) newRunCount s1
    end
  else Done (mergeLevel, runCount, s).

(** [prepare_pull] *)
Definition prepare_pull (fuel : nat) (s : merge_sorter) : outcome merge_sorter :=
  '(mergeLevel, runCount, s1) ←
    prepare_pull_while fuel fuel 0 (m_finishedRuns s) s;
  s2 ← initialize_final_merger fuel mergeLevel runCount s1;
  Done (set_pull_prepared true s2).

(** [calc] *)
Definition calc (fuel : nat) (s : merge_sorter) : outcome merge_sorter :=
  tp_assert (m_parametersSet s) "Parameters not set";;
  if negb (m_reportInternal s) then prepare_pull fuel s
  else Done (set_pull_prepared true s).

(** [can_pull] *)
Definition can_pull (s : merge_sorter) : outcome bool :=
  tp_assert (pull_prepared s) "Pull not prepared";;
  if m_reportInternal s
  then Done (bool_decide (m_itemsPulled s < m_currentRunItemCount s))
  else Done (merger_can_pull (m_merger s)).

(** [pull] *)
Definition pull (s : merge_sorter) : outcome (T * merge_sorter) :=
  tp_assert (pull_prepared s) "Pull not prepared";;
  if m_reportInternal s
     && bool_decide (m_itemsPulled s < m_currentRunItemCount s)
  then
    match m_currentRunItems s !! m_itemsPulled s with
    | None => Fail IndexOutOfRange
    | Some el =>
        let s1 := set_itemsPulled (S (m_itemsPulled s)) s in
        more ← can_pull s1;
        Done (el, if more : bool then s1 else set_currentRunItems [] s1)
    end
  else
    '(el, m') ← merger_pull (m_runFiles s) (m_merger s);
    Done (el, set_merger m' s).

(** ** Parameter calculation *)

(** [sizeof(T)], [sizeof(temp_file)], [file_stream<T>::memory_usage()] and
    [merger<T, pred_t>::memory_usage(fanout)] come from headers that are not
    among the sources. *)
Variable sizeof_T : nat.
Variable sizeof_temp_file : nat.
Variable file_stream_memory_usage : nat.
Variable merger_memory_usage : nat → nat.

(** [fanout_memory_usage] *)
Definition fanout_memory_usage (fanout : nat) : nat :=
  SizeT.add (SizeT.add (merger_memory_usage fanout) file_stream_memory_usage)
            (SizeT.mul 2 sizeof_temp_file).

(** The binary search of [calculate_fanout].  [fanout_lo] and [fanout_hi]
    are locals that stay between 2 and 251, so [fanout_hi - 1] and the
    midpoint are exact. *)
Equations? calculate_fanout_loop (availableMemory fanout_lo fanout_hi : nat)
  : nat by wf (fanout_hi - fanout_lo) lt :=
  calculate_fanout_loop availableMemory fanout_lo fanout_hi
    with decide (fanout_lo < fanout_hi - 1) => {
    | left _ =>
        let mid := fanout_lo + (fanout_hi - fanout_lo) / 2 in
        if decide (fanout_memory_usage mid < availableMemory)
        then calculate_fanout_loop availableMemory mid fanout_hi
        else calculate_fanout_loop availableMemory fanout_lo mid
    | right _ => fanout_lo }.
Proof.
  all: subst mid;
    change ((Nat.divmod (fanout_hi - fanout_lo) 1 0 1).1)
      with ((fanout_hi - fanout_lo) / 2);
    pose proof (Nat.div_mod_eq (fanout_hi - fanout_lo) 2);
    pose proof (Nat.mod_upper_bound (fanout_hi - fanout_lo) 2); lia.
Qed.

(** [calculate_fanout] *)
Definition calculate_fanout (availableMemory : nat) : nat :=
  calculate_fanout_loop availableMemory 2 251.

(** [calculate_parameters].  [sizeof(T)] is at least one in the source, so
    the two divisions are defined. *)
Definition calculate_parameters (m2 m3 m4 : nat) (s : merge_sorter)
  : merge_sorter :=
  let fanout := calculate_fanout m3 in
  let m3 := if decide (m3 < fanout_memory_usage fanout)
            then fanout_memory_usage fanout else m3 in
  let finalFanout := calculate_fanout m4 in
  let finalFanout := if decide (fanout < finalFanout)
                     then fanout else finalFanout in
  let m4 := if decide (m4 < fanout_memory_usage finalFanout)
            then fanout_memory_usage finalFanout else m4 in
  let streamMemory := file_stream_memory_usage in
  let tempFileMemory := SizeT.mul (SizeT.mul 2 fanout) sizeof_temp_file in
  let min_m2 := SizeT.add (SizeT.add sizeof_T streamMemory) tempFileMemory in
  let m2 := if decide (m2 < min_m2) then min_m2 else m2 in
  let runLength :=
    SizeT.sub (SizeT.sub m2 streamMemory) tempFileMemory / sizeof_T in
  let threshold :=
    SizeT.sub (Nat.min m2 (Nat.min m3 m4)) tempFileMemory / sizeof_T in
  let threshold := if decide (runLength < threshold)
                   then runLength else threshold in
  set_parametersSet true
    (set_p {| memoryPhase2 := m2; memoryPhase3 := m3; memoryPhase4 := m4;
              runLength := runLength;
              internalReportThreshold := threshold;
              fanout := fanout;
              finalFanout := finalFanout |} s).

(** [set_available_memory(m2, m3, m4)] and [set_available_memory(m)] *)
Definition set_available_memory3 (m2 m3 m4 : nat) (s : merge_sorter)
  : merge_sorter := calculate_parameters m2 m3 m4 s.

Definition set_available_memory (m : nat) (s : merge_sorter) : merge_sorter :=
  calculate_parameters m m m s.

(** ** Driving the sorter *)

(** The caller's loop [while (can_pull()) out.push_back(pull())]. *)
Fixpoint pull_all (fuel : nat) (s : merge_sorter)
  : outcome (list T * merge_sorter) :=
  more ← can_pull s;
  if more : bool then
    match fuel with
    | 0 => OutOfFuel
    | S fuel' =>
        '(x, s1) ← pull s;
        '(xs, s2) ← pull_all fuel' s1;
        Done (x :: xs, s2)
    end
  else Done ([], s).

(** The caller's loop [for (x : items) push(x)]. *)
Fixpoint push_all (items : list T) (s : merge_sorter) : outcome merge_sorter :=
  match items with
  | [] => Done s
  | x :: rest => s1 ← push x s; push_all rest s1
  end.

(** [begin(); push(x)...; end(); calc(); while (can_pull()) pull()] on a
    sorter whose parameters have been set. *)
Definition sort_all (fuel : nat) (items : list T) (s : merge_sorter)
  : outcome (list T * merge_sorter) :=
  s1 ← begin s;
  s2 ← push_all items s1;
  s3 ← end_ s2;
  s4 ← calc fuel s3;
  pull_all fuel s4.

End MergeSorter.


(** * Parallel execution of pipe segments ([tpie/pipelining/parallel.h])

    Each function below is the code one thread runs.  The state shared under
    [parallel_state_base::mutex] is threaded explicitly; the other threads
    are an environment [env] that may rewrite the shared state whenever this
    thread does not hold the mutex, that is while it acquires the lock and
    while it waits on a condition variable.  Calls on the synchronisation
    objects and on the consumer are logged as events, in program order. *)

Module Parallel.

(** [parallel_worker_state] *)
Inductive parallel_worker_state : Type := IDLE | PROCESSING | OUTPUTTING.

Global Instance parallel_worker_state_eq_dec : EqDecision parallel_worker_state.
Proof. solve_decision. Defined.

(** [parallel_options] *)
Record parallel_options : Type := {
  numJobs : nat;
  bufSize : nat
}.

Inductive condition : Type :=
| producerCond
| workerCond (idx : nat).

Section Items.

Context {T1 T2 : Type}.

(** [parallel_input_buffer] and [parallel_output_buffer] *)
Record parallel_input_buffer : Type := {
  m_inputSize : nat;
  m_inputBuffer : list T1
}.

Record parallel_output_buffer : Type := {
  m_outputSize : nat;
  m_outputBuffer : list T2
}.

Definition get_input (b : parallel_input_buffer) : list T1 :=
  take (m_inputSize b) (m_inputBuffer b).

Definition get_output (b : parallel_output_buffer) : list T2 :=
  take (m_outputSize b) (m_outputBuffer b).

(** [parallel_state_base] and [parallel_state]: what the mutex guards.
    A worker's buffers appear here once the worker has registered them. *)
Record parallel_state : Type := {
  done : bool;
  runningWorkers : nat;
  m_states : list parallel_worker_state;
  m_inputBuffers : list parallel_input_buffer;
  m_outputBuffers : list parallel_output_buffer
}.

Inductive event : Type :=
| EvLock
| EvSetState (idx : nat) (state : parallel_worker_state)
| EvNotify (c : condition)
| EvWait (c : condition)
| EvSetDone
| EvConsume (items : list T2).

(** What a thread sees: the shared state, the number of times it has
    released the mutex so far, and the log of its calls. *)
Record world : Type := {
  shared : parallel_state;
  clock : nat;
  events : list event
}.

Definition M (A : Type) : Type := world → outcome A * world.

Definition ret {A} (a : A) : M A := λ w, (Done a, w).

Definition bindM {A B} (m : M A) (k : A → M B) : M B := λ w,
  match m w with
  | (Done a, w') => k a w'
  | (Fail e, w') => (Fail e, w')
  | (OutOfFuel, w') => (OutOfFuel, w')
  end.

Definition throw {A} (e : failure) : M A := λ w, (Fail e, w).

Definition out_of_fuel {A} : M A := λ w, (OutOfFuel, w).

Definition log (e : event) : M unit := λ w,
  (Done tt, {| shared := shared w; clock := clock w;
               events := events w ++ [e] |}).

Definition read {A} (f : parallel_state → A) : M A := λ w, (Done (f (shared w)), w).

Definition write (f : parallel_state → parallel_state) : M unit := λ w,
  (Done tt, {| shared := f (shared w); clock := clock w;
               events := events w |}).

(** The other threads. *)
Variable env : nat → parallel_state → parallel_state.

(** [parallel_state_base::opts], constant once the state is built. *)
Variable opts : parallel_options.

Definition interfere : M unit := λ w,
  (Done tt, {| shared := env (clock w) (shared w); clock := S (clock w);
               events := events w |}).

(** [lock_t lock(st.mutex)] *)
Definition lock : M unit := bindM interfere (λ _, log EvLock).

(** [cond.wait(lock)] *)
Definition wait (c : condition) : M unit :=
  bindM (log (EvWait c)) (λ _, interfere).

(** [cond.notify_one()] *)
Definition notify_one (c : condition) : M unit := log (EvNotify c).

Definition with_states (f : list parallel_worker_state → list parallel_worker_state)
    (st : parallel_state) : parallel_state :=
  {| done := done st; runningWorkers := runningWorkers st;
     m_states := f (m_states st);
     m_inputBuffers := m_inputBuffers st;
     m_outputBuffers := m_outputBuffers st |}.

Definition with_done (v : bool) (st : parallel_state) : parallel_state :=
  {| done := v; runningWorkers := runningWorkers st;
     m_states := m_states st;
     m_inputBuffers := m_inputBuffers st;
     m_outputBuffers := m_outputBuffers st |}.

Definition with_inputBuffers
    (f : list parallel_input_buffer → list parallel_input_buffer)
    (st : parallel_state) : parallel_state :=
  {| done := done st; runningWorkers := runningWorkers st;
     m_states := m_states st;
     m_inputBuffers := f (m_inputBuffers st);
     m_outputBuffers := m_outputBuffers st |}.

Definition with_outputBuffers
    (f : list parallel_output_buffer → list parallel_output_buffer)
    (st : parallel_state) : parallel_state :=
  {| done := done st; runningWorkers := runningWorkers st;
     m_states := m_states st;
     m_inputBuffers := m_inputBuffers st;
     m_outputBuffers := f (m_outputBuffers st) |}.

(** [parallel_state_base::get_state]; an index past the vector is
    undefined in the source. *)
Definition get_state (idx : nat) : M parallel_worker_state := λ w,
  match m_states (shared w) !! idx with
  | Some s => (Done s, w)
  | None => (Fail IndexOutOfRange, w)
  end.

(** [parallel_state_base::set_state] *)
Definition set_state (idx : nat) (s : parallel_worker_state) : M unit :=
  bindM (write (with_states (λ l, <[idx := s]> l)))
        (λ _, log (EvSetState idx s)).

(** ** [parallel_after] *)

(** [m_buffer] points to the buffer that [worker_initialize] registers in
    [st.m_outputBuffers[parId]]: one object, written by the worker alone and
    read by the producer through the state.  The record holds the buffer
    as the worker has written it, and every write of the worker goes
    through to the entry of the shared state. *)
Record parallel_after : Type := {
  parId : nat;
  m_buffer : parallel_output_buffer
}.

(** A write of the worker to [*m_buffer], seen through
    [st.m_outputBuffers[parId]]. *)
Definition write_output_buffer (a : parallel_after) : M unit :=
  write (with_outputBuffers (λ l, <[parId a := m_buffer a]> l)).

(** The value-initialised item that [array<T2>] is filled with. *)
Variable T2_default : T2.

(** [parallel_after::worker_initialize]; an index past the array is
    undefined in the source. *)
Definition after_worker_initialize (a : parallel_after) : M parallel_after :=
  let a' := {| parId := parId a;
               m_buffer := {| m_outputSize := 0;
                              m_outputBuffer :=
                                replicate (bufSize opts) T2_default |} |} in
  bindM (read (λ st, length (m_outputBuffers st))) (λ n,
    if decide (parId a < n)
    then bindM (write_output_buffer a') (λ _, ret a')
    else throw IndexOutOfRange).

(** [parallel_after::is_done] *)
Definition is_done (a : parallel_after) : M bool :=
  bindM (get_state (parId a)) (λ s,
    match s with
    | IDLE => ret true
    | PROCESSING => ret true
    | OUTPUTTING => ret false
    end).

(** The loop of [flush_buffer_impl]; [true] when it ran to its end,
    [false] when it was left through [if (st.done) return]. *)
Fixpoint flush_wait (fuel : nat) (a : parallel_after) : M bool :=
  bindM (is_done a) (λ finished,
    if finished : bool then ret true else
    bindM (read done) (λ d,
      if d : bool then ret false else
      match fuel with
      | 0 => out_of_fuel
      | S fuel' =>
          bindM (wait (workerCond (parId a))) (λ _, flush_wait fuel' a)
      end)).

(** [parallel_after::flush_buffer_impl] *)
Definition flush_buffer_impl (fuel : nat) (a : parallel_after)
  : M parallel_after :=
  if decide (m_outputSize (m_buffer a) = 0) then ret a else
  bindM lock (λ _,
  bindM (set_state (parId a) OUTPUTTING) (λ _,
  bindM (notify_one producerCond) (λ _,
  bindM (flush_wait fuel a) (λ finished,
    if finished : bool
    then
      let a' := {| parId := parId a;
                   m_buffer := {| m_outputSize := 0;
                                  m_outputBuffer :=
                                    m_outputBuffer (m_buffer a) |} |} in
      bindM (write_output_buffer a') (λ _, ret a')
    else ret a)))).

(** [parallel_after::push] *)
Definition after_push (fuel : nat) (item : T2) (a : parallel_after)
  : M parallel_after :=
  let b := m_buffer a in
  if decide (length (m_outputBuffer b) ≤ m_outputSize b)
  then throw (RuntimeError "Buffer overrun in parallel_after")
  else
    let a' := {| parId := parId a;
                 m_buffer :=
                   {| m_outputSize := S (m_outputSize b);
                      m_outputBuffer :=
                        <[m_outputSize b := item]> (m_outputBuffer b) |} |} in
    bindM (write_output_buffer a') (λ _,
    if decide (length (m_outputBuffer (m_buffer a'))
               ≤ m_outputSize (m_buffer a'))
    then flush_buffer_impl fuel a'
    else ret a').

(** ** [parallel_producer] *)

Record parallel_producer : Type := {
  inputBuffer : list T1;
  written : nat;
  readyIdx : nat;
  m_remainingItems : nat
}.

Definition with_written (v : nat) (pr : parallel_producer) : parallel_producer :=
  {| inputBuffer := inputBuffer pr; written := v; readyIdx := readyIdx pr;
     m_remainingItems := m_remainingItems pr |}.

Definition with_readyIdx (v : nat) (pr : parallel_producer) : parallel_producer :=
  {| inputBuffer := inputBuffer pr; written := written pr; readyIdx := v;
     m_remainingItems := m_remainingItems pr |}.

(** The scans [has_ready_pipe], [has_outputting_pipe] and
    [has_processing_pipe] over the first [numJobs] worker states; the
    first two answer the index they store in [readyIdx]. *)
Definition find_state (P : parallel_worker_state → bool) : M (option nat) :=
  read (λ st, fst <$> list_find (λ s, P s = true)
                        (take (numJobs opts) (m_states st))).

Definition has_ready_pipe : M (option nat) :=
  find_state (λ s, match s with PROCESSING => false | _ => true end).

Definition has_outputting_pipe : M (option nat) :=
  find_state (λ s, match s with OUTPUTTING => true | _ => false end).

Definition has_processing_pipe : M bool :=
  bindM (find_state (λ s, match s with PROCESSING => true | _ => false end))
        (λ r, ret (bool_decide (is_Some r))).

(** [parallel_input_buffer::set_input] on the buffer of worker [idx]. *)
Definition set_input (idx : nat) (input : list T1) : M unit := λ w,
  match m_inputBuffers (shared w) !! idx with
  | None => (Fail IndexOutOfRange, w)
  | Some b =>
      if decide (length (m_inputBuffer b) < length input)
      then (Fail (RuntimeError
                    (if decide (length (m_inputBuffer b) = 0)
                     then "Input buffer not initialized"
                     else "Input too large")), w)
      else
        write (with_inputBuffers (λ l,
                 <[idx := {| m_inputSize := length input;
                             m_inputBuffer :=
                               input ++ drop (length input)
                                          (m_inputBuffer b) |}]> l)) w
  end.

(** [cons->consume(st->m_outputBuffers[idx]->get_output())] *)
Definition consume_output (idx : nat) : M unit := λ w,
  match m_outputBuffers (shared w) !! idx with
  | None => (Fail IndexOutOfRange, w)
  | Some b => log (EvConsume (get_output b)) w
  end.

(** The value-initialised item that [array<T1>::resize] fills with. *)
Variable T1_default : T1.

(** [parallel_producer::begin]; [items] is the forwarded datum, absent
    when [can_fetch("items")] is false. *)
Definition producer_begin (items : option nat) (pr : parallel_producer)
  : M parallel_producer :=
  match items with
  | None =>
      throw (RuntimeError
               "Parallel processing requires 'items' to be known")
  | Some n =>
      ret {| inputBuffer := replicate (bufSize opts) T1_default;
             written := written pr; readyIdx := readyIdx pr;
             m_remainingItems := n |}
  end.

(** [while (!has_ready_pipe()) st->producerCond.wait(lock)] *)
Fixpoint wait_ready (fuel : nat) : M nat :=
  bindM has_ready_pipe (λ r,
    match r with
    | Some idx => ret idx
    | None =>
        match fuel with
        | 0 => out_of_fuel
        | S fuel' => bindM (wait producerCond) (λ _, wait_ready fuel')
        end
    end).

(** The loop [while (written > 0)] of [push]: hand the staged items to
    an idle worker, draining finished workers on the way. *)
Fixpoint hand_off (fuel : nat) (pr : parallel_producer) : M parallel_producer :=
  if decide (written pr = 0) then ret pr else
  match fuel with
  | 0 => out_of_fuel
  | S fuel' =>
      bindM (wait_ready fuel') (λ idx,
      let pr := with_readyIdx idx pr in
      bindM (get_state idx) (λ s,
        match s with
        | IDLE =>
            bindM (set_input idx (take (written pr) (inputBuffer pr))) (λ _,
            bindM (set_state idx PROCESSING) (λ _,
            bindM (notify_one (workerCond idx)) (λ _,
            hand_off fuel' (with_written 0 pr))))
        | PROCESSING =>
            throw (RuntimeError
                     "State 'processing' not expected at this point")
        | OUTPUTTING =>
            bindM (consume_output idx) (λ _,
            bindM (set_state idx IDLE) (λ _,
            bindM (notify_one (workerCond idx)) (λ _,
            hand_off fuel' pr)))
        end))
  end.

(** The inner loop of the drain: [Some idx] when a worker is outputting,
    [None] when no worker is outputting or processing any more. *)
Fixpoint wait_outputting (fuel : nat) : M (option nat) :=
  bindM has_outputting_pipe (λ r,
    match r with
    | Some idx => ret (Some idx)
    | None =>
        bindM has_processing_pipe (λ busy,
          if busy : bool then
            match fuel with
            | 0 => out_of_fuel
            | S fuel' =>
                bindM (wait producerCond) (λ _, wait_outputting fuel')
            end
          else ret None)
    end).

(** The loop [while (!done)] of [push]. *)
Fixpoint drain (fuel : nat) (pr : parallel_producer) : M parallel_producer :=
  match fuel with
  | 0 => out_of_fuel
  | S fuel' =>
      bindM (wait_outputting fuel') (λ r,
        match r with
        | None => ret pr
        | Some idx =>
            bindM (consume_output idx) (λ _,
            bindM (set_state idx IDLE) (λ _,
            drain fuel' (with_readyIdx idx pr)))
        end)
  end.

(** [for (i = 0; i < numJobs; ++i) st->workerCond[i].notify_one()] *)
Fixpoint notify_workers (indices : list nat) : M unit :=
  match indices with
  | [] => ret tt
  | i :: rest => bindM (notify_one (workerCond i)) (λ _, notify_workers rest)
  end.

(** [while (st->runningWorkers > 0) st->producerCond.wait(lock)] *)
Fixpoint wait_workers (fuel : nat) : M unit :=
  bindM (read runningWorkers) (λ n,
    if decide (n = 0) then ret tt else
    match fuel with
    | 0 => out_of_fuel
    | S fuel' => bindM (wait producerCond) (λ _, wait_workers fuel')
    end).

(** The tail of [push] that runs once all announced items are in. *)
Definition shut_down (fuel : nat) (pr : parallel_producer) : M parallel_producer :=
  bindM (drain fuel pr) (λ pr,
  bindM (write (with_done true)) (λ _,
  bindM (log EvSetDone) (λ _,
  bindM (notify_workers (seq 0 (numJobs opts))) (λ _,
  bindM (wait_workers fuel) (λ _, ret pr))))).

(** [parallel_producer::push] *)
Definition producer_push (fuel : nat) (item : T1) (pr : parallel_producer)
  : M parallel_producer :=
  if decide (m_remainingItems pr = 0)
  then throw (RuntimeError "Got more items than expected") else
  if decide (length (inputBuffer pr) ≤ written pr)
  then throw IndexOutOfRange else
  let pr := {| inputBuffer := <[written pr := item]> (inputBuffer pr);
               written := S (written pr);
               readyIdx := readyIdx pr;
               m_remainingItems := m_remainingItems pr - 1 |} in
  if decide (written pr < bufSize opts ∧ 0 < m_remainingItems pr)
  then ret pr else
  bindM lock (λ _,
  bindM (hand_off fuel pr) (λ pr,
    if decide (0 < m_remainingItems pr) then ret pr
    else shut_down fuel pr)).

(** [parallel_producer::end] *)
Definition producer_end (pr : parallel_producer) : M parallel_producer :=
  ret {| inputBuffer := []; written := written pr;
         readyIdx := readyIdx pr;
         m_remainingItems := m_remainingItems pr |}.

End Items.

End Parallel.


(** * Specification vocabulary *)

(** The specification's reading of the fan-out: [f] is the largest fan-out
    in [2, 251) whose merge memory usage is at most the budget [m]. *)
Definition largest_fitting (usage : nat → nat) (m f : nat) : Prop :=
  2 ≤ f < 251 ∧ usage f ≤ m ∧ ∀ g, 2 ≤ g < 251 → usage g ≤ m → g ≤ f.

(** A sorter that has only been constructed, with the members the
    constructor leaves indeterminate set to arbitrary values. *)
Definition fresh_sorter {T} : merge_sorter (T:=T) :=
  merge_sorter_new
    {| memoryPhase2 := 0; memoryPhase3 := 0; memoryPhase4 := 0;
       runLength := 0; internalReportThreshold := 0;
       fanout := 0; finalFanout := 0 |}
    0 0 0 false.

(** The states of a sorter before its first [calc()]: the sorter has been
    constructed and then used through [set_parameters],
    [set_available_memory], [begin], [push] and [end] only, in any
    order. *)
Inductive before_calc {T} (T_default : T) (parallel_sort : list T → list T)
  : merge_sorter (T:=T) → Prop :=
| before_calc_new params finishedRuns currentRunItemCount itemsPulled
    reportInternal :
    before_calc T_default parallel_sort
      (merge_sorter_new params finishedRuns currentRunItemCount itemsPulled
         reportInternal)
| before_calc_set_parameters runLength fanout s :
    before_calc T_default parallel_sort s →
    before_calc T_default parallel_sort (set_parameters runLength fanout s)
| before_calc_set_available_memory sizeof_T sizeof_temp_file
    file_stream_memory_usage merger_memory_usage m2 m3 m4 s :
    before_calc T_default parallel_sort s →
    before_calc T_default parallel_sort
      (calculate_parameters sizeof_T sizeof_temp_file
         file_stream_memory_usage merger_memory_usage m2 m3 m4 s)
| before_calc_begin s s' :
    before_calc T_default parallel_sort s →
    begin T_default s = Done s' →
    before_calc T_default parallel_sort s'
| before_calc_push item s s' :
    before_calc T_default parallel_sort s →
    push parallel_sort item s = Done s' →
    before_calc T_default parallel_sort s'
| before_calc_end s s' :
    before_calc T_default parallel_sort s →
    end_ parallel_sort s = Done s' →
    before_calc T_default parallel_sort s'.

(** [item_le pred a b]: the comparator does not put [b] before [a]. *)
Definition item_le {T} (pred : T → T → bool) (a b : T) : Prop := pred b a = false.

(** The temp files after [empty_current_run] has written the first
    [m_currentRunItemCount] buffered items as run number [m_finishedRuns] of
    level 0. *)
Definition spilled_files {T} (s : merge_sorter (T:=T)) : list (list T) :=
  let r := m_finishedRuns s in
  let idx := (0 mod 2) * fanout (p s) + r mod fanout (p s) in
  let base := if decide (r < fanout (p s)) then []
              else m_runFiles s !!! idx in
  <[idx := base ++ take (m_currentRunItemCount s) (m_currentRunItems s)]>
    (m_runFiles s).

(** A concrete instance used in examples: natural numbers under [<], sorted
    by stdpp's merge sort. *)
Definition nat_sort : list nat → list nat := merge_sort Nat.le.

(** The sorter of the examples: run length 2 and fan-out 2 set by hand. *)
Definition example_sorter : merge_sorter (T:=nat) :=
  set_parameters 2 2 fresh_sorter.

(** The input of the examples, and the sorter after [begin()], its seven
    pushes and [end()]: four runs of level 0 in two temp files. *)
Definition example_input : list nat := [5; 3; 8; 1; 9; 2; 7].

(** [begin(); push(x)...; end()] *)
Definition form_runs {T} (T_default : T) (parallel_sort : list T → list T)
    (items : list T) (s : merge_sorter) : outcome merge_sorter :=
  s1 ← begin T_default s;
  s2 ← push_all parallel_sort items s1;
  end_ parallel_sort s2.

Definition example_runs : merge_sorter :=
  match form_runs 0 nat_sort example_input example_sorter with
  | Done s => s
  | _ => example_sorter
  end.

(** ** Vocabulary for the parallel core *)

(** An instance of the parallel core: one worker whose output buffer holds
    two items, and a producer thread that consumes the output and returns
    the worker to [IDLE] whenever the worker waits. *)
Definition example_after : Parallel.parallel_after (T2:=nat) :=
  {| Parallel.parId := 0;
     Parallel.m_buffer := {| Parallel.m_outputSize := 2;
                             Parallel.m_outputBuffer := [4; 6] |} |}.

Definition example_world : Parallel.world (T1:=nat) (T2:=nat) :=
  {| Parallel.shared :=
       {| Parallel.done := false;
          Parallel.runningWorkers := 1;
          Parallel.m_states := [Parallel.PROCESSING];
          Parallel.m_inputBuffers :=
            [{| Parallel.m_inputSize := 2; Parallel.m_inputBuffer := [2; 3] |}];
          Parallel.m_outputBuffers :=
            [{| Parallel.m_outputSize := 0;
                Parallel.m_outputBuffer := [0; 0] |}] |};
     Parallel.clock := 0;
     Parallel.events := [] |}.

Definition example_env (_ : nat)
    (st : Parallel.parallel_state (T1:=nat) (T2:=nat))
  : Parallel.parallel_state :=
  Parallel.with_states (λ l, <[0 := Parallel.IDLE]> l) st.

(** The shared state after the other threads have run [k] more times,
    the first time at [t]: one step for each time the thread takes the
    mutex or waits. *)
Fixpoint env_steps {T1 T2}
    (env : nat → @Parallel.parallel_state T1 T2 → @Parallel.parallel_state T1 T2)
    (t k : nat) (st : @Parallel.parallel_state T1 T2)
  : @Parallel.parallel_state T1 T2 :=
  match k with
  | 0 => st
  | S k' => env_steps env (S t) k' (env t st)
  end.

(** One worker as the producer sees it: it turns [PROCESSING] into
    [OUTPUTTING] when it has worked its input off, and leaves once [done]
    is set. *)
Definition example_worker_env (_ : nat)
    (st : Parallel.parallel_state (T1:=nat) (T2:=nat))
  : Parallel.parallel_state :=
  if Parallel.done st then
    {| Parallel.done := true; Parallel.runningWorkers := 0;
       Parallel.m_states := Parallel.m_states st;
       Parallel.m_inputBuffers := Parallel.m_inputBuffers st;
       Parallel.m_outputBuffers := Parallel.m_outputBuffers st |}
  else
    match Parallel.m_states st !! 0 with
    | Some Parallel.PROCESSING =>
        Parallel.with_states (λ l, <[0 := Parallel.OUTPUTTING]> l) st
    | _ => st
    end.

(** [w'] extends the log of [w] by calls among which there is no
    [st->done = true]. *)
Definition extends_quietly {T1 T2} (w w' : @Parallel.world T1 T2) : Prop :=
  ∃ evs, Parallel.events w' = Parallel.events w ++ evs
         ∧ Parallel.EvSetDone ∉ evs.

(** A computation that never sets [done], whatever its outcome. *)
Definition quiet {T1 T2 A} (m : @Parallel.M T1 T2 A) : Prop :=
  ∀ w r w', m w = (r, w') → extends_quietly w w'.

(** ** Vocabulary for the merge sorter *)

Section SorterVocabulary.

Context {T : Type}.
Implicit Types (files : list (list T)) (fs : file_stream).

(** The items a reader positioned at [fs] gets when it takes at most
    [limit] items. *)
Definition stream_run files (limit : nat) fs : list T :=
  take limit (drop (fs_offset fs) (files !!! fs_file fs)).

(** The items the merger may still take from a stream of which it has
    already taken [k]. *)
Definition stream_rest files (limit : nat) fs (k : nat) : list T :=
  take (limit - k) (drop (fs_offset fs) (files !!! fs_file fs)).

Definition merger_rests files (m : merger (T:=T)) : list (list T) :=
  zip_with (stream_rest files (m_runLength m)) (m_in m) (itemsRead m).

(** Everything the merger has yet to deliver. *)
Definition merger_pending files (m : merger (T:=T)) : list T :=
  (pq m).*1 ++ concat (merger_rests files m).

(** The merger's invariant: one heap entry per unfinished run, which is the
    head of what is left of that (sorted) run. *)
Definition merger_inv (pred : T → T → bool) files (m : merger (T:=T)) : Prop :=
  length (m_in m) = length (itemsRead m)
  ∧ NoDup (pq m).*2
  ∧ (∀ x i, (x, i) ∈ pq m →
       ∃ rest, merger_rests files m !! i = Some rest
               ∧ StronglySorted (item_le pred) (x :: rest))
  ∧ (∀ i rest, merger_rests files m !! i = Some rest →
       i ∉ (pq m).*2 → rest = []).

(** The temp file of run [r] of level [L], and the run's offset in it. *)
Definition run_file (params : sort_parameters) (L r : nat) : nat :=
  (L mod 2) * fanout params + r mod fanout params.

Definition level_run_length (params : sort_parameters) (L : nat) : nat :=
  runLength params * fanout params ^ L.

Definition run_offset (params : sort_parameters) (L r : nat) : nat :=
  level_run_length params L * (r / fanout params).

(** Run [r] of level [L] is stored in [files]: its temp file holds it from
    its offset on, followed by [post]. *)
Definition run_stored params files (L r : nat) (run post : list T) : Prop :=
  ∃ pre, files !! run_file params L r = Some (pre ++ run ++ post)
         ∧ length pre = run_offset params L r.

(** The runs [rs] of level [L] are all stored, and nothing follows the last
    run of each temp file. *)
Definition runs_stored params files (L : nat) (rs : list (list T)) : Prop :=
  ∀ r run, rs !! r = Some run →
    ∃ post, run_stored params files L r run post
            ∧ (length rs ≤ r + fanout params → post = []).

(** Every run is non-empty and at most [rl] long, and all but the last one
    are exactly [rl] long. *)
Definition runs_full (rl : nat) (rs : list (list T)) : Prop :=
  ∀ r run, rs !! r = Some run →
    0 < length run ≤ rl ∧ (S r < length rs → length run = rl).

(** One merge pass with fan-out [f]: run [i] of the next level holds the
    items of the runs [i * f], ..., [i * f + min (length rs - i * f) f - 1]
    of [rs]. *)
Definition merged_groups (f : nat) (rs rs' : list (list T)) : Prop :=
  ∀ i run, rs' !! i = Some run →
    run ≡ₚ concat (take (Nat.min (length rs - i * f) f) (drop (i * f) rs)).

End SorterVocabulary.

(** A stream after one [read]. *)
Definition advance (fs : file_stream) : file_stream :=
  {| fs_file := fs_file fs; fs_offset := S (fs_offset fs) |}.

Section SorterInvariants.

Context {T : Type}.
Variable pred : T → T → bool.
Implicit Types (s : merge_sorter (T:=T)) (rs : list (list T)).

(** Parameters a sort of [n] items can run with: a run holds at least one
    item, a merge joins at least two runs, and the run lengths and offsets
    that occur fit a 64-bit word. *)
Definition sortable (params : sort_parameters) (n : nat) : Prop :=
  1 ≤ runLength params
  ∧ 2 ≤ fanout params
  ∧ 1 ≤ finalFanout params
  ∧ SizeT.fits (fanout params * (runLength params + n + 2)).

(** [s'] differs from [s] in its temp files and its merger only. *)
Definition same_sorter s s' : Prop :=
  ∃ files m, s' = set_runFiles files (set_merger m s).

(** Phase 2 after some pushes: [rs] are the runs spilled so far, all full
    and sorted, and [buf] is the content of the run buffer. *)
Definition forming (params : sort_parameters) s rs (buf : list T) : Prop :=
  p s = params
  ∧ m_parametersSet s = true
  ∧ pq (m_merger s) = []
  ∧ length (m_runFiles s) = 2 * fanout params
  ∧ length (m_currentRunItems s) = runLength params
  ∧ m_currentRunItemCount s = length buf
  ∧ length buf ≤ runLength params
  ∧ take (length buf) (m_currentRunItems s) = buf
  ∧ m_finishedRuns s = length rs
  ∧ runs_stored params (m_runFiles s) 0 rs
  ∧ Forall (λ run, length run = runLength params
                   ∧ StronglySorted (item_le pred) run) rs
  ∧ (rs ≠ [] → buf ≠ []).

(** Between merge passes: [rs] are the sorted runs of level [L], stored in
    the temp files, and the merger is idle. *)
Definition level_inv (params : sort_parameters) s (L : nat) rs : Prop :=
  p s = params
  ∧ pq (m_merger s) = []
  ∧ length (m_runFiles s) = 2 * fanout params
  ∧ runs_stored params (m_runFiles s) L rs
  ∧ runs_full (level_run_length params L) rs
  ∧ Forall (StronglySorted (item_le pred)) rs.

End SorterInvariants.

(** The reader [open_run_file_read] returns for run [r] of level [L]. *)
Definition run_reader (params : sort_parameters) (L r : nat) : file_stream :=
  {| fs_file := run_file params L r; fs_offset := run_offset params L r |}.


(** ** Run counts *)

(** The number of runs that [R] runs leave after [k] passes which each merge
    up to [f] runs into one. *)
Definition ceil_div (a b : nat) : nat := (a + b - 1) / b.

Definition runs_after (f R k : nat) : nat := Nat.iter k (λ c, ceil_div c f) R.

(** A sorter set to run length 1 and fan-out 1, after [begin()], three
    pushes and [end()]: three runs of one item each. *)
Definition example_unary_runs : merge_sorter :=
  match form_runs 0 nat_sort [5; 3; 8] (set_parameters 1 1 fresh_sorter) with
  | Done s => s
  | _ => fresh_sorter
  end.

From stdpp Require Import gmap.

(** * The block collection cache ([tpie/blocks/block_collection_cache.h])

    A write-back cache of blocks in front of a [block_collection], evicting
    the least recently used block.  [tpie/blocks/block.h] and
    [tpie/blocks/block_collection.h] are not among the sources: a block is
    an item of an arbitrary type, and the four operations of the collection
    that the cache calls are parameters. *)

Module Blocks.

(** [block_handle]: the two fields the cache reads. *)
Record block_handle : Type := {
  position : nat;
  size : nat
}.

Global Instance block_handle_eq_dec : EqDecision block_handle.
Proof. solve_decision. Defined.

(** [--m_curSize] on a [memory_size_type]. *)
Definition decrement (n : nat) : nat :=
  match n with
  | 0 => SizeT.wrap (SizeT.modulus - 1)
  | S k => k
  end.

Section Cache.

Context {block collection : Type}.

(** [tpie_new<block>(blockSize)] *)
Variable block_new : nat → block.

(** [block_collection::get_free_block], [free_block], [read_block] and
    [write_block]. *)
Variable coll_get_free_block : collection → outcome (block_handle * collection).
Variable coll_free_block : block_handle → collection → outcome collection.
Variable coll_read_block :
  block_handle → collection → outcome (block * collection).
Variable coll_write_block :
  block_handle → block → collection → outcome collection.

(** [block_information_t].  [pointer] is the block the pointer refers to;
    [iterator] names a node of [m_blockList]. *)
Record block_information_t : Type := {
  pointer : block;
  iterator : nat;
  dirty : bool
}.

(** The cache.  [m_blockList] is the [std::list] of handles, least recently
    used first; each node carries the name its iterators go by, and
    [m_nodes] counts the nodes allocated so far.  [m_blockMap] is the
    [std::map] ordered by [position_comparator]: it is keyed by position and
    keeps, beside the value, the handle the entry was created with. *)
Record block_collection_cache : Type := {
  m_collection : collection;
  m_blockList : list (nat * block_handle);
  m_nodes : nat;
  m_blockMap : gmap nat (block_handle * block_information_t);
  m_curSize : nat;
  m_maxSize : nat;
  m_blockSize : nat
}.

(** The constructor. *)
Definition cache_new (coll : collection) (blockSize maxSize : nat)
  : block_collection_cache :=
  {| m_collection := coll; m_blockList := []; m_nodes := 0;
     m_blockMap := ∅; m_curSize := 0; m_maxSize := maxSize;
     m_blockSize := blockSize |}.

Definition set_collection (v : collection) (c : block_collection_cache)
  : block_collection_cache :=
  {| m_collection := v; m_blockList := m_blockList c; m_nodes := m_nodes c;
     m_blockMap := m_blockMap c; m_curSize := m_curSize c;
     m_maxSize := m_maxSize c; m_blockSize := m_blockSize c |}.

(** [m_blockList.erase(it)]; erasing through an iterator that names no
    node of the list is undefined. *)
Fixpoint erase (it : nat) (l : list (nat * block_handle))
  : outcome (list (nat * block_handle)) :=
  match l with
  | [] => Fail IndexOutOfRange
  | n :: rest =>
      if decide (n.1 = it) then Done rest
      else rest' ← erase it rest; Done (n :: rest')
  end.

(** [m_blockList.push_back(handle)] followed by taking the iterator to the
    new last node. *)
Definition push_back (handle : block_handle) (c : block_collection_cache)
  : nat * block_collection_cache :=
  (m_nodes c,
   {| m_collection := m_collection c;
      m_blockList := m_blockList c ++ [(m_nodes c, handle)];
      m_nodes := S (m_nodes c);
      m_blockMap := m_blockMap c; m_curSize := m_curSize c;
      m_maxSize := m_maxSize c; m_blockSize := m_blockSize c |}).

Definition set_blockList (v : list (nat * block_handle))
    (c : block_collection_cache) : block_collection_cache :=
  {| m_collection := m_collection c; m_blockList := v; m_nodes := m_nodes c;
     m_blockMap := m_blockMap c; m_curSize := m_curSize c;
     m_maxSize := m_maxSize c; m_blockSize := m_blockSize c |}.

Definition set_blockMap (v : gmap nat (block_handle * block_information_t))
    (c : block_collection_cache) : block_collection_cache :=
  {| m_collection := m_collection c; m_blockList := m_blockList c;
     m_nodes := m_nodes c; m_blockMap := v; m_curSize := m_curSize c;
     m_maxSize := m_maxSize c; m_blockSize := m_blockSize c |}.

Definition set_curSize (v : nat) (c : block_collection_cache)
  : block_collection_cache :=
  {| m_collection := m_collection c; m_blockList := m_blockList c;
     m_nodes := m_nodes c; m_blockMap := m_blockMap c; m_curSize := v;
     m_maxSize := m_maxSize c; m_blockSize := m_blockSize c |}.

(** [m_blockMap[handle] = info]: an entry with an equivalent key keeps its
    key. *)
Definition map_assign (handle : block_handle) (info : block_information_t)
    (m : gmap nat (block_handle * block_information_t))
  : gmap nat (block_handle * block_information_t) :=
  let key := match m !! position handle with
             | Some (k, _) => k
             | None => handle
             end in
  <[position handle := (key, info)]> m.

(** [add_to_cache] *)
Definition add_to_cache (handle : block_handle) (b : block) (is_dirty : bool)
    (c : block_collection_cache) : block_collection_cache :=
  let '(list_pos, c1) := push_back handle c in
  let c2 := set_blockMap
              (map_assign handle
                 {| pointer := b; iterator := list_pos; dirty := is_dirty |}
                 (m_blockMap c1)) c1 in
  set_curSize (S (m_curSize c2)) c2.

(** [get_free_block] *)
Definition get_free_block (c : block_collection_cache)
  : outcome (block_handle * block_collection_cache) :=
  '(h, coll) ← coll_get_free_block (m_collection c);
  Done (h, add_to_cache h (block_new (m_blockSize c)) true
             (set_collection coll c)).

(** [free_block] *)
Definition free_block (handle : block_handle) (c : block_collection_cache)
  : outcome block_collection_cache :=
  tp_assert (bool_decide (size handle = m_blockSize c))
    "the size of the handle is not correct";;
  tp_assert (bool_decide (0 < m_curSize c))
    "the current size of the cache is 0";;
  c1 ← match m_blockMap c !! position handle with
       | Some (_, info) =>
           l ← erase (iterator info) (m_blockList c);
           Done (set_blockMap (delete (position handle) (m_blockMap c))
                   (set_curSize (decrement (m_curSize c))
                      (set_blockList l c)))
       | None => Done c
       end;
  coll ← coll_free_block handle (m_collection c1);
  Done (set_collection coll c1).

(** [prepare_cache]: [front()] of an empty list and [find] missing the
    handle are undefined. *)
Definition prepare_cache (c : block_collection_cache)
  : outcome block_collection_cache :=
  if decide (m_curSize c < m_maxSize c) then Done c else
  match m_blockList c with
  | [] => Fail IndexOutOfRange
  | (_, handle) :: rest =>
      match m_blockMap c !! position handle with
      | None => Fail IndexOutOfRange
      | Some (key, info) =>
          coll ← (if dirty info
                  then coll_write_block key (pointer info) (m_collection c)
                  else Done (m_collection c));
          Done (set_blockMap (delete (position handle) (m_blockMap c))
                  (set_curSize (decrement (m_curSize c))
                     (set_blockList rest (set_collection coll c))))
      end
  end.

(** [read_block] *)
Definition read_block (handle : block_handle) (c : block_collection_cache)
  : outcome (block * block_collection_cache) :=
  match m_blockMap c !! position handle with
  | Some (key, info) =>
      l ← erase (iterator info) (m_blockList c);
      let '(j, c1) := push_back key (set_blockList l c) in
      Done (pointer info,
            set_blockMap
              (<[position handle :=
                   (key, {| pointer := pointer info; iterator := j;
                            dirty := dirty info |})]> (m_blockMap c1)) c1)
  | None =>
      c1 ← prepare_cache c;
      '(cache_b, coll) ← coll_read_block handle (m_collection c1);
      Done (cache_b, add_to_cache handle cache_b false (set_collection coll c1))
  end.

(** [write_block] *)
Definition write_block (handle : block_handle) (c : block_collection_cache)
  : outcome block_collection_cache :=
  match m_blockMap c !! position handle with
  | None =>
      Fail (AssertionFailed "the given handle does not exist in the cache.")
  | Some (key, info) =>
      l ← erase (iterator info) (m_blockList c);
      let '(j, c1) := push_back handle (set_blockList l c) in
      Done (set_blockMap
              (<[position handle :=
                   (key, {| pointer := pointer info; iterator := j;
                            dirty := true |})]> (m_blockMap c1)) c1)
  end.

(** The entries of the map in the order of its iterators, by position. *)
Definition entry_le (a b : nat * (block_handle * block_information_t)) : Prop :=
  a.1 ≤ b.1.

Global Instance entry_le_dec a b : Decision (entry_le a b).
Proof. unfold entry_le. apply _. Defined.

Definition entries (m : gmap nat (block_handle * block_information_t))
  : list (nat * (block_handle * block_information_t)) :=
  merge_sort entry_le (map_to_list m).

(** The loop of the destructor. *)
Fixpoint write_back
    (l : list (nat * (block_handle * block_information_t)))
    (coll : collection) : outcome collection :=
  match l with
  | [] => Done coll
  | (_, (key, info)) :: rest =>
      coll' ← (if dirty info then coll_write_block key (pointer info) coll
               else Done coll);
      write_back rest coll'
  end.

(** [~block_collection_cache]; what is left is the collection. *)
Definition destroy (c : block_collection_cache) : outcome collection :=
  write_back (entries (m_blockMap c)) (m_collection c).

End Cache.

(** ** Vocabulary for the cache *)

Section CacheVocabulary.

Context {block collection : Type}.
Implicit Types (c : block_collection_cache (block:=block)
                                           (collection:=collection)).

(** The positions of the cached blocks, least recently used first. *)
Definition lru_order c : list nat := (position ∘ snd) <$> m_blockList c.

(** The bookkeeping of the cache is consistent: the nodes of the list have
    distinct names, all allocated; every entry of the map is keyed by the
    position of its handle and points to a node of the list that holds a
    handle at that position; every node of the list has an entry of the map
    pointing to it; and [m_curSize] is the number of nodes. *)
Definition cache_wf c : Prop :=
  NoDup (m_blockList c).*1
  ∧ (∀ it, it ∈ (m_blockList c).*1 → it < m_nodes c)
  ∧ (∀ pos key info, m_blockMap c !! pos = Some (key, info) →
       position key = pos
       ∧ ∃ h, (iterator info, h) ∈ m_blockList c ∧ position h = pos)
  ∧ (∀ it h, (it, h) ∈ m_blockList c →
       ∃ key info, m_blockMap c !! position h = Some (key, info)
                   ∧ iterator info = it)
  ∧ m_curSize c = length (m_blockList c).

(** What the collection holds at each position, for a collection given
    with the function [stored] that tells. *)
Variable stored : collection → nat → option block.

(** The block a reader gets for a position: the cached one if there is
    one, the stored one otherwise. *)
Definition view c (pos : nat) : option block :=
  match m_blockMap c !! pos with
  | Some (_, info) => Some (pointer info)
  | None => stored (m_collection c) pos
  end.

(** Every cached block not marked dirty is the stored one. *)
Definition clean_ok c : Prop :=
  ∀ pos key info, m_blockMap c !! pos = Some (key, info) →
    dirty info = false → stored (m_collection c) pos = Some (pointer info).

End CacheVocabulary.

(** ** An instance

    Blocks are numbers, and the collection is a finite map from positions
    to blocks. *)

Definition disk_get_free_block (d : gmap nat nat)
  : outcome (block_handle * gmap nat nat) :=
  let pos := fresh (dom d) in
  Done ({| position := pos; size := 8 |}, <[pos := 0]> d).

Definition disk_free_block (h : block_handle) (d : gmap nat nat)
  : outcome (gmap nat nat) :=
  Done (delete (position h) d).

Definition disk_read_block (h : block_handle) (d : gmap nat nat)
  : outcome (nat * gmap nat nat) :=
  match d !! position h with
  | Some b => Done (b, d)
  | None => Fail IndexOutOfRange
  end.

Definition disk_write_block (h : block_handle) (b : nat) (d : gmap nat nat)
  : outcome (gmap nat nat) :=
  Done (<[position h := b]> d).

Definition disk_stored (d : gmap nat nat) (pos : nat) : option nat := d !! pos.

Definition example_disk : gmap nat nat :=
  <[3 := 30]> (<[2 := 20]> (<[1 := 10]> ∅)).

Definition example_handle (pos : nat) : block_handle :=
  {| position := pos; size := 8 |}.

(** A cache of two blocks after reading the blocks at 1 and 2 and marking
    the block at 1 as written. *)
Definition example_cache
  : block_collection_cache (block:=nat) (collection:=gmap nat nat) :=
  let run :=
    '(_, c1) ← read_block disk_read_block disk_write_block (example_handle 1)
                 (cache_new example_disk 8 2);
    '(_, c2) ← read_block disk_read_block disk_write_block (example_handle 2)
                 c1;
    write_block (example_handle 1) c2 in
  match run with
  | Done c => c
  | _ => cache_new example_disk 8 2
  end.

End Blocks.


(** * The worker thread of the parallel segment *)

Module ParallelWorker.

Import Parallel.

Section Worker.

Context {T1 T2 : Type}.

Local Abbreviation M := (@M T1 T2).

Variable env : nat → @parallel_state T1 T2 → @parallel_state T1 T2.
Variable opts : parallel_options.

(** The value-initialised item that [array<T1>] is filled with. *)
Variable T1_default : T1.

(** The virtual [parallel_after_base::worker_initialize] of the worker's
    output segment and the virtual [parallel_before::push_all]. *)
Variable worker_initialize : M unit.
Variable push_all : list T1 → M unit.

Definition with_runningWorkers (f : nat → nat)
    (st : @parallel_state T1 T2) : parallel_state :=
  {| done := done st; runningWorkers := f (runningWorkers st);
     m_states := m_states st;
     m_inputBuffers := m_inputBuffers st;
     m_outputBuffers := m_outputBuffers st |}.

(** [parallel_before::ready] *)
Definition ready (parId : nat) : M bool :=
  bindM (get_state parId) (λ s,
    match s with
    | IDLE => ret false
    | PROCESSING => ret true
    | OUTPUTTING =>
        throw (RuntimeError
                 "State 'outputting' was not expected at this point")
    end).

(** [running_signal]: the constructor runs before [body], the destructor
    when [body] is left, by return or by exception. *)
Definition running_signal {A} (body : M A) : M A := λ w,
  match bindM (write (with_runningWorkers (λ n, SizeT.add n 1)))
              (λ _, body) w with
  | (OutOfFuel, w') => (OutOfFuel, w')
  | (r, w') =>
      (r, (bindM (write (with_runningWorkers (λ n, SizeT.sub n 1)))
                 (λ _, notify_one producerCond) w').2)
  end.

(** [m_buffer.reset(new parallel_input_buffer<T>(st.opts));
     m_inputBuffers[parId] = m_buffer.get()]; an index past the array is
    undefined in the source. *)
Definition register_input (parId : nat) : M unit := λ w,
  if decide (parId < length (m_inputBuffers (shared w)))
  then write (with_inputBuffers (λ l,
                <[parId := {| m_inputSize := 0;
                              m_inputBuffer :=
                                replicate (bufSize opts) T1_default |}]> l)) w
  else (Fail IndexOutOfRange, w).

(** [m_buffer->get_input()] *)
Definition worker_input (parId : nat) : M (list T1) := λ w,
  match m_inputBuffers (shared w) !! parId with
  | Some b => (Done (get_input b), w)
  | None => (Fail IndexOutOfRange, w)
  end.

(** [while (!ready()) { if (st.done) return; st.workerCond[parId].wait(lock); }];
    [true] when the loop ended, [false] when it was left through
    [return]. *)
Fixpoint wait_processing (fuel : nat) (parId : nat) : M bool :=
  bindM (ready parId) (λ r,
    if r : bool then ret true else
    bindM (read done) (λ d,
      if d : bool then ret false else
      match fuel with
      | 0 => out_of_fuel
      | S fuel' =>
          bindM (wait env (workerCond parId)) (λ _,
            wait_processing fuel' parId)
      end)).

(** The loop [while (true)] of [worker]. *)
Fixpoint worker_loop (fuel : nat) (parId : nat) : M unit :=
  bindM (wait_processing fuel parId) (λ go,
    if go : bool then
      match fuel with
      | 0 => out_of_fuel
      | S fuel' =>
          bindM (worker_input parId) (λ items,
          bindM (push_all items) (λ _,
          bindM (lock env) (λ _,
          worker_loop fuel' parId)))
      end
    else ret tt).

(** [parallel_before::worker] *)
Definition worker (fuel : nat) (parId : nat) : M unit :=
  bindM (lock env) (λ _,
  bindM (register_input parId) (λ _,
  bindM worker_initialize (λ _,
  running_signal (worker_loop fuel parId)))).

End Worker.

Section PushAll.

Context {T1 T2 D : Type}.

Local Abbreviation M := (@M T1 T2).

(** [dest.push] of the worker's first segment and [flush_buffer] of its
    [parallel_after], on the state [D] of the worker's pipeline. *)
Variable dest_push : T1 → D → M D.
Variable flush_buffer : D → M D.

(** [for (size_t i = 0; i < items.size(); ++i) dest.push(items[i])] *)
Fixpoint push_each (items : list T1) (d : D) : M D :=
  match items with
  | [] => ret d
  | item :: rest => bindM (dest_push item d) (push_each rest)
  end.

(** [parallel_before_impl::push_all] *)
Definition push_all (items : list T1) (d : D) : M D :=
  bindM (push_each items d) flush_buffer.

End PushAll.

Section WorkerVocabulary.

Context {T1 T2 A : Type}.

(** A collaborator that raises no exception. *)
Definition never_throws (m : @M T1 T2 A) : Prop :=
  ∀ w e, (m w).1 ≠ Fail e.

(** A collaborator that leaves [runningWorkers] alone. *)
Definition keeps_running (m : @M T1 T2 A) : Prop :=
  ∀ w, runningWorkers (shared (m w).2) = runningWorkers (shared w).

End WorkerVocabulary.

End ParallelWorker.


(** * The B-tree builder ([tpie/btree/btree_builder.h])

    [bbits::builder] receives values in order and builds the tree bottom
    up, keeping a bounded number of values, leaves and internal nodes in
    memory.  [tpie/btree/base.h] and [tpie/btree/node.h] are not among the
    sources: the store [S] of the tree and the augmenter [A] are template
    parameters of the builder, and are parameters here. *)

Module BTree.

(** The operations of the store that the builder calls; [set] and
    [set_root] are overloaded on leaves and internal nodes, and so is
    [set_augment] on the kind of the child. *)
Class Store (T key_type augment_type leaf_type internal_type store_type : Type) := {
  min_leaf_size : nat;
  max_leaf_size : nat;
  min_internal_size : nat;
  max_internal_size : nat;
  create_leaf : store_type → leaf_type * store_type;
  create_internal : store_type → internal_type * store_type;
  set_count_leaf : leaf_type → nat → store_type → store_type;
  set_count_internal : internal_type → nat → store_type → store_type;
  set_leaf : leaf_type → nat → T → store_type → store_type;
  set_internal_leaf : internal_type → nat → leaf_type → store_type → store_type;
  set_internal_internal : internal_type → nat → internal_type → store_type → store_type;
  set_augment_leaf :
    leaf_type → internal_type → augment_type → key_type → store_type → store_type;
  set_augment_internal :
    internal_type → internal_type → augment_type → key_type → store_type → store_type;
  min_key_leaf : leaf_type → store_type → key_type;
  min_key_internal : internal_type → store_type → key_type;
  size : store_type → nat;
  set_size : nat → store_type → store_type;
  set_height : nat → store_type → store_type;
  set_root_leaf : leaf_type → store_type → store_type;
  set_root_internal : internal_type → store_type → store_type
}.

(** [m_augmenter(node_type(&m_store, node))] *)
Class Augmenter (augment_type leaf_type internal_type store_type : Type) := {
  augment_leaf : leaf_type → store_type → augment_type;
  augment_internal : internal_type → store_type → augment_type
}.

Section Builder.

Context {T key_type augment_type leaf_type internal_type store_type : Type}.
Context `{!Store T key_type augment_type leaf_type internal_type store_type}.
Context `{!Augmenter augment_type leaf_type internal_type store_type}.

Record leaf_summary : Type := {
  leaf : leaf_type;
  leaf_min_key : key_type;
  leaf_augment : augment_type
}.

Record internal_summary : Type := {
  internal : internal_type;
  internal_min_key : key_type;
  internal_augment : augment_type
}.

Record builder : Type := {
  m_items : list T;
  m_leaves : list leaf_summary;
  m_internal_nodes : list (list internal_summary);
  m_store : store_type
}.

(** [builder(S store, C comp, A augmenter)] *)
Definition new_builder (store : store_type) : builder :=
  {| m_items := []; m_leaves := []; m_internal_nodes := [];
     m_store := store |}.

(** The loop of [construct_leaf]: [front()] on an empty deque is
    undefined in the source. *)
Fixpoint fill_leaf (l : leaf_type) (i size : nat) (items : list T) (s : store_type)
  : outcome (list T * store_type) :=
  match size with
  | 0 => Done (items, s)
  | S size' =>
      match items with
      | [] => Fail IndexOutOfRange
      | v :: rest => fill_leaf l (S i) size' rest (set_leaf l i v s)
      end
  end.

(** [builder::construct_leaf] *)
Definition construct_leaf (size : nat) (b : builder) : outcome builder :=
  let '(l, s) := create_leaf (m_store b) in
  let s := set_count_leaf l size s in
  '(items, s) ← fill_leaf l 0 size (m_items b) s;
  let summary := {| leaf := l; leaf_min_key := min_key_leaf l s;
                    leaf_augment := augment_leaf l s |} in
  Done {| m_items := items; m_leaves := m_leaves b ++ [summary];
          m_internal_nodes := m_internal_nodes b; m_store := s |}.

(** [if (m_internal_nodes.size() < level + 1)
       m_internal_nodes.push_back(std::deque<internal_summary>());
     m_internal_nodes[level].push_back(node)] *)
Definition push_node (level : nat) (node : internal_summary)
    (levels : list (list internal_summary))
  : outcome (list (list internal_summary)) :=
  let levels :=
    if decide (length levels < level + 1) then levels ++ [[]] else levels in
  match levels !! level with
  | Some nodes => Done (<[level := nodes ++ [node]]> levels)
  | None => Fail IndexOutOfRange
  end.

(** The loop of [construct_internal_from_leaves]. *)
Fixpoint link_leaves (n : internal_type) (i size : nat)
    (leaves : list leaf_summary) (s : store_type)
  : outcome (list leaf_summary * store_type) :=
  match size with
  | 0 => Done (leaves, s)
  | S size' =>
      match leaves with
      | [] => Fail IndexOutOfRange
      | child :: rest =>
          let s := set_internal_leaf n i (leaf child) s in
          let s := set_augment_leaf (leaf child) n (leaf_augment child)
                     (leaf_min_key child) s in
          link_leaves n (S i) size' rest s
      end
  end.

(** [builder::construct_internal_from_leaves] *)
Definition construct_internal_from_leaves (size : nat) (b : builder)
  : outcome builder :=
  let '(n, s) := create_internal (m_store b) in
  let s := set_count_internal n size s in
  '(leaves, s) ← link_leaves n 0 size (m_leaves b) s;
  let summary := {| internal := n; internal_min_key := min_key_internal n s;
                    internal_augment := augment_internal n s |} in
  levels ← push_node 0 summary (m_internal_nodes b);
  Done {| m_items := m_items b; m_leaves := leaves;
          m_internal_nodes := levels; m_store := s |}.

(** The loop of [construct_internal_from_internal], on
    [m_internal_nodes[level]]. *)
Fixpoint link_internals (n : internal_type) (i size level : nat)
    (levels : list (list internal_summary)) (s : store_type)
  : outcome (list (list internal_summary) * store_type) :=
  match size with
  | 0 => Done (levels, s)
  | S size' =>
      match levels !! level with
      | None | Some [] => Fail IndexOutOfRange
      | Some (child :: rest) =>
          let s := set_internal_internal n i (internal child) s in
          let s := set_augment_internal (internal child) n
                     (internal_augment child) (internal_min_key child) s in
          link_internals n (S i) size' level (<[level := rest]> levels) s
      end
  end.

(** [builder::construct_internal_from_internal] *)
Definition construct_internal_from_internal (size level : nat) (b : builder)
  : outcome builder :=
  let '(n, s) := create_internal (m_store b) in
  '(levels, s) ← link_internals n 0 size level (m_internal_nodes b) s;
  let s := set_count_internal n size s in
  let summary := {| internal := n; internal_min_key := min_key_internal n s;
                    internal_augment := augment_internal n s |} in
  levels ← push_node (level + 1) summary levels;
  Done {| m_items := m_items b; m_leaves := m_leaves b;
          m_internal_nodes := levels; m_store := s |}.

(** [builder::desired_leaf_size] *)
Definition desired_leaf_size : nat :=
  SizeT.add min_leaf_size max_leaf_size / 2.

(** [builder::leaf_tipping_point] *)
Definition leaf_tipping_point : nat :=
  SizeT.add desired_leaf_size min_leaf_size.

(** [builder::desired_internal_size] *)
Definition desired_internal_size : nat :=
  SizeT.add min_internal_size max_internal_size / 2.

(** [builder::internal_tipping_point] *)
Definition internal_tipping_point : nat :=
  SizeT.add desired_internal_size min_internal_size.

(** The loop of [extract_nodes] over the levels, from level [i]. *)
Fixpoint extract_levels (fuel i : nat) (b : builder) : outcome builder :=
  if decide (i < length (m_internal_nodes b)) then
    match fuel with
    | 0 => OutOfFuel
    | S fuel' =>
        match m_internal_nodes b !! i with
        | None => Fail IndexOutOfRange
        | Some nodes =>
            if decide (length nodes < internal_tipping_point) then Done b
            else
              b ← construct_internal_from_internal desired_internal_size i b;
              extract_levels fuel' (S i) b
        end
    end
  else Done b.

(** [builder::extract_nodes] *)
Definition extract_nodes (fuel : nat) (b : builder) : outcome builder :=
  b ← construct_leaf desired_leaf_size b;
  if decide (length (m_leaves b) < internal_tipping_point) then Done b
  else
    b ← construct_internal_from_leaves desired_internal_size b;
    extract_levels fuel 0 b.

(** [builder::push] *)
Definition push (fuel : nat) (v : T) (b : builder) : outcome builder :=
  let b := {| m_items := m_items b ++ [v]; m_leaves := m_leaves b;
              m_internal_nodes := m_internal_nodes b;
              m_store := set_size (SizeT.add (size (m_store b)) 1)
                           (m_store b) |} in
  if decide (length (m_items b) < leaf_tipping_point) then Done b
  else extract_nodes fuel b.

(** The loop of [build] over the levels, from level [i]. *)
Fixpoint build_levels (fuel i : nat) (b : builder) : outcome builder :=
  if decide (i < length (m_internal_nodes b)) then
    match fuel with
    | 0 => OutOfFuel
    | S fuel' =>
        match m_internal_nodes b !! i with
        | None => Fail IndexOutOfRange
        | Some nodes =>
            b ← (if decide ((length (m_internal_nodes b) = i + 1
                             ∧ 1 < length nodes)
                            ∨ (i + 1 < length (m_internal_nodes b)
                               ∧ 0 < length nodes))
                 then
                   b ← (if decide (max_internal_size < length nodes)
                        then construct_internal_from_internal
                               (length nodes / 2) i b
                        else Done b);
                   match m_internal_nodes b !! i with
                   | None => Fail IndexOutOfRange
                   | Some nodes =>
                       construct_internal_from_internal (length nodes) i b
                   end
                 else Done b);
            build_levels fuel' (S i) b
        end
    end
  else Done b.

Definition with_store (s : store_type) (b : builder) : builder :=
  {| m_items := m_items b; m_leaves := m_leaves b;
     m_internal_nodes := m_internal_nodes b; m_store := s |}.

(** [builder::build]; the tree it returns is the one over [m_store]. *)
Definition build (fuel : nat) (b : builder) : outcome builder :=
  b ← (if decide (0 < length (m_items b)) then
         b ← (if decide (max_leaf_size < length (m_items b))
              then construct_leaf (length (m_items b) / 2) b
              else Done b);
         construct_leaf (length (m_items b)) b
       else Done b);
  b ← (if decide ((length (m_internal_nodes b) = 0 ∧ 1 < length (m_leaves b))
                  ∨ (0 < length (m_internal_nodes b)
                     ∧ 0 < length (m_leaves b)))
       then
         b ← (if decide (max_internal_size < length (m_leaves b))
              then construct_internal_from_leaves (length (m_leaves b) / 2) b
              else Done b);
         construct_internal_from_leaves (length (m_leaves b)) b
       else Done b);
  b ← build_levels fuel 0 b;
  if decide (length (m_internal_nodes b) = 0 ∧ length (m_leaves b) = 0)
  then Done (with_store (set_height 0 (m_store b)) b)
  else
    let s := set_height (length (m_internal_nodes b) + 1) (m_store b) in
    if decide (length (m_leaves b) = 1) then
      match m_leaves b with
      | root :: _ => Done (with_store (set_root_leaf (leaf root) s) b)
      | [] => Fail IndexOutOfRange
      end
    else
      match last (m_internal_nodes b) with
      | Some (root :: _) =>
          Done (with_store (set_root_internal (internal root) s) b)
      | _ => Fail IndexOutOfRange
      end.

(** ** Vocabulary for the properties *)

(** The values pushed one after the other. *)
Fixpoint push_each (fuel : nat) (vs : list T) (b : builder)
  : outcome builder :=
  match vs with
  | [] => Done b
  | v :: rest => b ← push fuel v b; push_each fuel rest b
  end.

(** The nodes below the nodes kept at the levels from the first of
    [levels] on, counted in nodes of that first level. *)
Fixpoint nodes_below (levels : list (list internal_summary)) : nat :=
  match levels with
  | [] => 0
  | nodes :: upper => length nodes + desired_internal_size * nodes_below upper
  end.

(** The values that the builder holds or has stored in leaves. *)
Definition items_held (b : builder) : nat :=
  length (m_items b)
  + desired_leaf_size
    * (length (m_leaves b)
       + desired_internal_size * nodes_below (m_internal_nodes b)).

(** What the builder keeps in memory stays below the tipping points, and
    no level is empty. *)
Definition bounded (b : builder) : Prop :=
  length (m_items b) < leaf_tipping_point
  ∧ length (m_leaves b) < internal_tipping_point
  ∧ Forall (λ nodes : list internal_summary,
              0 < length nodes < internal_tipping_point)
           (m_internal_nodes b).

(** The node sizes of a B-tree: they fit [size_t], the smallest node has
    an entry, the largest at least as many, and an internal node may have
    two children. *)
Definition sizes_ok : Prop :=
  SizeT.fits (2 * (min_leaf_size + max_leaf_size))
  ∧ SizeT.fits (2 * (min_internal_size + max_internal_size))
  ∧ 0 < min_leaf_size ≤ max_leaf_size
  ∧ 0 < min_internal_size ≤ max_internal_size
  ∧ 1 < max_internal_size.

(** All values, leaves and nodes have gone into one root: the lists of
    the builder are empty, but for the root. *)
Definition single_root (b : builder) : Prop :=
  m_items b = []
  ∧ ((m_leaves b = [] ∧ m_internal_nodes b = [])
     ∨ (∃ root, m_leaves b = [root] ∧ m_internal_nodes b = [])
     ∨ (∃ k root, m_leaves b = []
                  ∧ m_internal_nodes b = replicate k [] ++ [[root]])).

End Builder.

(** ** A store in memory, for the instances *)

Inductive example_child : Type :=
| ChildLeaf (l : nat)
| ChildInternal (n : nat).

(** A node is its count and its array of entries. *)
Record example_store : Type := {
  st_leaves : list (nat * list nat);
  st_internals : list (nat * list example_child);
  st_size : nat;
  st_height : nat;
  st_root : option example_child
}.

Definition example_with_leaves
    (f : list (nat * list nat) → list (nat * list nat))
    (s : example_store) : example_store :=
  {| st_leaves := f (st_leaves s); st_internals := st_internals s;
     st_size := st_size s; st_height := st_height s; st_root := st_root s |}.

Definition example_with_internals
    (f : list (nat * list example_child) → list (nat * list example_child))
    (s : example_store) : example_store :=
  {| st_leaves := st_leaves s; st_internals := f (st_internals s);
     st_size := st_size s; st_height := st_height s; st_root := st_root s |}.

Definition example_empty_store : example_store :=
  {| st_leaves := []; st_internals := []; st_size := 0; st_height := 0;
     st_root := None |}.

(** Leaves of two to four values, internal nodes of two to four
    children. *)
Global Instance example_store_ops
  : Store nat nat unit nat nat example_store := {|
  min_leaf_size := 2;
  max_leaf_size := 4;
  min_internal_size := 2;
  max_internal_size := 4;
  create_leaf s :=
    (length (st_leaves s),
     example_with_leaves (λ l, l ++ [(0, replicate 4 0)]) s);
  create_internal s :=
    (length (st_internals s),
     example_with_internals (λ l, l ++ [(0, replicate 4 (ChildLeaf 0))]) s);
  set_count_leaf l n := example_with_leaves (alter (λ node, (n, node.2)) l);
  set_count_internal i n :=
    example_with_internals (alter (λ node, (n, node.2)) i);
  set_leaf l i v :=
    example_with_leaves (alter (λ node, (node.1, <[i := v]> node.2)) l);
  set_internal_leaf n i l :=
    example_with_internals
      (alter (λ node, (node.1, <[i := ChildLeaf l]> node.2)) n);
  set_internal_internal n i c :=
    example_with_internals
      (alter (λ node, (node.1, <[i := ChildInternal c]> node.2)) n);
  set_augment_leaf _ _ _ _ s := s;
  set_augment_internal _ _ _ _ s := s;
  min_key_leaf l s := default 0 (st_leaves s !! l ≫= λ node, head node.2);
  min_key_internal _ _ := 0;
  size := st_size;
  set_size n s :=
    {| st_leaves := st_leaves s; st_internals := st_internals s;
       st_size := n; st_height := st_height s; st_root := st_root s |};
  set_height h s :=
    {| st_leaves := st_leaves s; st_internals := st_internals s;
       st_size := st_size s; st_height := h; st_root := st_root s |};
  set_root_leaf l s :=
    {| st_leaves := st_leaves s; st_internals := st_internals s;
       st_size := st_size s; st_height := st_height s;
       st_root := Some (ChildLeaf l) |};
  set_root_internal n s :=
    {| st_leaves := st_leaves s; st_internals := st_internals s;
       st_size := st_size s; st_height := st_height s;
       st_root := Some (ChildInternal n) |}
|}.

Global Instance example_augmenter : Augmenter unit nat nat example_store := {|
  augment_leaf _ _ := tt;
  augment_internal _ _ := tt
|}.

End BTree.


(** * Properties *)

#[local] Arguments Nat.modulo : simpl never.
#[local] Arguments Nat.div : simpl never.
#[local] Arguments Nat.pow : simpl never.

(** ** Facts about 64-bit arithmetic *)

Lemma SizeT_modulus_pos : (0 < SizeT.modulus)%N.
Proof. reflexivity. Qed.

Lemma SizeT_wrap_small n : SizeT.fits n → SizeT.wrap (N.of_nat n) = n.
Proof.
  unfold SizeT.wrap, SizeT.fits. intros H.
  rewrite N.mod_small by exact H. apply Nat2N.id.
Qed.

Lemma SizeT_fits_le a b : a ≤ b → SizeT.fits b → SizeT.fits a.
Proof. unfold SizeT.fits. lia. Qed.

Lemma SizeT_add_small a b : SizeT.fits (a + b) → SizeT.add a b = a + b.
Proof.
  intros H. unfold SizeT.add. rewrite <- Nat2N.inj_add.
  by apply SizeT_wrap_small.
Qed.

Lemma SizeT_mul_small a b : SizeT.fits (a * b) → SizeT.mul a b = a * b.
Proof.
  intros H. unfold SizeT.mul. rewrite <- Nat2N.inj_mul.
  by apply SizeT_wrap_small.
Qed.

Lemma SizeT_sub_small a b : b ≤ a → SizeT.fits a → SizeT.sub a b = a - b.
Proof.
  unfold SizeT.sub, SizeT.wrap, SizeT.fits. intros Hle Hfit.
  pose proof SizeT_modulus_pos as Hm.
  rewrite (N.mod_small (N.of_nat b)) by lia.
  replace (N.of_nat a + (SizeT.modulus - N.of_nat b))%N
    with (N.of_nat (a - b) + 1 * SizeT.modulus)%N by lia.
  rewrite N.Div0.mod_add. rewrite N.mod_small by lia. apply Nat2N.id.
Qed.

Lemma SizeT_fits_0 : SizeT.fits 0.
Proof. reflexivity. Qed.

(** ** Facts about outcomes *)

Lemma bind_Done {A B} (m : outcome A) (k : A → outcome B) b :
  m ≫= k = Done b → ∃ a, m = Done a ∧ k a = Done b.
Proof. destruct m; simpl; intros; [eauto | done | done]. Qed.

Lemma bind_Done_l {A B} (a : A) (k : A → outcome B) : Done a ≫= k = k a.
Proof. reflexivity. Qed.

Lemma bind_Fail_l {A B} e (k : A → outcome B) : Fail e ≫= k = Fail e.
Proof. reflexivity. Qed.

(** ** Run geometry *)

Lemma calculate_run_length_loop_exact rl f k :
  SizeT.fits (rl * f ^ k) →
  calculate_run_length_loop rl f k = rl * f ^ k.
Proof.
  revert rl. induction k as [|k IH]; intros rl Hfit; simpl.
  - rewrite Nat.pow_0_r. lia.
  - assert (Hstep : SizeT.mul rl f = rl * f).
    { apply SizeT_mul_small. destruct f as [|f].
      - rewrite Nat.mul_0_r. apply SizeT_fits_0.
      - eapply SizeT_fits_le; [|exact Hfit]. rewrite Nat.pow_succ_r'.
        assert (1 ≤ S f ^ k) by (apply Nat.le_succ_l, Nat.neq_0_lt_0, Nat.pow_nonzero; lia).
        nia. }
    rewrite Hstep. rewrite IH.
    + rewrite Nat.pow_succ_r'. lia.
    + eapply SizeT_fits_le; [|exact Hfit]. rewrite Nat.pow_succ_r'. lia.
Qed.

Lemma calculate_run_length_exact rl f L :
  SizeT.fits (rl * f ^ L) → calculate_run_length rl f L = rl * f ^ L.
Proof. apply calculate_run_length_loop_exact. Qed.

Lemma run_file_index_exact params L r :
  0 < fanout params →
  SizeT.fits (2 * fanout params) →
  run_file_index params L r
  = Done ((L mod 2) * fanout params + r mod fanout params).
Proof.
  intros Hf Hfit. unfold run_file_index.
  destruct (decide (fanout params = 0)) as [?|_]; [lia|].
  pose proof (Nat.mod_upper_bound L 2 ltac:(lia)).
  pose proof (Nat.mod_upper_bound r (fanout params) ltac:(lia)).
  rewrite SizeT_mul_small by (eapply SizeT_fits_le; [|exact Hfit]; nia).
  rewrite SizeT_add_small by (eapply SizeT_fits_le; [|exact Hfit]; nia).
  done.
Qed.

Lemma run_file_index_lt params L r :
  0 < fanout params →
  (L mod 2) * fanout params + r mod fanout params < 2 * fanout params.
Proof.
  intros Hf.
  pose proof (Nat.mod_upper_bound L 2 ltac:(lia)).
  pose proof (Nat.mod_upper_bound r (fanout params) ltac:(lia)).
  nia.
Qed.

(** C4.  The run length at merge level [L] is [runLength * fanout ^ L], and
    a reader opened on run [r] of level [L] is positioned at item offset
    [run_length(L) * (r / fanout)] of the temp file that [run_file_index]
    selects.  The products are assumed to fit a 64-bit word and the temp
    file to reach as far as the offset. *)
Theorem run_length_and_reader_offset {T} params (files : list (list T)) L r :
  0 < fanout params →
  SizeT.fits (2 * fanout params) →
  SizeT.fits (runLength params * fanout params ^ L) →
  SizeT.fits (runLength params * fanout params ^ L * (r / fanout params)) →
  2 * fanout params ≤ length files →
  runLength params * fanout params ^ L * (r / fanout params)
  ≤ length (files !!! ((L mod 2) * fanout params + r mod fanout params)) →
  calculate_run_length (runLength params) (fanout params) L
  = runLength params * fanout params ^ L
  ∧ ∃ idx,
      run_file_index params L r = Done idx
      ∧ open_run_file_read params files L r
        = Done {| fs_file := idx;
                  fs_offset := calculate_run_length (runLength params)
                                 (fanout params) L
                               * (r / fanout params) |}.
Proof.
  intros Hf Hfit2 Hfitrl Hfitoff Hlen Hseek.
  pose proof (calculate_run_length_exact _ _ _ Hfitrl) as Hrl.
  split; [exact Hrl|].
  pose proof (run_file_index_exact params L r Hf Hfit2) as Hidx.
  eexists. split; [exact Hidx|].
  unfold open_run_file_read. rewrite Hidx, bind_Done_l.
  pose proof (run_file_index_lt params L r Hf) as Hlt.
  unfold at_.
  destruct (lookup_lt_is_Some_2 files
              ((L mod 2) * fanout params + r mod fanout params)
              ltac:(lia)) as [c Hc].
  rewrite Hc, bind_Done_l.
  rewrite Hrl. rewrite SizeT_mul_small by exact Hfitoff.
  unfold fs_seek, fs_size; cbn [fs_file fs_offset].
  destruct (decide _) as [_|Hn]; [done|lia].
Qed.

(** ** Parameter calculation *)

Section Fanout.

Variable sizeof_temp_file : nat.
Variable file_stream_memory_usage : nat.
Variable merger_memory_usage : nat → nat.

Local Abbreviation usage :=
  (fanout_memory_usage sizeof_temp_file file_stream_memory_usage
     merger_memory_usage).
Local Abbreviation search :=
  (calculate_fanout_loop sizeof_temp_file file_stream_memory_usage
     merger_memory_usage).

(** The binary search stays inside its bracket, only ever raises the lower
    end to a fan-out that is strictly within budget, and only ever lowers
    the upper end to one that is not. *)
Lemma calculate_fanout_loop_spec (top m lo hi : nat) :
  (∀ a b, lo ≤ a → a ≤ b → b < top → usage a ≤ usage b) →
  lo < hi →
  hi ≤ top →
  (∀ g, hi ≤ g < top → m ≤ usage g) →
  let r := search m lo hi in
  lo ≤ r < hi
  ∧ (r = lo ∨ usage r < m)
  ∧ (∀ g, r < g < top → m ≤ usage g).
Proof.
  funelim (search m lo hi); intros Hmono Hlt Htop Hhi; cbn zeta.
  - clear Heqcall.
    set (mid := fanout_lo + (fanout_hi - fanout_lo) / 2) in *.
    assert (fanout_lo < mid < fanout_hi) as Hmid.
    { subst mid.
      pose proof (Nat.div_mod_eq (fanout_hi - fanout_lo) 2).
      pose proof (Nat.mod_upper_bound (fanout_hi - fanout_lo) 2). lia. }
    destruct (decide (usage mid < availableMemory)) as [Hfit|Hno].
    + destruct (H Hfit top) as (Hr & Hor & Hup);
        [intros a b ? ? ?; apply Hmono; lia|lia|lia|exact Hhi|].
      split; [lia|]. split; [|exact Hup].
      destruct Hor as [->|?]; by right.
    + destruct (H0 Hno top) as (Hr & Hor & Hup);
        [exact Hmono|lia|lia| |].
      { intros g Hg. destruct (decide (fanout_hi ≤ g)).
        - apply Hhi. lia.
        - etrans; [|apply (Hmono mid g); lia]. lia. }
      split; [lia|]. by split.
  - split; [lia|]. split; [by left|].
    intros g Hg. apply Hhi. lia.
Qed.

Lemma calculate_fanout_range m :
  2 ≤ calculate_fanout sizeof_temp_file file_stream_memory_usage
        merger_memory_usage m < 251.
Proof.
  unfold calculate_fanout.
  assert (Hgen : ∀ lo hi, lo < hi → lo ≤ search m lo hi < hi).
  { intros lo hi. funelim (search m lo hi); intros Hlt.
    - clear Heqcall.
      set (mid := fanout_lo + (fanout_hi - fanout_lo) / 2) in *.
      assert (fanout_lo < mid < fanout_hi) as Hmid.
      { subst mid.
        pose proof (Nat.div_mod_eq (fanout_hi - fanout_lo) 2).
        pose proof (Nat.mod_upper_bound (fanout_hi - fanout_lo) 2). lia. }
      destruct (decide (usage mid < availableMemory)) as [Hfit|Hno].
      + specialize (H Hfit ltac:(lia)). lia.
      + specialize (H0 Hno ltac:(lia)). lia.
    - lia. }
  apply Hgen. lia.
Qed.

End Fanout.

Section Parameters.

Context {T : Type}.
Variable sizeof_T : nat.
Variable sizeof_temp_file : nat.
Variable file_stream_memory_usage : nat.
Variable merger_memory_usage : nat → nat.

Local Abbreviation usage :=
  (fanout_memory_usage sizeof_temp_file file_stream_memory_usage
     merger_memory_usage).
Local Abbreviation search_fanout :=
  (calculate_fanout sizeof_temp_file file_stream_memory_usage
     merger_memory_usage).
Local Abbreviation parameters_of :=
  (calculate_parameters (T:=T) sizeof_T sizeof_temp_file
     file_stream_memory_usage merger_memory_usage).

Lemma calculate_fanout_spec m :
  (∀ a b, 2 ≤ a → a ≤ b → b < 251 → usage a ≤ usage b) →
  let f := search_fanout m in
  2 ≤ f < 251
  ∧ (f = 2 ∨ usage f < m)
  ∧ (∀ g, f < g < 251 → m ≤ usage g).
Proof.
  intros Hmono. unfold calculate_fanout.
  apply (calculate_fanout_loop_spec _ _ _ 251 m 2 251 Hmono); lia.
Qed.

(** C7, as amended.  For a merge memory usage that does not decrease over
    the fan-outs of [2, 251), [calculate_parameters] takes the fan-out from
    the binary search over that interval against [m3]: it lies in the
    interval; it is 2 or its memory usage is within [m3]; no larger fan-out
    of the interval has a usage strictly below [m3]; and the phase-3 budget
    is raised to the usage of the chosen fan-out when that exceeds [m3].
    [finalFanout] is the result of the same search against [m4], capped by
    [fanout]. *)
Theorem calculate_parameters_fanout (m2 m3 m4 : nat) (s : merge_sorter) :
  (∀ a b, 2 ≤ a → a ≤ b → b < 251 → usage a ≤ usage b) →
  let params := p (parameters_of m2 m3 m4 s) in
  fanout params = search_fanout m3
  ∧ 2 ≤ fanout params < 251
  ∧ (fanout params = 2 ∨ usage (fanout params) ≤ m3)
  ∧ (∀ g, fanout params < g < 251 → ¬ usage g < m3)
  ∧ memoryPhase3 params = Nat.max m3 (usage (fanout params))
  ∧ finalFanout params = Nat.min (search_fanout m4) (fanout params)
  ∧ 2 ≤ finalFanout params ≤ fanout params
  ∧ (finalFanout params = 2 ∨ usage (finalFanout params) ≤ m4)
  ∧ m_parametersSet (parameters_of m2 m3 m4 s) = true.
Proof.
  intros Hmono.
  destruct (calculate_fanout_spec m3 Hmono) as (H3r & H3fit & H3max).
  destruct (calculate_fanout_spec m4 Hmono) as (H4r & H4fit & H4max).
  cbn zeta in *. unfold calculate_parameters. cbn [p set_p set_parametersSet
    fanout finalFanout memoryPhase3 m_parametersSet].
  set (f3 := search_fanout m3) in *. set (f4 := search_fanout m4) in *.
  split; [done|]. split; [done|].
  split; [destruct H3fit; [by left|right; lia]|].
  split; [intros g Hg; specialize (H3max g Hg); lia|].
  split; [destruct (decide (m3 < usage f3)); lia|].
  split; [destruct (decide (f3 < f4)); lia|].
  split; [destruct (decide (f3 < f4)); lia|].
  split; [|done].
  destruct (decide (f3 < f4)) as [Hcap|Hnocap].
  - destruct H4fit as [?|H4fit]; [lia|].
    right. pose proof (Hmono f3 f4 ltac:(lia) ltac:(lia) ltac:(lia)). lia.
  - destruct H4fit; [by left|right; lia].
Qed.

End Parameters.

(** C7, counterexample.  With a merge memory usage of ten bytes per stream
    and a phase-3 budget of five bytes no fan-out fits; the search answers 2
    all the same, so the chosen fan-out is not one whose usage is at most the
    budget. *)
Lemma calculate_fanout_not_largest_fitting :
  let usage := fanout_memory_usage 0 0 (λ f, 10 * f) in
  let s := calculate_parameters (T:=nat) 1 0 0 (λ f, 10 * f) 5 5 5 fresh_sorter in
  fanout (p s) = 2
  ∧ usage 2 = 20
  ∧ ¬ largest_fitting usage 5 (fanout (p s)).
Proof.
  cbn zeta.
  assert (Hf : fanout (p (calculate_parameters (T:=nat) 1 0 0 (λ f, 10 * f)
                            5 5 5 fresh_sorter)) = 2) by reflexivity.
  assert (Hu : fanout_memory_usage 0 0 (λ f, 10 * f) 2 = 20) by reflexivity.
  rewrite Hf. split; [done|]. split; [done|].
  intros (_ & Hfit & _). rewrite Hu in Hfit. lia.
Qed.

(** At the boundary the search compares strictly: a fan-out whose usage
    equals the budget is passed over. *)
Example calculate_fanout_boundary :
  calculate_fanout 0 0 (λ f, 10 * f) 100 = 9
  ∧ fanout_memory_usage 0 0 (λ f, 10 * f) 10 = 100.
Proof. split; reflexivity. Qed.

(** ** File streams and temp files *)

Section Files.

Context {T : Type}.
Implicit Types (files : list (list T)) (items : list T).

Lemma write_items_append items files idx :
  idx < length files →
  write_items items files
    {| fs_file := idx; fs_offset := length (files !!! idx) |}
  = (<[idx := files !!! idx ++ items]> files,
     {| fs_file := idx;
        fs_offset := length (files !!! idx) + length items |}).
Proof.
  revert files. induction items as [|x items IH]; intros files Hidx.
  - cbn [write_items]. rewrite app_nil_r, Nat.add_0_r.
    f_equal. symmetry. apply list_insert_id.
    by apply list_lookup_lookup_total_lt.
  - cbn [write_items]. unfold fs_write at 1. cbn [fs_file fs_offset].
    destruct (decide _) as [Hlt|_]; [lia|].
    set (files' := <[idx := files !!! idx ++ [x]]> files).
    assert (Hget : files' !!! idx = files !!! idx ++ [x]).
    { subst files'. apply list_lookup_total_insert_eq. lia. }
    replace (S (length (files !!! idx))) with (length (files' !!! idx))
      by (rewrite Hget, length_app; simpl; lia).
    rewrite IH by (subst files'; rewrite length_insert; lia).
    rewrite Hget. subst files'. rewrite list_insert_insert_eq.
    rewrite <- app_assoc. cbn [app]. rewrite !length_app. cbn [length].
    do 2 f_equal. lia.
Qed.

Lemma open_run_file_write_exact params files L r :
  0 < fanout params →
  SizeT.fits (2 * fanout params) →
  2 * fanout params ≤ length files →
  let idx := (L mod 2) * fanout params + r mod fanout params in
  let files' := if decide (r < fanout params)
                then <[idx := []]> files else files in
  open_run_file_write params files L r
  = Done (files', {| fs_file := idx; fs_offset := length (files' !!! idx) |}).
Proof.
  intros Hf Hfit Hlen idx files'. unfold open_run_file_write.
  rewrite run_file_index_exact by done. rewrite bind_Done_l.
  fold idx.
  assert (Hidx : idx < length files)
    by (pose proof (run_file_index_lt params L r Hf); subst idx; lia).
  assert (Hidx' : idx < length files').
  { subst files'. destruct (decide _); [rewrite length_insert|]; lia. }
  replace (if decide (r < fanout params)
           then at_ files idx;; Done (<[idx:=[]]> files)
           else Done files) with (Done files').
  2:{ subst files'. destruct (decide _); [|done].
      unfold at_. destruct (lookup_lt_is_Some_2 files idx Hidx) as [c ->].
      done. }
  rewrite bind_Done_l. unfold at_.
  rewrite (list_lookup_lookup_total_lt files' idx Hidx').
  by rewrite bind_Done_l.
Qed.

End Files.

(** ** Run formation and internal reporting *)

Section SorterBasics.

Context {T : Type}.
Variable T_default : T.
Variable pred : T → T → bool.
Variable parallel_sort : list T → list T.

Implicit Types (s : merge_sorter (T:=T)).

Lemma empty_current_run_exact s :
  0 < fanout (p s) →
  SizeT.fits (2 * fanout (p s)) →
  2 * fanout (p s) ≤ length (m_runFiles s) →
  m_currentRunItemCount s ≤ length (m_currentRunItems s) →
  empty_current_run s
  = Done (set_finishedRuns (S (m_finishedRuns s))
            (set_currentRunItemCount 0 (set_runFiles (spilled_files s) s))).
Proof.
  intros Hf Hfit Hlen Hcount. unfold empty_current_run.
  rewrite open_run_file_write_exact by done. rewrite bind_Done_l.
  cbv beta iota zeta.
  destruct (decide (m_currentRunItemCount s ≤ _)) as [_|?]; [|lia].
  set (idx := (0 mod 2) * fanout (p s) + m_finishedRuns s mod fanout (p s)).
  assert (Hidx : idx < length (m_runFiles s))
    by (pose proof (run_file_index_lt (p s) 0 (m_finishedRuns s) Hf);
        subst idx; lia).
  rewrite write_items_append
    by (destruct (decide _); [rewrite length_insert|]; lia).
  do 3 f_equal. unfold spilled_files. fold idx.
  destruct (decide (m_finishedRuns s < fanout (p s))).
  - rewrite list_lookup_total_insert_eq by lia.
    by rewrite list_insert_insert_eq.
  - done.
Qed.

(** The state [pull] leaves behind in internal mode after [k] items. *)
Lemma pull_all_internal (rest : list T) fuel s :
  m_reportInternal s = true →
  pull_prepared s = true →
  m_itemsPulled s + length rest = m_currentRunItemCount s →
  (∀ j x, rest !! j = Some x →
          m_currentRunItems s !! (m_itemsPulled s + j) = Some x) →
  length rest ≤ fuel →
  ∃ s', pull_all pred fuel s = Done (rest, s')
        ∧ m_runFiles s' = m_runFiles s
        ∧ m_merger s' = m_merger s
        ∧ can_pull s' = Done false.
Proof.
  revert fuel s. induction rest as [|x rest IH]; intros fuel s Hint Hprep Hcnt Hitems Hfuel.
  - exists s. cbn [length] in Hcnt.
    assert (Hcp : can_pull s = Done false).
    { unfold can_pull. rewrite Hprep, Hint. cbn.
      rewrite bool_decide_eq_false_2 by lia. done. }
    split; [|done].
    destruct fuel; cbn [pull_all]; rewrite Hcp; done.
  - cbn [length] in Hcnt, Hfuel. destruct fuel as [|fuel]; [lia|].
    cbn [pull_all].
    assert (Hcp : can_pull s = Done true).
    { unfold can_pull. rewrite Hprep, Hint. cbn.
      rewrite bool_decide_eq_true_2 by lia. done. }
    rewrite Hcp, bind_Done_l.
    unfold pull. rewrite Hprep, Hint. cbn [tp_assert].
    rewrite bind_Done_l. rewrite bool_decide_eq_true_2 by lia.
    cbn [andb].
    pose proof (Hitems 0 x eq_refl) as Hx. rewrite Nat.add_0_r in Hx.
    rewrite Hx.
    set (s1 := set_itemsPulled (S (m_itemsPulled s)) s).
    destruct (decide (rest = [])) as [->|Hne].
    + assert (Hcp1 : can_pull s1 = Done false).
      { unfold can_pull. subst s1. cbn. rewrite Hprep, Hint. cbn.
        cbn in Hcnt. rewrite bool_decide_eq_false_2 by lia. done. }
      rewrite Hcp1, !bind_Done_l.
      set (s2 := set_currentRunItems [] s1).
      assert (Hcp2 : can_pull s2 = Done false).
      { unfold can_pull. subst s2 s1. cbn. rewrite Hprep, Hint. cbn.
        cbn in Hcnt. rewrite bool_decide_eq_false_2 by lia. done. }
      exists s2. split; [|done].
      destruct fuel; cbn [pull_all]; rewrite Hcp2; done.
    + assert (Hcp1 : can_pull s1 = Done true).
      { unfold can_pull. subst s1. cbn. rewrite Hprep, Hint. cbn.
        destruct rest; [done|]. cbn in Hcnt.
        rewrite bool_decide_eq_true_2 by lia. done. }
      rewrite Hcp1, !bind_Done_l.
      destruct (IH fuel s1) as (s' & Hrun & Hfiles & Hmerger & Hcp');
        try done.
      * subst s1. cbn. lia.
      * intros j y Hy. subst s1. cbn.
        rewrite <- Nat.add_succ_r. by apply Hitems.
      * lia.
      * rewrite Hrun. exists s'. done.
Qed.


Lemma can_pull_internal s :
  m_reportInternal s = true →
  pull_prepared s = true →
  can_pull s
  = Done (bool_decide (m_itemsPulled s < m_currentRunItemCount s)).
Proof. intros Hint Hprep. unfold can_pull. by rewrite Hprep, Hint. Qed.

Hypothesis parallel_sort_perm : ∀ l, parallel_sort l ≡ₚ l.
Hypothesis parallel_sort_sorted :
  ∀ l, StronglySorted (item_le pred) (parallel_sort l).

Lemma parallel_sort_length l : length (parallel_sort l) = length l.
Proof. by rewrite parallel_sort_perm. Qed.

(** C2.  [end()] with no run spilled and a residual buffer within
    [internalReportThreshold] switches to internal reporting: no temp file
    is touched by [end()] or [calc()], [can_pull()] compares the number of
    items pulled with the number buffered, and pulling yields the buffered
    items in sorted order.  In every other case [end()] writes the sorted
    residual buffer as run number [m_finishedRuns] of level 0. *)
Theorem end_reporting_mode s :
  m_parametersSet s = true →
  m_currentRunItemCount s ≤ length (m_currentRunItems s) →
  let n := m_currentRunItemCount s in
  let buffered := take n (m_currentRunItems s) in
  let sorted := parallel_sort buffered in
  (m_finishedRuns s = 0 ∧ n ≤ internalReportThreshold (p s) →
     ∃ s1, end_ parallel_sort s = Done s1
       ∧ m_reportInternal s1 = true
       ∧ m_runFiles s1 = m_runFiles s
       ∧ m_finishedRuns s1 = 0
       ∧ (∀ fuel, calc pred fuel s1 = Done (set_pull_prepared true s1))
       ∧ (∀ s2, m_reportInternal s2 = true → pull_prepared s2 = true →
                can_pull s2
                = Done (bool_decide
                          (m_itemsPulled s2 < m_currentRunItemCount s2)))
       ∧ (∀ fuel, n ≤ fuel →
            ∃ s3, pull_all pred fuel (set_pull_prepared true s1)
                  = Done (sorted, s3)
                  ∧ m_runFiles s3 = m_runFiles s
                  ∧ m_merger s3 = m_merger s)
       ∧ sorted ≡ₚ buffered
       ∧ StronglySorted (item_le pred) sorted)
  ∧ (¬ (m_finishedRuns s = 0 ∧ n ≤ internalReportThreshold (p s)) →
     0 < fanout (p s) →
     SizeT.fits (2 * fanout (p s)) →
     2 * fanout (p s) ≤ length (m_runFiles s) →
     ∃ s1, end_ parallel_sort s = Done s1
       ∧ m_reportInternal s1 = false
       ∧ m_finishedRuns s1 = S (m_finishedRuns s)
       ∧ m_runFiles s1
         = <[(0 mod 2) * fanout (p s) + m_finishedRuns s mod fanout (p s)
             := (if decide (m_finishedRuns s < fanout (p s)) then []
                 else m_runFiles s
                      !!! ((0 mod 2) * fanout (p s)
                           + m_finishedRuns s mod fanout (p s)))
                ++ sorted]> (m_runFiles s)).
Proof.
  intros Hset Hcount n buffered sorted.
  assert (Hsortlen : length sorted = n).
  { subst sorted buffered. rewrite parallel_sort_length, length_take. lia. }
  assert (Hsc : sort_current_run parallel_sort s
                = Done (set_currentRunItems
                          (sorted ++ drop n (m_currentRunItems s)) s)).
  { unfold sort_current_run. fold n.
    destruct (decide (n ≤ _)); [done|lia]. }
  split.
  - intros [Hruns Hthr].
    unfold end_. rewrite Hset. cbn [tp_assert].
    rewrite bind_Done_l, Hsc, bind_Done_l.
    cbn [m_finishedRuns m_currentRunItemCount p set_currentRunItems].
    destruct (decide _) as [_|Hn]; [|by destruct Hn].
    eexists. split; [reflexivity|].
    split; [done|]. split; [done|]. split; [done|].
    split; [|split; [|split; [|split]]].
    + intros fuel. unfold calc. cbn. by rewrite Hset.
    + apply can_pull_internal.
    + intros fuel Hfuel.
      edestruct (pull_all_internal sorted fuel) as (s3 & Hrun & Hf & Hm & _);
        [..|exists s3; split; [exact Hrun|split; [exact Hf|exact Hm]]];
        cbn; try done; try lia.
      intros j x Hx. by apply lookup_app_l_Some.
    + apply parallel_sort_perm.
    + apply parallel_sort_sorted.
  - intros Hext Hf Hfit Hlen.
    unfold end_. rewrite Hset. cbn [tp_assert].
    rewrite bind_Done_l, Hsc, bind_Done_l.
    cbn [m_finishedRuns m_currentRunItemCount p set_currentRunItems].
    destruct (decide _) as [Hn|_]; [by destruct Hext|].
    rewrite empty_current_run_exact; cbn; try done.
    2:{ rewrite length_app, length_drop. lia. }
    eexists. split; [reflexivity|]. cbn.
    split; [done|]. split; [done|].
    unfold spilled_files. cbn. fold n.
    rewrite take_app_length' by done. done.
Qed.

Lemma sort_current_run_prepared s s' :
  sort_current_run parallel_sort s = Done s' →
  pull_prepared s' = pull_prepared s.
Proof.
  unfold sort_current_run. destruct (decide _); [|done]. by intros [= <-].
Qed.

Lemma empty_current_run_prepared s s' :
  empty_current_run s = Done s' → pull_prepared s' = pull_prepared s.
Proof.
  unfold empty_current_run.
  destruct (open_run_file_write _ _ _ _) as [[files fs]| |]; [|done..].
  rewrite bind_Done_l. destruct (decide _); [|done].
  destruct (write_items _ _ _). by intros [= <-].
Qed.

Lemma begin_prepared s s' :
  begin T_default s = Done s' → pull_prepared s' = pull_prepared s.
Proof.
  unfold begin. destruct (m_parametersSet s); cbn [tp_assert]; [|done].
  rewrite bind_Done_l. by intros [= <-].
Qed.

Lemma push_prepared x s s' :
  push parallel_sort x s = Done s' → pull_prepared s' = pull_prepared s.
Proof.
  unfold push. destruct (m_parametersSet s); cbn [tp_assert]; [|done].
  rewrite bind_Done_l.
  destruct (decide (runLength (p s) ≤ _)).
  - destruct (sort_current_run parallel_sort s) as [s1| |] eqn:Hsort;
      [|done..].
    rewrite bind_Done_l.
    destruct (empty_current_run s1) as [s2| |] eqn:Hempty; [|done..].
    rewrite bind_Done_l. destruct (decide _); [|done]. intros [= <-].
    cbn. rewrite (empty_current_run_prepared _ _ Hempty).
    by apply sort_current_run_prepared.
  - rewrite bind_Done_l. destruct (decide _); [|done]. by intros [= <-].
Qed.

Lemma end_prepared s s' :
  end_ parallel_sort s = Done s' → pull_prepared s' = pull_prepared s.
Proof.
  unfold end_. destruct (m_parametersSet s); cbn [tp_assert]; [|done].
  rewrite bind_Done_l.
  destruct (sort_current_run parallel_sort s) as [s1| |] eqn:Hsort; [|done..].
  rewrite bind_Done_l. apply sort_current_run_prepared in Hsort.
  destruct (decide _).
  - by intros [= <-].
  - destruct (empty_current_run _) as [s2| |] eqn:Hempty; [|done..].
    rewrite bind_Done_l. intros [= <-].
    apply empty_current_run_prepared in Hempty. cbn in *. congruence.
Qed.

(** Nothing but [calc()] sets [pull_prepared]. *)
Lemma before_calc_not_prepared s :
  before_calc T_default parallel_sort s → pull_prepared s = false.
Proof.
  induction 1 as [| | |s s' _ IH Hrun|x s s' _ IH Hrun|s s' _ IH Hrun];
    try done.
  - by rewrite (begin_prepared _ _ Hrun).
  - by rewrite (push_prepared _ _ _ Hrun).
  - by rewrite (end_prepared _ _ Hrun).
Qed.


End SorterBasics.


(** On a sorter that is used a second time the flag is still set from
    the first [calc()], which [begin()] does not undo: after
    [begin(); push(1); end(); calc()] and then [begin(); push(4); end()],
    [pull] before [calc()] is accepted and returns 4. *)
Lemma pull_before_calc_accepted_on_reuse :
  ∃ s1 s2 s3,
    form_runs 0 nat_sort [1] example_sorter ≫= calc Nat.ltb 1 = Done s1
    ∧ form_runs 0 nat_sort [4] s1 = Done s2
    ∧ pull Nat.ltb s2 = Done (4, s3).
Proof.
  destruct (form_runs 0 nat_sort [1] example_sorter ≫= calc Nat.ltb 1)
    as [s1| |] eqn:Hs1; [|vm_compute in Hs1; discriminate Hs1..].
  exists s1. vm_compute in Hs1. injection Hs1 as <-.
  destruct (form_runs 0 nat_sort [4] _) as [s2| |] eqn:Hs2;
    [|vm_compute in Hs2; discriminate Hs2..].
  exists s2. vm_compute in Hs2. injection Hs2 as <-.
  eexists. split; [reflexivity|]. split; [reflexivity|].
  vm_compute. reflexivity.
Qed.

(** C3, counterexample.  With run length 2 and fan-out 2, pushing 5, 3, 8, 1
    forms two runs: run 1 of level 0 is written at the start of temp file 1
    and is read back from offset 0, not from offset
    [run_length(0) * (1 mod 2) = 2]. *)
Lemma run_offset_is_not_mod :
  ∃ s fs, form_runs 0 nat_sort [5; 3; 8; 1] example_sorter = Done s
       ∧ m_runFiles s = [[3; 5]; [1; 8]; []; []]
       ∧ run_file_index (p s) 0 1 = Done 1
       ∧ open_run_file_read (p s) (m_runFiles s) 0 1 = Done fs
       ∧ fs_file fs = 1
       ∧ fs_offset fs = 0
       ∧ fs_offset fs
         ≠ calculate_run_length (runLength (p s)) (fanout (p s)) 0
           * (1 mod fanout (p s)).
Proof.
  eexists _, _. split; [vm_compute; reflexivity|].
  split; [reflexivity|]. split; [reflexivity|].
  split; [vm_compute; reflexivity|].
  split; [reflexivity|]. split; [reflexivity|].
  vm_compute. discriminate.
Qed.


(** ** The comparator and the merge heap *)

Section MergeHeap.

Context {T : Type}.
Variable pred : T → T → bool.

(** [pred] is a strict weak ordering. *)
Hypothesis pred_asym : ∀ a b, pred a b = true → pred b a = false.
Hypothesis pred_negtrans :
  ∀ a b c, pred b a = false → pred c b = false → pred c a = false.

Local Abbreviation le := (item_le pred).

Lemma item_le_trans a b c : le a b → le b c → le a c.
Proof. unfold item_le. apply pred_negtrans. Qed.

Lemma item_le_refl a : le a a.
Proof.
  unfold item_le. destruct (pred a a) eqn:H; [|done].
  by rewrite (pred_asym _ _ H) in H.
Qed.

Lemma heap_before_le (a b : T * nat) :
  heap_before pred a b = true → le a.1 b.1.
Proof.
  unfold heap_before, item_le.
  destruct (pred a.1 b.1) eqn:Hab; cbn.
  - intros _. by apply pred_asym.
  - intros [Hba _]%andb_true_iff. by apply negb_true_iff in Hba.
Qed.

Lemma not_heap_before_le (a b : T * nat) :
  heap_before pred a b = false → le b.1 a.1.
Proof.
  unfold heap_before, item_le. by intros [? _]%orb_false_iff.
Qed.

Lemma pq_extract_None (h : list (T * nat)) : pq_extract pred h = None ↔ h = [].
Proof.
  split; [|by intros ->].
  destruct h as [|e h]; [done|]. cbn.
  destruct (pq_extract pred h) as [[m r]|]; [|done].
  by destruct (heap_before pred e m).
Qed.

(** The extracted entry is a smallest one, and the rest is what remains. *)
Lemma pq_extract_Some (h : list (T * nat)) m rest :
  pq_extract pred h = Some (m, rest) →
  h ≡ₚ m :: rest ∧ Forall (λ e, le m.1 e.1) rest.
Proof.
  revert m rest. induction h as [|e h IH]; intros m rest; [done|]. cbn.
  destruct (pq_extract pred h) as [[m' r]|] eqn:Hext.
  - destruct (IH m' r eq_refl) as [Hperm Hmin].
    destruct (heap_before pred e m') eqn:Hcmp; intros [= <- <-].
    + split; [by rewrite Hperm|].
      apply heap_before_le in Hcmp.
      constructor; [done|].
      eapply Forall_impl; [exact Hmin|].
      intros x Hx. by eapply item_le_trans.
    + split; [rewrite Hperm; apply Permutation_swap|].
      apply not_heap_before_le in Hcmp. by constructor.
  - intros [= <- <-]. apply pq_extract_None in Hext as ->.
    split; [done|constructor].
Qed.

End MergeHeap.

(** ** The k-way merger *)

Section Merger.

Context {T : Type}.
Variable pred : T → T → bool.
Hypothesis pred_asym : ∀ a b, pred a b = true → pred b a = false.
Hypothesis pred_negtrans :
  ∀ a b c, pred b a = false → pred c b = false → pred c a = false.

Local Abbreviation le := (item_le pred).
Implicit Types (files : list (list T)) (m : merger (T:=T)) (fs : file_stream).

Lemma concat_insert_tail (ls : list (list T)) i y t :
  ls !! i = Some (y :: t) → concat ls ≡ₚ y :: concat (<[i := t]> ls).
Proof.
  revert i. induction ls as [|l ls IH]; intros [|i] H; simplify_eq/=.
  - done.
  - rewrite (IH i H). by rewrite Permutation_middle.
Qed.

Lemma stream_rest_step files limit fs k :
  fs_can_read files fs = true → k < limit →
  ∃ y, fs_read files fs
       = Done (y, {| fs_file := fs_file fs; fs_offset := S (fs_offset fs) |})
     ∧ stream_rest files limit fs k
       = y :: stream_rest files limit
                {| fs_file := fs_file fs; fs_offset := S (fs_offset fs) |} (S k).
Proof.
  unfold fs_can_read, fs_size, fs_read, stream_rest.
  intros Hcan%bool_decide_eq_true Hk.
  destruct (lookup_lt_is_Some_2 _ _ Hcan) as [y Hy]. rewrite Hy.
  exists y. split; [done|]. cbn [fs_file fs_offset].
  rewrite (drop_S _ y _ Hy).
  replace (limit - k) with (S (limit - S k)) by lia. done.
Qed.

Lemma stream_rest_done files limit fs k :
  fs_can_read files fs && bool_decide (k < limit) = false →
  stream_rest files limit fs k = [].
Proof.
  unfold fs_can_read, fs_size, stream_rest.
  intros [Hcan|Hk]%andb_false_iff.
  - apply bool_decide_eq_false in Hcan. rewrite drop_ge by lia. apply take_nil.
  - apply bool_decide_eq_false in Hk.
    replace (limit - k) with 0 by lia. done.
Qed.

Lemma merger_rests_lookup files m i rest :
  merger_rests files m !! i = Some rest →
  ∃ fs k, m_in m !! i = Some fs ∧ itemsRead m !! i = Some k
          ∧ rest = stream_rest files (m_runLength m) fs k.
Proof.
  unfold merger_rests. rewrite lookup_zip_with_Some.
  intros (fs & k & -> & ? & ?). eauto.
Qed.

Lemma merger_inv_empty files m :
  merger_inv pred files m → pq m = [] → concat (merger_rests files m) = [].
Proof.
  intros (_ & _ & _ & Hdead) Hpq.
  assert (Hall : Forall (λ l, l = []) (merger_rests files m)).
  { apply Forall_lookup. intros i rest Hi. apply (Hdead i rest Hi).
    rewrite Hpq. apply not_elem_of_nil. }
  revert Hall. generalize (merger_rests files m).
  induction 1 as [|l ls Hl _ IH]; [done|]. by rewrite Hl.
Qed.

Lemma merger_pending_cleared files m :
  merger_pending files (merger_clear m) = [].
Proof. done. Qed.

Lemma merger_inv_cleared files m : merger_inv pred files (merger_clear m).
Proof.
  split; [done|]. split; [constructor|].
  split; [by intros x i ?%elem_of_nil|]. by intros i rest [=].
Qed.

(** The head of the heap is a least pending item. *)
Lemma merger_top_least files m el i rest :
  merger_inv pred files m →
  pq m ≡ₚ (el, i) :: rest →
  Forall (λ e, le el e.1) rest →
  Forall (le el) (merger_pending files m).
Proof.
  intros (Hlen & Hnd & Hent & Hdead) Hperm Hmin.
  assert (Hheap : ∀ x j, (x, j) ∈ pq m → le el x).
  { intros x j Hin. rewrite Hperm in Hin.
    apply elem_of_cons in Hin as [[= -> ->]|Hin].
    - by apply item_le_refl.
    - by apply (proj1 (Forall_forall _ _) Hmin (x, j)). }
  unfold merger_pending. apply Forall_app. split.
  - apply Forall_forall. intros x [[x' j] [-> Hin]]%list_elem_of_fmap.
    by eapply Hheap.
  - apply Forall_concat, Forall_lookup. intros j restj Hj.
    destruct (decide (j ∈ (pq m).*2)) as [Hin|Hnin].
    + apply list_elem_of_fmap in Hin as [[x j'] [-> Hin]]. cbn in Hj.
      destruct (Hent _ _ Hin) as (rest' & Hj' & Hsorted).
      rewrite Hj in Hj'. injection Hj' as <-.
      apply StronglySorted_inv in Hsorted as [_ Hx].
      eapply Forall_impl; [exact Hx|]. intros y Hy.
      apply (item_le_trans pred pred_negtrans _ x); [by eapply Hheap|done].
    + rewrite (Hdead _ _ Hj Hnin). constructor.
Qed.


Lemma merger_settle files m1 :
  merger_inv pred files m1 →
  let m' := if merger_can_pull m1 then m1 else merger_clear m1 in
  merger_inv pred files m'
  ∧ merger_pending files m' = merger_pending files m1
  ∧ m_runLength m' = m_runLength m1
  ∧ (fs_file <$> m_in m') ⊆ (fs_file <$> m_in m1).
Proof.
  intros Hinv. unfold merger_can_pull.
  destruct (pq m1) as [|e h] eqn:Hpq; cbn zeta.
  - split; [apply merger_inv_cleared|]. split; [|split; [done|]].
    + unfold merger_pending at 2. rewrite Hpq.
      by rewrite (merger_inv_empty _ _ Hinv Hpq).
    + cbn. apply list_subseteq_nil.
  - done.
Qed.

(** One [pull]: the item handed out is a least pending one, and the merger
    is left in a consistent state holding the others. *)
Lemma merger_pull_spec files m :
  merger_inv pred files m → pq m ≠ [] →
  ∃ x m', merger_pull pred files m = Done (x, m')
    ∧ merger_inv pred files m'
    ∧ merger_pending files m ≡ₚ x :: merger_pending files m'
    ∧ Forall (le x) (merger_pending files m')
    ∧ m_runLength m' = m_runLength m
    ∧ (fs_file <$> m_in m') ⊆ (fs_file <$> m_in m).
Proof.
  intros Hinv Hne. unfold merger_pull.
  assert (Hcp : merger_can_pull m = true)
    by (unfold merger_can_pull; by destruct (pq m)).
  rewrite Hcp. cbn [tp_assert]. rewrite bind_Done_l.
  destruct (pq_extract pred (pq m)) as [[[el i] rest]|] eqn:Hext;
    [|by apply pq_extract_None in Hext].
  apply (pq_extract_Some pred pred_asym pred_negtrans) in Hext as [Hperm Hmin].
  pose proof Hinv as (Hlen & Hnd & Hent & Hdead).
  assert (Hin : (el, i) ∈ pq m) by (rewrite Hperm; left).
  destruct (Hent _ _ Hin) as (ri & Hri & Hsorted).
  destruct (merger_rests_lookup _ _ _ _ Hri) as (fs & k & Hfs & Hk & ->).
  rewrite Hfs, Hk.
  pose proof (merger_top_least _ _ _ _ _ Hinv Hperm Hmin) as Hleast.
  assert (Hnd' : NoDup (i :: rest.*2)).
  { assert ((pq m).*2 ≡ₚ i :: rest.*2) as <- by (by rewrite Hperm). done. }
  apply NoDup_cons in Hnd' as [Hi Hnd'].
  assert (Hsub : ∀ x j, (x, j) ∈ rest → (x, j) ∈ pq m ∧ j ≠ i).
  { intros x j Hx. split; [rewrite Hperm; by right|].
    intros ->. apply Hi. apply list_elem_of_fmap. by exists (x, i). }
  assert (Hidx : ∀ j, j ∉ i :: rest.*2 → j ∉ (pq m).*2).
  { intros j Hj Hj'. apply Hj.
    assert ((pq m).*2 ≡ₚ i :: rest.*2) as <- by (by rewrite Hperm). done. }
  destruct (fs_can_read files fs && bool_decide (k < m_runLength m)) eqn:Hmore.
  - apply andb_true_iff in Hmore as [Hcan Hlt%bool_decide_eq_true].
    destruct (stream_rest_step files (m_runLength m) fs k Hcan Hlt)
      as (y & Hread & Hstep).
    rewrite Hread, !bind_Done_l. cbv beta iota.
    set (fs' := {| fs_file := fs_file fs; fs_offset := S (fs_offset fs) |}) in *.
    set (m1 := {| pq := (y, i) :: rest; m_in := <[i:=fs']> (m_in m);
                  itemsRead := <[i:=S k]> (itemsRead m);
                  m_runLength := m_runLength m |}).
    set (tl := stream_rest files (m_runLength m) fs' (S k)) in *.
    assert (Hrests : merger_rests files m1 = <[i := tl]> (merger_rests files m)).
    { unfold merger_rests. subst m1 tl. cbn. by rewrite <- insert_zip_with. }
    assert (Hinv1 : merger_inv pred files m1).
    { split; [subst m1; cbn; by rewrite !length_insert|].
      split; [subst m1; cbn; by apply NoDup_cons|].
      split.
      - intros x j Hx. rewrite Hrests. subst m1. cbn in Hx.
        apply elem_of_cons in Hx as [[= -> ->]|Hx].
        + exists tl. split.
          * apply list_lookup_insert_eq. by eapply lookup_lt_Some.
          * rewrite Hstep in Hsorted. by apply StronglySorted_inv in Hsorted as [? _].
        + destruct (Hsub _ _ Hx) as [Hx' Hji].
          destruct (Hent _ _ Hx') as (rj & Hrj & Hsj).
          exists rj. split; [|done]. by rewrite list_lookup_insert_ne.
      - intros j rj. rewrite Hrests. subst m1. cbn. intros Hj Hnin.
        assert (j ≠ i) by (intros ->; apply Hnin; left).
        rewrite list_lookup_insert_ne in Hj by done.
        by apply (Hdead j rj Hj), Hidx. }
    assert (Hpend : merger_pending files m ≡ₚ el :: merger_pending files m1).
    { unfold merger_pending. rewrite Hrests. subst m1. cbn.
      rewrite Hperm. cbn.
      rewrite (concat_insert_tail _ i y tl) by (by rewrite Hri, Hstep).
      by rewrite <- Permutation_middle. }
    destruct (merger_settle files m1 Hinv1) as (Hinv' & Hpend' & Hrl' & Hfiles').
    eexists el, _. split; [reflexivity|].
    split; [exact Hinv'|]. rewrite Hpend'.
    split; [exact Hpend|].
    split; [rewrite Hpend in Hleast; by apply Forall_cons in Hleast as [_ ?]|].
    split; [by rewrite Hrl'|].
    etrans; [exact Hfiles'|]. subst m1. cbn.
    intros f [fs0 [-> Hfs0]]%list_elem_of_fmap.
    apply list_elem_of_lookup in Hfs0 as [j Hj].
    destruct (decide (i = j)) as [->|Hij].
    + rewrite list_lookup_insert_eq in Hj by (by eapply lookup_lt_Some).
      injection Hj as <-. apply list_elem_of_fmap. exists fs.
      split; [done|]. by eapply list_elem_of_lookup_2.
    + rewrite list_lookup_insert_ne in Hj by done.
      apply list_elem_of_fmap. exists fs0.
      split; [done|]. by eapply list_elem_of_lookup_2.
  - rewrite !bind_Done_l.
    pose proof (stream_rest_done _ _ _ _ Hmore) as Hnil.
    set (m1 := {| pq := rest; m_in := m_in m; itemsRead := itemsRead m;
                  m_runLength := m_runLength m |}).
    assert (Hinv1 : merger_inv pred files m1).
    { split; [done|]. split; [done|]. split.
      - intros x j Hx. destruct (Hsub _ _ Hx) as [Hx' _]. by apply Hent.
      - intros j rj Hj Hnin. change (merger_rests files m1)
          with (merger_rests files m) in Hj.
        destruct (decide (j = i)) as [->|Hji].
        + rewrite Hri in Hj. injection Hj as <-. exact Hnil.
        + apply (Hdead j rj Hj), Hidx. subst m1; cbn in Hnin.
          by intros [?|?]%elem_of_cons. }
    assert (Hpend : merger_pending files m ≡ₚ el :: merger_pending files m1).
    { unfold merger_pending. change (merger_rests files m1)
        with (merger_rests files m). subst m1. cbn.
      by rewrite Hperm. }
    destruct (merger_settle files m1 Hinv1) as (Hinv' & Hpend' & Hrl' & Hfiles').
    eexists el, _. split; [reflexivity|].
    split; [exact Hinv'|]. rewrite Hpend'.
    split; [exact Hpend|].
    split; [rewrite Hpend in Hleast; by apply Forall_cons in Hleast as [_ ?]|].
    split; [by rewrite Hrl'|]. exact Hfiles'.
Qed.

End Merger.

(** ** Merging runs into a temp file *)

Section MergeLoop.

Context {T : Type}.
Variable pred : T → T → bool.
Hypothesis pred_asym : ∀ a b, pred a b = true → pred b a = false.
Hypothesis pred_negtrans :
  ∀ a b c, pred b a = false → pred c b = false → pred c a = false.

Local Abbreviation le := (item_le pred).
Implicit Types (files : list (list T)) (m : merger (T:=T)) (fs : file_stream).
Implicit Types (s : merge_sorter (T:=T)).

(** Writing to a temp file the merger does not read leaves the merger's
    view of its inputs alone. *)
Lemma merger_rests_frame files m idx c :
  idx ∉ fs_file <$> m_in m →
  merger_rests (<[idx := c]> files) m = merger_rests files m.
Proof.
  unfold merger_rests. generalize (itemsRead m).
  induction (m_in m) as [|fs ins IH]; intros ks Hidx; [done|].
  destruct ks as [|k ks]; [done|]. cbn.
  apply not_elem_of_cons in Hidx as [Hne Hidx]. f_equal; [|by apply IH].
  unfold stream_rest. by rewrite list_lookup_total_insert_ne.
Qed.

Lemma merger_pending_frame files m idx c :
  idx ∉ fs_file <$> m_in m →
  merger_pending (<[idx := c]> files) m = merger_pending files m.
Proof. intros H. unfold merger_pending. by rewrite merger_rests_frame. Qed.

Lemma merger_inv_frame files m idx c :
  idx ∉ fs_file <$> m_in m →
  merger_inv pred files m → merger_inv pred (<[idx := c]> files) m.
Proof. intros H. unfold merger_inv. by rewrite merger_rests_frame. Qed.

Lemma sorter_eta s : set_runFiles (m_runFiles s) (set_merger (m_merger s) s) = s.
Proof. by destruct s. Qed.

(** The loop of [merge_runs] appends the pending items, in sorted order, to
    the output file and leaves the merger empty. *)
Lemma merge_runs_loop_spec fuel out s :
  merger_inv pred (m_runFiles s) (m_merger s) →
  fs_file out ∉ fs_file <$> m_in (m_merger s) →
  fs_file out < length (m_runFiles s) →
  fs_offset out = length (m_runFiles s !!! fs_file out) →
  length (merger_pending (m_runFiles s) (m_merger s)) ≤ fuel →
  ∃ outl m',
    merge_runs_loop pred fuel out s
    = Done (set_runFiles
              (<[fs_file out := m_runFiles s !!! fs_file out ++ outl]>
                 (m_runFiles s))
              (set_merger m' s))
    ∧ pq m' = []
    ∧ outl ≡ₚ merger_pending (m_runFiles s) (m_merger s)
    ∧ StronglySorted le outl.
Proof.
  revert out s. induction fuel as [|fuel IH]; intros out s Hinv Hout Hlt Hoff Hfuel.
  all: destruct (pq (m_merger s)) as [|e h] eqn:Hpq.
  all: try (exists [], (m_merger s);
            assert (Hcp : merger_can_pull (m_merger s) = false)
              by (unfold merger_can_pull; by rewrite Hpq);
            (split; [|split; [done|split; [|constructor]]]);
            [ cbn [merge_runs_loop]; rewrite Hcp;
              rewrite app_nil_r, list_insert_id
                by (by apply list_lookup_lookup_total_lt);
              by rewrite sorter_eta
            | unfold merger_pending; rewrite Hpq;
              by rewrite (merger_inv_empty _ _ _ Hinv Hpq) ]; fail).
  - exfalso. unfold merger_pending in Hfuel. rewrite Hpq in Hfuel.
    cbn in Hfuel. lia.
  - assert (Hne : pq (m_merger s) ≠ []) by (by rewrite Hpq).
    destruct (merger_pull_spec pred pred_asym pred_negtrans _ _ Hinv Hne)
      as (x & m1 & Hpull & Hinv1 & Hpend & Hleast & Hrl & Hsub).
    assert (Hcp : merger_can_pull (m_merger s) = true)
      by (unfold merger_can_pull; by rewrite Hpq).
    cbn [merge_runs_loop]. rewrite Hcp, Hpull, bind_Done_l.
    cbv beta iota. unfold fs_write. rewrite Hoff.
    destruct (decide (_ < _)) as [?|_]; [lia|].
    set (c := m_runFiles s !!! fs_file out).
    set (files1 := <[fs_file out := c ++ [x]]> (m_runFiles s)).
    set (out1 := {| fs_file := fs_file out; fs_offset := S (length c) |}).
    set (s1 := set_runFiles files1 (set_merger m1 s)).
    assert (Hout1 : fs_file out ∉ fs_file <$> m_in m1)
      by (intros Hin; by apply Hout, Hsub).
    assert (Hget : files1 !!! fs_file out = c ++ [x])
      by (subst files1; by apply list_lookup_total_insert_eq).
    destruct (IH out1 s1) as (outl & m' & Hrun & Hpq' & Hperm & Hsorted).
    + subst s1. cbn. by apply merger_inv_frame.
    + done.
    + subst s1 files1. cbn. by rewrite length_insert.
    + subst s1 out1. cbn. rewrite Hget, length_app. cbn. lia.
    + subst s1. cbn. subst files1. rewrite merger_pending_frame by done.
      apply Permutation_length in Hpend. cbn in Hpend. lia.
    + exists (x :: outl), m'. rewrite Hrun.
      subst s1 out1. cbn [m_runFiles set_runFiles set_merger fs_file].
      cbn [m_runFiles m_merger set_runFiles set_merger] in Hperm.
      subst files1. rewrite merger_pending_frame in Hperm by done.
      split; [|split; [done|split]].
      * f_equal. rewrite list_lookup_total_insert_eq by done.
        rewrite list_insert_insert_eq, <- app_assoc. done.
      * by rewrite Hpend, Hperm.
      * constructor; [done|]. by rewrite Hperm.
Qed.

End MergeLoop.

(** ** Handing runs to the merger *)

Section MergerReset.

Context {T : Type}.
Variable pred : T → T → bool.

Local Abbreviation le := (item_le pred).
Implicit Types (files : list (list T)) (m : merger (T:=T)) (fs : file_stream).

Lemma stream_run_head files limit fs x rest :
  stream_run files limit fs = x :: rest →
  fs_read files fs = Done (x, advance fs)
  ∧ rest = stream_rest files limit (advance fs) 1.
Proof.
  unfold stream_run, stream_rest, fs_read, advance. cbn [fs_file fs_offset].
  destruct limit as [|limit]; [done|].
  destruct (drop (fs_offset fs) (files !!! fs_file fs)) as [|y tl] eqn:Hdrop;
    [done|].
  cbn [take]. intros [= -> <-].
  assert (Hx : (files !!! fs_file fs) !! fs_offset fs = Some x).
  { rewrite <- (Nat.add_0_r (fs_offset fs)), <- lookup_drop. by rewrite Hdrop. }
  rewrite Hx. split; [done|].
  rewrite (drop_S _ _ _ Hx) in Hdrop. injection Hdrop as <-.
  f_equal. lia.
Qed.

Lemma merger_fill_spec files limit i0 (ins : list file_stream) :
  Forall (λ fs, stream_run files limit fs ≠ []) ins →
  ∃ h, merger_fill files i0 ins = Done (h, advance <$> ins)
       ∧ h.*2 = seq i0 (length ins)
       ∧ Forall2 (λ e fs, stream_run files limit fs
                          = e.1 :: stream_rest files limit (advance fs) 1)
           h ins.
Proof.
  revert i0. induction ins as [|fs ins IH]; intros i0 Hne.
  - exists []. by repeat split.
  - apply Forall_cons in Hne as [Hfs Hne].
    destruct (stream_run files limit fs) as [|x rest] eqn:Hrun; [done|].
    destruct (stream_run_head _ _ _ _ _ Hrun) as [Hread ->].
    destruct (IH (S i0) Hne) as (h & Hfill & Hidx & Hall).
    exists ((x, i0) :: h). cbn [merger_fill].
    rewrite Hread, bind_Done_l. cbv beta iota.
    rewrite Hfill, bind_Done_l. cbv beta iota.
    split; [done|]. split; [cbn; by rewrite Hidx|].
    by constructor.
Qed.

Lemma reset_rests files limit (ins : list file_stream) :
  zip_with (stream_rest files limit) (advance <$> ins)
    (replicate (length ins) 1)
  = (λ fs, stream_rest files limit (advance fs) 1) <$> ins.
Proof. induction ins as [|fs ins IH]; [done|]. cbn. by rewrite IH. Qed.

Lemma reset_pending (h : list (T * nat)) ins files limit :
  Forall2 (λ e fs, stream_run files limit fs
                   = e.1 :: stream_rest files limit (advance fs) 1) h ins →
  h.*1 ++ concat ((λ fs, stream_rest files limit (advance fs) 1) <$> ins)
  ≡ₚ concat (stream_run files limit <$> ins).
Proof.
  induction 1 as [|e fs h ins Hhd _ IH]; [done|].
  cbn. rewrite Hhd. cbn. f_equiv.
  rewrite <- IH. rewrite !app_assoc. f_equiv. apply Permutation_app_comm.
Qed.

(** [merger::reset(inputs, runLength)] on readers positioned at non-empty
    sorted runs: the merger holds exactly the items of those runs. *)
Lemma merger_reset_spec files limit (ins : list file_stream) m :
  pq m = [] →
  Forall (λ fs, stream_run files limit fs ≠ []
                ∧ StronglySorted le (stream_run files limit fs)) ins →
  ∃ m', merger_reset files ins limit m = Done m'
        ∧ merger_inv pred files m'
        ∧ merger_pending files m' ≡ₚ concat (stream_run files limit <$> ins)
        ∧ m_in m' = advance <$> ins.
Proof.
  intros Hpq Hruns. unfold merger_reset.
  assert (Hcp : merger_can_pull m = false)
    by (unfold merger_can_pull; by rewrite Hpq).
  rewrite Hcp. cbn [negb tp_assert]. rewrite bind_Done_l.
  destruct (merger_fill_spec files limit 0 ins) as (h & Hfill & Hidx & Hall).
  { eapply Forall_impl; [exact Hruns|]. by intros fs [? _]. }
  rewrite Hfill, bind_Done_l. cbv beta iota.
  eexists. split; [reflexivity|].
  assert (Hrests : merger_rests files
                     {| pq := h; m_in := advance <$> ins;
                        itemsRead := replicate (length ins) 1;
                        m_runLength := limit |}
                   = (λ fs, stream_rest files limit (advance fs) 1) <$> ins).
  { unfold merger_rests. cbn. apply reset_rests. }
  split; [|split; [|done]].
  - split; [cbn; by rewrite length_fmap, length_replicate|].
    split; [cbn; rewrite Hidx; apply NoDup_seq|].
    rewrite Hrests. cbn [pq]. split.
    + intros x i Hin. apply list_elem_of_lookup in Hin as [j Hj].
      assert (Hi : h.*2 !! j = Some i) by (by rewrite list_lookup_fmap, Hj).
      rewrite Hidx in Hi. apply lookup_seq in Hi as [-> Hlt]. cbn in Hj.
      destruct (Forall2_lookup_l _ _ _ _ _ Hall Hj) as (fs & Hfs & Hrun).
      exists (stream_rest files limit (advance fs) 1). cbn [Nat.add].
      split; [by rewrite list_lookup_fmap, Hfs|].
      cbn in Hrun. rewrite <- Hrun.
      by apply (proj1 (Forall_lookup _ _) Hruns j fs Hfs).
    + intros i rest Hi Hnin. exfalso. apply Hnin. rewrite Hidx.
      apply elem_of_seq. apply lookup_lt_Some in Hi.
      rewrite length_fmap in Hi. lia.
  - unfold merger_pending. rewrite Hrests. cbn [pq]. by apply reset_pending.
Qed.

End MergerReset.

(** ** The layout of runs in the temp files *)

Section Layout.

Context {T : Type}.
Implicit Types (files : list (list T)) (rs : list (list T)).
Implicit Types (params : sort_parameters).

Lemma same_file_gap f r R : 0 < f → r < R → r mod f = R mod f → r + f ≤ R.
Proof.
  intros Hf Hlt Hmod.
  pose proof (Nat.div_mod_eq r f). pose proof (Nat.div_mod_eq R f).
  pose proof (Nat.mod_upper_bound r f ltac:(lia)).
  assert (r / f < R / f) by nia. nia.
Qed.

Lemma previous_in_file f R :
  0 < f → f ≤ R →
  (R - f) mod f = R mod f ∧ S ((R - f) / f) = R / f.
Proof.
  intros Hf Hle.
  replace R with ((R - f) + 1 * f) at 2 4 by lia.
  rewrite Nat.Div0.mod_add, Nat.div_add by lia. lia.
Qed.

Lemma run_file_same_level params L r r' :
  run_file params L r = run_file params L r'
  ↔ r mod fanout params = r' mod fanout params.
Proof. unfold run_file. lia. Qed.

Lemma run_file_other_bank params L L' r r' :
  0 < fanout params → L mod 2 ≠ L' mod 2 →
  run_file params L r ≠ run_file params L' r'.
Proof.
  intros Hf Hpar. unfold run_file.
  pose proof (Nat.mod_upper_bound r (fanout params) ltac:(lia)).
  pose proof (Nat.mod_upper_bound r' (fanout params) ltac:(lia)).
  pose proof (Nat.mod_upper_bound L 2 ltac:(lia)).
  pose proof (Nat.mod_upper_bound L' 2 ltac:(lia)).
  nia.
Qed.

Lemma run_file_lt params L r :
  0 < fanout params → run_file params L r < 2 * fanout params.
Proof. apply run_file_index_lt. Qed.

Lemma runs_stored_nil params files L : runs_stored params files L [].
Proof. by intros r run ?. Qed.

(** Appending run number [length rs] to its temp file, which is emptied
    first when the run is the first one of the file, stores the run and
    disturbs none of the earlier ones. *)
Lemma runs_stored_append params files L rs (new : list T) :
  0 < fanout params →
  runs_stored params files L rs →
  Forall (λ run, length run = level_run_length params L) rs →
  run_file params L (length rs) < length files →
  runs_stored params
    (<[run_file params L (length rs)
       := (if decide (length rs < fanout params) then []
           else files !!! run_file params L (length rs)) ++ new]> files)
    L (rs ++ [new]).
Proof.
  intros Hf Hstored Hfull Hidx r run Hr.
  set (R := length rs) in *. set (f := fanout params) in *.
  rewrite length_app. cbn [length]. fold R.
  apply lookup_app_Some in Hr as [Hr|[HrR Hr]].
  - assert (r < R) by (by eapply lookup_lt_Some).
    destruct (Hstored r run Hr) as (post & (pre & Hfile & Hpre) & Hlast).
    destruct (decide (r mod f = R mod f)) as [Hsame|Hdiff].
    + pose proof (same_file_gap f r R Hf ltac:(done) Hsame).
      exists (post ++ new). split; [|lia].
      exists pre. split; [|done].
      assert (Heq : run_file params L R = run_file params L r)
        by (by apply run_file_same_level).
      rewrite Heq in *. rewrite list_lookup_insert_eq by done.
      destruct (decide (R < f)); [lia|].
      rewrite (list_lookup_total_correct _ _ _ Hfile).
      by rewrite <- !app_assoc.
    + exists post. split; [|intros ?; apply Hlast; lia].
      exists pre. split; [|done].
      rewrite list_lookup_insert_ne; [done|].
      by intros ?%run_file_same_level.
  - fold R in HrR. assert (r = R) as -> by (apply list_lookup_singleton_Some in Hr; lia).
    apply list_lookup_singleton_Some in Hr as [_ <-].
    exists []. split; [|done].
    eexists. split; [rewrite app_nil_r; by apply list_lookup_insert_eq|].
    unfold run_offset. fold f.
    destruct (decide (R < f)) as [Hlt|Hge].
    + rewrite Nat.div_small by done. cbn. lia.
    + destruct (previous_in_file f R Hf ltac:(lia)) as [Hmod Hdiv].
      assert (Hprev : R - f < R) by lia.
      destruct (lookup_lt_is_Some_2 rs (R - f) Hprev) as [run0 Hrun0].
      destruct (Hstored _ _ Hrun0) as (post & (pre & Hfile & Hpre) & Hlast).
      rewrite (Hlast ltac:(lia)), app_nil_r in Hfile.
      assert (Heq : run_file params L (R - f) = run_file params L R)
        by (by apply run_file_same_level).
      rewrite Heq in Hfile.
      rewrite (list_lookup_total_correct _ _ _ Hfile), length_app, Hpre.
      rewrite (proj1 (Forall_lookup _ _) Hfull _ _ Hrun0).
      unfold run_offset. fold f. rewrite <- Hdiv. lia.
Qed.

(** Writing to a temp file of the other bank disturbs no run of this
    level. *)
Lemma runs_stored_frame params files L rs idx c :
  (∀ r, run_file params L r ≠ idx) →
  runs_stored params files L rs →
  runs_stored params (<[idx := c]> files) L rs.
Proof.
  intros Hidx Hstored r run Hr.
  destruct (Hstored r run Hr) as (post & (pre & Hfile & Hpre) & Hlast).
  exists post. split; [|done]. exists pre. split; [|done].
  by rewrite list_lookup_insert_ne.
Qed.

Lemma stream_run_stored params files L r run post limit :
  run_stored params files L r run post →
  stream_run files limit
    {| fs_file := run_file params L r; fs_offset := run_offset params L r |}
  = take limit (run ++ post).
Proof.
  intros (pre & Hfile & Hpre). unfold stream_run. cbn [fs_file fs_offset].
  rewrite (list_lookup_total_correct _ _ _ Hfile).
  by rewrite drop_app_length'.
Qed.

Lemma full_runs_length rl rs r :
  runs_full rl rs → r < length rs → rl * r ≤ length (concat rs).
Proof.
  intros Hfull Hr.
  assert (Hgen : ∀ k, k < length rs → length (concat (take k rs)) = rl * k).
  { induction k as [|k IH]; intros Hk; [rewrite take_0; cbn; lia|].
    destruct (lookup_lt_is_Some_2 rs k ltac:(lia)) as [run Hrun].
    rewrite (take_S_r _ _ _ Hrun), concat_app, length_app, IH by lia.
    destruct (Hfull k run Hrun) as [_ Hlen]. cbn [concat].
    rewrite app_nil_r, Hlen by lia. lia. }
  rewrite <- (take_drop r rs), concat_app, length_app.
  rewrite Hgen by done. lia.
Qed.

(** A reader is opened on a stored run at the run's offset. *)
Lemma open_run_file_read_stored params files L r run post :
  0 < fanout params →
  SizeT.fits (2 * fanout params) →
  SizeT.fits (level_run_length params L) →
  SizeT.fits (run_offset params L r) →
  run_stored params files L r run post →
  open_run_file_read params files L r
  = Done {| fs_file := run_file params L r;
            fs_offset := run_offset params L r |}.
Proof.
  intros Hf Hfit2 Hfitrl Hfitoff (pre & Hfile & Hpre).
  unfold open_run_file_read.
  rewrite run_file_index_exact by done. rewrite bind_Done_l.
  fold (run_file params L r). unfold at_. rewrite Hfile, bind_Done_l.
  rewrite calculate_run_length_exact by done.
  fold (level_run_length params L).
  rewrite SizeT_mul_small by done. fold (run_offset params L r).
  unfold fs_seek, fs_size. cbn [fs_file fs_offset].
  rewrite (list_lookup_total_correct _ _ _ Hfile).
  destruct (decide _) as [_|Hn]; [done|].
  rewrite length_app in Hn. lia.
Qed.

End Layout.


(** ** Phase 2: forming runs *)

Section RunFormation.

Context {T : Type}.
Variable T_default : T.
Variable pred : T → T → bool.
Variable parallel_sort : list T → list T.
Hypothesis parallel_sort_perm : ∀ l, parallel_sort l ≡ₚ l.
Hypothesis parallel_sort_sorted :
  ∀ l, StronglySorted (item_le pred) (parallel_sort l).

Local Abbreviation le := (item_le pred).
Implicit Types (s : merge_sorter (T:=T)) (rs : list (list T)).
Implicit Types (params : sort_parameters).

Lemma sortable_fits params n k :
  sortable params n →
  k ≤ fanout params * (runLength params + n + 2) →
  SizeT.fits k.
Proof. intros (_ & _ & _ & Hfit) Hk. by eapply SizeT_fits_le. Qed.

Lemma level_run_length_0 params : level_run_length params 0 = runLength params.
Proof. unfold level_run_length. rewrite Nat.pow_0_r. lia. Qed.

Lemma level_run_length_S params L :
  level_run_length params (S L) = fanout params * level_run_length params L.
Proof. unfold level_run_length. rewrite Nat.pow_succ_r'. lia. Qed.

Lemma begin_forming s n :
  m_parametersSet s = true →
  pq (m_merger s) = [] →
  sortable (p s) n →
  ∃ s0, begin T_default s = Done s0 ∧ forming pred (p s) s0 [] [].
Proof.
  intros Hset Hpq Hok. unfold begin. rewrite Hset. cbn [tp_assert].
  rewrite bind_Done_l. eexists. split; [reflexivity|].
  pose proof Hok as (Hrl & Hf & _).
  repeat split; cbn; try done.
  - rewrite length_replicate, SizeT_mul_small; [lia|].
    eapply sortable_fits; [done|nia].
  - by rewrite length_replicate.
  - lia.
Qed.

Lemma take_store {A} (l : list A) n x :
  n < length l → take (S n) (<[n := x]> l) = take n l ++ [x].
Proof.
  intros Hn. rewrite (take_S_r _ _ x) by (by apply list_lookup_insert_eq).
  by rewrite take_insert_ge.
Qed.

(** One [push]: either the item joins the buffer, or the full buffer is
    sorted and spilled as the next run and the item starts a new buffer. *)
Lemma push_forming params n s rs buf x :
  sortable params n →
  length rs ≤ n →
  forming pred params s rs buf →
  ∃ s' rs' buf',
    push parallel_sort x s = Done s'
    ∧ forming pred params s' rs' buf'
    ∧ concat rs' ++ buf' ≡ₚ (concat rs ++ buf) ++ [x]
    ∧ length rs' ≤ S (length rs).
Proof.
  intros Hok Hn (Hp & Hset & Hpq & Hfiles & Hlen & Hcount & Hbuf & Htake
                 & Hruns & Hstored & Hfull & Hnonempty).
  pose proof Hok as (Hrl & Hf & _).
  unfold push. rewrite Hset. cbn [tp_assert]. rewrite bind_Done_l.
  rewrite Hp, Hcount.
  destruct (decide (runLength params ≤ length buf)) as [Hspill|Hroom].
  - assert (Hbuflen : length buf = runLength params) by lia.
    unfold sort_current_run. rewrite Hcount, Hlen.
    destruct (decide (length buf ≤ runLength params)) as [_|?]; [|lia].
    rewrite bind_Done_l, Htake.
    set (sorted := parallel_sort buf).
    assert (Hsl : length sorted = runLength params)
      by (subst sorted; by rewrite parallel_sort_perm).
    rewrite empty_current_run_exact; cbn [p set_currentRunItems m_runFiles
      m_currentRunItemCount m_currentRunItems]; rewrite ?Hp, ?Hfiles, ?Hcount.
    2: lia.
    2: eapply sortable_fits; [done|nia].
    2: lia.
    2: rewrite length_app; lia.
    rewrite bind_Done_l.
    cbn [m_currentRunItemCount m_currentRunItems set_finishedRuns
         set_currentRunItemCount set_runFiles set_currentRunItems
         m_finishedRuns].
    rewrite length_app, length_drop, Hsl, Hlen.
    destruct (decide (0 < _)) as [_|?]; [|lia].
    eexists _, (rs ++ [sorted]), [x]. split; [reflexivity|].
    split; [|split].
    + repeat split; cbn; try done.
      * unfold spilled_files. cbn. by rewrite length_insert.
      * rewrite length_insert, length_app, length_drop. lia.
      * destruct (sorted ++ _) eqn:Heq; [|done].
        apply (f_equal length) in Heq. rewrite length_app in Heq. cbn in Heq. lia.
      * rewrite length_app. cbn. lia.
      * unfold spilled_files. cbn [p set_currentRunItems m_runFiles
          m_finishedRuns m_currentRunItemCount m_currentRunItems].
        rewrite Hp, Hruns, Hcount, take_app_length' by lia.
        apply runs_stored_append; [lia|done| |].
        -- eapply Forall_impl; [exact Hfull|]. intros run [Hl _].
           by rewrite level_run_length_0.
        -- pose proof (run_file_lt params 0 (length rs) ltac:(lia)). lia.
      * apply Forall_app. split; [done|].
        constructor; [|done]. split; [done|]. apply parallel_sort_sorted.
    + rewrite concat_app. cbn. rewrite app_nil_r. subst sorted.
      by rewrite parallel_sort_perm.
    + rewrite length_app. cbn. lia.
  - rewrite bind_Done_l, Hcount, Hlen.
    destruct (decide (length buf < runLength params)) as [_|?]; [|lia].
    eexists _, rs, (buf ++ [x]). split; [reflexivity|].
    split; [|split; [by rewrite app_assoc|lia]].
    repeat split; cbn; try done.
    + by rewrite length_insert.
    + rewrite length_app. cbn. lia.
    + rewrite length_app. cbn. lia.
    + rewrite length_app. cbn. rewrite Nat.add_1_r.
      rewrite take_store by lia. by rewrite Htake.
    + by destruct buf.
Qed.

Lemma push_all_forming params n items s rs buf :
  sortable params n →
  length rs + length items ≤ n →
  forming pred params s rs buf →
  ∃ s' rs' buf',
    push_all parallel_sort items s = Done s'
    ∧ forming pred params s' rs' buf'
    ∧ concat rs' ++ buf' ≡ₚ (concat rs ++ buf) ++ items.
Proof.
  intros Hok. revert s rs buf.
  induction items as [|x items IH]; intros s rs buf Hn Hform.
  - exists s, rs, buf. by rewrite app_nil_r.
  - cbn [length] in Hn.
    destruct (push_forming params n s rs buf x Hok ltac:(lia) Hform)
      as (s1 & rs1 & buf1 & Hpush & Hform1 & Hperm1 & Hlen1).
    destruct (IH s1 rs1 buf1 ltac:(lia) Hform1)
      as (s' & rs' & buf' & Hrun & Hform' & Hperm').
    exists s', rs', buf'. cbn [push_all]. rewrite Hpush, bind_Done_l.
    split; [done|]. split; [done|].
    rewrite Hperm', Hperm1. by rewrite <- app_assoc.
Qed.

End RunFormation.


(** ** Phase 3: merging one group of runs *)

Section MergeRuns.

Context {T : Type}.
Variable pred : T → T → bool.
Hypothesis pred_asym : ∀ a b, pred a b = true → pred b a = false.
Hypothesis pred_negtrans :
  ∀ a b c, pred b a = false → pred c b = false → pred c a = false.

Local Abbreviation le := (item_le pred).
Implicit Types (s : merge_sorter (T:=T)) (rs : list (list T)).
Implicit Types (files : list (list T)) (params : sort_parameters).

Lemma mapM_Done {A B} (f : A → outcome B) (g : A → B) (l : list A) :
  (∀ x, x ∈ l → f x = Done (g x)) → mapM f l = Done (g <$> l).
Proof.
  induction l as [|x l IH]; intros Hf; [done|].
  cbn [mapM]. rewrite (Hf x) by left. rewrite bind_Done_l.
  rewrite IH by (intros y Hy; apply Hf; by right).
  done.
Qed.

Lemma same_sorter_refl s : same_sorter s s.
Proof. exists (m_runFiles s), (m_merger s). by rewrite sorter_eta. Qed.

Lemma same_sorter_trans s1 s2 s3 :
  same_sorter s1 s2 → same_sorter s2 s3 → same_sorter s1 s3.
Proof. intros (f1 & m1 & ->) (f2 & m2 & ->). by exists f2, m2. Qed.

Lemma concat_sublist_length rs rn cnt :
  length (concat (take cnt (drop rn rs))) ≤ length (concat rs).
Proof.
  rewrite <- (take_drop rn rs) at 2.
  rewrite <- (take_drop cnt (drop rn rs)) at 2.
  rewrite !concat_app, !length_app. lia.
Qed.

Lemma run_offset_le params L rs r :
  runs_full (level_run_length params L) rs →
  r < length rs →
  run_offset params L r ≤ length (concat rs).
Proof.
  intros Hfull Hr. unfold run_offset.
  etrans; [|by eapply full_runs_length].
  apply Nat.mul_le_mono_l.
  destruct (fanout params) as [|f]; [rewrite Nat.div_0_r; lia|].
  apply Nat.Div0.div_le_upper_bound. nia.
Qed.

(** What a reader limited to the run length of the level gets from a
    stored run is the run. *)
Lemma stored_run_read params files L rs r run :
  0 < fanout params →
  runs_stored params files L rs →
  runs_full (level_run_length params L) rs →
  rs !! r = Some run →
  stream_run files (level_run_length params L) (run_reader params L r) = run.
Proof.
  intros Hf Hstored Hfull Hr.
  destruct (Hstored r run Hr) as (post & Hrun & Hlast).
  destruct (Hfull r run Hr) as [Hlen Hfullr].
  unfold run_reader. rewrite (stream_run_stored _ _ _ _ _ _ _ Hrun).
  destruct (decide (S r < length rs)) as [Hmid|Hend].
  - by rewrite take_app_length' by (by rewrite Hfullr).
  - apply lookup_lt_Some in Hr as Hlt.
    rewrite (Hlast ltac:(lia)), app_nil_r. apply take_ge. lia.
Qed.

(** The same when the temp file holds nothing after the run and the limit
    is at least the run's length. *)
Lemma stored_run_read_alone params files L r run limit :
  run_stored params files L r run [] →
  length run ≤ limit →
  stream_run files limit (run_reader params L r) = run.
Proof.
  intros Hrun Hlen. unfold run_reader.
  rewrite (stream_run_stored _ _ _ _ _ _ _ Hrun), app_nil_r.
  by apply take_ge.
Qed.

Lemma open_runs_stored params files L rn (indices : list nat) :
  0 < fanout params →
  SizeT.fits (2 * fanout params) →
  SizeT.fits (level_run_length params L) →
  (∀ i, i ∈ indices →
     SizeT.fits (rn + i)
     ∧ SizeT.fits (run_offset params L (rn + i))
     ∧ ∃ run post, run_stored params files L (rn + i) run post) →
  open_runs params files L rn indices
  = Done ((λ i, run_reader params L (rn + i)) <$> indices).
Proof.
  intros Hf Hfit2 Hfitrl Hall. unfold open_runs. apply mapM_Done.
  intros i Hi. destruct (Hall i Hi) as (Hfiti & Hfito & run & post & Hrun).
  rewrite SizeT_add_small by done.
  by eapply open_run_file_read_stored.
Qed.

Lemma group_runs params files L rs rn cnt :
  0 < fanout params →
  runs_stored params files L rs →
  runs_full (level_run_length params L) rs →
  rn + cnt ≤ length rs →
  stream_run files (level_run_length params L)
    <$> ((λ i, run_reader params L (rn + i)) <$> seq 0 cnt)
  = take cnt (drop rn rs).
Proof.
  intros Hf Hstored Hfull Hle. apply list_eq. intros i.
  rewrite !list_lookup_fmap.
  destruct (decide (i < cnt)) as [Hi|Hi].
  - rewrite lookup_seq_lt by done. cbn.
    rewrite lookup_take_lt, lookup_drop by done.
    destruct (lookup_lt_is_Some_2 rs (rn + i) ltac:(lia)) as [run Hrun].
    rewrite Hrun. f_equal. by eapply stored_run_read.
  - rewrite lookup_seq_ge by lia. cbn.
    by rewrite lookup_take_ge by lia.
Qed.


Lemma runs_full_count rl rs : runs_full rl rs → length rs ≤ length (concat rs).
Proof.
  intros Hfull.
  assert (Hpos : Forall (λ run, 0 < length run) rs).
  { apply Forall_lookup. intros r run Hr. by destruct (Hfull r run Hr) as [[? _] _]. }
  clear Hfull. induction Hpos as [|run rs Hrun _ IH]; [done|].
  cbn. rewrite length_app. lia.
Qed.

Lemma sortable_fanout params n : sortable params n → 0 < fanout params.
Proof. intros (_ & ? & _). lia. Qed.

Lemma sortable_fits_2f params n : sortable params n → SizeT.fits (2 * fanout params).
Proof. intros Hok. eapply sortable_fits; [done|nia]. Qed.

(** [merge_runs]: the [cnt] runs from run [rn] of level [L] on are merged
    into one sorted run, written as the next run of level [L + 1]; the runs
    of level [L] stay where they are. *)
Lemma merge_runs_spec params n fuel s L rs rs' rn cnt :
  sortable params n →
  length (concat rs) ≤ n →
  length (concat rs) ≤ fuel →
  SizeT.fits (level_run_length params L) →
  level_inv pred params s L rs →
  runs_stored params (m_runFiles s) (S L) rs' →
  Forall (λ run, length run = level_run_length params (S L)) rs' →
  rn / fanout params = length rs' →
  rn + cnt ≤ length rs →
  ∃ out s',
    merge_runs pred fuel L rn cnt s = Done (length rs', s')
    ∧ same_sorter s s'
    ∧ level_inv pred params s' L rs
    ∧ runs_stored params (m_runFiles s') (S L) (rs' ++ [out])
    ∧ out ≡ₚ concat (take cnt (drop rn rs))
    ∧ StronglySorted le out.
Proof.
  intros Hok Hn Hfuel Hfitrl (Hp & Hpq & Hfiles & Hstored & Hfull & Hsorted)
    Hstored' Hfull' Hnext Hgroup.
  pose proof (sortable_fanout _ _ Hok) as Hf.
  pose proof (sortable_fits_2f _ _ Hok) as Hfit2.
  set (files := m_runFiles s) in *.
  set (readers := (λ i, run_reader params L (rn + i)) <$> seq 0 cnt).
  assert (Hopen : open_runs params files L rn (seq 0 cnt) = Done readers).
  { apply open_runs_stored; try done. intros i Hi%elem_of_seq.
    destruct (lookup_lt_is_Some_2 rs (rn + i) ltac:(lia)) as [run Hrun].
    destruct (Hstored _ _ Hrun) as (post & Hst & _).
    pose proof (run_offset_le params L rs (rn + i) Hfull ltac:(lia)).
    pose proof (runs_full_count _ _ Hfull).
    split; [eapply sortable_fits; [done|nia]|].
    split; [eapply sortable_fits; [done|nia]|]. eauto. }
  unfold merge_runs, initialize_merger. rewrite Hp. fold files.
  rewrite Hopen, bind_Done_l.
  rewrite calculate_run_length_exact by done.
  fold (level_run_length params L).
  assert (Hgroupruns :
    stream_run files (level_run_length params L) <$> readers
    = take cnt (drop rn rs)) by (by apply group_runs).
  destruct (merger_reset_spec pred files (level_run_length params L) readers
              (m_merger s) Hpq) as (m1 & Hreset & Hinv1 & Hpend1 & Hin1).
  { apply (proj1 (Forall_fmap (stream_run files (level_run_length params L))
                     (λ run, run ≠ [] ∧ StronglySorted le run) readers)).
    rewrite Hgroupruns. apply Forall_forall. intros run Hrun.
    assert (run ∈ rs) as [r Hr]%list_elem_of_lookup.
    { by apply (subseteq_drop rn rs), (subseteq_take cnt). }
    split.
    - destruct (Hfull r run Hr) as [? _]. destruct run; [cbn in *; lia|done].
    - by apply (proj1 (Forall_lookup _ _) Hsorted r run Hr). }
  rewrite Hreset, !bind_Done_l. cbn [p set_merger m_runFiles]. rewrite Hp.
  destruct (decide (fanout params = 0)) as [?|_]; [lia|].
  rewrite Hnext. fold files.
  rewrite open_run_file_write_exact by (try done; lia).
  fold (run_file params (S L) (length rs')).
  set (idx := run_file params (S L) (length rs')).
  set (files1 := if decide (length rs' < fanout params)
                 then <[idx := []]> files else files).
  rewrite bind_Done_l. cbv beta iota.
  assert (Hidx : idx < length files)
    by (pose proof (run_file_lt params (S L) (length rs') Hf); lia).
  assert (Hlen1 : length files1 = length files)
    by (subst files1; destruct (decide _); [apply length_insert|done]).
  assert (Hother : ∀ r, run_file params L r ≠ idx).
  { intros r. apply run_file_other_bank; [done|].
    replace (S L) with (1 + L) by done.
    rewrite (Nat.Div0.add_mod 1 L 2).
    pose proof (Nat.mod_upper_bound L 2 ltac:(lia)).
    destruct (L mod 2) as [|[|?]]; [done|done|lia]. }
  assert (Hnotin : idx ∉ fs_file <$> m_in m1).
  { rewrite Hin1. subst readers. rewrite <- !list_fmap_compose.
    intros [i [Heq _]]%list_elem_of_fmap. cbn in Heq.
    by apply (Hother (rn + i)). }
  set (s1 := set_runFiles files1 (set_merger m1 s)).
  destruct (merge_runs_loop_spec pred pred_asym pred_negtrans fuel
              {| fs_file := idx; fs_offset := length (files1 !!! idx) |} s1)
    as (outl & m' & Hloop & Hpq' & Hperm & Hsortedout).
  { subst s1 files1. cbn. destruct (decide _); [|done].
    by apply merger_inv_frame. }
  { done. }
  { subst s1. cbn. lia. }
  { done. }
  { subst s1. cbn.
    assert (merger_pending files1 m1 = merger_pending files m1) as ->.
    { subst files1. destruct (decide _); [|done].
      by apply merger_pending_frame. }
    rewrite Hpend1, Hgroupruns.
    etrans; [apply concat_sublist_length|done]. }
  rewrite Hloop, bind_Done_l.
  assert (Hpend' : merger_pending (m_runFiles s1) (m_merger s1)
                   ≡ₚ concat (take cnt (drop rn rs))).
  { subst s1. cbn.
    assert (merger_pending files1 m1 = merger_pending files m1) as ->.
    { subst files1. destruct (decide _); [|done].
      by apply merger_pending_frame. }
    by rewrite Hpend1, Hgroupruns. }
  set (files2 := <[fs_file _ := _]> (m_runFiles s1)).
  assert (Hfiles2 :
    files2 = <[idx := (if decide (length rs' < fanout params) then []
                       else files !!! idx) ++ outl]> files).
  { subst files2 s1 files1. cbn.
    destruct (decide (length rs' < fanout params)); [|done].
    rewrite list_lookup_total_insert_eq by done.
    by rewrite list_insert_insert_eq. }
  exists outl. eexists. split; [reflexivity|].
  split; [by eexists _, _|].
  split; [|split; [|split; [by rewrite Hperm|done]]].
  - split; [done|]. split; [done|].
    cbn [m_runFiles set_runFiles]. rewrite Hfiles2.
    split; [by rewrite length_insert|].
    split; [by apply runs_stored_frame|done].
  - cbn [m_runFiles set_runFiles]. rewrite Hfiles2.
    by apply runs_stored_append.
Qed.

End MergeRuns.

(** ** Phase 3: merge passes *)

Section MergePasses.

Context {T : Type}.
Variable pred : T → T → bool.
Hypothesis pred_asym : ∀ a b, pred a b = true → pred b a = false.
Hypothesis pred_negtrans :
  ∀ a b c, pred b a = false → pred c b = false → pred c a = false.

Local Abbreviation le := (item_le pred).
Implicit Types (s : merge_sorter (T:=T)) (rs : list (list T)).
Implicit Types (files : list (list T)) (params : sort_parameters).

Lemma level_inv_params params s L rs : level_inv pred params s L rs → p s = params.
Proof. by intros (? & _). Qed.

(** The items of a group of [cnt] runs, none of which is longer than [rl]. *)
Lemma group_length_le rl rs i cnt :
  runs_full rl rs →
  length (concat (take cnt (drop i rs))) ≤ cnt * rl.
Proof.
  intros Hfull. revert i. induction cnt as [|cnt IH]; intros i.
  - by rewrite take_0.
  - destruct (rs !! i) as [run|] eqn:Hrun.
    + rewrite (drop_S _ _ _ Hrun). cbn. rewrite length_app.
      destruct (Hfull i run Hrun) as [[_ ?] _]. specialize (IH (S i)). lia.
    + rewrite drop_ge by (by apply lookup_ge_None). cbn. lia.
Qed.

Lemma group_length_full rl rs i cnt :
  runs_full rl rs →
  i + cnt < length rs →
  length (concat (take cnt (drop i rs))) = cnt * rl.
Proof.
  intros Hfull. revert i. induction cnt as [|cnt IH]; intros i Hlt.
  - by rewrite take_0.
  - destruct (lookup_lt_is_Some_2 rs i ltac:(lia)) as [run Hrun].
    rewrite (drop_S _ _ _ Hrun). cbn. rewrite length_app.
    destruct (Hfull i run Hrun) as [_ Hlen].
    rewrite Hlen, IH by lia. lia.
Qed.

Lemma group_length_pos rl rs i cnt :
  runs_full rl rs → 0 < cnt → i < length rs →
  0 < length (concat (take cnt (drop i rs))).
Proof.
  intros Hfull Hcnt Hi. destruct cnt as [|cnt]; [lia|].
  destruct (lookup_lt_is_Some_2 rs i Hi) as [run Hrun].
  rewrite (drop_S _ _ _ Hrun). cbn. rewrite length_app.
  destruct (Hfull i run Hrun) as [[? _] _]. lia.
Qed.

(** One pass over level [L], from group [g] on: every group of up to
    [fanout] runs becomes one run of level [L + 1]. *)
Lemma prepare_pull_for_spec params n budget L rs fuel s g rs' :
  sortable params n →
  length (concat rs) ≤ n →
  length (concat rs) ≤ budget →
  SizeT.fits (level_run_length params L) →
  level_inv pred params s L rs →
  runs_stored params (m_runFiles s) (S L) rs' →
  Forall (StronglySorted le) rs' →
  runs_full (level_run_length params (S L)) rs' →
  (g * fanout params < length rs →
   Forall (λ run, length run = level_run_length params (S L)) rs') →
  concat rs' ≡ₚ concat (take (g * fanout params) rs) →
  merged_groups (fanout params) rs rs' →
  length rs' = g →
  g * fanout params < length rs + fanout params →
  length rs ≤ fuel + g * fanout params →
  ∃ rs'' s',
    prepare_pull_for pred fuel budget L (length rs) (g * fanout params) g s
    = Done (length rs'', s')
    ∧ same_sorter s s'
    ∧ level_inv pred params s' L rs
    ∧ level_inv pred params s' (S L) rs''
    ∧ concat rs'' ≡ₚ concat rs
    ∧ merged_groups (fanout params) rs rs''
    ∧ length rs ≤ length rs'' * fanout params < length rs + fanout params.
Proof.
  intros Hok Hn Hbudget Hfitrl. revert s g rs'.
  pose proof (sortable_fanout _ _ Hok) as Hf.
  induction fuel as [|fuel IH];
    intros s g rs' Hinv Hstored' Hsorted' Hfull' Hallfull Hperm Hgroups Hlen
      Hg Hfuel.
  all: pose proof Hinv as (Hp & Hpq & Hfiles & Hstored & Hfull & Hsorted).
  all: destruct (decide (g * fanout params < length rs)) as [Hmore|Hdone].
  all: try (exists rs', s; cbn [prepare_pull_for];
            destruct (decide (g * fanout params < length rs)); [lia|];
            rewrite Hlen; split; [done|];
            split; [apply same_sorter_refl|]; split; [done|];
            split; [done|]; split; [by rewrite Hperm, take_ge by lia|];
            split; [done|lia]).
  - cbn [prepare_pull_for].
    destruct (decide (g * fanout params < length rs)) as [_|?]; [|lia].
    pose proof (runs_full_count _ _ Hfull) as Hcount.
    rewrite Hp.
    rewrite SizeT_sub_small; [|lia|eapply sortable_fits; [done|nia]].
    set (i := g * fanout params) in *.
    set (cnt := Nat.min (length rs - i) (fanout params)).
    destruct (merge_runs_spec pred pred_asym pred_negtrans params n budget
                s L rs rs' i cnt) as (out & s1 & Hmerge & Hsame1 & Hinv1
                                      & Hstored1 & Hpermout & Hsortedout);
      try done.
    { by apply Hallfull. }
    { subst i. rewrite Nat.div_mul by lia. done. }
    { subst cnt. lia. }
    rewrite Hlen in Hmerge. rewrite Hmerge, bind_Done_l. cbv beta iota.
    rewrite (level_inv_params _ _ _ _ Hinv1).
    rewrite SizeT_add_small by (eapply sortable_fits; [done|nia]).
    replace (i + fanout params) with (S g * fanout params) by (subst i; lia).
    assert (Hcntpos : 0 < cnt) by (subst cnt; lia).
    assert (Houtlen : length out = length (concat (take cnt (drop i rs))))
      by (by rewrite Hpermout).
    destruct (IH s1 (S g) (rs' ++ [out])) as (rs'' & s' & Hrun & Hsame & Hinv'
                                             & Hinv'' & Hperm' & Hgroups'
                                             & Hbounds);
      try done.
    + apply Forall_app. split; [done|]. by constructor.
    + intros r run Hr. rewrite length_app. cbn [length].
      apply lookup_app_Some in Hr as [Hr|[Hge Hr]].
      * pose proof (proj1 (Forall_lookup _ _) (Hallfull Hmore) r run Hr) as Hl.
        cbv beta in Hl. rewrite Hl.
        destruct (Hfull' r run Hr) as [[? ?] _]. lia.
      * apply list_lookup_singleton_Some in Hr as [Hr0 <-].
        rewrite Houtlen. split; [|lia].
        split; [by eapply group_length_pos|].
        etrans; [by eapply group_length_le|].
        rewrite level_run_length_S. subst cnt. nia.
    + intros Hnext. apply Forall_app. split; [by apply Hallfull|].
      constructor; [|done]. rewrite Houtlen.
      assert (cnt = fanout params) as Hcnt by (subst cnt; lia).
      rewrite (group_length_full (level_run_length params L)) by (try done; lia).
      rewrite level_run_length_S. lia.
    + rewrite concat_app. cbn [concat]. rewrite app_nil_r, Hperm, Hpermout.
      rewrite <- concat_app, take_take_drop.
      destruct (decide (i + cnt = S g * fanout params)) as [->|Hne]; [done|].
      rewrite !take_ge by (subst cnt; lia). done.
    + intros r run [Hr|[Hge Hr]]%lookup_app_Some; [by apply Hgroups|].
      apply list_lookup_singleton_Some in Hr as [Hr0 <-].
      replace r with g by lia. done.
    + rewrite length_app. cbn. lia.
    + lia.
    + lia.
    + exists rs'', s'. split; [done|].
      split; [by eapply same_sorter_trans|]. done.
Qed.


(** The [while] loop of [prepare_pull]: passes are made until at most
    [fanout] runs are left. *)
Lemma prepare_pull_while_spec params n budget fuel s L rs :
  sortable params n →
  length (concat rs) ≤ n →
  length (concat rs) ≤ budget →
  level_run_length params L ≤ runLength params + n →
  level_inv pred params s L rs →
  rs ≠ [] →
  length rs ≤ fuel →
  ∃ L' rs' s',
    prepare_pull_while pred fuel budget L (length rs) s
    = Done (L', length rs', s')
    ∧ same_sorter s s'
    ∧ level_inv pred params s' L' rs'
    ∧ concat rs' ≡ₚ concat rs
    ∧ length rs' ≤ fanout params
    ∧ rs' ≠ []
    ∧ level_run_length params L' ≤ runLength params + n.
Proof.
  intros Hok. pose proof (sortable_fanout _ _ Hok) as Hf.
  pose proof Hok as (_ & Hf2 & _).
  revert s L rs. induction fuel as [|fuel IH];
    intros s L rs Hn Hbudget Hrl Hinv Hne Hfuel.
  all: pose proof Hinv as (Hp & Hpq & Hfiles & Hstored & Hfull & Hsorted).
  all: destruct (decide (fanout params < length rs)) as [Hmore|Hdone].
  all: try (exists L, rs, s; cbn [prepare_pull_while]; rewrite Hp;
            destruct (decide (fanout params < length rs)); [lia|];
            split; [done|]; split; [apply same_sorter_refl|];
            split; [done|]; split; [done|]; split; [lia|done]).
  cbn [prepare_pull_while]. rewrite Hp.
  destruct (decide (fanout params < length rs)) as [_|?]; [|lia].
  pose proof (runs_full_count _ _ Hfull) as Hcount.
  destruct (prepare_pull_for_spec params n budget L rs budget s 0 [])
    as (rs1 & s1 & Hfor & Hsame1 & Hinv1 & Hinv1' & Hperm1 & _ & Hbounds);
    try done.
  { eapply sortable_fits; [done|nia]. }
  { lia. }
  { lia. }
  change (0 * fanout params) with 0 in Hfor.
  rewrite Hfor, bind_Done_l. cbv beta iota.
  assert (Hlen1 : 2 ≤ length rs1 < length rs) by nia.
  assert (Hrl1 : level_run_length params (S L) ≤ runLength params + n).
  { destruct Hinv1' as (_ & _ & _ & _ & Hfull1 & _).
    destruct (lookup_lt_is_Some_2 rs1 0 ltac:(lia)) as [run Hrun].
    destruct (Hfull1 0 run Hrun) as [_ Hl]. rewrite <- Hl by lia.
    assert (length run ≤ length (concat rs1)).
    { destruct rs1 as [|r0 rs1]; [done|]. injection Hrun as ->.
      cbn. rewrite length_app. lia. }
    rewrite Hperm1 in *. lia. }
  destruct (IH s1 (S L) rs1) as (L' & rs' & s' & Hrun & Hsame & Hinv' & Hperm'
                                 & Hle & Hne' & Hrl'); try done.
  - by rewrite Hperm1.
  - by rewrite Hperm1.
  - destruct rs1; [cbn in Hlen1; lia|done].
  - lia.
  - exists L', rs', s'. split; [done|].
    split; [by eapply same_sorter_trans|].
    split; [done|]. split; [by rewrite Hperm'|done].
Qed.

End MergePasses.


(** ** Phase 4: the final merger *)

Section FinalMerge.

Context {T : Type}.
Variable pred : T → T → bool.
Hypothesis pred_asym : ∀ a b, pred a b = true → pred b a = false.
Hypothesis pred_negtrans :
  ∀ a b c, pred b a = false → pred c b = false → pred c a = false.

Local Abbreviation le := (item_le pred).
Implicit Types (s : merge_sorter (T:=T)) (rs : list (list T)).
Implicit Types (files : list (list T)) (params : sort_parameters).

Lemma level_run_length_mono params L :
  0 < fanout params →
  level_run_length params L ≤ level_run_length params (S L).
Proof. intros Hf. rewrite level_run_length_S. nia. Qed.

(** [initialize_merger] on [cnt] stored runs: the merger holds their
    items. *)
Lemma initialize_merger_spec params n s L rs rn cnt :
  sortable params n →
  length (concat rs) ≤ n →
  SizeT.fits (level_run_length params L) →
  level_inv pred params s L rs →
  rn + cnt ≤ length rs →
  ∃ m1,
    initialize_merger L rn cnt s = Done (set_merger m1 s)
    ∧ merger_inv pred (m_runFiles s) m1
    ∧ merger_pending (m_runFiles s) m1 ≡ₚ concat (take cnt (drop rn rs))
    ∧ m_in m1 = advance <$> ((λ i, run_reader params L (rn + i)) <$> seq 0 cnt).
Proof.
  intros Hok Hn Hfitrl (Hp & Hpq & Hfiles & Hstored & Hfull & Hsorted) Hgroup.
  pose proof (sortable_fanout _ _ Hok) as Hf.
  pose proof (sortable_fits_2f _ _ Hok) as Hfit2.
  set (files := m_runFiles s) in *.
  set (readers := (λ i, run_reader params L (rn + i)) <$> seq 0 cnt).
  assert (Hopen : open_runs params files L rn (seq 0 cnt) = Done readers).
  { apply open_runs_stored; try done. intros i Hi%elem_of_seq.
    destruct (lookup_lt_is_Some_2 rs (rn + i) ltac:(lia)) as [run Hrun].
    destruct (Hstored _ _ Hrun) as (post & Hst & _).
    pose proof (run_offset_le params L rs (rn + i) Hfull ltac:(lia)).
    pose proof (runs_full_count _ _ Hfull).
    split; [eapply sortable_fits; [done|nia]|].
    split; [eapply sortable_fits; [done|nia]|]. eauto. }
  unfold initialize_merger. rewrite Hp. fold files.
  rewrite Hopen, bind_Done_l.
  rewrite calculate_run_length_exact by done.
  fold (level_run_length params L).
  assert (Hgroupruns :
    stream_run files (level_run_length params L) <$> readers
    = take cnt (drop rn rs)) by (by apply group_runs).
  destruct (merger_reset_spec pred files (level_run_length params L) readers
              (m_merger s) Hpq) as (m1 & Hreset & Hinv1 & Hpend1 & Hin1).
  { apply (proj1 (Forall_fmap (stream_run files (level_run_length params L))
                     (λ run, run ≠ [] ∧ StronglySorted le run) readers)).
    rewrite Hgroupruns. apply Forall_forall. intros run Hrun.
    assert (run ∈ rs) as [r Hr]%list_elem_of_lookup.
    { by apply (subseteq_drop rn rs), (subseteq_take cnt). }
    split.
    - destruct (Hfull r run Hr) as [? _]. destruct run; [cbn in *; lia|done].
    - by apply (proj1 (Forall_lookup _ _) Hsorted r run Hr). }
  exists m1. rewrite Hreset, bind_Done_l.
  split; [done|]. split; [done|]. split; [|done].
  by rewrite Hpend1, Hgroupruns.
Qed.

(** [initialize_final_merger] leaves the merger holding every item of the
    last level, whether or not it first has to merge the trailing runs. *)
Lemma initialize_final_merger_spec params n fuel s L rs :
  sortable params n →
  length (concat rs) ≤ n →
  length (concat rs) ≤ fuel →
  level_run_length params L ≤ runLength params + n →
  level_inv pred params s L rs →
  rs ≠ [] →
  length rs ≤ fanout params →
  ∃ s',
    initialize_final_merger pred fuel L (length rs) s = Done s'
    ∧ same_sorter s s'
    ∧ merger_inv pred (m_runFiles s') (m_merger s')
    ∧ merger_pending (m_runFiles s') (m_merger s') ≡ₚ concat rs
    ∧ (length rs ≤ finalFanout params →
         initialize_merger L 0 (length rs) s = Done s'
         ∧ m_runFiles s' = m_runFiles s
         ∧ m_in (m_merger s')
           = advance <$> (run_reader params L <$> seq 0 (length rs)))
    ∧ (finalFanout params < length rs →
         ∃ long s1,
           merge_runs pred fuel L (finalFanout params - 1)
             (length rs - finalFanout params + 1) s = Done (0, s1)
           ∧ level_inv pred params s1 L rs
           ∧ runs_stored params (m_runFiles s1) (S L) [long]
           ∧ long ≡ₚ concat (drop (finalFanout params - 1) rs)
           ∧ StronglySorted le long
           ∧ m_runFiles s' = m_runFiles s1
           ∧ m_in (m_merger s')
             = advance <$> ((run_reader params L
                               <$> seq 0 (finalFanout params - 1))
                            ++ [run_reader params (S L) 0])).
Proof.
  intros Hok Hn Hfuel Hrl Hinv Hne Hle.
  pose proof Hinv as (Hp & Hpq & Hfiles & Hstored & Hfull & Hsorted).
  pose proof (sortable_fanout _ _ Hok) as Hf.
  pose proof (sortable_fits_2f _ _ Hok) as Hfit2.
  pose proof Hok as (_ & _ & Hff & _).
  assert (Hfitrl : SizeT.fits (level_run_length params L))
    by (eapply sortable_fits; [done|nia]).
  assert (Hfitrl' : SizeT.fits (level_run_length params (S L)))
    by (rewrite level_run_length_S; eapply sortable_fits; [done|nia]).
  unfold initialize_final_merger. rewrite Hp.
  destruct (decide (finalFanout params < length rs)) as [Hlong|Hshort].
  - set (ff := finalFanout params) in *.
    pose proof (runs_full_count _ _ Hfull) as Hcount.
    rewrite (SizeT_sub_small ff 1); [|lia|eapply sortable_fits; [done|nia]].
    rewrite (SizeT_sub_small (length rs)); [|lia|eapply sortable_fits; [done|nia]].
    destruct (merge_runs_spec pred pred_asym pred_negtrans params n fuel
                s L rs [] (ff - 1) (length rs - (ff - 1)))
      as (out & s1 & Hmerge & Hsame1 & Hinv1 & Hstored1 & Hpermout & Hsortedout);
      try done.
    { rewrite Nat.div_small by lia. done. }
    { lia. }
    cbn [length] in Hmerge. rewrite Hmerge, bind_Done_l. cbv beta iota.
    pose proof Hinv1 as (Hp1 & Hpq1 & Hfiles1 & Hstored1L & _).
    rewrite Hp1. fold ff.
    rewrite (SizeT_sub_small ff 1); [|lia|eapply sortable_fits; [done|nia]].
    set (files1 := m_runFiles s1) in *.
    set (readers := (λ i, run_reader params L (0 + i)) <$> seq 0 (ff - 1)).
    assert (Hopen : open_runs params files1 L 0 (seq 0 (ff - 1)) = Done readers).
    { apply open_runs_stored; try done. intros i Hi%elem_of_seq.
      destruct (lookup_lt_is_Some_2 rs (0 + i) ltac:(lia)) as [run Hrun].
      destruct (Hstored1L _ _ Hrun) as (post & Hst & _).
      pose proof (run_offset_le params L rs (0 + i) Hfull ltac:(lia)).
      split; [eapply sortable_fits; [done|nia]|].
      split; [eapply sortable_fits; [done|nia]|]. eauto. }
    rewrite Hopen, bind_Done_l.
    cbn [app] in Hstored1.
    destruct (Hstored1 0 out eq_refl) as (post & Hlongstored & Hpost).
    rewrite (Hpost ltac:(cbn; lia)) in Hlongstored. clear post Hpost.
    rewrite (open_run_file_read_stored params files1 (S L) 0 out []);
      try done.
    2:{ unfold run_offset. rewrite Nat.div_small by lia.
        rewrite Nat.mul_0_r. apply SizeT_fits_0. }
    rewrite bind_Done_l.
    rewrite calculate_run_length_exact by done.
    fold (level_run_length params (S L)).
    fold (run_reader params (S L) 0).
    set (limit := level_run_length params (S L)).
    assert (Houtlen : length out ≤ limit).
    { rewrite Hpermout. etrans; [by eapply group_length_le|].
      subst limit. rewrite level_run_length_S. nia. }
    assert (Hshortruns :
      stream_run files1 limit <$> readers = take (ff - 1) rs).
    { apply list_eq. intros i. subst readers.
      rewrite !list_lookup_fmap.
      destruct (decide (i < ff - 1)) as [Hi|Hi].
      - rewrite lookup_seq_lt by done. cbn.
        rewrite lookup_take_lt by done.
        destruct (lookup_lt_is_Some_2 rs i ltac:(lia)) as [run Hrun].
        rewrite Hrun. f_equal.
        destruct (Hstored1L _ _ Hrun) as (post & Hst & Hpost).
        rewrite (Hpost ltac:(lia)) in Hst.
        apply stored_run_read_alone; [done|].
        destruct (Hfull i run Hrun) as [[_ ?] _].
        pose proof (level_run_length_mono params L Hf). subst limit. lia.
      - rewrite lookup_seq_ge by lia. cbn.
        by rewrite lookup_take_ge by lia. }
    assert (Hlongrun : stream_run files1 limit (run_reader params (S L) 0) = out)
      by (by apply stored_run_read_alone).
    destruct (merger_reset_spec pred files1 limit
                (readers ++ [run_reader params (S L) 0])
                (m_merger s1) Hpq1) as (m2 & Hreset & Hinv2 & Hpend2 & Hin2).
    { apply (proj1 (Forall_fmap (stream_run files1 limit)
                     (λ run, run ≠ [] ∧ StronglySorted le run) _)).
      rewrite fmap_app, Hshortruns. cbn [fmap list_fmap]. rewrite Hlongrun.
      apply Forall_app. split.
      - apply Forall_forall. intros run Hrun.
        assert (run ∈ rs) as [r Hr]%list_elem_of_lookup
          by (by apply (subseteq_take (ff - 1))).
        split.
        + destruct (Hfull r run Hr) as [? _]. destruct run; [cbn in *; lia|done].
        + by apply (proj1 (Forall_lookup _ _) Hsorted r run Hr).
      - constructor; [|done]. split; [|done].
        assert (0 < length out); [|destruct out; [cbn in *; lia|done]].
        rewrite Hpermout. eapply group_length_pos; [done|lia|lia]. }
    rewrite Hreset, bind_Done_l.
    assert (Hgroup : take (length rs - (ff - 1)) (drop (ff - 1) rs)
                     = drop (ff - 1) rs)
      by (rewrite take_ge; [done|rewrite length_drop; lia]).
    rewrite Hgroup in Hpermout.
    eexists. split; [reflexivity|].
    split; [|split; [|split; [|split]]].
    + destruct Hsame1 as (f1 & m1 & ->). by eexists _, _.
    + done.
    + cbn [m_runFiles m_merger set_merger]. fold files1.
      rewrite Hpend2, fmap_app, Hshortruns. cbn [fmap list_fmap].
      rewrite Hlongrun, concat_app. cbn [concat]. rewrite app_nil_r, Hpermout.
      by rewrite <- concat_app, take_drop.
    + lia.
    + intros _. exists out, s1.
      replace (length rs - ff + 1) with (length rs - (ff - 1)) by lia.
      split; [done|]. split; [done|]. split; [done|].
      split; [done|]. split; [done|]. split; [done|].
      cbn [m_merger set_merger]. rewrite Hin2. done.
  - destruct (initialize_merger_spec params n s L rs 0 (length rs))
      as (m1 & Hinit & Hinv1 & Hpend1 & Hin1); try done.
    exists (set_merger m1 s). split; [done|].
    split; [exists (m_runFiles s), m1; by destruct s|].
    cbn [m_runFiles m_merger set_merger].
    split; [done|].
    split; [rewrite Hpend1, drop_0; by rewrite take_ge|].
    split; [done|]. intros ?. lia.
Qed.

(** [calc] in external mode. *)
Lemma prepare_pull_spec params n fuel s rs :
  sortable params n →
  length (concat rs) ≤ n →
  length (concat rs) ≤ fuel →
  level_inv pred params s 0 rs →
  rs ≠ [] →
  m_finishedRuns s = length rs →
  ∃ files m,
    prepare_pull pred fuel s
    = Done (set_pull_prepared true (set_runFiles files (set_merger m s)))
    ∧ merger_inv pred files m
    ∧ merger_pending files m ≡ₚ concat rs.
Proof.
  intros Hok Hn Hfuel Hinv Hne Hruns.
  unfold prepare_pull. rewrite Hruns.
  pose proof Hinv as (_ & _ & _ & _ & Hfull & _).
  pose proof (runs_full_count _ _ Hfull) as Hcount.
  destruct (prepare_pull_while_spec pred pred_asym pred_negtrans
              params n fuel fuel s 0 rs)
    as (L & rs1 & s1 & Hwhile & Hsame1 & Hinv1 & Hperm1 & Hle1 & Hne1 & Hrl1);
    try done.
  { rewrite level_run_length_0. lia. }
  { lia. }
  rewrite Hwhile, bind_Done_l. cbv beta iota.
  destruct (initialize_final_merger_spec params n fuel s1 L rs1)
    as (s2 & Hfinal & Hsame2 & Hinv2 & Hpend2 & _); try done.
  { by rewrite Hperm1. }
  { by rewrite Hperm1. }
  rewrite Hfinal, bind_Done_l.
  destruct Hsame1 as (f1 & m1 & ->). destruct Hsame2 as (f2 & m2 & ->).
  exists f2, m2. split; [done|]. cbn in Hinv2, Hpend2.
  split; [done|]. by rewrite Hpend2.
Qed.

(** Pulling from the final merger until it is empty. *)
Lemma pull_all_external fuel s :
  m_reportInternal s = false →
  pull_prepared s = true →
  merger_inv pred (m_runFiles s) (m_merger s) →
  length (merger_pending (m_runFiles s) (m_merger s)) ≤ fuel →
  ∃ out s',
    pull_all pred fuel s = Done (out, s')
    ∧ out ≡ₚ merger_pending (m_runFiles s) (m_merger s)
    ∧ StronglySorted le out
    ∧ can_pull s' = Done false.
Proof.
  revert s. induction fuel as [|fuel IH]; intros s Hext Hprep Hinv Hfuel.
  all: assert (Hcan : can_pull s = Done (merger_can_pull (m_merger s)))
         by (unfold can_pull; by rewrite Hprep, Hext).
  all: destruct (pq (m_merger s)) as [|e h] eqn:Hpq.
  all: try (assert (Hcp : merger_can_pull (m_merger s) = false)
              by (unfold merger_can_pull; by rewrite Hpq);
            exists [], s; cbn [pull_all]; rewrite Hcan, Hcp, bind_Done_l;
            split; [done|]; split;
            [unfold merger_pending; rewrite Hpq;
             by erewrite merger_inv_empty by eauto|];
            split; [constructor|done]).
  - exfalso. unfold merger_pending in Hfuel. rewrite Hpq in Hfuel.
    cbn in Hfuel. lia.
  - assert (Hne : pq (m_merger s) ≠ []) by (by rewrite Hpq).
    destruct (merger_pull_spec pred pred_asym pred_negtrans _ _ Hinv Hne)
      as (x & m1 & Hpull & Hinv1 & Hpend & Hleast & Hrl & Hsub).
    assert (Hcp : merger_can_pull (m_merger s) = true)
      by (unfold merger_can_pull; by rewrite Hpq).
    cbn [pull_all]. rewrite Hcan, Hcp, bind_Done_l.
    unfold pull. rewrite Hprep, Hext. cbn [tp_assert andb].
    rewrite bind_Done_l, Hpull, !bind_Done_l. cbv beta iota.
    destruct (IH (set_merger m1 s)) as (out & s' & Hrun & Hperm & Hsorted & Hend);
      try done.
    { cbn. apply Permutation_length in Hpend. cbn in Hpend. lia. }
    rewrite Hrun, bind_Done_l. cbn in Hperm.
    exists (x :: out), s'. split; [done|].
    split; [by rewrite Hpend, Hperm|].
    split; [|done]. constructor; [done|]. by rewrite Hperm.
Qed.

End FinalMerge.

(** ** The whole sorter *)

Section SorterCorrect.

Context {T : Type}.
Variable T_default : T.
Variable pred : T → T → bool.
Variable parallel_sort : list T → list T.
Hypothesis pred_asym : ∀ a b, pred a b = true → pred b a = false.
Hypothesis pred_negtrans :
  ∀ a b c, pred b a = false → pred c b = false → pred c a = false.
Hypothesis parallel_sort_perm : ∀ l, parallel_sort l ≡ₚ l.
Hypothesis parallel_sort_sorted :
  ∀ l, StronglySorted (item_le pred) (parallel_sort l).

Implicit Types (s : merge_sorter (T:=T)) (rs : list (list T)).

(** [end()] in a run-formation state that does not qualify for internal
    reporting: the residual buffer becomes the last run of level 0. *)
Lemma end_external params n s rs buf :
  sortable params n →
  forming pred params s rs buf →
  ¬ (length rs = 0 ∧ length buf ≤ internalReportThreshold params) →
  ∃ s',
    end_ parallel_sort s = Done s'
    ∧ m_reportInternal s' = false
    ∧ m_parametersSet s' = true
    ∧ m_finishedRuns s' = length (rs ++ [parallel_sort buf])
    ∧ level_inv pred params s' 0 (rs ++ [parallel_sort buf]).
Proof.
  intros Hok (Hp & Hset & Hpq & Hfiles & Hlen & Hcount & Hbuf & Htake
              & Hruns & Hstored & Hfull & Hnonempty) Hext.
  pose proof Hok as (Hrl & Hf & _).
  unfold end_. rewrite Hset. cbn [tp_assert]. rewrite bind_Done_l.
  unfold sort_current_run. rewrite Hcount, Hlen.
  destruct (decide (length buf ≤ runLength params)) as [_|?]; [|lia].
  rewrite bind_Done_l, Htake.
  set (sorted := parallel_sort buf).
  assert (Hsl : length sorted = length buf)
    by (subst sorted; by rewrite parallel_sort_perm).
  cbn [m_finishedRuns m_currentRunItemCount p set_currentRunItems].
  rewrite Hruns, Hcount, Hp.
  destruct (decide (length rs = 0 ∧ _)) as [?|_]; [done|].
  rewrite empty_current_run_exact; cbn [p set_currentRunItems m_runFiles
    m_currentRunItemCount m_currentRunItems set_reportInternal];
    rewrite ?Hp, ?Hfiles, ?Hcount.
  2: lia.
  2: eapply sortable_fits; [done|nia].
  2: lia.
  2: rewrite length_app; lia.
  rewrite bind_Done_l.
  assert (Hbufne : buf ≠ []).
  { destruct rs as [|run rs]; [|by apply Hnonempty].
    intros ->. apply Hext. cbn. lia. }
  eexists. split; [reflexivity|].
  split; [done|]. split; [done|].
  split; [cbn; rewrite Hruns, length_app; cbn; lia|].
  repeat split; cbn; try done.
  - unfold spilled_files. cbn. by rewrite length_insert.
  - unfold spilled_files. cbn [p set_currentRunItems m_runFiles
      m_finishedRuns m_currentRunItemCount m_currentRunItems
      set_reportInternal].
    rewrite Hp, Hruns, Hcount, take_app_length' by lia.
    apply runs_stored_append; [lia|done| |].
    + eapply Forall_impl; [exact Hfull|]. intros run [Hl _].
      by rewrite level_run_length_0.
    + pose proof (run_file_lt params 0 (length rs) ltac:(lia)). lia.
  - apply lookup_app_Some in H as [Hr|[_ Hr]].
    + apply (proj1 (Forall_lookup _ _) Hfull) in Hr as [-> _]. lia.
    + apply list_lookup_singleton_Some in Hr as [_ <-].
      fold sorted. rewrite Hsl. destruct buf; [done|cbn; lia].
  - apply lookup_app_Some in H as [Hr|[_ Hr]].
    + apply (proj1 (Forall_lookup _ _) Hfull) in Hr as [-> _].
      rewrite level_run_length_0. lia.
    + apply list_lookup_singleton_Some in Hr as [_ <-].
      fold sorted. rewrite Hsl, level_run_length_0. lia.
  - intros Hlast. rewrite length_app in Hlast. cbn in Hlast.
    apply lookup_app_Some in H as [Hr|[? Hr]].
    + apply (proj1 (Forall_lookup _ _) Hfull) in Hr as [-> _].
      by rewrite level_run_length_0.
    + apply list_lookup_singleton_Some in Hr as [? _]. lia.
  - apply Forall_app. split.
    + eapply Forall_impl; [exact Hfull|]. by intros run [_ ?].
    + constructor; [|done]. apply parallel_sort_sorted.
Qed.

(** [end()] in a run-formation state that qualifies for internal
    reporting. *)
Lemma end_internal params s buf :
  forming pred params s [] buf →
  length buf ≤ internalReportThreshold params →
  ∃ s',
    end_ parallel_sort s = Done s'
    ∧ m_reportInternal s' = true
    ∧ m_parametersSet s' = true
    ∧ m_itemsPulled s' = 0
    ∧ m_currentRunItemCount s' = length buf
    ∧ take (length buf) (m_currentRunItems s') = parallel_sort buf.
Proof.
  intros (Hp & Hset & Hpq & Hfiles & Hlen & Hcount & Hbuf & Htake
          & Hruns & _) Hint.
  unfold end_. rewrite Hset. cbn [tp_assert]. rewrite bind_Done_l.
  unfold sort_current_run. rewrite Hcount, Hlen.
  destruct (decide (length buf ≤ runLength params)) as [_|?]; [|lia].
  rewrite bind_Done_l, Htake.
  cbn [m_finishedRuns m_currentRunItemCount p set_currentRunItems].
  rewrite Hruns, Hcount, Hp. cbn [length].
  destruct (decide (0 = 0 ∧ _)) as [_|Hno]; [|exfalso; apply Hno; lia].
  eexists. split; [reflexivity|]. cbn.
  repeat split; try done.
  rewrite take_app_length'; [done|]. by rewrite parallel_sort_perm.
Qed.

(** C1.  With parameters set, every finite input pushed between [begin()]
    and [end()] comes out of the repeated [pull()] calls made after
    [calc()], while [can_pull()] holds, as a permutation of the input that
    is non-decreasing under [pred]; [can_pull()] then answers false.  The
    comparator is a strict weak order, the in-memory sort sorts, the
    parameters give a run length of at least 1 and a fan-out of at least 2,
    and no size computation leaves the 64-bit range. *)
Theorem sorter_correct s items fuel :
  m_parametersSet s = true →
  pq (m_merger s) = [] →
  sortable (p s) (length items) →
  length items ≤ fuel →
  ∃ out s',
    sort_all T_default pred parallel_sort fuel items s = Done (out, s')
    ∧ out ≡ₚ items
    ∧ StronglySorted (item_le pred) out
    ∧ can_pull s' = Done false.
Proof.
  intros Hset Hpq Hok Hfuel. unfold sort_all.
  destruct (begin_forming T_default pred s _ Hset Hpq Hok)
    as (s1 & Hbegin & Hform1).
  rewrite Hbegin, bind_Done_l.
  destruct (push_all_forming pred parallel_sort parallel_sort_perm
              parallel_sort_sorted (p s) (length items) items s1 [] [] Hok)
    as (s2 & rs & buf & Hpush & Hform2 & Hperm2); [cbn; lia|done|].
  rewrite Hpush, bind_Done_l. cbn [concat app] in Hperm2.
  destruct (decide (length rs = 0
                    ∧ length buf ≤ internalReportThreshold (p s)))
    as [[Hnil Hsmall]|Hext].
  - destruct rs; [|done]. cbn [concat app] in Hperm2.
    destruct (end_internal _ _ _ Hform2 Hsmall)
      as (s3 & Hend & Hint & Hset3 & Hpulled & Hcount & Htake).
    rewrite Hend, bind_Done_l.
    unfold calc. rewrite Hset3, Hint. cbn [tp_assert negb].
    rewrite bind_Done_l.
    destruct (pull_all_internal pred (parallel_sort buf) fuel
                (set_pull_prepared true s3))
      as (s4 & Hpull & _ & _ & Hdone); cbn; try done.
    + rewrite Hpulled, Hcount. by rewrite parallel_sort_perm.
    + intros j x Hx. rewrite Hpulled. cbn. rewrite <- Htake in Hx.
      by apply lookup_take_Some in Hx as [? _].
    + rewrite parallel_sort_perm, Hperm2. done.
    + exists (parallel_sort buf), s4. split; [done|].
      split; [by rewrite parallel_sort_perm|]. split; [|done].
      apply parallel_sort_sorted.
  - destruct (end_external _ _ _ _ _ Hok Hform2 Hext)
      as (s3 & Hend & Hint & Hset3 & Hruns3 & Hinv3).
    rewrite Hend, bind_Done_l.
    unfold calc. rewrite Hset3, Hint. cbn [tp_assert negb].
    rewrite bind_Done_l.
    assert (Hitems : concat (rs ++ [parallel_sort buf]) ≡ₚ items).
    { rewrite concat_app. cbn. by rewrite app_nil_r, parallel_sort_perm. }
    destruct (prepare_pull_spec pred pred_asym pred_negtrans (p s)
                (length items) fuel s3 (rs ++ [parallel_sort buf]))
      as (files & m & Hprep & Hminv & Hpend); try done.
    { by rewrite Hitems. }
    { by rewrite Hitems. }
    { by destruct rs. }
    rewrite Hprep.
    destruct (pull_all_external pred pred_asym pred_negtrans fuel
                (set_pull_prepared true (set_runFiles files (set_merger m s3))))
      as (out & s4 & Hpull & Hperm & Hsorted & Hdone); cbn; try done.
    { by rewrite Hpend, Hitems. }
    exists out, s4. split; [done|]. split; [|done].
    cbn in Hperm. by rewrite Hperm, Hpend.
Qed.

End SorterCorrect.


(** ** Where a run is stored *)

Section RunLocation.

Context {T : Type}.
Implicit Types (files : list (list T)) (rs : list (list T)).

(** C3, as amended.  Run [(L, r)] is written to, and read back
    from, the temp file with index [(L mod 2) * fanout + (r mod fanout)], at
    item offset [run_length(L) * (r div fanout)] of that file: with the runs
    [0 .. r-1] of level [L] stored and full, the writer opened for run [r]
    stands at that offset in that file, the items written are found there,
    and the reader opened for run [r] is positioned there. *)
Theorem run_storage_location params files L rs (new : list T) :
  0 < fanout params →
  SizeT.fits (2 * fanout params) →
  SizeT.fits (level_run_length params L) →
  SizeT.fits (run_offset params L (length rs)) →
  2 * fanout params ≤ length files →
  runs_stored params files L rs →
  Forall (λ run, length run = level_run_length params L) rs →
  let r := length rs in
  let idx := (L mod 2) * fanout params + r mod fanout params in
  let off :=
    calculate_run_length (runLength params) (fanout params) L
    * (r / fanout params) in
  ∃ files0 out files' out',
    run_file_index params L r = Done idx
    ∧ open_run_file_write params files L r = Done (files0, out)
    ∧ fs_file out = idx
    ∧ fs_offset out = off
    ∧ write_items new files0 out = (files', out')
    ∧ take (length new) (drop off (files' !!! idx)) = new
    ∧ runs_stored params files' L (rs ++ [new])
    ∧ open_run_file_read params files' L r
      = Done {| fs_file := idx; fs_offset := off |}.
Proof.
  intros Hf Hfit2 Hfitrl Hfitoff Hlen Hstored Hfull r idx off.
  assert (Hoff : off = run_offset params L r).
  { subst off. by rewrite calculate_run_length_exact. }
  assert (Hidx : idx < length files)
    by (pose proof (run_file_lt params L r Hf); unfold run_file in *;
        subst idx; lia).
  pose proof (open_run_file_write_exact params files L r Hf Hfit2 Hlen)
    as Hopen. cbv zeta in Hopen. fold idx in Hopen.
  set (files0 := if decide (r < fanout params)
                 then <[idx := []]> files else files) in *.
  assert (Hidx0 : idx < length files0)
    by (subst files0; destruct (decide _); [rewrite length_insert|]; lia).
  pose proof (write_items_append new files0 idx Hidx0) as Hwrite.
  set (files' := <[idx := files0 !!! idx ++ new]> files0) in *.
  assert (Hfiles' :
    files' = <[run_file params L (length rs)
               := (if decide (length rs < fanout params) then []
                   else files !!! run_file params L (length rs)) ++ new]>
               files).
  { subst files' files0. fold r. change (run_file params L r) with idx.
    destruct (decide (r < fanout params)).
    - rewrite list_lookup_total_insert_eq by lia.
      by rewrite list_insert_insert_eq.
    - done. }
  assert (Hstored' : runs_stored params files' L (rs ++ [new])).
  { rewrite Hfiles'. by apply runs_stored_append. }
  destruct (Hstored' r new) as (post & (pre & Hfile & Hpre) & Hpost).
  { by rewrite lookup_app_r, Nat.sub_diag. }
  rewrite Hpost in Hfile by (rewrite length_app; cbn; lia).
  rewrite app_nil_r in Hfile. change (run_file params L r) with idx in Hfile.
  assert (Hcontent : files' !!! idx = pre ++ new)
    by (by apply list_lookup_total_correct).
  assert (Hbase : files0 !!! idx = pre).
  { subst files'. rewrite list_lookup_total_insert_eq in Hcontent by done.
    by apply app_inv_tail in Hcontent. }
  exists files0, {| fs_file := idx; fs_offset := length (files0 !!! idx) |},
    files', {| fs_file := idx;
               fs_offset := length (files0 !!! idx) + length new |}.
  split; [by apply run_file_index_exact|].
  split; [done|]. split; [done|].
  split; [cbn; by rewrite Hbase, Hpre, Hoff|].
  split; [done|].
  split; [rewrite Hcontent, Hoff, <- Hpre, drop_app_length;
          by rewrite take_ge|].
  split; [done|].
  rewrite Hoff.
  apply (open_run_file_read_stored params files' L r new []); try done.
  exists pre. by rewrite app_nil_r.
Qed.

End RunLocation.

(** ** Phases 3 and 4 *)

Section MergePhases.

Context {T : Type}.
Variable pred : T → T → bool.
Hypothesis pred_asym : ∀ a b, pred a b = true → pred b a = false.
Hypothesis pred_negtrans :
  ∀ a b c, pred b a = false → pred c b = false → pred c a = false.

Implicit Types (s : merge_sorter (T:=T)) (rs : list (list T)).

(** C5.  Phase 3 on the sorted runs [rs] of level [L].  While more than
    [fanout] runs are left, one pass of the [for] loop merges them in
    consecutive groups of up to [fanout] runs, group [i] being the runs
    [i * fanout .. i * fanout + min (runCount - i * fanout) fanout - 1], into
    the sorted runs [0, 1, ...] of level [L + 1], and the [while] loop goes
    on with that level; with at most [fanout] runs it stops at once.  The
    loop ends with at most [fanout] runs on the last level, which hold the
    items of [rs]. *)
Theorem merge_passes params n budget fuel s L rs :
  sortable params n →
  length (concat rs) ≤ n →
  length (concat rs) ≤ budget →
  level_run_length params L ≤ runLength params + n →
  level_inv pred params s L rs →
  rs ≠ [] →
  length rs ≤ fuel →
  (fanout params < length rs →
     ∃ rs1 s1,
       prepare_pull_for pred budget budget L (length rs) 0 0 s
       = Done (length rs1, s1)
       ∧ level_inv pred params s1 (S L) rs1
       ∧ merged_groups (fanout params) rs rs1
       ∧ length rs ≤ length rs1 * fanout params < length rs + fanout params
       ∧ ∀ fuel', prepare_pull_while pred (S fuel') budget L (length rs) s
                  = prepare_pull_while pred fuel' budget (S L) (length rs1) s1)
  ∧ (length rs ≤ fanout params →
       ∀ fuel', prepare_pull_while pred fuel' budget L (length rs) s
                = Done (L, length rs, s))
  ∧ ∃ L' rs' s',
      prepare_pull_while pred fuel budget L (length rs) s
      = Done (L', length rs', s')
      ∧ level_inv pred params s' L' rs'
      ∧ concat rs' ≡ₚ concat rs
      ∧ length rs' ≤ fanout params.
Proof.
  intros Hok Hn Hbudget Hrl Hinv Hne Hfuel.
  pose proof Hinv as (Hp & Hpq & Hfiles & Hstored & Hfull & Hsorted).
  pose proof (sortable_fanout _ _ Hok) as Hf.
  pose proof (runs_full_count _ _ Hfull) as Hcount.
  split; [|split].
  - intros Hmore.
    destruct (prepare_pull_for_spec pred pred_asym pred_negtrans
                params n budget L rs budget s 0 [])
      as (rs1 & s1 & Hfor & _ & _ & Hinv1 & _ & Hgroups & Hbounds);
      try done.
    { eapply sortable_fits; [done|nia]. }
    { lia. }
    { lia. }
    change (0 * fanout params) with 0 in Hfor.
    exists rs1, s1. split; [done|]. split; [done|]. split; [done|].
    split; [done|]. intros fuel'. cbn [prepare_pull_while]. rewrite Hp.
    destruct (decide (fanout params < length rs)) as [_|?]; [|lia].
    by rewrite Hfor, bind_Done_l.
  - intros Hfew fuel'. destruct fuel'; cbn [prepare_pull_while]; rewrite Hp.
    all: by destruct (decide (fanout params < length rs)) as [?|_]; [lia|].
  - destruct (prepare_pull_while_spec pred pred_asym pred_negtrans
                params n budget fuel s L rs)
      as (L' & rs' & s' & Hrun & _ & Hinv' & Hperm & Hle & _); try done.
    by exists L', rs', s'.
Qed.

(** C6.  Phase 4 on the sorted runs [rs] of the last level [L].  With at
    most [finalFanout] runs, [initialize_final_merger] is
    [initialize_merger] over the runs [0 .. runCount-1].  Otherwise the
    [runCount - finalFanout + 1] runs from run [finalFanout - 1] on are
    first merged into run 0 of level [L + 1], and the merger is opened on
    the runs [0 .. finalFanout-2] of level [L] followed by that long run.
    Either way the merger holds exactly the items of [rs]. *)
Theorem final_merger_setup params n fuel s L rs :
  sortable params n →
  length (concat rs) ≤ n →
  length (concat rs) ≤ fuel →
  level_run_length params L ≤ runLength params + n →
  level_inv pred params s L rs →
  rs ≠ [] →
  length rs ≤ fanout params →
  ∃ s',
    initialize_final_merger pred fuel L (length rs) s = Done s'
    ∧ merger_inv pred (m_runFiles s') (m_merger s')
    ∧ merger_pending (m_runFiles s') (m_merger s') ≡ₚ concat rs
    ∧ (length rs ≤ finalFanout params →
         initialize_merger L 0 (length rs) s = Done s'
         ∧ m_runFiles s' = m_runFiles s
         ∧ m_in (m_merger s')
           = advance <$> (run_reader params L <$> seq 0 (length rs)))
    ∧ (finalFanout params < length rs →
         ∃ long s1,
           merge_runs pred fuel L (finalFanout params - 1)
             (length rs - finalFanout params + 1) s = Done (0, s1)
           ∧ level_inv pred params s1 L rs
           ∧ runs_stored params (m_runFiles s1) (S L) [long]
           ∧ long ≡ₚ concat (drop (finalFanout params - 1) rs)
           ∧ StronglySorted (item_le pred) long
           ∧ m_runFiles s' = m_runFiles s1
           ∧ m_in (m_merger s')
             = advance <$> ((run_reader params L
                               <$> seq 0 (finalFanout params - 1))
                            ++ [run_reader params (S L) 0])).
Proof.
  intros Hok Hn Hfuel Hrl Hinv Hne Hle.
  destruct (initialize_final_merger_spec pred pred_asym pred_negtrans
              params n fuel s L rs)
    as (s' & Hrun & _ & Hminv & Hpend & Hshort & Hlong); try done.
  by exists s'.
Qed.

End MergePhases.


(** ** The worker's output hand-off *)

Section ParallelAfter.

Import Parallel.
Context {T1 T2 : Type}.
Variable env : nat → @parallel_state T1 T2 → @parallel_state T1 T2.

Implicit Types (a : @parallel_after T2) (w : @world T1 T2).

Lemma flush_wait_unfold fuel a :
  flush_wait env fuel a
  = bindM (is_done a) (λ finished,
      if finished : bool then ret true else
      bindM (read done) (λ d,
        if d : bool then ret false else
        match fuel with
        | 0 => out_of_fuel
        | S fuel' =>
            bindM (wait env (workerCond (parId a)))
                  (λ _, flush_wait env fuel' a)
        end)).
Proof. by destruct fuel. Qed.

(** The waiting loop only waits on the worker's own condition variable,
    and is left either with the worker's state away from [OUTPUTTING] or
    with [done] set. *)
Lemma flush_wait_spec fuel a w r w' :
  flush_wait env fuel a w = (r, w') →
  (∃ k, events w' = events w ++ replicate k (EvWait (workerCond (parId a))))
  ∧ match r with
    | Done true =>
        m_states (shared w') !! parId a = Some IDLE
        ∨ m_states (shared w') !! parId a = Some PROCESSING
    | Done false =>
        done (shared w') = true
        ∧ m_states (shared w') !! parId a = Some OUTPUTTING
    | Fail e =>
        e = IndexOutOfRange ∧ length (m_states (shared w')) ≤ parId a
    | OutOfFuel => True
    end.
Proof.
  revert w. induction fuel as [|fuel IH]; intros w;
    rewrite flush_wait_unfold; intros Hrun;
    cbv beta iota zeta delta [bindM is_done get_state ret read out_of_fuel
      wait log interfere] in Hrun;
    destruct (m_states (shared w) !! parId a) as [[]|] eqn:Hst;
    try destruct (Parallel.done (shared w)) eqn:Hd;
    try (injection Hrun as <- <-);
    try (split; [exists 0; cbn [replicate]; by rewrite app_nil_r|];
         first [by auto | by split; [|apply lookup_ge_None]]).
  apply IH in Hrun as [[k Hev] Hres]. split; [|exact Hres].
  exists (S k). rewrite Hev. cbn [events replicate].
  by rewrite <- app_assoc.
Qed.

(** The waiting loop with the shared state it leaves: each wait lets the
    other threads run once. *)
Lemma flush_wait_trace fuel a w r w' :
  flush_wait env fuel a w = (r, w') →
  ∃ k,
    events w' = events w ++ replicate k (EvWait (workerCond (parId a)))
    ∧ shared w' = env_steps env (clock w) k (shared w)
    ∧ clock w' = clock w + k
    ∧ match r with
      | Done true =>
          m_states (shared w') !! parId a = Some IDLE
          ∨ m_states (shared w') !! parId a = Some PROCESSING
      | Done false =>
          done (shared w') = true
          ∧ m_states (shared w') !! parId a = Some OUTPUTTING
      | Fail e =>
          e = IndexOutOfRange ∧ length (m_states (shared w')) ≤ parId a
      | OutOfFuel => True
      end.
Proof.
  revert w. induction fuel as [|fuel IH]; intros w;
    rewrite flush_wait_unfold; intros Hrun;
    cbv beta iota zeta delta [bindM is_done get_state ret read out_of_fuel
      wait log interfere] in Hrun;
    destruct (m_states (shared w) !! parId a) as [[]|] eqn:Hst;
    try destruct (Parallel.done (shared w)) eqn:Hd;
    try (injection Hrun as <- <-);
    try (exists 0; cbn [replicate env_steps];
         rewrite app_nil_r, Nat.add_0_r;
         split; [done|]; split; [done|]; split; [done|];
         first [by auto | by split; [|apply lookup_ge_None]]).
  apply IH in Hrun as (k & Hev & Hsh & Hcl & Hres).
  exists (S k). cbn [events shared clock] in *.
  split; [rewrite Hev; cbn [replicate]; by rewrite <- app_assoc|].
  split; [done|]. split; [lia|done].
Qed.

Lemma flush_buffer_impl_trace fuel a w :
  m_outputSize (m_buffer a) ≠ 0 →
  let r := flush_buffer_impl env fuel a w in
  let announced :=
    with_states (λ l, <[parId a := OUTPUTTING]> l)
      (env (clock w) (shared w)) in
  ∃ k,
    events r.2
    = events w
      ++ [EvLock; EvSetState (parId a) OUTPUTTING; EvNotify producerCond]
      ++ replicate k (EvWait (workerCond (parId a)))
    ∧ match r.1 with
      | Done a' =>
          parId a' = parId a
          ∧ m_outputBuffer (m_buffer a') = m_outputBuffer (m_buffer a)
          ∧ ((m_outputSize (m_buffer a') = 0
              ∧ 1 ≤ k
              ∧ shared r.2
                = with_outputBuffers (λ l, <[parId a := m_buffer a']> l)
                    (env_steps env (S (clock w)) k announced)
              ∧ (m_states (shared r.2) !! parId a = Some IDLE
                 ∨ m_states (shared r.2) !! parId a = Some PROCESSING))
             ∨ (a' = a
                ∧ shared r.2 = env_steps env (S (clock w)) k announced
                ∧ done (shared r.2) = true
                ∧ m_states (shared r.2) !! parId a = Some OUTPUTTING))
      | Fail e =>
          e = IndexOutOfRange
          ∧ length (m_states (shared r.2)) ≤ parId a
          ∧ shared r.2 = env_steps env (S (clock w)) k announced
      | OutOfFuel => shared r.2 = env_steps env (S (clock w)) k announced
      end.
Proof.
  intros Hne r announced.
  destruct r as [res w'] eqn:Hrun. subst r. cbn [fst snd].
  unfold flush_buffer_impl in Hrun.
  destruct (decide _) as [?|_]; [done|].
  cbv beta iota zeta delta [bindM lock interfere log set_state write
    notify_one] in Hrun.
  destruct (flush_wait env fuel a _) as [fr w2] eqn:Hwait.
  apply flush_wait_trace in Hwait as (k & Hev & Hsh & Hcl & Hres).
  cbn [events shared clock] in Hev, Hsh, Hcl.
  rewrite <- !app_assoc in Hev. cbn [app] in Hev.
  fold announced in Hsh.
  exists k.
  destruct fr as [[]| |]; unfold ret, write_output_buffer, write in Hrun;
    injection Hrun as <- <-; cbn [events shared];
    (split; [exact Hev|]).
  - split; [done|]. split; [done|]. left. split; [done|].
    split; [|split; [by rewrite Hsh|exact Hres]].
    destruct k as [|k]; [|lia]. exfalso.
    cbn [env_steps] in Hsh. rewrite Hsh in Hres.
    subst announced. cbn [with_states m_states] in Hres.
    destruct (decide (parId a < length (m_states (env (clock w) (shared w)))))
      as [Hin|Hout].
    + rewrite list_lookup_insert_eq in Hres by done.
      by destruct Hres.
    + rewrite (proj2 (lookup_ge_None _ _)) in Hres
        by (rewrite length_insert; lia).
      by destruct Hres.
  - split; [done|]. split; [done|]. right. by destruct Hres.
  - by destruct Hres.
  - done.
Qed.

(** C9.  [flush_buffer_impl] on a non-empty buffer takes the mutex, writes
    [OUTPUTTING] into the worker's state, notifies the producer and then
    only waits on the worker's condition variable: the shared state it
    leaves is the one with that write, run on by the other threads once
    for each wait.  It resets the buffer size to zero only after at least
    one wait and with the worker's state changed to [IDLE] or
    [PROCESSING]; when it returns while the state is still [OUTPUTTING],
    [done] is set and the buffer has not been touched. *)
Theorem flush_buffer_protocol fuel a w :
  m_outputSize (m_buffer a) ≠ 0 →
  let r := flush_buffer_impl env fuel a w in
  let announced :=
    with_states (λ l, <[parId a := OUTPUTTING]> l)
      (env (clock w) (shared w)) in
  ∃ k,
    events r.2
    = events w
      ++ [EvLock; EvSetState (parId a) OUTPUTTING; EvNotify producerCond]
      ++ replicate k (EvWait (workerCond (parId a)))
    ∧ match r.1 with
      | Done a' =>
          parId a' = parId a
          ∧ m_outputBuffer (m_buffer a') = m_outputBuffer (m_buffer a)
          ∧ ((m_outputSize (m_buffer a') = 0
              ∧ 1 ≤ k
              ∧ shared r.2
                = with_outputBuffers (λ l, <[parId a := m_buffer a']> l)
                    (env_steps env (S (clock w)) k announced)
              ∧ (m_states (shared r.2) !! parId a = Some IDLE
                 ∨ m_states (shared r.2) !! parId a = Some PROCESSING))
             ∨ (a' = a
                ∧ shared r.2 = env_steps env (S (clock w)) k announced
                ∧ done (shared r.2) = true
                ∧ m_states (shared r.2) !! parId a = Some OUTPUTTING))
      | Fail e =>
          e = IndexOutOfRange
          ∧ length (m_states (shared r.2)) ≤ parId a
          ∧ shared r.2 = env_steps env (S (clock w)) k announced
      | OutOfFuel => shared r.2 = env_steps env (S (clock w)) k announced
      end.
Proof. exact (flush_buffer_impl_trace fuel a w). Qed.

End ParallelAfter.

(** ** The producer *)

Section ParallelProducer.

Import Parallel.
Context {T1 T2 : Type}.
Variable env : nat → @parallel_state T1 T2 → @parallel_state T1 T2.
Variable opts : parallel_options.
Variable T1_default : T1.

Implicit Types (pr : @parallel_producer T1) (w : @world T1 T2).

Local Abbreviation M := (@M T1 T2).

Lemma extends_quietly_refl w : extends_quietly w w.
Proof. exists []. rewrite app_nil_r. split; [done|]. apply not_elem_of_nil. Qed.

Lemma extends_quietly_same w w' : events w' = events w → extends_quietly w w'.
Proof.
  intros Hev. exists []. rewrite app_nil_r. split; [done|].
  apply not_elem_of_nil.
Qed.

Lemma extends_quietly_trans w1 w2 w3 :
  extends_quietly w1 w2 → extends_quietly w2 w3 → extends_quietly w1 w3.
Proof.
  intros (e1 & H1 & Hn1) (e2 & H2 & Hn2). exists (e1 ++ e2).
  split; [by rewrite H2, H1, app_assoc|].
  rewrite elem_of_app. tauto.
Qed.

Lemma quiet_ret {A} (a : A) : quiet (ret a : M A).
Proof. intros w r w' [= <- <-]. apply extends_quietly_refl. Qed.

Lemma quiet_throw {A} e : quiet (throw e : M A).
Proof. intros w r w' [= <- <-]. apply extends_quietly_refl. Qed.

Lemma quiet_out_of_fuel {A} : quiet (out_of_fuel : M A).
Proof. intros w r w' [= <- <-]. apply extends_quietly_refl. Qed.

Lemma quiet_bind {A B} (m : M A) (k : A → M B) :
  quiet m → (∀ a, quiet (k a)) → quiet (bindM m k).
Proof.
  intros Hm Hk w r w' Hrun. unfold bindM in Hrun.
  destruct (m w) as [[a| |] w1] eqn:Hmw.
  - eapply extends_quietly_trans; [by eapply Hm|by eapply Hk].
  - injection Hrun as <- <-. by eapply Hm.
  - injection Hrun as <- <-. by eapply Hm.
Qed.

Lemma quiet_log e : e ≠ EvSetDone → quiet (log e : M unit).
Proof.
  intros He w r w' [= <- <-]. exists [e]. split; [done|].
  intros ?%list_elem_of_singleton; congruence.
Qed.

Lemma quiet_read {A} (f : parallel_state → A) : quiet (read f : M A).
Proof. intros w r w' [= <- <-]. apply extends_quietly_refl. Qed.

Lemma quiet_write f : quiet (write f : M unit).
Proof. intros w r w' [= <- <-]. by apply extends_quietly_same. Qed.

Lemma quiet_interfere : quiet (interfere env).
Proof. intros w r w' [= <- <-]. by apply extends_quietly_same. Qed.

Lemma quiet_lock : quiet (lock env).
Proof. apply quiet_bind; [apply quiet_interfere|intros _; by apply quiet_log]. Qed.

Lemma quiet_wait c : quiet (wait env c).
Proof. apply quiet_bind; [by apply quiet_log|intros _; apply quiet_interfere]. Qed.

Lemma quiet_notify_one c : quiet (notify_one c : M unit).
Proof. by apply quiet_log. Qed.

Lemma quiet_get_state idx : quiet (get_state idx : M _).
Proof.
  intros w r w'. unfold get_state.
  destruct (_ !! _); intros [= <- <-]; apply extends_quietly_refl.
Qed.

Lemma quiet_set_state idx s : quiet (set_state idx s : M unit).
Proof. apply quiet_bind; [apply quiet_write|intros _; by apply quiet_log]. Qed.

Lemma quiet_set_input idx input : quiet (set_input idx input : M unit).
Proof.
  intros w r w'. unfold set_input.
  destruct (_ !! _); [destruct (decide _)|];
    intros [= <- <-]; by apply extends_quietly_same.
Qed.

Lemma quiet_consume_output idx : quiet (consume_output idx : M unit).
Proof.
  intros w r w'. unfold consume_output.
  destruct (_ !! _); [by apply quiet_log|].
  intros [= <- <-]; apply extends_quietly_refl.
Qed.

Lemma quiet_find_state P : quiet (find_state opts P : M _).
Proof. apply quiet_read. Qed.

Create HintDb quiet discriminated.
Hint Resolve quiet_ret quiet_throw quiet_out_of_fuel quiet_read quiet_write
  quiet_interfere quiet_lock quiet_wait quiet_notify_one quiet_get_state
  quiet_set_state quiet_set_input quiet_consume_output quiet_find_state
  : quiet.

Ltac quiet_step :=
  repeat first
    [ solve [auto with quiet]
    | apply quiet_bind; [|intros ?]
    | match goal with
      | |- quiet (match ?x with _ => _ end) => destruct x
      | |- quiet (if ?x then _ else _) => destruct x
      end
    | solve [auto with quiet]
    | solve [apply quiet_log; discriminate] ].

Lemma quiet_wait_ready fuel : quiet (wait_ready env opts fuel).
Proof.
  induction fuel as [|fuel IH]; cbn [wait_ready]; unfold has_ready_pipe;
    quiet_step.
Qed.

Lemma quiet_hand_off fuel pr : quiet (hand_off env opts fuel pr).
Proof.
  revert pr. induction fuel as [|fuel IH]; intros pr; cbn [hand_off];
    pose proof quiet_wait_ready; quiet_step.
Qed.

Lemma quiet_wait_outputting fuel : quiet (wait_outputting env opts fuel).
Proof.
  induction fuel as [|fuel IH]; cbn [wait_outputting];
    unfold has_outputting_pipe, has_processing_pipe; quiet_step.
Qed.

Lemma quiet_drain fuel pr : quiet (drain env opts fuel pr).
Proof.
  revert pr. induction fuel as [|fuel IH]; intros pr; cbn [drain];
    pose proof quiet_wait_outputting; quiet_step.
Qed.


Ltac run_fails :=
  cbv beta delta [throw out_of_fuel]; intros [=].

Lemma hand_off_remaining fuel pr w pr' w' :
  hand_off env opts fuel pr w = (Done pr', w') →
  m_remainingItems pr' = m_remainingItems pr.
Proof.
  revert pr w. induction fuel as [|fuel IH]; intros pr w; cbn [hand_off];
    (destruct (decide (written pr = 0)); [by intros [= <- <-]|]);
    [run_fails|].
  unfold bindM at 1. destruct (wait_ready env opts fuel w) as [[idx| |] w1];
    [|run_fails..].
  unfold bindM at 1. destruct (get_state idx w1) as [[[]| |] w2];
    [| run_fails| |run_fails..].
  - unfold bindM at 1. destruct (set_input _ _ w2) as [[[]| |] w3];
      [|run_fails..].
    unfold bindM at 1. destruct (set_state _ _ w3) as [[[]| |] w4];
      [|run_fails..].
    unfold bindM at 1. destruct (notify_one _ w4) as [[[]| |] w5];
      [|run_fails..].
    intros Hrun. by apply IH in Hrun.
  - unfold bindM at 1. destruct (consume_output _ w2) as [[[]| |] w3];
      [|run_fails..].
    unfold bindM at 1. destruct (set_state _ _ w3) as [[[]| |] w4];
      [|run_fails..].
    unfold bindM at 1. destruct (notify_one _ w4) as [[[]| |] w5];
      [|run_fails..].
    intros Hrun. by apply IH in Hrun.
Qed.

Lemma drain_remaining fuel pr w pr' w' :
  drain env opts fuel pr w = (Done pr', w') →
  m_remainingItems pr' = m_remainingItems pr.
Proof.
  revert pr w. induction fuel as [|fuel IH]; intros pr w; cbn [drain];
    [run_fails|].
  unfold bindM at 1.
  destruct (wait_outputting env opts fuel w) as [[[idx|]| |] w1];
    [|by intros [= <- <-]|run_fails..].
  unfold bindM at 1. destruct (consume_output _ w1) as [[[]| |] w2];
    [|run_fails..].
  unfold bindM at 1. destruct (set_state _ _ w2) as [[[]| |] w3];
    [|run_fails..].
  intros Hrun. by apply IH in Hrun.
Qed.

Lemma notify_workers_exact (indices : list nat) w :
  notify_workers indices w
  = (Done tt, {| shared := shared w; clock := clock w;
                 events := events w
                           ++ ((λ i, EvNotify (workerCond i)) <$> indices) |}).
Proof.
  revert w. induction indices as [|i indices IH]; intros w.
  - cbn. rewrite app_nil_r. by destruct w.
  - cbn [notify_workers]. unfold bindM, notify_one, log.
    rewrite IH. cbn. by rewrite <- app_assoc.
Qed.

Lemma wait_workers_spec fuel w r w' :
  wait_workers env fuel w = (r, w') →
  (∃ k, events w' = events w ++ replicate k (EvWait producerCond))
  ∧ (r = Done tt → runningWorkers (shared w') = 0).
Proof.
  revert w. induction fuel as [|fuel IH]; intros w; cbn [wait_workers];
    cbv beta iota zeta delta [bindM read ret out_of_fuel wait log interfere];
    destruct (decide (runningWorkers (shared w) = 0));
    try (intros [= <- <-];
         split; [exists 0; cbn; by rewrite app_nil_r|done]).
  intros Hrun. apply IH in Hrun as [[k Hev] Hres]. split; [|done].
  exists (S k). rewrite Hev. cbn. by rewrite <- app_assoc.
Qed.

Lemma wait_workers_trace fuel w r w' :
  wait_workers env fuel w = (r, w') →
  ∃ k, events w' = events w ++ replicate k (EvWait producerCond)
       ∧ shared w' = env_steps env (clock w) k (shared w)
       ∧ (r = Done tt → runningWorkers (shared w') = 0).
Proof.
  revert w. induction fuel as [|fuel IH]; intros w; cbn [wait_workers];
    cbv beta iota zeta delta [bindM read ret out_of_fuel wait log interfere];
    destruct (decide (runningWorkers (shared w) = 0));
    try (intros [= <- <-];
         exists 0; cbn; rewrite app_nil_r; by repeat split).
  intros Hrun. apply IH in Hrun as (k & Hev & Hsh & Hres).
  exists (S k). cbn [events shared clock] in *.
  split; [rewrite Hev; cbn; by rewrite <- app_assoc|]. by split.
Qed.

Lemma env_steps_done t k (st : @parallel_state T1 T2) :
  (∀ t st, done st = true → done (env t st) = true) →
  done st = true → done (env_steps env t k st) = true.
Proof.
  intros Henv. revert t st. induction k as [|k IH]; intros t st Hd; [done|].
  cbn. apply IH. by apply Henv.
Qed.

Lemma find_state_None P w :
  (find_state opts P w).1 = Done None →
  Forall (λ s, P s ≠ true) (take (numJobs opts) (m_states (shared w))).
Proof.
  unfold find_state, read. cbn. intros [= Hnone].
  apply fmap_None in Hnone. by apply list_find_None in Hnone.
Qed.

(** When the inner loop of the drain finds nothing to wait for, every
    worker is idle. *)
Lemma wait_outputting_none fuel w w' :
  wait_outputting env opts fuel w = (Done None, w') →
  Forall (λ s, s = IDLE) (take (numJobs opts) (m_states (shared w'))).
Proof.
  assert (Hidle : ∀ w0,
    (find_state opts (λ s, match s with OUTPUTTING => true | _ => false end)
       w0).1 = Done None →
    (find_state opts (λ s, match s with PROCESSING => true | _ => false end)
       w0).1 = Done None →
    Forall (λ s, s = IDLE) (take (numJobs opts) (m_states (shared w0)))).
  { intros w0 Hout%find_state_None Hproc%find_state_None.
    rewrite Forall_forall in Hout, Hproc. apply Forall_forall.
    intros st Hin. specialize (Hout st Hin). specialize (Hproc st Hin).
    by destruct st. }
  revert w. induction fuel as [|fuel IH]; intros w; cbn [wait_outputting];
    unfold has_outputting_pipe, has_processing_pipe, bindM, ret;
    specialize (Hidle w); unfold find_state, read in *; cbn [fst] in Hidle;
    destruct (list_find _ _) as [[i1 s1]|]; cbn [fmap option_fmap option_map];
    try (by intros [=]);
    destruct (list_find _ _) as [[i2 s2]|]; cbn [fmap option_fmap option_map];
    rewrite ?bool_decide_eq_true_2 by (by eexists);
    rewrite ?bool_decide_eq_false_2 by (by intros [? ?]);
    try (by intros [=]);
    try (intros [= <-]; by apply Hidle).
  unfold wait, bindM, log, interfere, out_of_fuel. apply IH.
Qed.

(** The drain returns with every worker idle, and stages nothing. *)
Lemma drain_idle fuel pr w pr' w' :
  drain env opts fuel pr w = (Done pr', w') →
  Forall (λ s, s = IDLE) (take (numJobs opts) (m_states (shared w')))
  ∧ written pr' = written pr.
Proof.
  revert pr w. induction fuel as [|fuel IH]; intros pr w; cbn [drain];
    [run_fails|].
  unfold bindM at 1.
  destruct (wait_outputting env opts fuel w) as [[[idx|]| |] w1] eqn:Hwait;
    [| |run_fails..].
  - unfold bindM at 1. destruct (consume_output _ w1) as [[[]| |] w2];
      [|run_fails..].
    unfold bindM at 1. destruct (set_state _ _ w2) as [[[]| |] w3];
      [|run_fails..].
    intros Hrun. by apply IH in Hrun.
  - intros [= <- <-]. split; [|done]. by eapply wait_outputting_none.
Qed.

Lemma extends_with w w1 w' evs2 (x : @event T2) :
  extends_quietly w w1 →
  events w' = events w1 ++ evs2 →
  EvSetDone ∉ evs2 →
  ∃ evs, events w' = events w ++ evs ∧ (EvSetDone ∉ evs)
         ∧ (x ∈ evs2 → x ∈ evs).
Proof.
  intros (evs1 & H1 & Hn1) H2 Hn2. exists (evs1 ++ evs2).
  split; [by rewrite H2, H1, app_assoc|].
  rewrite !elem_of_app. split; [tauto|]. by right.
Qed.

(** The hand-off returns with nothing staged; what was staged has been
    handed to a worker, whose state it has set to [PROCESSING]. *)
Lemma hand_off_trace fuel pr w pr' w' :
  hand_off env opts fuel pr w = (Done pr', w') →
  written pr' = 0
  ∧ ∃ evs, events w' = events w ++ evs
           ∧ (EvSetDone ∉ evs)
           ∧ (written pr ≠ 0 → ∃ idx, EvSetState idx PROCESSING ∈ evs).
Proof.
  revert pr w. induction fuel as [|fuel IH]; intros pr w; cbn [hand_off];
    (destruct (decide (written pr = 0)) as [Hz|Hnz];
       [intros [= <- <-]; split; [done|]; exists [];
        rewrite app_nil_r; split; [done|];
        split; [apply not_elem_of_nil|done]|]);
    [run_fails|].
  unfold bindM at 1.
  destruct (wait_ready env opts fuel w) as [[idx| |] w1] eqn:Hready;
    [|run_fails..].
  apply quiet_wait_ready in Hready.
  unfold bindM at 1. destruct (get_state idx w1) as [[[]| |] w2] eqn:Hget;
    [| run_fails| |run_fails..].
  - apply quiet_get_state in Hget.
    unfold bindM at 1. destruct (set_input _ _ w2) as [[[]| |] w3] eqn:Hset;
      [|run_fails..].
    apply quiet_set_input in Hset.
    cbv beta iota zeta delta [bindM set_state write log notify_one].
    intros Hrun. apply IH in Hrun as (Hw & evs & Hev & Hno & _).
    split; [done|]. cbn [events] in Hev.
    rewrite <- !app_assoc in Hev.
    destruct (extends_with w w3 w'
                ([EvSetState idx PROCESSING] ++ [EvNotify (workerCond idx)]
                 ++ evs) (EvSetState idx PROCESSING))
      as (evs' & Hev' & Hno' & Hin); [|done| |].
    + eapply extends_quietly_trans; [exact Hready|].
      eapply extends_quietly_trans; [exact Hget|exact Hset].
    + rewrite !elem_of_app, !list_elem_of_singleton.
      intros [?|[?|?]]; done.
    + exists evs'. split; [done|]. split; [done|]. intros _.
      exists idx. apply Hin. apply elem_of_app. left.
      by apply list_elem_of_singleton.
  - apply quiet_get_state in Hget.
    unfold bindM at 1.
    destruct (consume_output _ w2) as [[[]| |] w3] eqn:Hcons; [|run_fails..].
    apply quiet_consume_output in Hcons.
    cbv beta iota zeta delta [bindM set_state write log notify_one].
    intros Hrun. apply IH in Hrun as (Hw & evs & Hev & Hno & Hhanded).
    split; [done|]. cbn [events written with_readyIdx] in Hev, Hhanded.
    rewrite <- !app_assoc in Hev.
    destruct (Hhanded Hnz) as [idx' Hidx'].
    destruct (extends_with w w3 w'
                ([EvSetState idx IDLE] ++ [EvNotify (workerCond idx)] ++ evs)
                (EvSetState idx' PROCESSING))
      as (evs' & Hev' & Hno' & Hin); [|done| |].
    + eapply extends_quietly_trans; [exact Hready|].
      eapply extends_quietly_trans; [exact Hget|exact Hcons].
    + rewrite !elem_of_app, !list_elem_of_singleton.
      intros [?|[?|?]]; done.
    + exists evs'. split; [done|]. split; [done|]. intros _.
      exists idx'. apply Hin. rewrite !elem_of_app. auto.
Qed.


End ParallelProducer.


(** * Further properties of the merge sorter *)

(** ** The calculated parameters *)

Section ParameterBudget.

Context {T : Type}.
Variable sizeof_T : nat.
Variable sizeof_temp_file : nat.
Variable file_stream_memory_usage : nat.
Variable merger_memory_usage : nat → nat.

Local Abbreviation usage :=
  (fanout_memory_usage sizeof_temp_file file_stream_memory_usage
     merger_memory_usage).
Local Abbreviation search_fanout :=
  (calculate_fanout sizeof_temp_file file_stream_memory_usage
     merger_memory_usage).
Local Abbreviation parameters_of :=
  (calculate_parameters (T:=T) sizeof_T sizeof_temp_file
     file_stream_memory_usage merger_memory_usage).

(** For a merge memory usage that does not decrease over the fan-outs of
    [2, 251), more memory never gives a smaller fan-out. *)
Theorem calculate_fanout_monotone (m m' : nat) :
  (∀ a b, 2 ≤ a → a ≤ b → b < 251 →
          fanout_memory_usage sizeof_temp_file file_stream_memory_usage
            merger_memory_usage a
          ≤ fanout_memory_usage sizeof_temp_file file_stream_memory_usage
              merger_memory_usage b) →
  m ≤ m' →
  calculate_fanout sizeof_temp_file file_stream_memory_usage
    merger_memory_usage m
  ≤ calculate_fanout sizeof_temp_file file_stream_memory_usage
      merger_memory_usage m'.
Proof.
  intros Hmono Hle.
  destruct (calculate_fanout_spec sizeof_temp_file file_stream_memory_usage
              merger_memory_usage m Hmono) as (Hr & Hfit & _).
  destruct (calculate_fanout_spec sizeof_temp_file file_stream_memory_usage
              merger_memory_usage m' Hmono) as (Hr' & _ & Hmax').
  cbn zeta in *.
  destruct (decide (search_fanout m ≤ search_fanout m')) as [?|Hgt]; [done|].
  destruct Hfit as [?|Hfit]; [lia|].
  specialize (Hmax' (search_fanout m) ltac:(lia)). lia.
Qed.

(** The budgets [calculate_parameters] records are never below the ones it
    was given, they cover the memory usage of the fan-outs it chose, and the
    internal-report threshold never exceeds the run length. *)
Theorem calculate_parameters_budget (m2 m3 m4 : nat) (s : merge_sorter) :
  let params := p (parameters_of m2 m3 m4 s) in
  m2 ≤ memoryPhase2 params
  ∧ m3 ≤ memoryPhase3 params
  ∧ m4 ≤ memoryPhase4 params
  ∧ usage (fanout params) ≤ memoryPhase3 params
  ∧ usage (finalFanout params) ≤ memoryPhase4 params
  ∧ internalReportThreshold params ≤ runLength params.
Proof.
  cbn zeta. unfold calculate_parameters.
  cbn [p set_p set_parametersSet fanout finalFanout memoryPhase2 memoryPhase3
       memoryPhase4 runLength internalReportThreshold].
  repeat match goal with |- context [decide ?P] => destruct (decide P) end;
    repeat split; lia.
Qed.

(** With items of at least one byte and sizes that fit a 64-bit word, the
    run buffer holds at least one item and, together with one stream and
    the temp-file handles, stays within the phase-2 budget recorded. *)
Theorem calculate_parameters_run_length (m2 m3 m4 : nat) (s : merge_sorter) :
  0 < sizeof_T →
  SizeT.fits m2 →
  SizeT.fits (sizeof_T + file_stream_memory_usage
              + 2 * 251 * sizeof_temp_file) →
  let params := p (parameters_of m2 m3 m4 s) in
  let tempFileMemory := 2 * fanout params * sizeof_temp_file in
  memoryPhase2 params
  = Nat.max m2 (sizeof_T + file_stream_memory_usage + tempFileMemory)
  ∧ runLength params
    = (memoryPhase2 params - file_stream_memory_usage - tempFileMemory)
      / sizeof_T
  ∧ 1 ≤ runLength params
  ∧ runLength params * sizeof_T + file_stream_memory_usage + tempFileMemory
    ≤ memoryPhase2 params.
Proof.
  intros HT Hm2 Hfit. cbn zeta.
  pose proof (calculate_fanout_range sizeof_temp_file
                file_stream_memory_usage merger_memory_usage m3) as Hf.
  unfold calculate_parameters.
  cbn [p set_p set_parametersSet fanout finalFanout memoryPhase2 memoryPhase3
       memoryPhase4 runLength internalReportThreshold].
  set (f := search_fanout m3) in *.
  assert (Hle : 2 * f * sizeof_temp_file ≤ 2 * 251 * sizeof_temp_file) by nia.
  rewrite (SizeT_mul_small 2 f)
    by (apply (SizeT_fits_le _ 502); [lia|reflexivity]).
  rewrite (SizeT_mul_small (2 * f))
    by (eapply SizeT_fits_le; [|exact Hfit]; lia).
  rewrite (SizeT_add_small sizeof_T)
    by (eapply SizeT_fits_le; [|exact Hfit]; lia).
  rewrite (SizeT_add_small (sizeof_T + file_stream_memory_usage))
    by (eapply SizeT_fits_le; [|exact Hfit]; lia).
  set (t := 2 * f * sizeof_temp_file) in *.
  set (min_m2 := sizeof_T + file_stream_memory_usage + t).
  set (m2' := if decide (m2 < min_m2) then min_m2 else m2).
  assert (Hm2' : m2' = Nat.max m2 min_m2)
    by (subst m2'; destruct (decide _); lia).
  assert (Hfit' : SizeT.fits m2').
  { rewrite Hm2'. destruct (Nat.max_spec m2 min_m2) as [[_ ->]|[_ ->]];
      [|done]. eapply SizeT_fits_le; [|exact Hfit]. subst min_m2. lia. }
  rewrite (SizeT_sub_small m2'); [|subst min_m2; lia|done].
  rewrite (SizeT_sub_small (m2' - file_stream_memory_usage));
    [|subst min_m2; lia|eapply SizeT_fits_le; [|exact Hfit']; lia].
  split; [done|]. split; [done|].
  assert (Hone : sizeof_T ≤ m2' - file_stream_memory_usage - t)
    by (subst min_m2; lia).
  pose proof (Nat.div_mod_eq (m2' - file_stream_memory_usage - t) sizeof_T).
  pose proof (Nat.mod_upper_bound (m2' - file_stream_memory_usage - t)
                sizeof_T ltac:(lia)).
  split; [|nia].
  apply (Nat.div_le_lower_bound _ sizeof_T 1); lia.
Qed.

End ParameterBudget.


(** ** What phases 3 and 4 leave alone *)

Section CalcFrame.

Context {T : Type}.
Variable pred : T → T → bool.

Implicit Types (s : merge_sorter (T:=T)).

Lemma same_sorter_merger s m : same_sorter s (set_merger m s).
Proof. exists (m_runFiles s), m. by destruct s. Qed.

Lemma same_sorter_files s files : same_sorter s (set_runFiles files s).
Proof. exists files, (m_merger s). by destruct s. Qed.

Lemma same_sorter_p s s' : same_sorter s s' → p s' = p s.
Proof. by intros (files & m & ->). Qed.

Lemma initialize_merger_frame L rn cnt s s' :
  initialize_merger L rn cnt s = Done s' → same_sorter s s'.
Proof.
  unfold initialize_merger. intros Hrun.
  destruct (open_runs _ _ _ _ _) as [ins| |]; [|done..].
  rewrite bind_Done_l in Hrun.
  destruct (merger_reset _ _ _ _) as [m| |]; [|done..].
  rewrite bind_Done_l in Hrun. injection Hrun as <-.
  apply same_sorter_merger.
Qed.

Lemma merge_runs_loop_frame fuel out s s' :
  merge_runs_loop pred fuel out s = Done s' → same_sorter s s'.
Proof.
  revert out s. induction fuel as [|fuel IH]; intros out s; cbn [merge_runs_loop].
  all: destruct (merger_can_pull (m_merger s));
    [|intros [= <-]; apply same_sorter_refl].
  - done.
  - destruct (merger_pull _ _ _) as [[x m']| |]; [|done..].
    rewrite bind_Done_l. cbv beta iota.
    destruct (fs_write _ _ _) as [files' out'].
    intros Hrun%IH. eapply same_sorter_trans; [|exact Hrun].
    eapply same_sorter_trans; [apply same_sorter_merger|apply same_sorter_files].
Qed.

Lemma merge_runs_frame fuel L rn cnt s n s' :
  merge_runs pred fuel L rn cnt s = Done (n, s') →
  same_sorter s s' ∧ n = rn / fanout (p s).
Proof.
  unfold merge_runs. intros Hrun.
  destruct (initialize_merger L rn cnt s) as [s1| |] eqn:Hinit; [|done..].
  apply initialize_merger_frame in Hinit.
  rewrite bind_Done_l in Hrun.
  destruct (decide (fanout (p s1) = 0)); [done|].
  destruct (open_run_file_write _ _ _ _) as [[files out]| |]; [|done..].
  rewrite bind_Done_l in Hrun. cbv beta iota in Hrun.
  destruct (merge_runs_loop _ _ _ _) as [s2| |] eqn:Hloop; [|done..].
  apply merge_runs_loop_frame in Hloop.
  rewrite bind_Done_l in Hrun. injection Hrun as <- <-.
  rewrite (same_sorter_p _ _ Hinit). split; [|done].
  eapply same_sorter_trans; [exact Hinit|].
  eapply same_sorter_trans; [apply same_sorter_files|exact Hloop].
Qed.

Lemma prepare_pull_for_frame fuel budget L rc i n s n' s' :
  prepare_pull_for pred fuel budget L rc i n s = Done (n', s') →
  same_sorter s s'.
Proof.
  revert i n s. induction fuel as [|fuel IH]; intros i n s;
    cbn [prepare_pull_for].
  all: destruct (decide (i < rc)); [|intros [= <- <-]; apply same_sorter_refl].
  - done.
  - destruct (merge_runs _ _ _ _ _ _) as [[r s1]| |] eqn:Hmerge; [|done..].
    apply merge_runs_frame in Hmerge as [Hsame _].
    rewrite bind_Done_l. cbv beta iota. intros Hrun%IH.
    by eapply same_sorter_trans.
Qed.

Lemma prepare_pull_while_frame fuel budget L rc s L' rc' s' :
  prepare_pull_while pred fuel budget L rc s = Done (L', rc', s') →
  same_sorter s s'.
Proof.
  revert L rc s. induction fuel as [|fuel IH]; intros L rc s;
    cbn [prepare_pull_while].
  all: destruct (decide (fanout (p s) < rc));
    [|intros [= <- <- <-]; apply same_sorter_refl].
  - done.
  - destruct (prepare_pull_for _ _ _ _ _ _ _ _) as [[n s1]| |] eqn:Hfor;
      [|done..].
    apply prepare_pull_for_frame in Hfor.
    rewrite bind_Done_l. cbv beta iota. intros Hrun%IH.
    by eapply same_sorter_trans.
Qed.

Lemma initialize_final_merger_frame fuel L rc s s' :
  initialize_final_merger pred fuel L rc s = Done s' → same_sorter s s'.
Proof.
  unfold initialize_final_merger.
  destruct (decide (finalFanout (p s) < rc)); [|apply initialize_merger_frame].
  destruct (merge_runs _ _ _ _ _ _) as [[r s1]| |] eqn:Hmerge; [|done..].
  apply merge_runs_frame in Hmerge as [Hsame _].
  rewrite bind_Done_l. cbv beta iota.
  destruct (open_runs _ _ _ _ _) as [ins| |]; [|done..].
  rewrite bind_Done_l.
  destruct (open_run_file_read _ _ _ _) as [long| |]; [|done..].
  rewrite bind_Done_l.
  destruct (merger_reset _ _ _ _) as [m| |]; [|done..].
  rewrite bind_Done_l. intros [= <-].
  eapply same_sorter_trans; [exact Hsame|apply same_sorter_merger].
Qed.

(** Whatever the state of the sorter, a [calc()] that returns has changed
    nothing but the temp files, the merger and the [pull_prepared] flag,
    which it has set: the parameters, the run buffer, the run counters and
    the reporting mode are as they were. *)
Theorem calc_frame fuel s s' :
  calc pred fuel s = Done s' →
  ∃ files m,
    s' = set_pull_prepared true (set_runFiles files (set_merger m s)).
Proof.
  unfold calc. destruct (m_parametersSet s); [|done].
  cbn [tp_assert]. rewrite bind_Done_l.
  destruct (m_reportInternal s); cbn [negb].
  - intros [= <-]. exists (m_runFiles s), (m_merger s). by destruct s.
  - unfold prepare_pull.
    destruct (prepare_pull_while _ _ _ _ _ _) as [[[L rc] s1]| |] eqn:Hwhile;
      [|done..].
    apply prepare_pull_while_frame in Hwhile.
    rewrite bind_Done_l. cbv beta iota.
    destruct (initialize_final_merger _ _ _ _ _) as [s2| |] eqn:Hfinal;
      [|done..].
    apply initialize_final_merger_frame in Hfinal.
    rewrite bind_Done_l. intros [= <-].
    destruct (same_sorter_trans _ _ _ Hwhile Hfinal) as (files & m & ->).
    by exists files, m.
Qed.

End CalcFrame.

(** ** How many runs and passes *)

Lemma ceil_div_0 f : 0 < f → ceil_div 0 f = 0.
Proof. intros Hf. unfold ceil_div. apply Nat.div_small. lia. Qed.

Lemma ceil_div_bounds a f :
  0 < f → a ≤ ceil_div a f * f < a + f.
Proof.
  intros Hf. unfold ceil_div.
  pose proof (Nat.div_mod_eq (a + f - 1) f).
  pose proof (Nat.mod_upper_bound (a + f - 1) f ltac:(lia)). nia.
Qed.

Lemma ceil_div_unique a f c :
  0 < f → a ≤ c * f < a + f → c = ceil_div a f.
Proof.
  intros Hf Hc. pose proof (ceil_div_bounds a f Hf).
  destruct (Nat.lt_trichotomy c (ceil_div a f)) as [?|[?|?]]; [|done|].
  - assert (c * f + f ≤ ceil_div a f * f)
      by (rewrite <- Nat.mul_succ_l; apply Nat.mul_le_mono_r; lia).
    lia.
  - assert (ceil_div a f * f + f ≤ c * f)
      by (rewrite <- Nat.mul_succ_l; apply Nat.mul_le_mono_r; lia).
    lia.
Qed.

Lemma ceil_div_step a f :
  0 < f → 0 < a → ceil_div a f = S (ceil_div (a - f) f).
Proof.
  intros Hf Ha. symmetry. apply ceil_div_unique; [done|].
  rewrite Nat.mul_succ_l.
  destruct (decide (a ≤ f)) as [Hle|Hgt].
  - replace (a - f) with 0 by lia. rewrite ceil_div_0 by done. lia.
  - pose proof (ceil_div_bounds (a - f) f Hf). lia.
Qed.

Lemma ceil_div_le a f : 0 < f → ceil_div a f ≤ a.
Proof. intros Hf. pose proof (ceil_div_bounds a f Hf). nia. Qed.

Lemma ceil_div_1 a : ceil_div a 1 = a.
Proof. symmetry. apply ceil_div_unique; lia. Qed.

Lemma runs_after_S f R k :
  runs_after f R (S k) = runs_after f (ceil_div R f) k.
Proof. unfold runs_after. by rewrite Nat.iter_succ_r. Qed.

Section PassCounts.

Context {T : Type}.
Variable pred : T → T → bool.

Implicit Types (s : merge_sorter (T:=T)).

(** A pass of the [for] loop that returns has made one run out of every
    [fanout] runs it was given. *)
Lemma prepare_pull_for_count fuel budget L rc i n s n' s' :
  0 < fanout (p s) →
  SizeT.fits (rc + fanout (p s)) →
  prepare_pull_for pred fuel budget L rc i n s = Done (n', s') →
  n' = n + ceil_div (rc - i) (fanout (p s)).
Proof.
  intros Hf Hfit. revert i n s Hf Hfit.
  induction fuel as [|fuel IH]; intros i n s Hf Hfit; cbn [prepare_pull_for].
  all: destruct (decide (i < rc)) as [Hlt|Hge];
    [|intros [= <- <-]; replace (rc - i) with 0 by lia;
      rewrite ceil_div_0 by done; lia].
  - done.
  - destruct (merge_runs _ _ _ _ _ _) as [[r s1]| |] eqn:Hmerge; [|done..].
    apply merge_runs_frame in Hmerge as [Hsame%same_sorter_p _].
    rewrite bind_Done_l. cbv beta iota. rewrite Hsame.
    rewrite SizeT_add_small by (eapply SizeT_fits_le; [|exact Hfit]; lia).
    intros Hrun%IH; [|by rewrite Hsame..].
    rewrite Hsame in Hrun.
    rewrite (ceil_div_step (rc - i)) by lia.
    replace (rc - i - fanout (p s)) with (rc - (i + fanout (p s))) by lia.
    lia.
Qed.

(** A [while] loop that returns has made the least number of passes that
    brings the run count down to the fan-out. *)
Lemma prepare_pull_while_count fuel budget L rc s L' rc' s' :
  0 < fanout (p s) →
  SizeT.fits (rc + fanout (p s)) →
  prepare_pull_while pred fuel budget L rc s = Done (L', rc', s') →
  ∃ k, L' = L + k
       ∧ rc' = runs_after (fanout (p s)) rc k
       ∧ rc' ≤ fanout (p s)
       ∧ ∀ j, j < k → fanout (p s) < runs_after (fanout (p s)) rc j.
Proof.
  intros Hf. revert L rc s Hf.
  induction fuel as [|fuel IH]; intros L rc s Hf Hfit;
    cbn [prepare_pull_while].
  all: destruct (decide (fanout (p s) < rc)) as [Hmore|Hfew];
    [|intros [= <- <- <-]; exists 0; rewrite Nat.add_0_r;
      split; [done|]; split; [done|]; split; [lia|]; intros j ?; lia].
  - done.
  - destruct (prepare_pull_for _ _ _ _ _ _ _ _) as [[n s1]| |] eqn:Hfor;
      [|done..].
    pose proof (prepare_pull_for_frame _ _ _ _ _ _ _ _ _ _ Hfor) as Hsame.
    apply same_sorter_p in Hsame.
    apply prepare_pull_for_count in Hfor; [|done..].
    rewrite Nat.sub_0_r in Hfor. cbn in Hfor. subst n.
    rewrite bind_Done_l. cbv beta iota.
    pose proof (ceil_div_le rc (fanout (p s)) Hf) as Hle.
    intros (k & -> & -> & Hend & Hmin)%IH; rewrite ?Hsame; [|done|].
    2:{ eapply SizeT_fits_le; [|exact Hfit]. lia. }
    rewrite Hsame in Hend, Hmin.
    exists (S k). split; [lia|]. rewrite runs_after_S.
    split; [done|]. split; [done|].
    intros [|j] Hj; [cbn; lia|]. rewrite runs_after_S. apply Hmin. lia.
Qed.

(** With a fan-out of 1 a pass leaves as many runs as it found: as soon as
    two runs have been formed, [calc()] never returns. *)
Theorem calc_diverges_at_fanout_1 fuel s :
  fanout (p s) = 1 →
  m_reportInternal s = false →
  1 < m_finishedRuns s →
  SizeT.fits (S (m_finishedRuns s)) →
  ∀ s', calc pred fuel s ≠ Done s'.
Proof.
  intros Hf Hext Hruns Hfit s'. unfold calc.
  destruct (m_parametersSet s); [|done].
  cbn [tp_assert]. rewrite bind_Done_l, Hext. cbn [negb].
  unfold prepare_pull.
  destruct (prepare_pull_while _ _ _ _ _ _) as [[[L rc] s1]| |] eqn:Hwhile;
    [|done..].
  apply prepare_pull_while_count in Hwhile as (k & _ & -> & Hend & _);
    rewrite ?Hf; [|lia|by rewrite Nat.add_1_r].
  rewrite Hf in Hend. exfalso.
  assert (Hsame : ∀ k R, runs_after 1 R k = R).
  { clear. induction k as [|k IH]; intros R; [done|].
    by rewrite runs_after_S, ceil_div_1. }
  rewrite Hsame in Hend. lia.
Qed.

End PassCounts.

Section PassCountsStored.

Context {T : Type}.
Variable pred : T → T → bool.
Hypothesis pred_asym : ∀ a b, pred a b = true → pred b a = false.
Hypothesis pred_negtrans :
  ∀ a b c, pred b a = false → pred c b = false → pred c a = false.

Implicit Types (s : merge_sorter (T:=T)) (rs : list (list T)).

(** Phase 3 on the stored sorted runs [rs] of level [L] makes the least
    number [k] of passes after which at most [fanout] runs are left; after
    [j] passes there are [runs_after fanout (length rs) j] runs, each pass
    dividing the count by the fan-out, rounded up. *)
Theorem merge_pass_count params n budget fuel s L rs :
  sortable params n →
  length (concat rs) ≤ n →
  length (concat rs) ≤ budget →
  level_run_length params L ≤ runLength params + n →
  level_inv pred params s L rs →
  rs ≠ [] →
  length rs ≤ fuel →
  ∃ k rc' s',
    prepare_pull_while pred fuel budget L (length rs) s = Done (L + k, rc', s')
    ∧ rc' = runs_after (fanout params) (length rs) k
    ∧ rc' ≤ fanout params
    ∧ ∀ j, j < k → fanout params < runs_after (fanout params) (length rs) j.
Proof.
  intros Hok Hn Hbudget Hrl Hinv Hne Hfuel.
  destruct (prepare_pull_while_spec pred pred_asym pred_negtrans
              params n budget fuel s L rs)
    as (L' & rs' & s' & Hrun & _); try done.
  pose proof Hinv as (Hp & _ & _ & _ & Hfull & _).
  pose proof (runs_full_count _ _ Hfull) as Hcount.
  pose proof (sortable_fanout _ _ Hok) as Hf.
  apply prepare_pull_while_count in Hrun as Hcounts; rewrite ?Hp;
    [|lia|eapply sortable_fits; [done|nia]].
  destruct Hcounts as (k & -> & Hrc & Hend & Hmin).
  rewrite Hp in Hrc, Hend, Hmin.
  exists k, (length rs'), s'. done.
Qed.

End PassCountsStored.

(** ** Run formation *)

Section RunCount.

Context {T : Type}.
Variable T_default : T.
Variable parallel_sort : list T → list T.
Hypothesis parallel_sort_perm : ∀ l, parallel_sort l ≡ₚ l.

Implicit Types (s : merge_sorter (T:=T)).

Lemma always_sorted (l : list T) : StronglySorted (item_le (λ _ _, false)) l.
Proof. induction l; constructor; [done|]. by apply Forall_forall. Qed.

(** [begin()], one [push] per item and [end()]: the sorter reports from
    memory exactly when the items number at most the run length and at most
    [internalReportThreshold]; otherwise it has written [N / runLength],
    rounded up, runs. *)
Theorem form_runs_count s items :
  m_parametersSet s = true →
  pq (m_merger s) = [] →
  sortable (p s) (length items) →
  let N := length items in
  ∃ s',
    form_runs T_default parallel_sort items s = Done s'
    ∧ (m_reportInternal s' = true
       ↔ N ≤ runLength (p s) ∧ N ≤ internalReportThreshold (p s))
    ∧ (m_reportInternal s' = true →
         m_currentRunItemCount s' = N
         ∧ take N (m_currentRunItems s') ≡ₚ items)
    ∧ (m_reportInternal s' = false →
         m_finishedRuns s' = ceil_div N (runLength (p s))).
Proof.
  intros Hset Hpq Hok N. unfold form_runs.
  set (pred := λ _ _ : T, false).
  destruct (begin_forming T_default pred s _ Hset Hpq Hok)
    as (s1 & Hbegin & Hform1).
  rewrite Hbegin, bind_Done_l.
  destruct (push_all_forming pred parallel_sort parallel_sort_perm
              (λ l, always_sorted _) (p s) (length items) items s1 [] [] Hok)
    as (s2 & rs & buf & Hpush & Hform2 & Hperm2); [cbn; lia|done|].
  rewrite Hpush, bind_Done_l. cbn [concat app] in Hperm2.
  pose proof Hform2 as (_ & _ & _ & _ & _ & _ & Hbuf & _ & _ & _ & Hfull
                        & Hnonempty).
  pose proof Hok as (Hrl & _).
  assert (Hlen : N = length rs * runLength (p s) + length buf).
  { subst N. rewrite <- Hperm2, length_app. f_equal.
    clear -Hfull. induction Hfull as [|run rs [Hrun _] _ IH]; [done|].
    cbn. rewrite length_app. lia. }
  destruct (decide (length rs = 0
                    ∧ length buf ≤ internalReportThreshold (p s)))
    as [[Hnil Hsmall]|Hext].
  - destruct rs; [|done]. cbn [concat app length] in *.
    destruct (end_internal pred parallel_sort parallel_sort_perm _ _ _
                Hform2 Hsmall)
      as (s3 & Hend & Hint & _ & _ & Hcount & Htake).
    exists s3. split; [done|]. rewrite Hint.
    split; [split; [lia|done]|]. split; [|done]. intros _.
    replace N with (length buf) by lia.
    split; [done|]. by rewrite Htake, parallel_sort_perm.
  - destruct (end_external pred parallel_sort parallel_sort_perm
                (λ l, always_sorted _) _ _ _ _ _ Hok Hform2 Hext)
      as (s3 & Hend & Hint & _ & Hruns3 & _).
    exists s3. split; [done|]. rewrite Hint.
    assert (Hbufpos : 0 < length buf).
    { destruct rs as [|run rs]; [cbn in *; lia|].
      specialize (Hnonempty ltac:(done)). destruct buf; [done|cbn; lia]. }
    split; [|split; [done|]].
    + split; [done|]. intros [HN Hthr]. exfalso. apply Hext.
      destruct rs as [|run rs]; [cbn in *; lia|]. cbn in Hlen. nia.
    + intros _. rewrite Hruns3, length_app. cbn [length].
      apply ceil_div_unique; [lia|]. nia.
Qed.

End RunCount.

(** ** Edge cases of the layout and of run formation *)

(** The index [run_file_index] computes is one of the [2 * fanout] temp
    files, and two runs get the same file exactly when their levels have the
    same parity and their numbers are congruent modulo the fan-out: runs of
    consecutive levels never share a file. *)
Theorem run_file_index_shared params L r L' r' :
  0 < fanout params →
  SizeT.fits (2 * fanout params) →
  (∃ idx, run_file_index params L r = Done idx ∧ idx < 2 * fanout params)
  ∧ (run_file_index params L r = run_file_index params L' r'
     ↔ L mod 2 = L' mod 2 ∧ r mod fanout params = r' mod fanout params).
Proof.
  intros Hf Hfit. rewrite !run_file_index_exact by done.
  pose proof (run_file_index_lt params L r Hf).
  pose proof (Nat.mod_upper_bound L 2 ltac:(lia)).
  pose proof (Nat.mod_upper_bound L' 2 ltac:(lia)).
  pose proof (Nat.mod_upper_bound r (fanout params) ltac:(lia)).
  pose proof (Nat.mod_upper_bound r' (fanout params) ltac:(lia)).
  split; [eexists; split; [done|lia]|].
  split.
  - intros [= Heq]. revert Heq.
    generalize dependent (L mod 2). generalize dependent (L' mod 2).
    intros a' ? a ? ?.
    assert (a = 0 ∨ a = 1) as [->| ->] by lia;
      assert (a' = 0 ∨ a' = 1) as [->| ->] by lia; lia.
  - by intros [-> ->].
Qed.

Section RunLengthZero.

Context {T : Type}.
Variable T_default : T.
Variable parallel_sort : list T → list T.
Hypothesis parallel_sort_perm : ∀ l, parallel_sort l ≡ₚ l.

Implicit Types (s : merge_sorter (T:=T)).

(** With a run length of 0 the run buffer [begin()] allocates is empty, and
    the first [push] stores past its end: no item can be pushed. *)
Theorem push_needs_run_length s s0 (x : T) :
  runLength (p s) = 0 →
  begin T_default s = Done s0 →
  ∃ e, push parallel_sort x s0 = Fail e.
Proof.
  intros Hrl. unfold begin.
  destruct (m_parametersSet s) eqn:Hset; [|done].
  cbn [tp_assert]. rewrite bind_Done_l. intros [= <-].
  unfold push. cbn [m_parametersSet set_finishedRuns set_currentRunItemCount
    set_runFiles set_currentRunItems p m_currentRunItemCount].
  rewrite Hset, Hrl. cbn [tp_assert replicate]. rewrite bind_Done_l.
  destruct (decide (0 ≤ 0)) as [_|?]; [|lia].
  unfold sort_current_run. cbn [m_currentRunItemCount m_currentRunItems
    set_finishedRuns set_currentRunItemCount set_runFiles set_currentRunItems
    length].
  destruct (decide (0 ≤ 0)) as [_|?]; [|lia].
  rewrite bind_Done_l. cbn [take drop].
  assert (Hnil : parallel_sort [] = [])
    by (apply Permutation_nil_r; by rewrite parallel_sort_perm).
  rewrite Hnil. cbn [app].
  unfold empty_current_run.
  destruct (open_run_file_write _ _ _ _) as [[files fs]|e|] eqn:Hopen;
    [|by exists e|].
  - rewrite bind_Done_l. cbv beta iota.
    cbn [m_currentRunItemCount m_currentRunItems set_finishedRuns
         set_currentRunItemCount set_runFiles set_currentRunItems length
         take write_items].
    destruct (decide (0 ≤ 0)) as [_|?]; [|lia].
    rewrite bind_Done_l.
    cbn [m_currentRunItemCount m_currentRunItems set_finishedRuns
         set_currentRunItemCount set_runFiles set_currentRunItems length].
    destruct (decide (0 < 0)) as [?|_]; [lia|]. by eexists.
  - exfalso. revert Hopen. unfold open_run_file_write, run_file_index, at_.
    repeat (destruct (decide _) || destruct (_ !! _)
            || rewrite bind_Done_l || done).
Qed.

End RunLengthZero.


(** * Properties of the block collection cache *)

Module CacheProps.

Import Blocks.

Section EraseNode.

Implicit Types (l : list (nat * block_handle)).

Lemma erase_node it h l :
  NoDup l.*1 → (it, h) ∈ l →
  ∃ l1 l2, l = l1 ++ (it, h) :: l2 ∧ erase it l = Done (l1 ++ l2).
Proof.
  induction l as [|[it' h'] l IH]; intros Hnd Hin; [by apply elem_of_nil in Hin|].
  cbn in Hnd. apply NoDup_cons in Hnd as [Hfresh Hnd].
  cbn [erase fst]. destruct (decide (it' = it)) as [->|Hne].
  - apply elem_of_cons in Hin as [[= ->]|Hin].
    + by exists [], l.
    + exfalso. apply Hfresh. apply list_elem_of_fmap. by exists (it, h).
  - apply elem_of_cons in Hin as [[= ? ?]|Hin]; [done|].
    destruct (IH Hnd Hin) as (l1 & l2 & -> & ->).
    exists ((it', h') :: l1), l2. by rewrite bind_Done_l.
Qed.

Lemma node_unique it h h' l :
  NoDup l.*1 → (it, h) ∈ l → (it, h') ∈ l → h = h'.
Proof.
  intros Hnd [i Hi]%list_elem_of_lookup [j Hj]%list_elem_of_lookup.
  assert (i = j); [|naive_solver].
  eapply NoDup_lookup; [exact Hnd| |]; rewrite list_lookup_fmap.
  - by rewrite Hi.
  - by rewrite Hj.
Qed.

Lemma node_removed it h l1 l2 h' :
  NoDup (l1 ++ (it, h) :: l2).*1 → (it, h') ∉ l1 ++ l2.
Proof.
  rewrite fmap_app, fmap_cons. cbn. intros Hnd Hin.
  apply NoDup_app in Hnd as (_ & Hdisj & [Hnot _]%NoDup_cons).
  apply elem_of_app in Hin as [Hin|Hin].
  - apply (Hdisj it); [apply list_elem_of_fmap; by exists (it, h')|left].
  - apply Hnot. apply list_elem_of_fmap. by exists (it, h').
Qed.

End EraseNode.

Section Bookkeeping.

Context {block collection : Type}.
Implicit Types (c : block_collection_cache (block:=block)
                                           (collection:=collection)).

Lemma cache_new_wf (coll : collection) blockSize maxSize :
  cache_wf (cache_new (block:=block) coll blockSize maxSize).
Proof.
  split; [constructor|]. split; [by intros it ?%elem_of_nil|].
  split; [intros pos key info; cbn; by rewrite lookup_empty|].
  split; [by intros it h ?%elem_of_nil|done].
Qed.

Lemma set_collection_wf coll c : cache_wf c → cache_wf (set_collection coll c).
Proof. done. Qed.

(** The node of an entry of the map. *)
Lemma entry_node c pos key info :
  cache_wf c → m_blockMap c !! pos = Some (key, info) →
  ∃ h l1 l2, position h = pos ∧ position key = pos
             ∧ m_blockList c = l1 ++ (iterator info, h) :: l2
             ∧ erase (iterator info) (m_blockList c) = Done (l1 ++ l2).
Proof.
  intros (Hnd & _ & Hmap & _) Hentry.
  destruct (Hmap _ _ _ Hentry) as (Hkey & h & Hin & Hpos).
  destruct (erase_node _ _ _ Hnd Hin) as (l1 & l2 & Hl & Herase).
  by exists h, l1, l2.
Qed.

(** Moving the node of an entry to the back of the list. *)
Lemma touch_wf c pos key info h l1 l2 (new : block_handle) (d : bool) :
  cache_wf c →
  m_blockMap c !! pos = Some (key, info) →
  m_blockList c = l1 ++ (iterator info, h) :: l2 →
  position new = pos →
  cache_wf
    {| m_collection := m_collection c;
       m_blockList := (l1 ++ l2) ++ [(m_nodes c, new)];
       m_nodes := S (m_nodes c);
       m_blockMap :=
         <[pos := (key, {| pointer := pointer info; iterator := m_nodes c;
                           dirty := d |})]> (m_blockMap c);
       m_curSize := m_curSize c;
       m_maxSize := m_maxSize c;
       m_blockSize := m_blockSize c |}.
Proof.
  intros (Hnd & Hfresh & Hmap & Hlist & Hsize) Hentry Hl Hnew.
  destruct (Hmap _ _ _ Hentry) as (Hkey & h0 & Hin0 & Hpos0).
  assert (h0 = h) as ->.
  { eapply node_unique; [exact Hnd|exact Hin0|]. rewrite Hl.
    apply elem_of_app. right. left. }
  rewrite Hl in Hnd, Hsize.
  assert (Hnd' : NoDup (l1 ++ l2).*1).
  { revert Hnd. rewrite !fmap_app, fmap_cons. intros Hnd.
    apply NoDup_app in Hnd as (? & Hdisj & [_ ?]%NoDup_cons).
    apply NoDup_app. split; [done|]. split; [|done].
    intros x Hx Hx2. apply (Hdisj x Hx). by right. }
  assert (Hsub : ∀ x, x ∈ l1 ++ l2 → x ∈ l1 ++ (iterator info, h) :: l2)
    by (intros x [?|?]%elem_of_app; apply elem_of_app;
        [by left|right; by right]).
  unfold cache_wf; cbn [m_blockList m_nodes m_blockMap m_curSize
    set_blockMap set_curSize set_blockList].
  split; [|split; [|split; [|split]]].
  - rewrite fmap_app. cbn [fmap list_fmap fst].
    apply NoDup_app. split; [done|]. split; [|apply NoDup_singleton].
    intros it Hit ->%list_elem_of_singleton.
    assert (m_nodes c < m_nodes c); [|lia]. apply Hfresh.
    apply list_elem_of_fmap in Hit as ([it' h'] & -> & Hin).
    apply list_elem_of_fmap. exists (it', h'). split; [done|].
    rewrite Hl. by apply Hsub.
  - intros it. rewrite fmap_app. cbn [fmap list_fmap fst].
    intros [Hit| ->%list_elem_of_singleton]%elem_of_app; [|lia].
    assert (it < m_nodes c); [|lia]. apply Hfresh.
    apply list_elem_of_fmap in Hit as ([it' h'] & -> & Hin).
    apply list_elem_of_fmap. exists (it', h'). split; [done|].
    rewrite Hl. by apply Hsub.
  - intros pos' key' info'. destruct (decide (pos' = pos)) as [->|Hne].
    + rewrite lookup_insert_eq. intros [= <- <-]. cbn.
      split; [done|]. exists new. split; [|done].
      apply elem_of_app. right. left.
    + rewrite lookup_insert_ne by done. intros Hentry'.
      destruct (Hmap _ _ _ Hentry') as (Hkey' & h' & Hin' & Hpos').
      split; [done|]. exists h'. split; [|done].
      apply elem_of_app. left. rewrite Hl in Hin'.
      apply elem_of_app in Hin' as [?|[[= Hit ->]|?]%elem_of_cons];
        [apply elem_of_app; by left|congruence|apply elem_of_app; by right].
  - intros it h'.
    intros [Hin|[[= -> ->]|[]%elem_of_nil]%elem_of_cons]%elem_of_app.
    + destruct (Hlist it h') as (key' & info' & Hentry' & Hit);
        [rewrite Hl; by apply Hsub|].
      destruct (decide (position h' = pos)) as [Hsame|Hne].
      * exfalso. rewrite Hsame, Hentry in Hentry'. injection Hentry' as <- <-.
        subst it. by eapply node_removed.
      * exists key', info'. by rewrite lookup_insert_ne.
    + eexists _, _. rewrite Hnew, lookup_insert_eq. done.
  - rewrite Hsize, !length_app. cbn. lia.
Qed.

(** Adding a block at a position that has no entry. *)
Lemma add_to_cache_wf c h (b : block) d :
  cache_wf c → m_blockMap c !! position h = None →
  cache_wf (add_to_cache h b d c).
Proof.
  intros (Hnd & Hfresh & Hmap & Hlist & Hsize) Hmiss.
  unfold add_to_cache, push_back, map_assign. cbn. rewrite Hmiss.
  unfold cache_wf; cbn [m_blockList m_nodes m_blockMap m_curSize
    set_blockMap set_curSize set_blockList].
  split; [|split; [|split; [|split]]].
  - rewrite fmap_app. cbn [fmap list_fmap fst].
    apply NoDup_app. split; [done|]. split; [|apply NoDup_singleton].
    intros it Hit ->%list_elem_of_singleton.
    specialize (Hfresh _ Hit). lia.
  - intros it. rewrite fmap_app. cbn [fmap list_fmap fst].
    intros [Hit| ->%list_elem_of_singleton]%elem_of_app; [|lia].
    specialize (Hfresh _ Hit). lia.
  - intros pos' key' info'. destruct (decide (pos' = position h)) as [->|Hne].
    + rewrite lookup_insert_eq. intros [= <- <-]. cbn.
      split; [done|]. exists h. split; [|done].
      apply elem_of_app. right. left.
    + rewrite lookup_insert_ne by done. intros Hentry'.
      destruct (Hmap _ _ _ Hentry') as (Hkey' & h' & Hin' & Hpos').
      split; [done|]. exists h'. split; [|done].
      apply elem_of_app. by left.
  - intros it h'.
    intros [Hin|[[= -> ->]|[]%elem_of_nil]%elem_of_cons]%elem_of_app.
    + destruct (Hlist it h' Hin) as (key' & info' & Hentry' & Hit).
      exists key', info'. rewrite lookup_insert_ne; [done|].
      intros Heq. by rewrite <- Heq, Hmiss in Hentry'.
    + eexists _, _. by rewrite lookup_insert_eq.
  - rewrite Hsize, length_app. cbn. lia.
Qed.

(** Dropping an entry and its node. *)
Lemma remove_wf c pos key info h l1 l2 :
  cache_wf c →
  m_blockMap c !! pos = Some (key, info) →
  m_blockList c = l1 ++ (iterator info, h) :: l2 →
  cache_wf (set_blockMap (delete pos (m_blockMap c))
              (set_curSize (decrement (m_curSize c))
                 (set_blockList (l1 ++ l2) c))).
Proof.
  intros (Hnd & Hfresh & Hmap & Hlist & Hsize) Hentry Hl.
  destruct (Hmap _ _ _ Hentry) as (Hkey & h0 & Hin0 & Hpos0).
  assert (h0 = h) as ->.
  { eapply node_unique; [exact Hnd|exact Hin0|]. rewrite Hl.
    apply elem_of_app. right. left. }
  rewrite Hl in Hnd, Hsize.
  assert (Hsub : ∀ x, x ∈ l1 ++ l2 → x ∈ l1 ++ (iterator info, h) :: l2)
    by (intros x [?|?]%elem_of_app; apply elem_of_app;
        [by left|right; by right]).
  unfold cache_wf; cbn [m_blockList m_nodes m_blockMap m_curSize
    set_blockMap set_curSize set_blockList].
  split; [|split; [|split; [|split]]].
  - revert Hnd. rewrite !fmap_app, fmap_cons. intros Hnd.
    apply NoDup_app in Hnd as (? & Hdisj & [_ ?]%NoDup_cons).
    apply NoDup_app. split; [done|]. split; [|done].
    intros x Hx Hx2. apply (Hdisj x Hx). by right.
  - intros it Hit. apply Hfresh.
    apply list_elem_of_fmap in Hit as ([it' h'] & -> & Hin).
    apply list_elem_of_fmap. exists (it', h'). split; [done|].
    rewrite Hl. by apply Hsub.
  - intros pos' key' info'. destruct (decide (pos' = pos)) as [->|Hne].
    + by rewrite lookup_delete_eq.
    + rewrite lookup_delete_ne by done. intros Hentry'.
      destruct (Hmap _ _ _ Hentry') as (Hkey' & h' & Hin' & Hpos').
      split; [done|]. exists h'. split; [|done]. rewrite Hl in Hin'.
      apply elem_of_app in Hin' as [?|[[= Hit ->]|?]%elem_of_cons];
        [apply elem_of_app; by left|congruence|apply elem_of_app; by right].
  - intros it h' Hin.
    destruct (Hlist it h') as (key' & info' & Hentry' & Hit);
      [rewrite Hl; by apply Hsub|].
    destruct (decide (position h' = pos)) as [Hsame|Hne].
    + exfalso. rewrite Hsame, Hentry in Hentry'. injection Hentry' as <- <-.
      subst it. by eapply node_removed.
    + exists key', info'. by rewrite lookup_delete_ne.
  - rewrite Hsize, !length_app. cbn. rewrite Nat.add_succ_r. done.
Qed.

(** The cached positions are distinct. *)
Lemma lru_order_NoDup c : cache_wf c → NoDup (lru_order c).
Proof.
  intros (Hnd & _ & _ & Hlist & _). unfold lru_order.
  apply NoDup_fmap_2_strong; [|by eapply NoDup_fmap_1].
  intros [it h] [it' h'] Hin Hin' Hpos. cbn in Hpos.
  destruct (Hlist _ _ Hin) as (key & info & Hentry & Hit).
  destruct (Hlist _ _ Hin') as (key' & info' & Hentry' & Hit').
  rewrite Hpos, Hentry' in Hentry. injection Hentry as <- <-.
  assert (it = it') as <- by congruence.
  f_equal. by eapply node_unique.
Qed.

Lemma lru_order_cached c pos :
  cache_wf c → pos ∈ lru_order c ↔ is_Some (m_blockMap c !! pos).
Proof.
  intros (_ & _ & Hmap & Hlist & _). unfold lru_order. split.
  - intros ([it h] & -> & Hin)%list_elem_of_fmap.
    destruct (Hlist _ _ Hin) as (key & info & Hentry & _). by eexists.
  - intros [[key info] Hentry].
    destruct (Hmap _ _ _ Hentry) as (_ & h & Hin & Hpos).
    apply list_elem_of_fmap. by exists (iterator info, h).
Qed.

Lemma filter_all (l : list nat) (x : nat) :
  x ∉ l → filter (λ y, y ≠ x) l = l.
Proof.
  induction l as [|y l IH]; intros Hx; [done|].
  apply not_elem_of_cons in Hx as [Hne Hx].
  rewrite filter_cons_True by done. by rewrite IH.
Qed.

Lemma filter_remove (l1 l2 : list nat) (x : nat) :
  NoDup (l1 ++ x :: l2) → filter (λ y, y ≠ x) (l1 ++ x :: l2) = l1 ++ l2.
Proof.
  intros (Hl1 & Hdisj & [Hx Hl2]%NoDup_cons)%NoDup_app.
  rewrite filter_app, filter_cons_False by (intros ?; done).
  f_equal; apply filter_all; [|done].
  intros Hin. apply (Hdisj x Hin). left.
Qed.

End Bookkeeping.

Section Operations.

Context {block collection : Type}.
Variable block_new : nat → block.
Variable coll_get_free_block : collection → outcome (block_handle * collection).
Variable coll_free_block : block_handle → collection → outcome collection.
Variable coll_read_block :
  block_handle → collection → outcome (block * collection).
Variable coll_write_block :
  block_handle → block → collection → outcome collection.

Implicit Types (c : block_collection_cache (block:=block)
                                           (collection:=collection)).

Lemma lru_order_split c l1 it h l2 :
  m_blockList c = l1 ++ (it, h) :: l2 →
  lru_order c
  = ((position ∘ snd) <$> l1) ++ position h :: ((position ∘ snd) <$> l2).
Proof. intros Hl. unfold lru_order. by rewrite Hl, fmap_app. Qed.

Lemma read_block_hit_spec c handle key info :
  cache_wf c →
  m_blockMap c !! position handle = Some (key, info) →
  ∃ c',
    read_block coll_read_block coll_write_block handle c
    = Done (pointer info, c')
    ∧ m_collection c' = m_collection c
    ∧ lru_order c'
      = filter (λ pos, pos ≠ position handle) (lru_order c)
        ++ [position handle]
    ∧ m_curSize c' = m_curSize c
    ∧ (∀ pos, (λ e, (e.1, pointer e.2, dirty e.2)) <$> m_blockMap c' !! pos
              = (λ e, (e.1, pointer e.2, dirty e.2)) <$> m_blockMap c !! pos)
    ∧ cache_wf c'.
Proof.
  intros Hwf Hentry.
  destruct (entry_node _ _ _ _ Hwf Hentry)
    as (h & l1 & l2 & Hpos & Hkey & Hl & Herase).
  unfold read_block. rewrite Hentry, Herase, bind_Done_l.
  unfold push_back. cbn [m_nodes set_blockList m_blockList m_collection
    m_blockMap m_curSize m_maxSize m_blockSize].
  eexists. split; [reflexivity|].
  cbn [set_blockMap m_collection m_blockList m_nodes m_blockMap m_curSize
       m_maxSize m_blockSize].
  split; [done|]. split; [|split; [done|split]].
  - pose proof (lru_order_NoDup _ Hwf) as Hnd.
    rewrite (lru_order_split c _ _ _ _ Hl) in Hnd |- *.
    rewrite Hpos in Hnd |- *. rewrite <- Hpos at 1.
    rewrite Hpos. rewrite (filter_remove _ _ _ Hnd).
    unfold lru_order. cbn [m_blockList set_blockMap]. rewrite !fmap_app.
    cbn. by rewrite Hkey.
  - intros pos. destruct (decide (pos = position handle)) as [->|Hne].
    + by rewrite lookup_insert_eq, Hentry.
    + by rewrite lookup_insert_ne.
  - by apply (touch_wf c (position handle) key info h l1 l2 key (dirty info)).
Qed.

Lemma decrement_S n : decrement (S n) = n.
Proof. done. Qed.

(** Making room evicts the block at the front of the list. *)
Lemma prepare_cache_full c it victim rest c1 :
  cache_wf c →
  m_maxSize c ≤ m_curSize c →
  m_blockList c = (it, victim) :: rest →
  prepare_cache coll_write_block c = Done c1 →
  ∃ key info coll,
    m_blockMap c !! position victim = Some (key, info)
    ∧ position key = position victim
    ∧ (if dirty info
       then coll_write_block key (pointer info) (m_collection c) = Done coll
       else coll = m_collection c)
    ∧ c1 = set_blockMap (delete (position victim) (m_blockMap c))
             (set_curSize (length rest)
                (set_blockList rest (set_collection coll c)))
    ∧ cache_wf c1.
Proof.
  intros Hwf Hfull Hl. unfold prepare_cache.
  destruct (decide (m_curSize c < m_maxSize c)) as [?|_]; [lia|].
  rewrite Hl. pose proof Hwf as (_ & _ & Hmap & Hlist & Hsize).
  destruct (Hlist it victim) as (key & info & Hentry & Hit);
    [rewrite Hl; left|].
  rewrite Hentry. destruct (Hmap _ _ _ Hentry) as (Hkey & _).
  assert (Hdec : decrement (m_curSize c) = length rest)
    by (by rewrite Hsize, Hl).
  rewrite Hdec. subst it.
  destruct (dirty info) eqn:Hdirty.
  - destruct (coll_write_block _ _ _) as [coll| |] eqn:Hwrite; [|done..].
    rewrite bind_Done_l. intros [= <-].
    exists key, info, coll. rewrite Hdirty.
    split; [done|]. split; [done|]. split; [done|]. split; [done|].
    rewrite <- Hdec.
    apply (remove_wf (set_collection coll c) (position victim) key info
             victim [] rest); [done|done|exact Hl].
  - rewrite bind_Done_l. intros [= <-].
    exists key, info, (m_collection c). rewrite Hdirty.
    split; [done|]. split; [done|]. split; [done|]. split; [done|].
    rewrite <- Hdec.
    apply (remove_wf (set_collection (m_collection c) c) (position victim)
             key info victim [] rest); [done|done|exact Hl].
Qed.

Lemma read_block_miss_spec c handle b c' :
  cache_wf c →
  m_blockMap c !! position handle = None →
  read_block coll_read_block coll_write_block handle c = Done (b, c') →
  (m_curSize c < m_maxSize c →
     coll_read_block handle (m_collection c) = Done (b, m_collection c')
     ∧ lru_order c' = lru_order c ++ [position handle]
     ∧ m_curSize c' = S (m_curSize c))
  ∧ (m_maxSize c ≤ m_curSize c →
       ∃ it victim rest key info coll,
         m_blockList c = (it, victim) :: rest
         ∧ m_blockMap c !! position victim = Some (key, info)
         ∧ (if dirty info
            then coll_write_block key (pointer info) (m_collection c)
                 = Done coll
            else coll = m_collection c)
         ∧ coll_read_block handle coll = Done (b, m_collection c')
         ∧ m_blockMap c' !! position victim = None
         ∧ lru_order c'
           = ((position ∘ snd) <$> rest) ++ [position handle]
         ∧ m_curSize c' = m_curSize c)
  ∧ m_blockMap c' !! position handle
    = Some (handle, {| pointer := b; iterator := m_nodes c; dirty := false |})
  ∧ cache_wf c'.
Proof.
  intros Hwf Hmiss. unfold read_block. rewrite Hmiss.
  destruct (prepare_cache coll_write_block c) as [c1| |] eqn:Hprep; [|done..].
  rewrite bind_Done_l.
  destruct (coll_read_block handle (m_collection c1)) as [[b' coll']| |]
    eqn:Hread; [|done..].
  rewrite bind_Done_l. cbv beta iota. intros [= <- <-].
  destruct (decide (m_curSize c < m_maxSize c)) as [Hroom|Hfull].
  - unfold prepare_cache in Hprep.
    destruct (decide (m_curSize c < m_maxSize c)) as [_|?]; [|lia].
    injection Hprep as <-.
    split; [intros _|split; [intros ?; lia|]].
    + split; [done|]. split; [|done].
      unfold lru_order. cbn. by rewrite fmap_app.
    + split.
      * unfold add_to_cache, push_back, map_assign. cbn. rewrite Hmiss.
        by rewrite lookup_insert_eq.
      * by apply add_to_cache_wf.
  - destruct (m_blockList c) as [|[it victim] rest] eqn:Hl.
    { unfold prepare_cache in Hprep.
      destruct (decide (m_curSize c < m_maxSize c)); [lia|].
      by rewrite Hl in Hprep. }
    destruct (prepare_cache_full c it victim rest c1 Hwf ltac:(lia) Hl Hprep)
      as (key & info & coll & Hentry & Hkey & Hwrite & -> & Hwf1).
    assert (Hne : position victim ≠ position handle)
      by (intros Heq; by rewrite Heq, Hmiss in Hentry).
    assert (Hmiss1 : delete (position victim) (m_blockMap c)
                     !! position handle = None)
      by (by rewrite lookup_delete_ne).
    pose proof Hwf as (_ & _ & _ & _ & Hsize).
    cbn [m_collection set_blockMap set_curSize set_blockList set_collection]
      in Hread.
    split; [intros ?; lia|split; [intros _|]].
    + exists it, victim, rest, key, info, coll.
      split; [done|]. split; [done|]. split; [done|]. split; [done|].
      split; [|split].
      * unfold add_to_cache, push_back, map_assign. cbn. rewrite Hmiss1.
        rewrite lookup_insert_ne by done. by rewrite lookup_delete_eq.
      * unfold lru_order. cbn. by rewrite fmap_app.
      * cbn. by rewrite Hsize, Hl.
    + split.
      * unfold add_to_cache, push_back, map_assign. cbn. rewrite Hmiss1.
        by rewrite lookup_insert_eq.
      * apply add_to_cache_wf; [|done]. exact Hwf1.
Qed.

(** [write_block] on a cached handle marks the block dirty and makes it the
    most recently used one, without touching the collection. *)
Lemma write_block_cached c handle key info :
  cache_wf c →
  m_blockMap c !! position handle = Some (key, info) →
  ∃ c',
    write_block handle c = Done c'
    ∧ m_collection c' = m_collection c
    ∧ m_curSize c' = m_curSize c
    ∧ m_blockMap c'
      = <[position handle :=
            (key, {| pointer := pointer info; iterator := m_nodes c;
                     dirty := true |})]> (m_blockMap c)
    ∧ cache_wf c'.
Proof.
  intros Hwf Hentry.
  destruct (entry_node _ _ _ _ Hwf Hentry)
    as (h & l1 & l2 & Hpos & Hkey & Hl & Herase).
  unfold write_block. rewrite Hentry, Herase, bind_Done_l.
  unfold push_back. cbn [m_nodes set_blockList m_blockList m_collection
    m_blockMap m_curSize m_maxSize m_blockSize].
  eexists. split; [reflexivity|].
  cbn [set_blockMap m_collection m_blockList m_nodes m_blockMap m_curSize
       m_maxSize m_blockSize].
  split; [done|]. split; [done|]. split; [done|].
  by apply (touch_wf c (position handle) key info h l1 l2 handle true).
Qed.

(** [free_block] drops the block from the cache, if it is there, before
    it frees it in the collection. *)
Lemma free_block_done c handle c' :
  cache_wf c →
  free_block coll_free_block handle c = Done c' →
  size handle = m_blockSize c
  ∧ 0 < m_curSize c
  ∧ m_blockMap c' = delete (position handle) (m_blockMap c)
  ∧ lru_order c' = filter (λ pos, pos ≠ position handle) (lru_order c)
  ∧ coll_free_block handle (m_collection c) = Done (m_collection c')
  ∧ cache_wf c'.
Proof.
  intros Hwf. unfold free_block.
  destruct (decide (size handle = m_blockSize c)) as [Hsize|Hsize];
    [rewrite (bool_decide_eq_true_2 (size handle = _)) by done
    |rewrite (bool_decide_eq_false_2 (size handle = _)) by done; by cbn].
  cbn [tp_assert]. rewrite bind_Done_l.
  destruct (decide (0 < m_curSize c)) as [Hcur|Hcur];
    [rewrite (bool_decide_eq_true_2 (0 < _)) by done
    |rewrite (bool_decide_eq_false_2 (0 < _)) by done; by cbn].
  cbn [tp_assert]. rewrite bind_Done_l.
  destruct (m_blockMap c !! position handle) as [[key info]|] eqn:Hentry.
  - destruct (entry_node _ _ _ _ Hwf Hentry)
      as (h & l1 & l2 & Hpos & Hkey & Hl & Herase).
    rewrite Herase, !bind_Done_l.
    cbn [m_collection set_blockMap set_curSize set_blockList].
    destruct (coll_free_block handle (m_collection c)) as [coll| |];
      [|done..].
    rewrite bind_Done_l. intros [= <-].
    split; [done|]. split; [done|]. split; [done|]. split; [|split; [done|]].
    + pose proof (lru_order_NoDup _ Hwf) as Hnd.
      rewrite (lru_order_split c _ _ _ _ Hl) in Hnd |- *.
      rewrite Hpos in Hnd |- *. rewrite (filter_remove _ _ _ Hnd).
      unfold lru_order. cbn. by rewrite fmap_app.
    + by apply (remove_wf c (position handle) key info h l1 l2).
  - rewrite bind_Done_l.
    destruct (coll_free_block handle (m_collection c)) as [coll| |];
      [|done..].
    rewrite bind_Done_l. intros [= <-].
    split; [done|]. split; [done|].
    split; [cbn; by rewrite delete_id|].
    split; [|done].
    cbn. unfold lru_order. symmetry. apply filter_all.
    intros Hin. apply (lru_order_cached c _ Hwf) in Hin as [? Hin].
    by rewrite Hentry in Hin.
Qed.

Lemma read_block_wf c handle b c' :
  cache_wf c →
  read_block coll_read_block coll_write_block handle c = Done (b, c') →
  cache_wf c'.
Proof.
  intros Hwf Hrun.
  destruct (m_blockMap c !! position handle) as [[key info]|] eqn:Hentry.
  - destruct (read_block_hit_spec c handle key info Hwf Hentry)
      as (c1 & Hhit & _ & _ & _ & _ & Hwf1).
    rewrite Hhit in Hrun. by injection Hrun as _ <-.
  - by destruct (read_block_miss_spec c handle b c' Hwf Hentry Hrun)
      as (_ & _ & _ & ?).
Qed.

Lemma write_block_wf c handle c' :
  cache_wf c → write_block handle c = Done c' → cache_wf c'.
Proof.
  intros Hwf Hrun.
  destruct (m_blockMap c !! position handle) as [[key info]|] eqn:Hentry.
  - destruct (write_block_cached c handle key info Hwf Hentry)
      as (c1 & Hhit & _ & _ & _ & Hwf1).
    rewrite Hhit in Hrun. by injection Hrun as <-.
  - unfold write_block in Hrun. by rewrite Hentry in Hrun.
Qed.

(** Least recently used.  [read_block] on a cached handle answers the
    cached block without touching the collection and makes it the most
    recently used one.  On a miss with room left the block is read from the
    collection and becomes the most recently used one.  On a miss with the
    cache full, the least recently used block is evicted first: it is
    written to the collection exactly when it is dirty, under the handle it
    was cached with, and the number of cached blocks stays the same. *)
Theorem read_block_lru c handle b c' :
  cache_wf c →
  read_block coll_read_block coll_write_block handle c = Done (b, c') →
  (∀ key info, m_blockMap c !! position handle = Some (key, info) →
     b = pointer info
     ∧ m_collection c' = m_collection c
     ∧ lru_order c'
       = filter (λ pos, pos ≠ position handle) (lru_order c)
         ++ [position handle]
     ∧ m_curSize c' = m_curSize c)
  ∧ (m_blockMap c !! position handle = None →
     m_curSize c < m_maxSize c →
       coll_read_block handle (m_collection c) = Done (b, m_collection c')
       ∧ lru_order c' = lru_order c ++ [position handle]
       ∧ m_curSize c' = S (m_curSize c))
  ∧ (m_blockMap c !! position handle = None →
     m_maxSize c ≤ m_curSize c →
       ∃ it victim rest key info coll,
         m_blockList c = (it, victim) :: rest
         ∧ m_blockMap c !! position victim = Some (key, info)
         ∧ (if dirty info
            then coll_write_block key (pointer info) (m_collection c)
                 = Done coll
            else coll = m_collection c)
         ∧ coll_read_block handle coll = Done (b, m_collection c')
         ∧ m_blockMap c' !! position victim = None
         ∧ lru_order c'
           = ((position ∘ snd) <$> rest) ++ [position handle]
         ∧ m_curSize c' = m_curSize c).
Proof.
  intros Hwf Hrun. split; [|split].
  - intros key info Hentry.
    destruct (read_block_hit_spec c handle key info Hwf Hentry)
      as (c1 & Hhit & Hcoll & Horder & Hsize & _).
    rewrite Hhit in Hrun. by injection Hrun as <- <-.
  - intros Hentry Hroom.
    destruct (read_block_miss_spec c handle b c' Hwf Hentry Hrun)
      as (Hmiss & _). by apply Hmiss.
  - intros Hentry Hfull.
    destruct (read_block_miss_spec c handle b c' Hwf Hentry Hrun)
      as (_ & Hmiss & _). by apply Hmiss.
Qed.

(** The bookkeeping stays consistent.  [read_block], [write_block] and
    [free_block] keep [cache_wf]; [get_free_block] keeps it when the
    collection hands out a handle whose position is not cached. *)
Theorem cache_wf_preserved c :
  cache_wf c →
  (∀ handle b c',
     read_block coll_read_block coll_write_block handle c = Done (b, c') →
     cache_wf c')
  ∧ (∀ handle c', write_block handle c = Done c' → cache_wf c')
  ∧ (∀ handle c',
       free_block coll_free_block handle c = Done c' → cache_wf c')
  ∧ (∀ handle c',
       get_free_block block_new coll_get_free_block c = Done (handle, c') →
       m_blockMap c !! position handle = None →
       cache_wf c').
Proof.
  intros Hwf. split; [|split; [|split]].
  - intros handle b c'. by apply read_block_wf.
  - intros handle c'. by apply write_block_wf.
  - intros handle c' Hrun.
    by destruct (free_block_done c handle c' Hwf Hrun) as (_ & _ & _ & _ & _ & ?).
  - intros handle c'. unfold get_free_block.
    destruct (coll_get_free_block (m_collection c)) as [[h coll]| |];
      [|done..].
    rewrite bind_Done_l. cbv beta iota. intros [= <- <-] Hmiss.
    by apply add_to_cache_wf.
Qed.

(** The size of the cache.  [read_block] never leaves more blocks cached
    than there were before or than [m_maxSize], and [write_block] and
    [free_block] never add one; [get_free_block] always adds one, without
    evicting, whether or not the cache is full. *)
Theorem cache_capacity c :
  cache_wf c →
  (∀ handle b c',
     read_block coll_read_block coll_write_block handle c = Done (b, c') →
     m_curSize c' ≤ Nat.max (m_curSize c) (m_maxSize c))
  ∧ (∀ handle c', write_block handle c = Done c' →
       m_curSize c' = m_curSize c)
  ∧ (∀ handle c', free_block coll_free_block handle c = Done c' →
       m_curSize c' ≤ m_curSize c)
  ∧ (∀ handle c',
       get_free_block block_new coll_get_free_block c = Done (handle, c') →
       m_curSize c' = S (m_curSize c)
       ∧ m_blockList c' = m_blockList c ++ [(m_nodes c, handle)]).
Proof.
  intros Hwf. split; [|split; [|split]].
  - intros handle b c' Hrun.
    destruct (m_blockMap c !! position handle) as [[key info]|] eqn:Hentry.
    + destruct (read_block_hit_spec c handle key info Hwf Hentry)
        as (c1 & Hhit & _ & _ & Hsize & _).
      rewrite Hhit in Hrun. injection Hrun as _ <-. lia.
    + destruct (read_block_miss_spec c handle b c' Hwf Hentry Hrun)
        as (Hroom & Hfull & _).
      destruct (decide (m_curSize c < m_maxSize c)) as [Hlt|Hge].
      * destruct (Hroom Hlt) as (_ & _ & ->). lia.
      * destruct (Hfull ltac:(lia)) as (? & ? & ? & ? & ? & ? & Hrest).
        destruct Hrest as (_ & _ & _ & _ & _ & _ & ->). lia.
  - intros handle c' Hrun.
    destruct (m_blockMap c !! position handle) as [[key info]|] eqn:Hentry.
    + destruct (write_block_cached c handle key info Hwf Hentry)
        as (c1 & Hhit & _ & Hsize & _).
      rewrite Hhit in Hrun. by injection Hrun as <-.
    + unfold write_block in Hrun. by rewrite Hentry in Hrun.
  - intros handle c' Hrun.
    destruct (free_block_done c handle c' Hwf Hrun)
      as (_ & _ & _ & Horder & _ & Hwf').
    destruct Hwf as (_ & _ & _ & _ & Hsize).
    destruct Hwf' as (_ & _ & _ & _ & Hsize').
    rewrite Hsize, Hsize'.
    rewrite <- (length_fmap (position ∘ snd) (m_blockList c')).
    rewrite <- (length_fmap (position ∘ snd) (m_blockList c)).
    fold (lru_order c') (lru_order c). rewrite Horder. apply length_filter.
  - intros handle c'. unfold get_free_block.
    destruct (coll_get_free_block (m_collection c)) as [[h coll]| |];
      [|done..].
    rewrite bind_Done_l. cbv beta iota. by intros [= <- <-].
Qed.

End Operations.

(** ** What a reader sees *)

Section Coherence.

Context {block collection : Type}.
Variable coll_read_block :
  block_handle → collection → outcome (block * collection).
Variable coll_write_block :
  block_handle → block → collection → outcome collection.

(** The collection is one that holds a block per position: reading a
    handle answers the block stored at its position and stores nothing;
    writing stores the block at the position of the handle and nowhere
    else. *)
Variable stored : collection → nat → option block.
Hypothesis read_stored :
  ∀ h coll b coll', coll_read_block h coll = Done (b, coll') →
    stored coll (position h) = Some b
    ∧ ∀ pos, stored coll' pos = stored coll pos.
Hypothesis write_stored :
  ∀ h b coll coll', coll_write_block h b coll = Done coll' →
    ∀ pos, stored coll' pos
           = if decide (pos = position h) then Some b else stored coll pos.

Implicit Types (c : block_collection_cache (block:=block)
                                           (collection:=collection)).

Lemma read_block_coherent_spec c handle b c' :
  cache_wf c →
  clean_ok stored c →
  read_block coll_read_block coll_write_block handle c = Done (b, c') →
  view stored c (position handle) = Some b
  ∧ (∀ pos, view stored c' pos = view stored c pos)
  ∧ clean_ok stored c'.
Proof.
  intros Hwf Hclean Hrun.
  destruct (m_blockMap c !! position handle) as [[key info]|] eqn:Hentry.
  - destruct (read_block_hit_spec coll_read_block coll_write_block c handle
                key info Hwf Hentry) as (c1 & Hhit & Hcoll & _ & _ & Hmap & _).
    rewrite Hhit in Hrun. injection Hrun as <- <-.
    split; [unfold view; by rewrite Hentry|]. split.
    + intros pos. unfold view. rewrite Hcoll. specialize (Hmap pos).
      destruct (m_blockMap c1 !! pos) as [[k1 i1]|],
               (m_blockMap c !! pos) as [[k2 i2]|]; cbn in Hmap; congruence.
    + intros pos k1 i1 Hentry1 Hdirty. rewrite Hcoll. specialize (Hmap pos).
      rewrite Hentry1 in Hmap.
      destruct (m_blockMap c !! pos) as [[k2 i2]|] eqn:Hentry2; [|done].
      cbn in Hmap. injection Hmap as <- Hptr Hd.
      rewrite Hptr. apply (Hclean pos _ _ Hentry2). congruence.
  - revert Hrun. unfold read_block. rewrite Hentry.
    destruct (prepare_cache coll_write_block c) as [c1| |] eqn:Hprep;
      [|done..].
    rewrite bind_Done_l.
    destruct (coll_read_block handle (m_collection c1)) as [[b' coll2]| |]
      eqn:Hread; [|done..].
    rewrite bind_Done_l. cbv beta iota. intros [= <- <-].
    destruct (read_stored _ _ _ _ Hread) as [Hb Hsame].
    assert (Hprepared :
      m_blockMap c1 !! position handle = None
      ∧ (∀ pos, view stored c1 pos = view stored c pos)
      ∧ clean_ok stored c1).
    { unfold prepare_cache in Hprep.
      destruct (decide (m_curSize c < m_maxSize c)) as [Hroom|Hfull];
        [by injection Hprep as <-|].
      destruct (m_blockList c) as [|[it victim] rest] eqn:Hl; [done|].
      fold (prepare_cache coll_write_block c) in Hprep.
      assert (Hprep' : prepare_cache coll_write_block c = Done c1).
      { unfold prepare_cache.
        destruct (decide (m_curSize c < m_maxSize c)); [lia|].
        by rewrite Hl. }
      destruct (prepare_cache_full coll_write_block c it victim rest c1 Hwf
                  ltac:(lia) Hl Hprep')
        as (key & info & coll & Hvictim & Hkey & Hwrite & -> & _).
      assert (Hne : position victim ≠ position handle)
        by (intros Heq; by rewrite Heq, Hentry in Hvictim).
      assert (Hcoll : ∀ pos, stored coll pos
                = if decide (pos = position victim) then Some (pointer info)
                  else stored (m_collection c) pos).
      { intros pos. destruct (dirty info) eqn:Hdirty.
        - rewrite (write_stored _ _ _ _ Hwrite pos). by rewrite Hkey.
        - subst coll. destruct (decide (pos = position victim)) as [->|];
            [|done]. by apply (Hclean _ _ _ Hvictim). }
      cbn [m_blockMap set_blockMap]. split; [by rewrite lookup_delete_ne|].
      split.
      - intros pos. unfold view. cbn. rewrite Hcoll.
        destruct (decide (pos = position victim)) as [->|Hpos].
        + by rewrite lookup_delete_eq, Hvictim.
        + by rewrite lookup_delete_ne.
      - intros pos k1 i1. cbn. rewrite Hcoll.
        destruct (decide (pos = position victim)) as [->|Hpos].
        + by rewrite lookup_delete_eq.
        + rewrite lookup_delete_ne by done. apply Hclean. }
    destruct Hprepared as (Hmiss1 & Hview1 & Hclean1).
    assert (Hmap' : m_blockMap (add_to_cache handle b' false
                                  (set_collection coll2 c1))
                    = <[position handle :=
                          (handle, {| pointer := b'; iterator := m_nodes c1;
                                      dirty := false |})]> (m_blockMap c1)).
    { unfold add_to_cache, push_back, map_assign. cbn. by rewrite Hmiss1. }
    assert (Hcoll' : m_collection (add_to_cache handle b' false
                                     (set_collection coll2 c1)) = coll2)
      by done.
    split; [|split].
    + rewrite <- Hview1. unfold view. by rewrite Hmiss1.
    + intros pos. rewrite <- Hview1. unfold view. rewrite Hmap', Hcoll'.
      destruct (decide (pos = position handle)) as [->|Hpos].
      * by rewrite lookup_insert_eq, Hmiss1.
      * rewrite lookup_insert_ne by done. by rewrite Hsame.
    + intros pos k1 i1. rewrite Hmap', Hcoll', Hsame.
      destruct (decide (pos = position handle)) as [->|Hpos].
      * rewrite lookup_insert_eq. by intros [= <- <-] _.
      * rewrite lookup_insert_ne by done. apply Hclean1.
Qed.

(** [read_block] answers the block a reader is to see, and changes no
    reader's view: a dirty block that is evicted is found again in the
    collection. *)
Theorem read_block_coherent c handle b c' :
  cache_wf c →
  clean_ok stored c →
  read_block coll_read_block coll_write_block handle c = Done (b, c') →
  view stored c (position handle) = Some b
  ∧ (∀ pos, view stored c' pos = view stored c pos)
  ∧ clean_ok stored c'.
Proof. apply read_block_coherent_spec. Qed.

(** [write_block] changes no reader's view, and the block it marks need
    not be the stored one any more: it is what makes a change to a cached
    block last. *)
Theorem write_block_coherent c handle c' :
  cache_wf c →
  (∀ pos key info, pos ≠ position handle →
     m_blockMap c !! pos = Some (key, info) →
     dirty info = false →
     stored (m_collection c) pos = Some (pointer info)) →
  write_block handle c = Done c' →
  (∀ pos, view stored c' pos = view stored c pos)
  ∧ clean_ok stored c'
  ∧ ∃ key info, m_blockMap c' !! position handle = Some (key, info)
                ∧ dirty info = true.
Proof.
  intros Hwf Hclean Hrun.
  destruct (m_blockMap c !! position handle) as [[key info]|] eqn:Hentry;
    [|unfold write_block in Hrun; by rewrite Hentry in Hrun].
  destruct (write_block_cached c handle key info Hwf Hentry)
    as (c1 & Hhit & Hcoll & _ & Hmap & _).
  rewrite Hhit in Hrun. injection Hrun as <-.
  split; [|split].
  - intros pos. unfold view. rewrite Hcoll, Hmap.
    destruct (decide (pos = position handle)) as [->|Hpos].
    + by rewrite lookup_insert_eq, Hentry.
    + by rewrite lookup_insert_ne.
  - intros pos k1 i1. rewrite Hcoll, Hmap.
    destruct (decide (pos = position handle)) as [->|Hpos].
    + rewrite lookup_insert_eq. by intros [= <- <-].
    + rewrite lookup_insert_ne by done. by apply Hclean.
  - eexists _, _. rewrite Hmap, lookup_insert_eq. done.
Qed.

Lemma write_back_stored l coll coll' :
  NoDup l.*1 →
  (∀ pos key info, (pos, (key, info)) ∈ l →
     position key = pos
     ∧ (dirty info = false → stored coll pos = Some (pointer info))) →
  write_back coll_write_block l coll = Done coll' →
  (∀ pos key info, (pos, (key, info)) ∈ l →
     stored coll' pos = Some (pointer info))
  ∧ (∀ pos, pos ∉ l.*1 → stored coll' pos = stored coll pos).
Proof.
  revert coll. induction l as [|[pos0 [key0 info0]] l IH];
    intros coll Hnd Hl; cbn [write_back].
  - intros [= <-]. split; [by intros ??? ?%elem_of_nil|done].
  - cbn in Hnd. apply NoDup_cons in Hnd as [Hfresh Hnd].
    destruct (Hl pos0 key0 info0 ltac:(left)) as [Hkey0 Hclean0].
    set (step := if dirty info0
                 then coll_write_block key0 (pointer info0) coll
                 else Done coll).
    destruct step as [coll1| |] eqn:Hstep; [|done..].
    rewrite bind_Done_l. intros Hrun.
    assert (Hcoll1 : ∀ pos, stored coll1 pos
              = if decide (pos = pos0) then Some (pointer info0)
                else stored coll pos).
    { intros pos. subst step. destruct (dirty info0).
      - rewrite (write_stored _ _ _ _ Hstep pos). by rewrite Hkey0.
      - injection Hstep as <-. destruct (decide (pos = pos0)) as [->|];
          [|done]. by apply Hclean0. }
    destruct (IH coll1 Hnd) as [Hin Hout]; [|done|].
    { intros pos key info Hin.
      destruct (Hl pos key info ltac:(by right)) as [Hkey Hclean].
      split; [done|]. intros Hdirty. rewrite Hcoll1.
      destruct (decide (pos = pos0)) as [->|]; [|by apply Hclean].
      exfalso. apply Hfresh. apply list_elem_of_fmap.
      by exists (pos0, (key, info)). }
    split.
    + intros pos key info [[= -> -> ->]|Hin']%elem_of_cons.
      * rewrite (Hout pos0 Hfresh), Hcoll1. by rewrite decide_True.
      * by eapply Hin.
    + intros pos Hpos. cbn in Hpos.
      apply not_elem_of_cons in Hpos as [Hne Hpos].
      rewrite (Hout pos Hpos), Hcoll1. by rewrite decide_False.
Qed.

(** The destructor leaves in the collection, at every position, the block
    a reader of the cache saw there. *)
Theorem destroy_flushes c coll' :
  cache_wf c →
  clean_ok stored c →
  destroy coll_write_block c = Done coll' →
  ∀ pos, stored coll' pos = view stored c pos.
Proof.
  intros Hwf Hclean. unfold destroy, entries.
  set (l := merge_sort entry_le (map_to_list (m_blockMap c))).
  assert (Hperm : l ≡ₚ map_to_list (m_blockMap c))
    by apply merge_sort_Permutation.
  assert (Hin : ∀ pos e, (pos, e) ∈ l ↔ m_blockMap c !! pos = Some e)
    by (intros pos e; rewrite Hperm; apply elem_of_map_to_list).
  intros Hrun pos.
  apply write_back_stored in Hrun as [Hcached Hother];
    [|rewrite Hperm; apply NoDup_fst_map_to_list|].
  2:{ intros pos' key info Hentry%Hin.
    pose proof Hwf as (_ & _ & Hmap & _).
    destruct (Hmap _ _ _ Hentry) as [Hkey _]. split; [done|].
    apply (Hclean _ _ _ Hentry). }
  unfold view.
  destruct (m_blockMap c !! pos) as [[key info]|] eqn:Hentry.
  - apply (Hcached pos key info). by apply Hin.
  - apply Hother. intros ([pos' e] & -> & He%Hin)%list_elem_of_fmap.
    cbn in Hentry. by rewrite Hentry in He.
Qed.

End Coherence.

End CacheProps.


(** ** Buffers of the parallel segment *)

Section ParallelBuffers.

Import Parallel.
Context {T1 T2 : Type}.
Variable env : nat → @parallel_state T1 T2 → @parallel_state T1 T2.

Implicit Types (a : @parallel_after T2) (w : @world T1 T2).

(** [set_input] followed by [get_input] gives the input back: an input
    that fits the worker's buffer is stored without touching the buffer's
    capacity, the other workers' buffers, the worker states or the event
    log; an input that does not fit is refused and nothing changes, with
    the message ["Input buffer not initialized"] for a buffer of capacity
    zero and ["Input too large"] otherwise. *)
Theorem set_input_round_trip idx (input : list T1) b w :
  m_inputBuffers (shared w) !! idx = Some b →
  let r := set_input idx input w in
  if decide (length input ≤ length (m_inputBuffer b)) then
    r.1 = Done tt
    ∧ (∃ b', m_inputBuffers (shared r.2) !! idx = Some b'
             ∧ get_input b' = input
             ∧ length (m_inputBuffer b') = length (m_inputBuffer b))
    ∧ (∀ j, j ≠ idx →
         m_inputBuffers (shared r.2) !! j = m_inputBuffers (shared w) !! j)
    ∧ m_states (shared r.2) = m_states (shared w)
    ∧ m_outputBuffers (shared r.2) = m_outputBuffers (shared w)
    ∧ events r.2 = events w
  else
    r = (Fail (RuntimeError
                 (if decide (length (m_inputBuffer b) = 0)
                  then "Input buffer not initialized"
                  else "Input too large")), w).
Proof.
  intros Hb r. subst r. unfold set_input. rewrite Hb.
  destruct (decide (length input ≤ _)) as [Hfit|Hbig].
  - destruct (decide (_ < _)) as [?|_]; [lia|].
    cbn. split; [done|]. split; [|split; [|done]].
    + eexists. split.
      * apply list_lookup_insert_eq. by eapply lookup_lt_Some.
      * split.
        -- unfold get_input. cbn. by rewrite take_app_length.
        -- cbn. rewrite length_app, length_drop. lia.
    + intros j Hj. by rewrite list_lookup_insert_ne.
  - destruct (decide (_ < _)) as [_|?]; [done|lia].
Qed.

(** [after_push] returns only when the buffer had room for the item, so
    never on a buffer of capacity zero.  A push that returns leaves room
    for the next one, unless [done] is set: then the flush was abandoned,
    the buffer is still full and every later push throws
    ["Buffer overrun in parallel_after"]. *)
Theorem after_push_room fuel (item : T2) a w a' w' :
  after_push env fuel item a w = (Done a', w') →
  m_outputSize (m_buffer a) < length (m_outputBuffer (m_buffer a))
  ∧ length (m_outputBuffer (m_buffer a'))
    = length (m_outputBuffer (m_buffer a))
  ∧ (m_outputSize (m_buffer a') < length (m_outputBuffer (m_buffer a'))
     ∨ (done (shared w') = true
        ∧ ∀ fuel2 item2 w2,
            after_push env fuel2 item2 a' w2
            = (Fail (RuntimeError "Buffer overrun in parallel_after"), w2))).
Proof.
  unfold after_push.
  destruct (decide (length _ ≤ m_outputSize _)) as [?|Hroom]; [done|].
  unfold bindM at 1, write_output_buffer, write.
  cbn [m_buffer m_outputSize m_outputBuffer parId]. rewrite length_insert.
  destruct (decide (_ ≤ S _)) as [Hfull|Hmore].
  - unfold flush_buffer_impl. cbn [m_buffer m_outputSize m_outputBuffer parId].
    destruct (decide (S _ = 0)) as [?|_]; [done|].
    cbv beta iota zeta delta [bindM lock interfere log set_state write
      notify_one write_output_buffer].
    destruct (flush_wait env fuel _ _) as [fr w2] eqn:Hwait.
    apply flush_wait_spec in Hwait as [_ Hres].
    destruct fr as [[]| |]; unfold ret; intros [= <- <-];
      cbn [m_buffer m_outputSize m_outputBuffer parId shared done
           with_outputBuffers];
      rewrite ?length_insert; (split; [lia|]); (split; [done|]).
    + left. lia.
    + right. split; [by destruct Hres|]. intros fuel2 item2 w3.
      cbn [m_buffer m_outputSize m_outputBuffer parId].
      rewrite length_insert.
      destruct (decide (_ ≤ S _)) as [_|?]; [done|lia].
  - unfold ret. intros [= <- <-].
    cbn [m_buffer m_outputSize m_outputBuffer parId]. rewrite length_insert.
    split; [lia|]. split; [done|]. left. lia.
Qed.

End ParallelBuffers.

(** ** The worker thread *)

Section WorkerProtocol.

Import Parallel ParallelWorker.
Context {T1 T2 : Type}.
Variable env : nat → @parallel_state T1 T2 → @parallel_state T1 T2.
Variable opts : parallel_options.
Variable T1_default : T1.
Variable worker_initialize : @M T1 T2 unit.
Variable push_all : list T1 → @M T1 T2 unit.

Implicit Types (w : @world T1 T2).

Local Abbreviation outputting_unexpected :=
  (RuntimeError "State 'outputting' was not expected at this point").

Lemma wait_processing_unfold fuel parId :
  wait_processing env fuel parId
  = bindM (ready parId) (λ r,
      if r : bool then ret true else
      bindM (read done) (λ d,
        if d : bool then ret false else
        match fuel with
        | 0 => out_of_fuel
        | S fuel' =>
            bindM (wait env (workerCond parId))
                  (λ _, wait_processing env fuel' parId)
        end)).
Proof. by destruct fuel. Qed.

Lemma wait_processing_spec fuel parId w r w' :
  wait_processing env fuel parId w = (r, w') →
  (∃ k, events w' = events w ++ replicate k (EvWait (workerCond parId)))
  ∧ match r with
    | Done true => m_states (shared w') !! parId = Some PROCESSING
    | Done false =>
        done (shared w') = true
        ∧ m_states (shared w') !! parId = Some IDLE
    | Fail e =>
        (e = IndexOutOfRange ∧ length (m_states (shared w')) ≤ parId)
        ∨ (e = outputting_unexpected
           ∧ m_states (shared w') !! parId = Some OUTPUTTING)
    | OutOfFuel => True
    end.
Proof.
  revert w. induction fuel as [|fuel IH]; intros w;
    rewrite wait_processing_unfold; intros Hrun;
    cbv beta iota zeta delta [bindM ready get_state ret read out_of_fuel
      throw wait log interfere] in Hrun;
    destruct (m_states (shared w) !! parId) as [[]|] eqn:Hst;
    try destruct (Parallel.done (shared w)) eqn:Hd;
    try (injection Hrun as <- <-);
    try (split; [exists 0; cbn [replicate]; by rewrite app_nil_r|];
         first [by auto | by left; split; [|apply lookup_ge_None]]).
  apply IH in Hrun as [[k Hev] Hres]. split; [|exact Hres].
  exists (S k). rewrite Hev. cbn [events replicate].
  by rewrite <- app_assoc.
Qed.

Lemma worker_loop_unfold fuel parId :
  worker_loop env push_all fuel parId
  = bindM (wait_processing env fuel parId) (λ go,
      if go : bool then
        match fuel with
        | 0 => out_of_fuel
        | S fuel' =>
            bindM (worker_input parId) (λ items,
            bindM (push_all items) (λ _,
            bindM (lock env) (λ _,
            worker_loop env push_all fuel' parId)))
        end
      else ret tt).
Proof. by destruct fuel. Qed.

Lemma worker_loop_spec fuel parId w r w' :
  worker_loop env push_all fuel parId w = (r, w') →
  match r with
  | Done _ =>
      done (shared w') = true ∧ m_states (shared w') !! parId = Some IDLE
  | Fail e =>
      (∀ items, never_throws (push_all items)) →
      e = IndexOutOfRange
      ∨ (e = outputting_unexpected
         ∧ m_states (shared w') !! parId = Some OUTPUTTING)
  | OutOfFuel => True
  end.
Proof.
  revert w. induction fuel as [|fuel IH]; intros w;
    rewrite worker_loop_unfold; unfold bindM at 1;
    destruct (wait_processing env _ parId w) as [[[]| |] w1] eqn:Hwait;
    apply wait_processing_spec in Hwait as [_ Hres];
    try (intros [= <- <-]; first [done | intros _; tauto]).
  unfold bindM at 1. unfold worker_input at 1.
  destruct (m_inputBuffers (shared w1) !! parId) as [b|];
    [|intros [= <- <-]; intros _; by left].
  unfold bindM at 1.
  destruct (push_all (get_input b) w1) as [[[]| |] w2] eqn:Hpush.
  - unfold bindM at 1. cbv beta iota zeta delta [lock bindM interfere log].
    apply IH.
  - intros [= <- <-] Hnever. by destruct (Hnever (get_input b) w1 e); rewrite Hpush.
  - by intros [= <- <-].
Qed.

(** The worker returns only when [done] is set while its state is [IDLE],
    and the last thing it does is to notify the producer.  When neither
    [worker_initialize] nor [push_all] throws, the only exception of the
    worker besides an index past the state arrays is
    ["State 'outputting' was not expected at this point"], thrown while its
    state is [OUTPUTTING], and the producer is notified then too. *)
Theorem worker_exit fuel parId w :
  never_throws worker_initialize →
  (∀ items, never_throws (push_all items)) →
  let r := worker env opts T1_default worker_initialize push_all fuel parId w in
  match r.1 with
  | Done _ =>
      done (shared r.2) = true
      ∧ m_states (shared r.2) !! parId = Some IDLE
      ∧ last (events r.2) = Some (EvNotify producerCond)
  | Fail e =>
      e = IndexOutOfRange
      ∨ (e = outputting_unexpected
         ∧ m_states (shared r.2) !! parId = Some OUTPUTTING
         ∧ last (events r.2) = Some (EvNotify producerCond))
  | OutOfFuel => True
  end.
Proof.
  intros Hinit Hpush r. subst r. unfold worker.
  cbv beta iota zeta delta [lock bindM interfere log].
  set (w0 := {| shared := _; clock := _; events := _ |}).
  unfold register_input.
  destruct (decide (parId < _)); [|by left].
  unfold write. set (w1 := {| shared := _; clock := _; events := _ |}).
  destruct (worker_initialize w1) as [[[]|e|] w2] eqn:Hwi; [| |done].
  2:{ by destruct (Hinit w1 e); rewrite Hwi. }
  unfold running_signal.
  cbv beta iota zeta delta [write bindM notify_one log].
  set (w3 := {| shared := _; clock := _; events := _ |}).
  destruct (worker_loop env push_all fuel parId w3) as [[[]|e|] w4] eqn:Hloop;
    [| |done]; apply worker_loop_spec in Hloop; cbn.
  - destruct Hloop as [? ?]. by rewrite last_snoc.
  - destruct (Hloop Hpush) as [?|[? ?]]; [by left|right].
    by rewrite last_snoc.
Qed.

Lemma wait_processing_running fuel parId :
  (∀ k st, runningWorkers (env k st) = runningWorkers st) →
  keeps_running (wait_processing env fuel parId).
Proof.
  intros Henv. induction fuel as [|fuel IH]; intros w0;
    rewrite wait_processing_unfold;
    cbv beta iota zeta delta [bindM ready get_state ret read out_of_fuel
      throw wait log interfere];
    destruct (m_states (shared w0) !! parId) as [[]|]; try done;
    destruct (Parallel.done (shared w0)); try done.
  rewrite IH. cbn. apply Henv.
Qed.

Lemma worker_loop_running fuel parId :
  (∀ k st, runningWorkers (env k st) = runningWorkers st) →
  (∀ items, keeps_running (push_all items)) →
  keeps_running (worker_loop env push_all fuel parId).
Proof.
  intros Henv Hpush. induction fuel as [|fuel IH]; intros w;
    rewrite worker_loop_unfold; unfold bindM at 1.
  { pose proof (wait_processing_running 0 parId Henv w) as Hwait.
    by destruct (wait_processing env 0 parId w) as [[[]| |] w1]. }
  pose proof (wait_processing_running (S fuel) parId Henv w) as Hwait.
  destruct (wait_processing env (S fuel) parId w) as [[[]| |] w1]
    eqn:Hrun; try done.
  - cbn [snd] in Hwait. unfold bindM at 1. unfold worker_input at 1.
    destruct (m_inputBuffers (shared w1) !! parId) as [b|]; [|done].
    unfold bindM at 1. pose proof (Hpush (get_input b) w1) as Hp.
    destruct (push_all (get_input b) w1) as [[[]| |] w2];
      cbn [snd] in Hp; [|cbn; congruence..].
    cbv beta iota zeta delta [lock bindM interfere log].
    rewrite IH. cbn. rewrite Henv. congruence.
Qed.

(** The worker counts itself in [runningWorkers] exactly while it runs:
    when no other thread and neither collaborator changes the counter, a
    worker that has returned or thrown leaves the counter as it found it,
    and a worker that is still running after [worker_initialize] returned
    has it one higher. *)
Theorem worker_running_balance fuel parId w :
  (∀ k st, runningWorkers (env k st) = runningWorkers st) →
  keeps_running worker_initialize →
  (∀ items, keeps_running (push_all items)) →
  SizeT.fits (S (runningWorkers (shared w))) →
  let r := worker env opts T1_default worker_initialize push_all fuel parId w in
  match r.1 with
  | OutOfFuel =>
      (∀ w0, (worker_initialize w0).1 = Done tt) →
      runningWorkers (shared r.2) = S (runningWorkers (shared w))
  | _ => runningWorkers (shared r.2) = runningWorkers (shared w)
  end.
Proof.
  intros Henv Hinit Hpush Hfits r. subst r. unfold worker.
  cbv beta iota zeta delta [lock bindM interfere log].
  set (w0 := {| shared := _; clock := _; events := _ |}).
  assert (runningWorkers (shared w0) = runningWorkers (shared w)) as H0
    by apply Henv.
  unfold register_input.
  destruct (decide (parId < _)); [|done].
  unfold write. set (w1 := {| shared := _; clock := _; events := _ |}).
  assert (runningWorkers (shared w1) = runningWorkers (shared w)) as H1
    by done.
  pose proof (Hinit w1) as Hi.
  destruct (worker_initialize w1) as [[[]|e|] w2] eqn:Hwi; cbn [snd] in Hi;
    [|cbn; congruence|].
  2:{ intros Hdone. specialize (Hdone w1). by rewrite Hwi in Hdone. }
  unfold running_signal.
  cbv beta iota zeta delta [write bindM notify_one log].
  set (w3 := {| shared := _; clock := _; events := _ |}).
  assert (runningWorkers (shared w3) = S (runningWorkers (shared w))) as H3.
  { cbn. rewrite Hi, H1, SizeT_add_small; [lia|].
    by replace (_ + 1) with (S (runningWorkers (shared w))) by lia. }
  pose proof (worker_loop_running fuel parId Henv Hpush w3) as Hl.
  destruct (worker_loop env push_all fuel parId w3) as [[[]|e|] w4];
    cbn [snd fst] in *.
  - cbn [shared runningWorkers with_runningWorkers].
    rewrite Hl, H3, SizeT_sub_small; [lia|lia|done].
  - cbn [shared runningWorkers with_runningWorkers].
    rewrite Hl, H3, SizeT_sub_small; [lia|lia|done].
  - intros _. congruence.
Qed.

End WorkerProtocol.

(** ** A worker whose pipeline is its output segment alone *)

Section PushAllAfter.

Import Parallel ParallelWorker.
Context {T : Type}.
Variable env : nat → @parallel_state T T → @parallel_state T T.

Implicit Types (a : @parallel_after T) (w : @world T T).

Lemma with_outputBuffers_id (st : @parallel_state T T) i b :
  m_outputBuffers st !! i = Some b →
  with_outputBuffers (λ l, <[i := b]> l) st = st.
Proof.
  intros Hb. destruct st. unfold with_outputBuffers. cbn in *.
  by rewrite list_insert_id.
Qed.

(** Pushes that leave room take no lock and log nothing: they fill the
    worker's buffer, which is the one registered in the shared state. *)
Lemma push_each_buffers fuel (items : list T) a w :
  m_outputBuffers (shared w) !! parId a = Some (m_buffer a) →
  m_outputSize (m_buffer a) + length items
    < length (m_outputBuffer (m_buffer a)) →
  ∃ a',
    push_each (after_push env fuel) items a w
    = (Done a',
       {| shared := with_outputBuffers (λ l, <[parId a := m_buffer a']> l)
                      (shared w);
          clock := clock w; events := events w |})
    ∧ parId a' = parId a
    ∧ m_outputSize (m_buffer a') = m_outputSize (m_buffer a) + length items
    ∧ length (m_outputBuffer (m_buffer a'))
      = length (m_outputBuffer (m_buffer a))
    ∧ get_output (m_buffer a') = get_output (m_buffer a) ++ items.
Proof.
  revert a w. induction items as [|item items IH]; intros a w Hreg Hroom.
  - exists a. cbn [push_each]. rewrite with_outputBuffers_id by done.
    unfold ret. destruct w. cbn. rewrite app_nil_r. repeat split; lia.
  - cbn [length] in Hroom. cbn [push_each]. unfold bindM at 1.
    unfold after_push at 1.
    destruct (decide (length _ ≤ m_outputSize _)) as [?|_]; [lia|].
    unfold bindM at 1, write_output_buffer, write.
    cbn [m_buffer m_outputSize m_outputBuffer parId].
    rewrite length_insert.
    destruct (decide (_ ≤ S _)) as [?|_]; [lia|].
    unfold ret at 1.
    set (a1 := {| parId := _; m_buffer := _ |}).
    set (w1 := {| shared := _; clock := _; events := _ |}).
    destruct (IH a1 w1) as (a' & Hrun & Hid & Hsize & Hlen & Hout).
    { subst w1 a1. cbn. apply list_lookup_insert_eq.
      by eapply lookup_lt_Some. }
    { cbn. rewrite length_insert. lia. }
    exists a'. split.
    { rewrite Hrun. subst w1 a1. cbn. f_equal. f_equal.
      unfold with_outputBuffers. cbn. by rewrite list_insert_insert_eq. }
    split; [done|].
    cbn in Hsize, Hlen. rewrite length_insert in Hlen.
    split; [cbn [length]; lia|]. split; [done|].
    rewrite Hout. unfold get_output. cbn.
    rewrite (cons_middle item), app_assoc. f_equal.
    set (n := m_outputSize (m_buffer a)).
    set (l := m_outputBuffer (m_buffer a)).
    assert (n < length l) as Hn by (subst n l; lia).
    rewrite (take_S_r _ _ item) by (by apply list_lookup_insert_eq).
    by rewrite take_insert_ge by lia.
Qed.

(** [push_all] into the output segment batches.  Items that fit the
    room left in the output buffer are stored behind the ones already
    there without any synchronisation, in the buffer registered in the
    shared state: [consume_output] would read exactly them.  One flush
    then hands them over: the mutex is taken once, [OUTPUTTING] is written
    into the worker's state once, on top of the shared state that holds
    the items, and the producer is notified once; the other threads run
    on that state while the worker waits. *)
Theorem push_all_batches fuel (items : list T) a w :
  m_outputBuffers (shared w) !! parId a = Some (m_buffer a) →
  0 < m_outputSize (m_buffer a) + length items →
  m_outputSize (m_buffer a) + length items
    < length (m_outputBuffer (m_buffer a)) →
  ∃ a1 w1 k,
    push_each (after_push env fuel) items a w = (Done a1, w1)
    ∧ events w1 = events w
    ∧ clock w1 = clock w
    ∧ shared w1
      = with_outputBuffers (λ l, <[parId a := m_buffer a1]> l) (shared w)
    ∧ get_output (m_buffer a1) = get_output (m_buffer a) ++ items
    ∧ consume_output (parId a) w1
      = (Done tt,
         {| shared := shared w1; clock := clock w1;
            events := events w
                      ++ [EvConsume (get_output (m_buffer a) ++ items)] |})
    ∧ let r := push_all (after_push env fuel) (flush_buffer_impl env fuel)
                 items a w in
      let announced :=
        with_states (λ l, <[parId a := OUTPUTTING]> l)
          (env (clock w) (shared w1)) in
      events r.2
      = events w
        ++ [EvLock; EvSetState (parId a) OUTPUTTING; EvNotify producerCond]
        ++ replicate k (EvWait (workerCond (parId a)))
      ∧ match r.1 with
        | Done a' =>
            parId a' = parId a
            ∧ take (m_outputSize (m_buffer a) + length items)
                   (m_outputBuffer (m_buffer a'))
              = get_output (m_buffer a) ++ items
            ∧ ((m_outputSize (m_buffer a') = 0
                ∧ 1 ≤ k
                ∧ shared r.2
                  = with_outputBuffers (λ l, <[parId a := m_buffer a']> l)
                      (env_steps env (S (clock w)) k announced))
               ∨ (a' = a1
                  ∧ done (shared r.2) = true
                  ∧ shared r.2 = env_steps env (S (clock w)) k announced))
        | Fail e => e = IndexOutOfRange
        | OutOfFuel => True
        end.
Proof.
  intros Hreg Hpos Hroom.
  destruct (push_each_buffers fuel items a w Hreg Hroom)
    as (a1 & Hrun & Hid & Hsize & Hlen & Hout).
  set (w1 := {| shared := _; clock := _; events := _ |}) in Hrun.
  assert (m_outputSize (m_buffer a1) ≠ 0) as Hne by lia.
  destruct (flush_buffer_impl_trace env fuel a1 w1 Hne) as (k & Hev & Hres).
  exists a1, w1, k. split; [done|]. split; [done|]. split; [done|].
  split; [done|]. split; [done|]. split.
  { unfold consume_output. subst w1. cbn [shared with_outputBuffers
      m_outputBuffers clock events].
    rewrite list_lookup_insert_eq by (by eapply lookup_lt_Some).
    unfold log. cbn. by rewrite Hout. }
  cbn zeta. unfold push_all, bindM. rewrite Hrun.
  rewrite Hid in Hev, Hres. split; [exact Hev|].
  destruct (flush_buffer_impl env fuel a1 w1) as [[a'| |] w2];
    cbn [fst snd] in *.
  - destruct Hres as (Hid' & Hbuf & Hcases). split; [done|].
    split.
    { rewrite Hbuf. unfold get_output in Hout at 1.
      by rewrite Hsize in Hout. }
    destruct Hcases as [(H0 & Hk & Hsh & _)|(Heq & Hsh & Hd & _)].
    + left. by repeat split.
    + right. by repeat split.
  - by destruct Hres.
  - done.
Qed.

End PushAllAfter.


(** ** The B-tree builder *)

Module BTreeProps.

Import BTree.

Section BuilderProps.

Context {T key_type augment_type leaf_type internal_type store_type : Type}.
Context `{!Store T key_type augment_type leaf_type internal_type store_type}.
Context `{!Augmenter augment_type leaf_type internal_type store_type}.

Local Abbreviation builder :=
  (@builder T key_type augment_type leaf_type internal_type store_type).
Local Abbreviation internal_summary :=
  (@internal_summary key_type augment_type internal_type).
Local Abbreviation leaf_summary :=
  (@leaf_summary key_type augment_type leaf_type).

Implicit Types (b : builder) (s : store_type).
Implicit Types (levels upper : list (list internal_summary)).
Implicit Types (nodes : list internal_summary).

Lemma fill_leaf_spec l i size (items : list T) s :
  size ≤ length items →
  ∃ s', fill_leaf l i size items s = Done (drop size items, s').
Proof.
  revert i items s. induction size as [|size IH]; intros i items s Hsize.
  - by eexists.
  - destruct items as [|v items]; cbn in Hsize; [lia|].
    cbn. apply IH. lia.
Qed.

Lemma construct_leaf_spec size b :
  size ≤ length (m_items b) →
  ∃ b' x, construct_leaf size b = Done b'
          ∧ m_items b' = drop size (m_items b)
          ∧ m_leaves b' = m_leaves b ++ [x]
          ∧ m_internal_nodes b' = m_internal_nodes b.
Proof.
  intros Hsize. unfold construct_leaf.
  destruct (create_leaf (m_store b)) as [l s].
  destruct (fill_leaf_spec l 0 size (m_items b) (set_count_leaf l size s) Hsize)
    as [s' ->].
  cbn. by eexists _, _.
Qed.

Lemma link_leaves_spec n i size (leaves : list leaf_summary) s :
  size ≤ length leaves →
  ∃ s', link_leaves n i size leaves s = Done (drop size leaves, s').
Proof.
  revert i leaves s. induction size as [|size IH]; intros i leaves s Hsize.
  - by eexists.
  - destruct leaves as [|v leaves]; cbn in Hsize; [lia|].
    cbn. apply IH. lia.
Qed.

Lemma insert_middle {A} (pre : list A) x y post :
  <[length pre := y]> (pre ++ x :: post) = pre ++ y :: post.
Proof. by rewrite <- (Nat.add_0_r (length pre)), insert_app_r. Qed.

Lemma link_internals_spec n i size pre nodes post s :
  size ≤ length nodes →
  ∃ s', link_internals n i size (length pre) (pre ++ nodes :: post) s
        = Done (pre ++ drop size nodes :: post, s').
Proof.
  revert i nodes s. induction size as [|size IH]; intros i nodes s Hsize.
  - by eexists.
  - destruct nodes as [|child nodes]; cbn in Hsize; [lia|].
    cbn [link_internals]. rewrite list_lookup_middle by done.
    rewrite insert_middle. cbn [drop]. apply IH. lia.
Qed.

Lemma push_node_top pre (x : internal_summary) :
  push_node (length pre) x pre = Done (pre ++ [[x]]).
Proof.
  unfold push_node. destruct (decide _) as [_|?]; [|lia].
  rewrite list_lookup_middle by done. by rewrite insert_middle.
Qed.

Lemma push_node_middle pre nodes post (x : internal_summary) :
  push_node (length pre) x (pre ++ nodes :: post)
  = Done (pre ++ (nodes ++ [x]) :: post).
Proof.
  unfold push_node. destruct (decide _) as [Hlt|_].
  { rewrite length_app in Hlt. cbn in Hlt. lia. }
  rewrite list_lookup_middle by done. by rewrite insert_middle.
Qed.

Lemma construct_internal_from_leaves_spec size b :
  size ≤ length (m_leaves b) →
  ∃ b' x, construct_internal_from_leaves size b = Done b'
          ∧ m_items b' = m_items b
          ∧ m_leaves b' = drop size (m_leaves b)
          ∧ m_internal_nodes b'
            = match m_internal_nodes b with
              | [] => [[x]]
              | nodes :: upper => (nodes ++ [x]) :: upper
              end.
Proof.
  intros Hsize. unfold construct_internal_from_leaves.
  destruct (create_internal (m_store b)) as [n s].
  destruct (link_leaves_spec n 0 size (m_leaves b)
              (set_count_internal n size s) Hsize) as [s' ->].
  cbn [mbind outcome_bind].
  destruct (m_internal_nodes b) as [|nodes upper].
  - pose proof (λ x, push_node_top [] x) as Hp. cbn [length app] in Hp.
    rewrite Hp. cbn. by eexists _, _.
  - pose proof (λ x, push_node_middle [] nodes upper x) as Hp.
    cbn [length app] in Hp. rewrite Hp. cbn. by eexists _, _.
Qed.

Lemma construct_internal_from_internal_spec size pre nodes post b :
  m_internal_nodes b = pre ++ nodes :: post →
  size ≤ length nodes →
  ∃ b' x, construct_internal_from_internal size (length pre) b = Done b'
          ∧ m_items b' = m_items b
          ∧ m_leaves b' = m_leaves b
          ∧ m_internal_nodes b'
            = pre ++ drop size nodes
                  :: match post with
                     | [] => [[x]]
                     | up :: upper => (up ++ [x]) :: upper
                     end.
Proof.
  intros Hlevels Hsize. unfold construct_internal_from_internal.
  destruct (create_internal (m_store b)) as [n s]. rewrite Hlevels.
  destruct (link_internals_spec n 0 size pre nodes post s Hsize) as [s' ->].
  cbn [mbind outcome_bind].
  replace (length pre + 1) with (length (pre ++ [drop size nodes]))
    by (rewrite length_app; cbn; lia).
  rewrite (cons_middle (drop size nodes) pre post).
  rewrite app_assoc.
  destruct post as [|up upper].
  - rewrite app_nil_r, push_node_top. cbn.
    eexists _, _. repeat split. by rewrite <- !app_assoc.
  - rewrite push_node_middle. cbn.
    eexists _, _. repeat split. by rewrite <- !app_assoc.
Qed.

Lemma sizes_facts :
  sizes_ok →
  leaf_tipping_point = desired_leaf_size + min_leaf_size
  ∧ internal_tipping_point = desired_internal_size + min_internal_size
  ∧ 0 < desired_leaf_size ∧ 0 < desired_internal_size
  ∧ 0 < min_leaf_size ∧ 0 < min_internal_size
  ∧ 1 < max_internal_size.
Proof.
  intros (Hfl & Hfi & Hl & Hi & Hmax).
  assert (desired_leaf_size = (min_leaf_size + max_leaf_size) / 2) as Hdl.
  { unfold desired_leaf_size. rewrite SizeT_add_small; [done|].
    eapply SizeT_fits_le; [|exact Hfl]. lia. }
  assert (desired_internal_size
          = (min_internal_size + max_internal_size) / 2) as Hdi.
  { unfold desired_internal_size. rewrite SizeT_add_small; [done|].
    eapply SizeT_fits_le; [|exact Hfi]. lia. }
  assert (desired_leaf_size ≤ min_leaf_size + max_leaf_size) as Hdl_le.
  { rewrite Hdl. apply Nat.Div0.div_le_upper_bound. lia. }
  assert (desired_internal_size ≤ min_internal_size + max_internal_size)
    as Hdi_le.
  { rewrite Hdi. apply Nat.Div0.div_le_upper_bound. lia. }
  assert (0 < desired_leaf_size).
  { rewrite Hdl. apply Nat.div_str_pos. lia. }
  assert (0 < desired_internal_size).
  { rewrite Hdi. apply Nat.div_str_pos. lia. }
  split.
  { unfold leaf_tipping_point. rewrite SizeT_add_small; [done|].
    eapply SizeT_fits_le; [|exact Hfl]. lia. }
  split.
  { unfold internal_tipping_point. rewrite SizeT_add_small; [done|].
    eapply SizeT_fits_le; [|exact Hfi]. lia. }
  repeat split; lia.
Qed.

Local Abbreviation level_ok :=
  (λ nodes : list internal_summary,
     0 < length nodes < internal_tipping_point).

Lemma extract_levels_spec post : ∀ fuel pre nodes b,
  sizes_ok →
  m_internal_nodes b = pre ++ nodes :: post →
  0 < length nodes ≤ internal_tipping_point →
  Forall level_ok post →
  length post + 2 ≤ fuel →
  ∃ b' rest,
    extract_levels fuel (length pre) b = Done b'
    ∧ m_items b' = m_items b
    ∧ m_leaves b' = m_leaves b
    ∧ m_internal_nodes b' = pre ++ rest
    ∧ Forall level_ok rest
    ∧ nodes_below rest = nodes_below (nodes :: post).
Proof.
  induction post as [|up upper IH]; intros fuel pre nodes b Hok Hlevels
    Hnodes Hpost Hfuel;
    destruct (sizes_facts Hok) as (_ & Hti & _ & Hdi & _ & Hmin & _);
    (destruct fuel as [|fuel]; [cbn in Hfuel; lia|]);
    cbn [extract_levels]; rewrite Hlevels;
    (destruct (decide (length pre < _)) as [_|Hn];
       [|rewrite length_app in Hn; cbn in Hn; lia]);
    rewrite list_lookup_middle by done;
    destruct (decide (length nodes < _)) as [Hsmall|Hbig].
  - exists b, [nodes]. repeat split; try done.
    constructor; [lia|constructor].
  - destruct (construct_internal_from_internal_spec
                desired_internal_size pre nodes [] b Hlevels)
      as (b1 & x & -> & Hit & Hlv & Hlev1); [lia|].
    cbn [mbind outcome_bind].
    destruct fuel as [|fuel]; [cbn in Hfuel; lia|].
    cbn [extract_levels]. rewrite Hlev1.
    rewrite (cons_middle (drop _ nodes) pre), app_assoc.
    replace (S (length pre)) with (length (pre ++ [drop desired_internal_size nodes]))
      by (rewrite length_app; cbn; lia).
    destruct (decide (length (pre ++ _) < _)) as [_|Hn];
      [|rewrite !length_app in Hn; cbn in Hn; lia].
    rewrite list_lookup_middle by done.
    destruct (decide (length [x] < _)) as [_|Hn]; [|cbn in Hn; lia].
    exists b1, [drop desired_internal_size nodes; [x]].
    repeat split; try done.
    + constructor; [rewrite length_drop; lia|].
      constructor; [cbn; lia|constructor].
    + cbn. rewrite length_drop. lia.
  - exists b, (nodes :: up :: upper). repeat split; try done.
    constructor; [lia|done].
  - destruct (construct_internal_from_internal_spec
                desired_internal_size pre nodes (up :: upper) b Hlevels)
      as (b1 & x & -> & Hit & Hlv & Hlev1); [lia|].
    cbn [mbind outcome_bind].
    rewrite (cons_middle (drop _ nodes) pre), app_assoc in Hlev1.
    apply Forall_cons in Hpost as [Hup Hupper].
    destruct (IH fuel (pre ++ [drop desired_internal_size nodes])
                (up ++ [x]) b1 Hok Hlev1)
      as (b2 & rest & Hrun & Hit2 & Hlv2 & Hlev2 & Hrest & Hcount);
      [rewrite length_app; cbn; lia|done|cbn in Hfuel; lia|].
    rewrite length_app in Hrun. cbn [length] in Hrun.
    rewrite Nat.add_1_r in Hrun. rewrite Hrun.
    exists b2, (drop desired_internal_size nodes :: rest).
    rewrite <- app_assoc in Hlev2.
    split; [done|]. split; [congruence|]. split; [congruence|].
    split; [exact Hlev2|]. split.
    + constructor; [rewrite length_drop; lia|done].
    + cbn [nodes_below]. rewrite Hcount. cbn [nodes_below].
      rewrite length_drop, length_app. cbn [length]. lia.
Qed.

Lemma extract_nodes_spec fuel b :
  sizes_ok →
  desired_leaf_size ≤ length (m_items b) →
  length (m_leaves b) < internal_tipping_point →
  Forall level_ok (m_internal_nodes b) →
  length (m_internal_nodes b) + 2 ≤ fuel →
  ∃ b',
    extract_nodes fuel b = Done b'
    ∧ m_items b' = drop desired_leaf_size (m_items b)
    ∧ length (m_leaves b') < internal_tipping_point
    ∧ Forall level_ok (m_internal_nodes b')
    ∧ length (m_leaves b')
      + desired_internal_size * nodes_below (m_internal_nodes b')
      = S (length (m_leaves b)
           + desired_internal_size * nodes_below (m_internal_nodes b)).
Proof.
  intros Hok Hitems Hleaves Hlevels Hfuel.
  destruct (sizes_facts Hok) as (_ & Hti & _ & Hdi & _ & Hmin & _).
  unfold extract_nodes.
  destruct (construct_leaf_spec desired_leaf_size b Hitems)
    as (b1 & x & -> & Hit1 & Hlv1 & Hlev1).
  cbn [mbind outcome_bind].
  assert (length (m_leaves b1) = S (length (m_leaves b))) as Hlen1.
  { rewrite Hlv1, length_app. cbn. lia. }
  destruct (decide (length (m_leaves b1) < _)) as [Hsmall|Hbig].
  { exists b1. rewrite Hlev1. repeat split; try done. lia. }
  destruct (construct_internal_from_leaves_spec desired_internal_size b1)
    as (b2 & y & -> & Hit2 & Hlv2 & Hlev2); [lia|].
  cbn [mbind outcome_bind]. rewrite Hlev1 in Hlev2.
  assert (length (m_leaves b2) = min_internal_size) as Hlen2.
  { rewrite Hlv2, length_drop. lia. }
  destruct (m_internal_nodes b) as [|nodes upper] eqn:Hlevels0.
  - destruct (extract_levels_spec [] fuel [] [y] b2 Hok Hlev2)
      as (b3 & rest & Hrun & Hit3 & Hlv3 & Hlev3 & Hrest & Hcount);
      [cbn; lia|done|cbn in *; lia|].
    cbn [length] in Hrun. rewrite Hrun. exists b3.
    cbn [app] in Hlev3. rewrite Hlev3, Hlv3, Hit3, Hit2, Hit1, Hcount.
    repeat split; try done; [lia|]. cbn. lia.
  - apply Forall_cons in Hlevels as [Hnodes Hupper].
    destruct (extract_levels_spec upper fuel [] (nodes ++ [y]) b2 Hok Hlev2)
      as (b3 & rest & Hrun & Hit3 & Hlv3 & Hlev3 & Hrest & Hcount);
      [rewrite length_app; cbn; lia|done|cbn in *; lia|].
    cbn [length] in Hrun. rewrite Hrun. exists b3.
    cbn [app] in Hlev3. rewrite Hlev3, Hlv3, Hit3, Hit2, Hit1, Hcount.
    repeat split; try done; [lia|]. cbn [nodes_below].
    rewrite length_app. cbn [length]. lia.
Qed.

Lemma levels_le_nodes_below levels :
  0 < desired_internal_size →
  Forall level_ok levels →
  length levels ≤ nodes_below levels.
Proof.
  intros Hdi. induction 1 as [|nodes upper Hnodes _ IH]; [done|].
  cbn. nia.
Qed.

Lemma pow_le_nodes_below nodes upper :
  Forall level_ok (nodes :: upper) →
  desired_internal_size ^ length upper ≤ nodes_below (nodes :: upper).
Proof.
  revert nodes. induction upper as [|up upper IH]; intros nodes
    [Hnodes Hupper]%Forall_cons.
  - cbn [length nodes_below]. rewrite Nat.pow_0_r. lia.
  - specialize (IH up Hupper). cbn [length]. rewrite Nat.pow_succ_r'.
    apply (Nat.mul_le_mono_l _ _ desired_internal_size) in IH.
    cbn [nodes_below] in *. lia.
Qed.

Lemma push_spec fuel v b :
  sizes_ok →
  bounded b →
  length (m_internal_nodes b) + 2 ≤ fuel →
  ∃ b', push fuel v b = Done b'
        ∧ bounded b'
        ∧ items_held b' = S (items_held b).
Proof.
  intros Hok (Hitems & Hleaves & Hlevels) Hfuel.
  destruct (sizes_facts Hok) as (Htl & _ & Hdl & _ & Hmin & _).
  unfold push. cbn [m_items].
  destruct (decide (length (m_items b ++ [v]) < _)) as [Hsmall|Hbig].
  { eexists. split; [done|]. split; [done|].
    unfold items_held. cbn. rewrite length_app. cbn. lia. }
  rewrite length_app in Hbig. cbn [length] in Hbig.
  edestruct (extract_nodes_spec fuel) as (b' & -> & Hit & Hlv & Hlev & Hcount);
    [exact Hok| | | | |].
  5:{ exists b'. split; [done|].
      cbn [m_items m_leaves m_internal_nodes] in *. split.
      - split; [|done]. rewrite Hit, length_drop, length_app. cbn. lia.
      - unfold items_held. rewrite Hcount, Hit, length_drop, length_app.
        cbn [length]. nia. }
  all: cbn [m_items m_leaves m_internal_nodes]; try done.
  rewrite length_app. cbn. lia.
Qed.

Lemma levels_le_items_held b :
  sizes_ok → bounded b → length (m_internal_nodes b) ≤ items_held b.
Proof.
  intros Hok (_ & _ & Hlevels).
  destruct (sizes_facts Hok) as (_ & _ & Hdl & Hdi & _).
  pose proof (levels_le_nodes_below _ Hdi Hlevels) as Hle.
  unfold items_held.
  set (nb := nodes_below (m_internal_nodes b)) in *.
  assert (nb ≤ desired_internal_size * nb) by nia.
  assert (length (m_leaves b) + desired_internal_size * nb
          ≤ desired_leaf_size
            * (length (m_leaves b) + desired_internal_size * nb)) by nia.
  lia.
Qed.

Lemma push_each_spec fuel (vs : list T) b :
  sizes_ok →
  bounded b →
  items_held b + length vs + 1 ≤ fuel →
  ∃ b', push_each fuel vs b = Done b'
        ∧ bounded b'
        ∧ items_held b' = items_held b + length vs.
Proof.
  intros Hok. revert b. induction vs as [|v vs IH]; intros b Hb Hfuel.
  - exists b. split; [done|]. split; [done|]. cbn. lia.
  - cbn [length] in Hfuel. pose proof (levels_le_items_held b Hok Hb).
    destruct (push_spec fuel v b Hok Hb) as (b1 & Hpush & Hb1 & Hheld);
      [lia|].
    destruct (IH b1 Hb1) as (b' & Hrun & Hb' & Hheld'); [lia|].
    exists b'. cbn [push_each]. rewrite Hpush. cbn [mbind outcome_bind].
    split; [done|]. split; [done|]. cbn [length]. lia.
Qed.

Lemma new_builder_bounded s : sizes_ok → bounded (new_builder s).
Proof.
  intros Hok. destruct (sizes_facts Hok) as (Htl & Hti & ? & ? & ? & ? & _).
  unfold bounded. cbn. repeat split; [lia..|constructor].
Qed.

(** *** [build] *)

Lemma build_levels_root fuel pre root b :
  m_internal_nodes b = pre ++ [[root]] →
  0 < fuel →
  build_levels fuel (length pre) b = Done b.
Proof.
  intros Hlevels Hfuel. destruct fuel as [|fuel]; [lia|].
  cbn [build_levels]. rewrite Hlevels.
  destruct (decide (length pre < _)) as [_|Hn];
    [|rewrite length_app in Hn; cbn in Hn; lia].
  rewrite list_lookup_middle by done.
  destruct (decide (_ ∨ _)) as [[[_ Hc]|[Hc _]]|_].
  - cbn in Hc. lia.
  - rewrite length_app in Hc. cbn in Hc. lia.
  - cbn [mbind outcome_bind]. destruct fuel; cbn [build_levels];
      rewrite Hlevels;
      (destruct (decide (S (length pre) < _)) as [Hc|_]; [|done]);
      rewrite length_app in Hc; cbn in Hc; lia.
Qed.

(** One level is emptied into one or two nodes of the level above. *)
Lemma consume_level pre nodes post b :
  m_internal_nodes b = pre ++ nodes :: post →
  nodes ≠ [] →
  ∃ b' new,
    (b1 ← (if decide (max_internal_size < length nodes)
           then construct_internal_from_internal
                  (length nodes / 2) (length pre) b
           else Done b);
     match m_internal_nodes b1 !! length pre with
     | None => Fail IndexOutOfRange
     | Some nodes1 =>
         construct_internal_from_internal (length nodes1) (length pre) b1
     end) = Done b'
    ∧ m_items b' = m_items b
    ∧ m_leaves b' = m_leaves b
    ∧ new ≠ []
    ∧ length new ≤ 2
    ∧ (length nodes ≤ max_internal_size → length new = 1)
    ∧ m_internal_nodes b'
      = pre ++ [] :: match post with
                     | [] => [new]
                     | up :: upper => (up ++ new) :: upper
                     end.
Proof.
  intros Hlevels Hne.
  destruct (decide (max_internal_size < length nodes)) as [Hbig|Hsmall].
  - destruct (construct_internal_from_internal_spec
                (length nodes / 2) pre nodes post b Hlevels)
      as (b1 & x & -> & Hit1 & Hlv1 & Hlev1).
    { apply Nat.Div0.div_le_upper_bound. lia. }
    cbn [mbind outcome_bind]. rewrite Hlev1.
    rewrite list_lookup_middle by done.
    destruct (construct_internal_from_internal_spec
                (length (drop (length nodes / 2) nodes))
                pre _ _ b1 Hlev1)
      as (b2 & y & -> & Hit2 & Hlv2 & Hlev2); [done|].
    exists b2, [x; y]. rewrite drop_all in Hlev2.
    split; [done|]. split; [congruence|]. split; [congruence|].
    split; [done|]. split; [cbn; lia|]. split; [lia|]. rewrite Hlev2.
    destruct post; [done|]. by rewrite <- app_assoc.
  - cbn [mbind outcome_bind]. rewrite Hlevels.
    rewrite list_lookup_middle by done.
    destruct (construct_internal_from_internal_spec
                (length nodes) pre nodes post b Hlevels)
      as (b1 & x & -> & Hit1 & Hlv1 & Hlev1); [done|].
    exists b1, [x]. rewrite drop_all in Hlev1.
    split; [done|]. split; [done|]. split; [done|].
    split; [done|]. split; [cbn; lia|]. done.
Qed.

Lemma build_levels_step fuel pre nodes post b :
  m_internal_nodes b = pre ++ nodes :: post →
  nodes ≠ [] →
  (post = [] → 1 < length nodes) →
  ∃ b' new,
    build_levels (S fuel) (length pre) b
    = build_levels fuel (S (length pre)) b'
    ∧ m_items b' = m_items b
    ∧ m_leaves b' = m_leaves b
    ∧ new ≠ []
    ∧ length new ≤ 2
    ∧ (length nodes ≤ max_internal_size → length new = 1)
    ∧ m_internal_nodes b'
      = pre ++ [] :: match post with
                     | [] => [new]
                     | up :: upper => (up ++ new) :: upper
                     end.
Proof.
  intros Hlevels Hne Htop.
  destruct (consume_level pre nodes post b Hlevels Hne)
    as (b' & new & Hrun & Hrest).
  exists b', new. split; [|exact Hrest].
  cbn [build_levels].
  destruct (decide (length pre < _)) as [_|Hn];
    [|rewrite Hlevels, length_app in Hn; cbn in Hn; lia].
  assert (m_internal_nodes b !! length pre = Some nodes) as ->
    by (rewrite Hlevels; by apply list_lookup_middle).
  destruct (decide (_ ∨ _)) as [_|Hc].
  - rewrite Hrun. done.
  - exfalso. apply Hc. rewrite Hlevels, length_app. cbn [length].
    destruct nodes; [done|]. destruct post as [|up upper].
    + left. specialize (Htop eq_refl). cbn in *. lia.
    + right. cbn. lia.
Qed.

Lemma build_levels_spec post : ∀ fuel pre nodes b,
  1 < max_internal_size →
  m_internal_nodes b = pre ++ nodes :: post →
  last (nodes :: post) ≠ Some [] →
  length post + 3 ≤ fuel →
  ∃ b' k root,
    build_levels fuel (length pre) b = Done b'
    ∧ m_items b' = m_items b
    ∧ m_leaves b' = m_leaves b
    ∧ m_internal_nodes b' = pre ++ replicate k [] ++ [[root]].
Proof.
  induction post as [|up upper IH]; intros fuel pre nodes b Hmax Hlevels
    Hlast Hfuel.
  - cbn in Hlast, Hfuel.
    destruct nodes as [|root [|root2 nodes]]; [done| |].
    + exists b, 0, root. rewrite build_levels_root with (root := root);
        [done|done|lia].
    + destruct fuel as [|fuel]; [lia|].
      destruct (build_levels_step fuel pre (root :: root2 :: nodes) [] b
                  Hlevels)
        as (b1 & new & -> & Hit1 & Hlv1 & Hne & Hlen & _ & Hlev1);
        [done|cbn; lia|].
      rewrite (cons_middle [] pre), app_assoc in Hlev1.
      replace (S (length pre)) with (length (pre ++ [[]]))
        by (rewrite length_app; cbn; lia).
      destruct new as [|x [|y new]]; [done| |].
      * exists b1, 1, x. rewrite build_levels_root with (root := x);
          [|done|lia]. rewrite Hlev1, <- app_assoc. done.
      * destruct new; [|cbn in Hlen; lia].
        destruct fuel as [|fuel]; [lia|].
        destruct (build_levels_step fuel (pre ++ [[]]) [x; y] [] b1 Hlev1)
          as (b2 & new & -> & Hit2 & Hlv2 & Hne2 & Hlen2 & Hone & Hlev2);
          [done|cbn; lia|].
        specialize (Hone ltac:(cbn; lia)).
        destruct new as [|z [|? ?]]; try done.
        rewrite (cons_middle [] (pre ++ [[]])), app_assoc in Hlev2.
        replace (S (length (pre ++ [[]]))) with (length ((pre ++ [[]]) ++ [[]]))
          by (rewrite !length_app; cbn; lia).
        exists b2, 2, z. rewrite build_levels_root with (root := z);
          [|done|lia].
        rewrite Hlev2, <- !app_assoc. split; [done|].
        split; [congruence|]. split; [congruence|done].
  - destruct fuel as [|fuel]; [cbn in Hfuel; lia|].
    destruct nodes as [|node nodes].
    + (* an empty level below the top is passed over *)
      cbn [build_levels]. rewrite Hlevels.
      destruct (decide (length pre < _)) as [_|Hn];
        [|rewrite length_app in Hn; cbn in Hn; lia].
      rewrite list_lookup_middle by done.
      destruct (decide (_ ∨ _)) as [[[_ Hc]|[_ Hc]]|_];
        [cbn in Hc; lia..|].
      cbn [mbind outcome_bind].
      rewrite (cons_middle [] pre), app_assoc in Hlevels.
      destruct (IH fuel (pre ++ [[]]) up b Hmax Hlevels)
        as (b' & k & root & Hrun & Hit & Hlv & Hlev);
        [done|cbn in Hfuel; lia|].
      rewrite length_app in Hrun. cbn [length] in Hrun.
      rewrite Nat.add_1_r in Hrun.
      exists b', (S k), root. rewrite Hrun, Hlev, <- app_assoc. done.
    + destruct (build_levels_step fuel pre (node :: nodes) (up :: upper) b
                  Hlevels)
        as (b1 & new & -> & Hit1 & Hlv1 & Hne & Hlen & _ & Hlev1);
        [done|done|].
      rewrite (cons_middle [] pre), app_assoc in Hlev1.
      destruct (IH fuel (pre ++ [[]]) (up ++ new) b1 Hmax Hlev1)
        as (b' & k & root & Hrun & Hit & Hlv & Hlev);
        [|cbn in Hfuel; lia|].
      { destruct upper as [|up2 upper].
        - cbn. intros [= Heq]. by destruct up, new.
        - exact Hlast. }
      rewrite length_app in Hrun. cbn [length] in Hrun.
      rewrite Nat.add_1_r in Hrun.
      exists b', (S k), root. rewrite Hrun, Hlev, <- app_assoc.
      split; [done|]. split; [congruence|]. split; [congruence|done].
Qed.

Lemma build_leaves_spec b :
  ∃ b' new,
    (if decide (0 < length (m_items b)) then
       b1 ← (if decide (max_leaf_size < length (m_items b))
             then construct_leaf (length (m_items b) / 2) b
             else Done b);
       construct_leaf (length (m_items b1)) b1
     else Done b) = Done b'
    ∧ m_items b' = []
    ∧ m_leaves b' = m_leaves b ++ new
    ∧ m_internal_nodes b' = m_internal_nodes b
    ∧ (new = [] ↔ m_items b = []).
Proof.
  destruct (decide (0 < length (m_items b))) as [Hpos|Hzero].
  - assert (m_items b ≠ []) as Hne
      by (intros Heq; rewrite Heq in Hpos; cbn in Hpos; lia).
    destruct (decide (max_leaf_size < length (m_items b))) as [Hbig|Hsmall].
    + destruct (construct_leaf_spec (length (m_items b) / 2) b)
        as (b1 & x & -> & Hit1 & Hlv1 & Hlev1).
      { apply Nat.Div0.div_le_upper_bound. lia. }
      cbn [mbind outcome_bind].
      destruct (construct_leaf_spec (length (m_items b1)) b1)
        as (b2 & y & -> & Hit2 & Hlv2 & Hlev2); [done|].
      exists b2, [x; y]. rewrite drop_all in Hit2.
      split; [done|]. split; [done|].
      split; [by rewrite Hlv2, Hlv1, <- app_assoc|].
      split; [congruence|]. done.
    + cbn [mbind outcome_bind].
      destruct (construct_leaf_spec (length (m_items b)) b)
        as (b1 & x & -> & Hit1 & Hlv1 & Hlev1); [done|].
      exists b1, [x]. rewrite drop_all in Hit1. done.
  - exists b, []. destruct (m_items b); [|cbn in Hzero; lia].
    by rewrite app_nil_r.
Qed.

Lemma build_level0_spec b :
  last (m_internal_nodes b) ≠ Some [] →
  ∃ b',
    (if decide ((length (m_internal_nodes b) = 0 ∧ 1 < length (m_leaves b))
                ∨ (0 < length (m_internal_nodes b)
                   ∧ 0 < length (m_leaves b)))
     then
       b1 ← (if decide (max_internal_size < length (m_leaves b))
             then construct_internal_from_leaves (length (m_leaves b) / 2) b
             else Done b);
       construct_internal_from_leaves (length (m_leaves b1)) b1
     else Done b) = Done b'
    ∧ m_items b' = m_items b
    ∧ last (m_internal_nodes b') ≠ Some []
    ∧ length (m_internal_nodes b') ≤ S (length (m_internal_nodes b))
    ∧ ((b' = b ∧ m_internal_nodes b = [] ∧ length (m_leaves b) ≤ 1)
       ∨ (m_internal_nodes b' ≠ [] ∧ m_leaves b' = []
          ∧ (m_leaves b = [] → b' = b))).
Proof.
  intros Hlast.
  destruct (decide (_ ∨ _)) as [Hc|Hc].
  - assert (m_leaves b ≠ []) as Hleaves.
    { intros Heq. rewrite Heq in Hc. cbn in Hc. lia. }
    assert (∃ b' new,
      (b1 ← (if decide (max_internal_size < length (m_leaves b))
             then construct_internal_from_leaves (length (m_leaves b) / 2) b
             else Done b);
       construct_internal_from_leaves (length (m_leaves b1)) b1) = Done b'
      ∧ m_items b' = m_items b
      ∧ m_leaves b' = []
      ∧ new ≠ []
      ∧ m_internal_nodes b'
        = match m_internal_nodes b with
          | [] => [new]
          | nodes :: upper => (nodes ++ new) :: upper
          end) as (b' & new & -> & Hit & Hlv & Hne & Hlev).
    { destruct (decide (max_internal_size < _)) as [Hbig|Hsmall].
      - destruct (construct_internal_from_leaves_spec
                    (length (m_leaves b) / 2) b)
          as (b1 & x & -> & Hit1 & Hlv1 & Hlev1).
        { apply Nat.Div0.div_le_upper_bound. lia. }
        cbn [mbind outcome_bind].
        destruct (construct_internal_from_leaves_spec
                    (length (m_leaves b1)) b1)
          as (b2 & y & -> & Hit2 & Hlv2 & Hlev2); [done|].
        exists b2, [x; y]. rewrite drop_all in Hlv2.
        split; [done|]. split; [congruence|]. split; [done|].
        split; [done|]. rewrite Hlev2, Hlev1.
        destruct (m_internal_nodes b); [done|]. by rewrite <- app_assoc.
      - cbn [mbind outcome_bind].
        destruct (construct_internal_from_leaves_spec
                    (length (m_leaves b)) b)
          as (b1 & x & -> & Hit1 & Hlv1 & Hlev1); [done|].
        exists b1, [x]. rewrite drop_all in Hlv1. done. }
    exists b'. split; [done|]. split; [done|]. rewrite Hlev.
    destruct (m_internal_nodes b) as [|nodes [|up upper]].
    + split; [by destruct new|]. split; [cbn; lia|]. by right.
    + split; [cbn; by destruct nodes, new|]. split; [cbn; lia|]. by right.
    + split; [exact Hlast|]. split; [cbn; lia|]. by right.
  - exists b. split; [done|]. split; [done|]. split; [done|].
    split; [lia|].
    destruct (m_internal_nodes b) as [|nodes upper] eqn:Hlev.
    + left. split; [done|]. split; [done|].
      destruct (decide (length (m_leaves b) ≤ 1)); [done|].
      exfalso. apply Hc. left. cbn. lia.
    + right. split; [done|]. split; [|done].
      destruct (m_leaves b); [done|].
      exfalso. apply Hc. right. cbn. lia.
Qed.

Lemma build_spec fuel b :
  1 < max_internal_size →
  last (m_internal_nodes b) ≠ Some [] →
  length (m_internal_nodes b) + 4 ≤ fuel →
  ∃ b', build fuel b = Done b'
        ∧ single_root b'
        ∧ (m_leaves b' = [] ∧ m_internal_nodes b' = []
           ↔ m_items b = [] ∧ m_leaves b = [] ∧ m_internal_nodes b = []).
Proof.
  intros Hmax Hlast Hfuel. unfold build.
  destruct (build_leaves_spec b) as (b1 & new & -> & Hit1 & Hlv1 & Hlev1 & Hnew).
  cbn [mbind outcome_bind]. rewrite <- Hlev1 in Hlast, Hfuel.
  destruct (build_level0_spec b1 Hlast)
    as (b2 & -> & Hit2 & Hlast2 & Hlen2 & Hcases).
  cbn [mbind outcome_bind]. rewrite Hit1 in Hit2.
  destruct Hcases as [(-> & Hlev2 & Hle)|(Hlev2 & Hlv2 & Hsame)].
  - (* no internal node: the root is a leaf, or there is nothing *)
    assert (build_levels fuel 0 b1 = Done b1) as ->.
    { destruct fuel; cbn [build_levels]; rewrite Hlev2;
        by destruct (decide (0 < _)) as [Hc|_]; [cbn in Hc; lia|]. }
    cbn [mbind outcome_bind]. rewrite Hlev2.
    destruct (decide (_ ∧ _)) as [[_ Hc]|Hc].
    + eexists. split; [done|]. unfold single_root, with_store. cbn.
      rewrite Hit2, Hlev2. destruct (m_leaves b1) eqn:Hl1; [|done].
      symmetry in Hlv1. apply app_eq_nil in Hlv1 as [Hl0 Hn0].
      split; [split; [done|by left]|]. split; [|done].
      intros _. split; [by apply Hnew|]. split; [done|congruence].
    + destruct (m_leaves b1) as [|root [|? ?]] eqn:Hl1;
        [exfalso; apply Hc; cbn; done| |cbn in Hle; lia].
      destruct (decide (length [root] = 1)) as [_|?]; [|done].
      eexists. split; [done|]. unfold single_root, with_store. cbn.
      rewrite Hit2, Hlev2, Hl1.
      split; [split; [done|right; left; by eexists]|].
      split; [by intros [[=] _]|]. intros (Hi0 & Hl0 & _).
      apply Hnew in Hi0. rewrite Hi0, Hl0 in Hlv1. done.
  - (* internal nodes: they all go into one root *)
    destruct (m_internal_nodes b2) as [|nodes post] eqn:Hlevels; [done|].
    destruct (build_levels_spec post fuel [] nodes b2 Hmax Hlevels Hlast2)
      as (b3 & k & root & Hrun & Hit3 & Hlv3 & Hlev3).
    { cbn [length] in Hlen2. lia. }
    cbn [length] in Hrun. rewrite Hrun. cbn [mbind outcome_bind app] in *.
    rewrite Hlev3, Hlv3, Hlv2. cbn [length].
    destruct (decide (_ ∧ _)) as [[Hc _]|_].
    { rewrite length_app, length_replicate in Hc. cbn in Hc. lia. }
    destruct (decide (0 = 1)) as [?|_]; [done|].
    rewrite last_app. cbn [last].
    eexists. split; [done|]. unfold single_root, with_store. cbn.
    rewrite Hit3, Hit2, Hlev3, Hlv3, Hlv2.
    split; [split; [done|right; right; by eexists _, _]|].
    split.
    + intros [_ Heq]. by destruct k.
    + intros (Hi0 & Hl0 & Hv0). exfalso.
      apply Hnew in Hi0. rewrite Hi0, Hl0 in Hlv1. cbn in Hlv1.
      specialize (Hsame Hlv1). subst b2. congruence.
Qed.

Lemma bounded_last b : bounded b → last (m_internal_nodes b) ≠ Some [].
Proof.
  intros (_ & _ & Hlevels) Hlast.
  apply last_Some_elem_of in Hlast.
  rewrite Forall_forall in Hlevels. apply Hlevels in Hlast. cbn in Hlast. lia.
Qed.

(** What the builder keeps in memory is bounded: a new builder holds
    nothing, and a [push] into a builder whose deques are below the tipping
    points returns, never takes from an empty deque, leaves every deque
    below its tipping point again, and loses no value: it holds one more
    than before, in its deque or in leaves of the desired size. *)
Theorem push_bounded fuel (v : T) b s :
  sizes_ok →
  bounded b →
  length (m_internal_nodes b) + 2 ≤ fuel →
  bounded (new_builder s)
  ∧ items_held (new_builder s) = 0
  ∧ ∃ b', push fuel v b = Done b'
          ∧ bounded b'
          ∧ items_held b' = S (items_held b).
Proof.
  intros Hok Hb Hfuel. split; [by apply new_builder_bounded|].
  split; [unfold items_held; cbn; lia|]. by apply push_spec.
Qed.

(** After [n] values the builder has as many internal levels as a tree
    of nodes of the desired sizes over [n] values can have: with [k > 0]
    levels, [desired_leaf_size * desired_internal_size ^ k ≤ n]. *)
Theorem push_each_height fuel (vs : list T) s :
  sizes_ok →
  length vs + 1 ≤ fuel →
  ∃ b, push_each fuel vs (new_builder s) = Done b
       ∧ items_held b = length vs
       ∧ (m_internal_nodes b ≠ [] →
          desired_leaf_size
          * desired_internal_size ^ length (m_internal_nodes b)
          ≤ length vs).
Proof.
  intros Hok Hfuel.
  destruct (push_each_spec fuel vs (new_builder s) Hok
              (new_builder_bounded s Hok)) as (b & Hrun & Hb & Hheld).
  { unfold items_held. cbn. lia. }
  assert (items_held b = length vs) as Hn
    by (rewrite Hheld; unfold items_held; cbn; lia).
  exists b. split; [done|]. split; [done|]. intros Hne.
  destruct Hb as (_ & _ & Hlevels). rewrite <- Hn. unfold items_held.
  destruct (m_internal_nodes b) as [|nodes upper]; [done|].
  pose proof (pow_le_nodes_below nodes upper Hlevels) as Hpow.
  cbn [length]. rewrite Nat.pow_succ_r'.
  set (nb := nodes_below (nodes :: upper)) in *.
  set (di := desired_internal_size) in *.
  set (dl := desired_leaf_size) in *.
  assert (di * di ^ length upper ≤ di * nb) by nia.
  assert (dl * (di * di ^ length upper) ≤ dl * (di * nb)) by nia.
  nia.
Qed.

(** [build] after any number of pushes returns, never takes from an
    empty deque, and leaves one root: all values, leaves and nodes have
    gone below a single leaf or a single internal node, and nothing is
    left exactly when no value was pushed. *)
Theorem build_single_root fuel (vs : list T) s :
  sizes_ok →
  length vs + 4 ≤ fuel →
  ∃ b b', push_each fuel vs (new_builder s) = Done b
          ∧ build fuel b = Done b'
          ∧ single_root b'
          ∧ (m_leaves b' = [] ∧ m_internal_nodes b' = [] ↔ vs = []).
Proof.
  intros Hok Hfuel.
  destruct (sizes_facts Hok) as (_ & _ & Hdl & Hdi & _ & _ & Hmax).
  destruct (push_each_spec fuel vs (new_builder s) Hok
              (new_builder_bounded s Hok)) as (b & Hrun & Hb & Hheld).
  { unfold items_held. cbn. lia. }
  assert (items_held b = length vs) as Hn
    by (rewrite Hheld; unfold items_held; cbn; lia).
  pose proof (levels_le_items_held b Hok Hb) as Hlevels.
  destruct (build_spec fuel b Hmax (bounded_last b Hb))
    as (b' & Hbuild & Hroot & Hempty); [lia|].
  exists b, b'. split; [done|]. split; [done|]. split; [done|].
  rewrite Hempty. split.
  - intros (Hi & Hl & Hv). unfold items_held in Hn.
    rewrite Hi, Hl, Hv in Hn. cbn in Hn.
    destruct vs; [done|]. cbn in Hn. lia.
  - intros ->. cbn in Hrun. by injection Hrun as <-.
Qed.

End BuilderProps.

End BTreeProps.


(** * Instances *)

(** Natural numbers under [<], sorted by stdpp's merge sort, meet the
    assumptions made on the comparator and on the in-memory sort. *)
Lemma ltb_asym (a b : nat) : (a <? b) = true → (b <? a) = false.
Proof. intros ?%Nat.ltb_lt. apply Nat.ltb_ge. lia. Qed.

Lemma ltb_negtrans (a b c : nat) :
  (b <? a) = false → (c <? b) = false → (c <? a) = false.
Proof. intros ?%Nat.ltb_ge ?%Nat.ltb_ge. apply Nat.ltb_ge. lia. Qed.

Lemma nat_sort_perm (l : list nat) : nat_sort l ≡ₚ l.
Proof. apply merge_sort_Permutation. Qed.

Lemma nat_sort_sorted (l : list nat) :
  StronglySorted (item_le Nat.ltb) (nat_sort l).
Proof.
  assert (Hsorted : StronglySorted Nat.le (nat_sort l)).
  { apply (StronglySorted_merge_sort Nat.le). }
  induction Hsorted as [|x xs _ IH Hall]; constructor; [done|].
  eapply Forall_impl; [exact Hall|]. intros y Hy.
  apply Nat.ltb_ge. exact Hy.
Qed.

Lemma example_sortable : sortable (p example_sorter) 7.
Proof. repeat split; vm_compute; (lia || reflexivity). Qed.

(** The four runs of the example. *)
Lemma example_runs_level_inv :
  level_inv Nat.ltb (p example_sorter) example_runs 0
    [[3; 5]; [1; 8]; [2; 9]; [7]].
Proof.
  split; [reflexivity|]. split; [reflexivity|]. split; [reflexivity|].
  split; [|split].
  - intros [|[|[|[|r]]]] run Hr; try discriminate Hr.
    all: injection Hr as <-.
    + exists [2; 9]. split; [by exists []|]. cbn. lia.
    + exists [7]. split; [by exists []|]. cbn. lia.
    + exists []. split; [by exists [3; 5]|done].
    + exists []. split; [by exists [1; 8]|done].
  - intros [|[|[|[|r]]]] run Hr; try discriminate Hr.
    all: injection Hr as <-; vm_compute; lia.
  - repeat constructor; vm_compute; reflexivity.
Qed.

(** The example after its first two runs only. *)
Lemma example_two_runs_level_inv :
  level_inv Nat.ltb (p example_sorter)
    (set_runFiles [[3; 5]; [1; 8]; []; []] example_runs) 0 [[3; 5]; [1; 8]].
Proof.
  split; [reflexivity|]. split; [reflexivity|]. split; [reflexivity|].
  split; [|split].
  - intros [|[|r]] run Hr; try discriminate Hr.
    all: injection Hr as <-.
    + exists []. split; [by exists []|done].
    + exists []. split; [by exists []|done].
  - intros [|[|r]] run Hr; try discriminate Hr.
    all: injection Hr as <-; vm_compute; lia.
  - repeat constructor; vm_compute; reflexivity.
Qed.

(** The example sorted: seven items, run length 2, fan-out 2. *)
Lemma sorter_correct_witness :
  ∃ out s',
    sort_all 0 Nat.ltb nat_sort 7 example_input example_sorter
    = Done (out, s')
    ∧ out ≡ₚ example_input
    ∧ StronglySorted (item_le Nat.ltb) out
    ∧ can_pull s' = Done false.
Proof.
  apply (sorter_correct 0 Nat.ltb nat_sort ltb_asym ltb_negtrans
           nat_sort_perm nat_sort_sorted example_sorter example_input 7).
  - reflexivity.
  - reflexivity.
  - exact example_sortable.
  - vm_compute. lia.
Defined.

(** [end()] on a sorter holding [5; 3] in its buffer and no run. *)
Lemma end_reporting_mode_witness :
  let s := set_currentRunItemCount 2
             (set_currentRunItems [5; 3] example_sorter) in
  ∃ s1 s3,
    end_ nat_sort s = Done s1
    ∧ m_reportInternal s1 = true
    ∧ calc Nat.ltb 0 s1 = Done (set_pull_prepared true s1)
    ∧ pull_all Nat.ltb 2 (set_pull_prepared true s1) = Done ([3; 5], s3).
Proof.
  intros s.
  destruct (end_reporting_mode Nat.ltb nat_sort nat_sort_perm nat_sort_sorted
              s) as [Hinternal _].
  - reflexivity.
  - vm_compute. lia.
  - destruct Hinternal as (s1 & Hend & Hint & _ & _ & Hcalc & _ & Hpull & _).
    + vm_compute. lia.
    + destruct (Hpull 2) as (s3 & Hs3 & _); [vm_compute; lia|].
      exists s1, s3. split; [exact Hend|]. split; [exact Hint|].
      split; [apply Hcalc|exact Hs3].
Defined.

(** In the example run 2 of level 0 goes to temp file 0, after run 0. *)
Lemma run_storage_location_witness :
  ∃ files0 out files' out',
    run_file_index (p example_sorter) 0 2 = Done 0
    ∧ open_run_file_write (p example_sorter) [[3; 5]; [1; 8]; []; []] 0 2
      = Done (files0, out)
    ∧ fs_file out = 0
    ∧ fs_offset out = calculate_run_length 2 2 0 * (2 / 2)
    ∧ write_items [2; 9] files0 out = (files', out')
    ∧ take 2 (drop (calculate_run_length 2 2 0 * (2 / 2)) (files' !!! 0))
      = [2; 9]
    ∧ runs_stored (p example_sorter) files' 0 [[3; 5]; [1; 8]; [2; 9]]
    ∧ open_run_file_read (p example_sorter) files' 0 2
      = Done {| fs_file := 0;
                fs_offset := calculate_run_length 2 2 0 * (2 / 2) |}.
Proof.
  apply (run_storage_location (p example_sorter) [[3; 5]; [1; 8]; []; []] 0
           [[3; 5]; [1; 8]] [2; 9]).
  - vm_compute. lia.
  - reflexivity.
  - reflexivity.
  - reflexivity.
  - vm_compute. lia.
  - apply example_two_runs_level_inv.
  - repeat constructor.
Defined.

(** The run geometry at run length 2 and fan-out 2: run 3 of level 1 is at
    offset 4 of temp file 3. *)
Lemma run_length_and_reader_offset_witness :
  calculate_run_length 2 2 1 = 2 * 2 ^ 1
  ∧ ∃ idx,
      run_file_index (p example_sorter) 1 3 = Done idx
      ∧ open_run_file_read (p example_sorter)
          [[1; 2]; [3; 4]; []; [5; 6; 7; 8; 9]] 1 3
        = Done {| fs_file := idx;
                  fs_offset := calculate_run_length 2 2 1 * (3 / 2) |}.
Proof.
  apply (run_length_and_reader_offset (p example_sorter)
           [[1; 2]; [3; 4]; []; [5; 6; 7; 8; 9]] 1 3).
  - vm_compute. lia.
  - reflexivity.
  - reflexivity.
  - reflexivity.
  - vm_compute. lia.
  - vm_compute. lia.
Defined.

(** Phase 3 on the four runs of the example ends with at most two runs. *)
Lemma merge_passes_witness :
  ∃ L' rs' s',
    prepare_pull_while Nat.ltb 4 7 0 4 example_runs = Done (L', length rs', s')
    ∧ level_inv Nat.ltb (p example_sorter) s' L' rs'
    ∧ concat rs' ≡ₚ concat [[3; 5]; [1; 8]; [2; 9]; [7]]
    ∧ length rs' ≤ 2.
Proof.
  apply (merge_passes Nat.ltb ltb_asym ltb_negtrans (p example_sorter) 7 7 4
           example_runs 0 [[3; 5]; [1; 8]; [2; 9]; [7]]).
  - exact example_sortable.
  - vm_compute. lia.
  - vm_compute. lia.
  - vm_compute. lia.
  - exact example_runs_level_inv.
  - discriminate.
  - vm_compute. lia.
Defined.

(** Phase 4 on the first two runs of the example. *)
Lemma final_merger_setup_witness :
  let s := set_runFiles [[3; 5]; [1; 8]; []; []] example_runs in
  ∃ s',
    initialize_final_merger Nat.ltb 4 0 2 s = Done s'
    ∧ merger_pending (m_runFiles s') (m_merger s')
      ≡ₚ concat [[3; 5]; [1; 8]]
    ∧ initialize_merger 0 0 2 s = Done s'.
Proof.
  intros s.
  destruct (final_merger_setup Nat.ltb ltb_asym ltb_negtrans
              (p example_sorter) 7 4 s 0 [[3; 5]; [1; 8]])
    as (s' & Hrun & _ & Hpend & Hshort & _).
  - exact example_sortable.
  - vm_compute. lia.
  - vm_compute. lia.
  - vm_compute. lia.
  - exact example_two_runs_level_inv.
  - discriminate.
  - vm_compute. lia.
  - exists s'. split; [exact Hrun|]. split; [exact Hpend|].
    apply Hshort. vm_compute. lia.
Defined.

(** The example worker flushes: it waits, then the buffer is reset. *)
Lemma flush_buffer_protocol_witness :
  let r := Parallel.flush_buffer_impl example_env 3 example_after
             example_world in
  ∃ k a',
    Parallel.events (snd r)
    = Parallel.events example_world
      ++ [Parallel.EvLock;
          Parallel.EvSetState 0 Parallel.OUTPUTTING;
          Parallel.EvNotify Parallel.producerCond]
      ++ replicate k (Parallel.EvWait (Parallel.workerCond 0))
    ∧ fst r = Done a'
    ∧ Parallel.m_outputSize (Parallel.m_buffer a') = 0
    ∧ 1 ≤ k
    ∧ Parallel.m_outputBuffers (Parallel.shared (snd r)) !! 0
      = Some (Parallel.m_buffer a').
Proof.
  intros r.
  destruct (flush_buffer_protocol example_env 3 example_after example_world)
    as (k & Hevents & Hresult); [discriminate|].
  fold r in Hevents, Hresult.
  destruct (fst r) as [a'| |] eqn:Hr; [|vm_compute in Hr; discriminate Hr..].
  exists k, a'. split; [exact Hevents|]. split; [reflexivity|].
  destruct Hresult as (_ & _ & [(Hzero & Hk & Hshared & _)|(Hsame & _)]).
  - split; [exact Hzero|]. split; [exact Hk|].
    clear Hshared Hevents. vm_compute in Hr. injection Hr as <-.
    unfold r. vm_compute. reflexivity.
  - exfalso. vm_compute in Hr. injection Hr as <-. discriminate Hsame.
Defined.

(** A merge heap of 100 bytes per stream, a stream of 100 bytes and
    temp-file handles of 16 bytes: over the fan-outs of the search the
    usage is exact and grows with the fan-out. *)
Lemma example_usage_exact (f : nat) :
  f < 251 →
  fanout_memory_usage 16 100 (λ f, 100 * f) f = 100 * f + 132.
Proof.
  intros Hf. assert (Hfit : SizeT.fits (100 * 251 + 232)) by reflexivity.
  unfold fanout_memory_usage.
  rewrite (SizeT_mul_small 2 16) by reflexivity.
  rewrite (SizeT_add_small (100 * f) 100)
    by (apply (SizeT_fits_le _ (100 * 251 + 232)); [lia|done]).
  rewrite SizeT_add_small by (apply (SizeT_fits_le _ (100 * 251 + 232)); [lia|done]).
  lia.
Qed.

Lemma example_usage_monotone (a b : nat) :
  2 ≤ a → a ≤ b → b < 251 →
  fanout_memory_usage 16 100 (λ f, 100 * f) a
  ≤ fanout_memory_usage 16 100 (λ f, 100 * f) b.
Proof. intros _ Hab Hb. rewrite !example_usage_exact by lia. lia. Qed.

(** Ten bytes per stream and nothing else. *)
Lemma small_usage_exact (f : nat) :
  f < 251 → fanout_memory_usage 0 0 (λ f, 10 * f) f = 10 * f.
Proof.
  intros Hf. assert (Hfit : SizeT.fits 2600) by reflexivity.
  unfold fanout_memory_usage.
  rewrite (SizeT_mul_small 2 0) by reflexivity.
  rewrite (SizeT_add_small (10 * f) 0)
    by (apply (SizeT_fits_le _ 2600); [lia|done]).
  rewrite SizeT_add_small by (apply (SizeT_fits_le _ 2600); [lia|done]).
  lia.
Qed.

Lemma small_usage_monotone (a b : nat) :
  2 ≤ a → a ≤ b → b < 251 →
  fanout_memory_usage 0 0 (λ f, 10 * f) a
  ≤ fanout_memory_usage 0 0 (λ f, 10 * f) b.
Proof. intros _ Hab Hb. rewrite !small_usage_exact by lia. lia. Qed.

(** Parameters for 1000 bytes in phase 3 and 600 bytes in phase 4; and
    parameters for five bytes with ten bytes per stream, where no fan-out
    fits: the fan-out is 2 and the phase-3 budget is raised to its usage. *)
Lemma calculate_parameters_fanout_witness :
  let params :=
    p (calculate_parameters 8 16 100 (λ f, 100 * f)
         4000 1000 600 (fresh_sorter (T:=nat))) in
  let tight :=
    p (calculate_parameters 1 0 0 (λ f, 10 * f) 5 5 5
         (fresh_sorter (T:=nat))) in
  fanout params = 8
  ∧ finalFanout params = 4
  ∧ fanout_memory_usage 16 100 (λ f, 100 * f) (fanout params) ≤ 1000
  ∧ (∀ g, fanout params < g < 251 →
          ¬ fanout_memory_usage 16 100 (λ f, 100 * f) g < 1000)
  ∧ fanout tight = 2
  ∧ memoryPhase3 tight = 20
  ∧ (∀ g, 2 < g < 251 → ¬ fanout_memory_usage 0 0 (λ f, 10 * f) g < 5).
Proof.
  intros params tight.
  destruct (calculate_parameters_fanout 8 16 100 (λ f, 100 * f)
              4000 1000 600 (fresh_sorter (T:=nat)) example_usage_monotone)
    as (_ & _ & _ & Hlargest & _).
  destruct (calculate_parameters_fanout 1 0 0 (λ f, 10 * f)
              5 5 5 (fresh_sorter (T:=nat)) small_usage_monotone)
    as (_ & _ & _ & Hnone & Hraised & _).
  assert (fanout tight = 2) as Htwo by reflexivity.
  split; [vm_compute; reflexivity|]. split; [vm_compute; reflexivity|].
  split; [vm_compute; lia|]. split; [exact Hlargest|].
  split; [exact Htwo|]. fold tight in Hnone, Hraised.
  rewrite Htwo in Hnone, Hraised. split; [|exact Hnone].
  rewrite Hraised. reflexivity.
Defined.




(** ** Instances for the further properties *)

(** With 100 bytes per stream, twice the memory gives at least the
    fan-out. *)
Lemma calculate_fanout_monotone_witness :
  calculate_fanout 16 100 (λ f, 100 * f) 600
  ≤ calculate_fanout 16 100 (λ f, 100 * f) 1200.
Proof.
  apply (calculate_fanout_monotone 16 100 (λ f, 100 * f) 600 1200).
  - exact example_usage_monotone.
  - lia.
Defined.

(** Items of 8 bytes and 4000 bytes for phase 2. *)
Lemma calculate_parameters_run_length_witness :
  let params :=
    p (calculate_parameters 8 16 100 (λ f, 100 * Nat.min f 40)
         4000 1000 600 (fresh_sorter (T:=nat))) in
  1 ≤ runLength params
  ∧ runLength params * 8 + 100 + 2 * fanout params * 16
    ≤ memoryPhase2 params.
Proof.
  intros params.
  destruct (calculate_parameters_run_length 8 16 100
              (λ f, 100 * Nat.min f 40) 4000 1000 600 (fresh_sorter (T:=nat)))
    as (_ & _ & Hone & Hfits).
  - lia.
  - reflexivity.
  - reflexivity.
  - split; [exact Hone|exact Hfits].
Defined.

(** [calc()] on the four runs of the example. *)
Lemma calc_frame_witness :
  ∃ s', calc Nat.ltb 7 example_runs = Done s'
        ∧ ∃ files m,
            s' = set_pull_prepared true
                   (set_runFiles files (set_merger m example_runs)).
Proof.
  eexists. split; [vm_compute; reflexivity|].
  apply (calc_frame Nat.ltb 7 example_runs). vm_compute. reflexivity.
Defined.

(** Three runs and a fan-out of 1: the loop is still running when the fuel
    is spent. *)
Lemma calc_diverges_at_fanout_1_witness :
  fanout (p example_unary_runs) = 1
  ∧ m_finishedRuns example_unary_runs = 3
  ∧ ¬ ∃ s', calc Nat.ltb 20 example_unary_runs = Done s'.
Proof.
  split; [reflexivity|]. split; [reflexivity|].
  intros [s' Hdone].
  apply (calc_diverges_at_fanout_1 Nat.ltb 20 example_unary_runs) with s'.
  - reflexivity.
  - reflexivity.
  - vm_compute. lia.
  - reflexivity.
  - exact Hdone.
Defined.

(** The four runs of the example need one pass. *)
Lemma merge_pass_count_witness :
  ∃ k rc' s',
    prepare_pull_while Nat.ltb 4 7 0 4 example_runs = Done (0 + k, rc', s')
    ∧ rc' = runs_after 2 4 k
    ∧ rc' ≤ 2
    ∧ ∀ j, j < k → 2 < runs_after 2 4 j.
Proof.
  apply (merge_pass_count Nat.ltb ltb_asym ltb_negtrans (p example_sorter)
           7 7 4 example_runs 0 [[3; 5]; [1; 8]; [2; 9]; [7]]).
  - exact example_sortable.
  - vm_compute. lia.
  - vm_compute. lia.
  - vm_compute. lia.
  - exact example_runs_level_inv.
  - discriminate.
  - vm_compute. lia.
Defined.

(** Seven items at run length 2 make four runs. *)
Lemma form_runs_count_witness :
  ∃ s',
    form_runs 0 nat_sort example_input example_sorter = Done s'
    ∧ (m_reportInternal s' = true ↔ 7 ≤ 2 ∧ 7 ≤ 2)
    ∧ (m_reportInternal s' = true →
         m_currentRunItemCount s' = 7
         ∧ take 7 (m_currentRunItems s') ≡ₚ example_input)
    ∧ (m_reportInternal s' = false → m_finishedRuns s' = ceil_div 7 2).
Proof.
  apply (form_runs_count 0 nat_sort nat_sort_perm example_sorter
           example_input).
  - reflexivity.
  - reflexivity.
  - exact example_sortable.
Defined.

(** Runs 1 and 3 of level 0 share temp file 1 at fan-out 2. *)
Lemma run_file_index_shared_witness :
  (∃ idx, run_file_index (p example_sorter) 0 1 = Done idx ∧ idx < 2 * 2)
  ∧ (run_file_index (p example_sorter) 0 1
     = run_file_index (p example_sorter) 0 3
     ↔ 0 mod 2 = 0 mod 2 ∧ 1 mod 2 = 3 mod 2).
Proof.
  apply (run_file_index_shared (p example_sorter) 0 1 0 3).
  - vm_compute. lia.
  - reflexivity.
Defined.

(** A sorter set to run length 0. *)
Lemma push_needs_run_length_witness :
  ∃ s0 e, begin 0 (set_parameters 0 2 fresh_sorter) = Done s0
          ∧ push nat_sort 1 s0 = Fail e.
Proof.
  eexists. 
  destruct (push_needs_run_length 0 nat_sort nat_sort_perm
              (set_parameters 0 2 fresh_sorter) _ 1 eq_refl eq_refl)
    as [e He].
  exists e. split; [reflexivity|exact He].
Defined.


(** ** Instances for the block collection cache *)

Module CacheInstances.

Import Blocks CacheProps.

Lemma disk_read_stored h (d : gmap nat nat) b d' :
  disk_read_block h d = Done (b, d') →
  disk_stored d (position h) = Some b
  ∧ ∀ pos, disk_stored d' pos = disk_stored d pos.
Proof.
  unfold disk_read_block, disk_stored.
  destruct (d !! position h) as [b0|]; [|done]. by intros [= <- <-].
Qed.

Lemma disk_write_stored h b (d d' : gmap nat nat) :
  disk_write_block h b d = Done d' →
  ∀ pos, disk_stored d' pos
         = if decide (pos = position h) then Some b else disk_stored d pos.
Proof.
  unfold disk_write_block, disk_stored. intros [= <-] pos.
  destruct (decide (pos = position h)) as [->|Hne].
  - by rewrite lookup_insert_eq.
  - by rewrite lookup_insert_ne.
Qed.

Lemma example_cache_wf : cache_wf example_cache.
Proof.
  assert (∃ b1 c1 b2 c2,
    read_block disk_read_block disk_write_block (example_handle 1)
      (cache_new example_disk 8 2) = Done (b1, c1)
    ∧ read_block disk_read_block disk_write_block (example_handle 2) c1
      = Done (b2, c2)
    ∧ write_block (example_handle 1) c2 = Done example_cache)
    as (b1 & c1 & b2 & c2 & H1 & H2 & H3).
  { eexists _, _, _, _. split; [vm_compute; reflexivity|].
    split; vm_compute; reflexivity. }
  eapply write_block_wf; [|exact H3].
  eapply read_block_wf; [|exact H2].
  eapply read_block_wf; [|exact H1].
  apply cache_new_wf.
Qed.

Lemma example_cache_map :
  m_blockMap example_cache
  = <[1 := (example_handle 1,
            {| pointer := 10; iterator := 2; dirty := true |})]>
      (<[2 := (example_handle 2,
               {| pointer := 20; iterator := 1; dirty := false |})]> ∅).
Proof. vm_compute. reflexivity. Qed.

Lemma example_cache_clean : clean_ok disk_stored example_cache.
Proof.
  intros pos key info. rewrite example_cache_map.
  intros [[<- [= <- <-]]|[_ [[<- [= <- <-]]|[_ ?]]%lookup_insert_Some]]
    %lookup_insert_Some; [done| |done].
  intros _. reflexivity.
Qed.

(** Reading the block at 3 evicts the block at 2, which is clean. *)
Lemma read_block_lru_witness :
  ∃ c',
    read_block disk_read_block disk_write_block (example_handle 3)
      example_cache = Done (30, c')
    ∧ ∃ it victim rest key info coll,
        m_blockList example_cache = (it, victim) :: rest
        ∧ m_blockMap example_cache !! position victim = Some (key, info)
        ∧ (if dirty info
           then disk_write_block key (pointer info)
                  (m_collection example_cache) = Done coll
           else coll = m_collection example_cache)
        ∧ disk_read_block (example_handle 3) coll
          = Done (30, m_collection c')
        ∧ m_blockMap c' !! position victim = None
        ∧ lru_order c' = ((position ∘ snd) <$> rest) ++ [3]
        ∧ m_curSize c' = m_curSize example_cache.
Proof.
  eexists. split; [vm_compute; reflexivity|].
  eapply (read_block_lru disk_read_block disk_write_block example_cache
            (example_handle 3) 30).
  - exact example_cache_wf.
  - vm_compute. reflexivity.
  - vm_compute. reflexivity.
  - vm_compute. lia.
Defined.

(** The bookkeeping after reading the block at 3. *)
Lemma cache_wf_preserved_witness :
  ∃ c',
    read_block disk_read_block disk_write_block (example_handle 3)
      example_cache = Done (30, c')
    ∧ cache_wf c'.
Proof.
  eexists. split; [vm_compute; reflexivity|].
  destruct (cache_wf_preserved (λ _, 0) disk_get_free_block disk_free_block
              disk_read_block disk_write_block example_cache
              example_cache_wf) as (Hread & _).
  apply (Hread (example_handle 3) 30). vm_compute. reflexivity.
Defined.

(** Allocating a block in the full cache makes it hold three. *)
Lemma cache_capacity_witness :
  m_curSize example_cache = 2
  ∧ m_maxSize example_cache = 2
  ∧ ∃ handle c',
      get_free_block (λ _, 0) disk_get_free_block example_cache
      = Done (handle, c')
      ∧ m_curSize c' = 3.
Proof.
  split; [reflexivity|]. split; [reflexivity|].
  destruct (cache_capacity (λ _, 0) disk_get_free_block disk_free_block
              disk_read_block disk_write_block example_cache
              example_cache_wf) as (_ & _ & _ & Hget).
  eexists _, _. split; [vm_compute; reflexivity|].
  eapply Hget. vm_compute. reflexivity.
Defined.

(** The block at 3 is read through the cache as it is stored. *)
Lemma read_block_coherent_witness :
  ∃ c',
    read_block disk_read_block disk_write_block (example_handle 3)
      example_cache = Done (30, c')
    ∧ view disk_stored example_cache 3 = Some 30
    ∧ (∀ pos, view disk_stored c' pos = view disk_stored example_cache pos)
    ∧ clean_ok disk_stored c'.
Proof.
  eexists. split; [vm_compute; reflexivity|].
  apply (read_block_coherent disk_read_block disk_write_block disk_stored
           disk_read_stored disk_write_stored example_cache
           (example_handle 3) 30).
  - exact example_cache_wf.
  - exact example_cache_clean.
  - vm_compute. reflexivity.
Defined.

(** Marking the block at 2. *)
Lemma write_block_coherent_witness :
  ∃ c',
    write_block (example_handle 2) example_cache = Done c'
    ∧ (∀ pos, view disk_stored c' pos = view disk_stored example_cache pos)
    ∧ clean_ok disk_stored c'
    ∧ ∃ key info, m_blockMap c' !! 2 = Some (key, info) ∧ dirty info = true.
Proof.
  eexists. split; [vm_compute; reflexivity|].
  apply (write_block_coherent disk_stored example_cache (example_handle 2)).
  - exact example_cache_wf.
  - intros pos key info _. apply example_cache_clean.
  - vm_compute. reflexivity.
Defined.

(** Destroying the cache stores the block at 1, which is dirty. *)
Lemma destroy_flushes_witness :
  ∃ d',
    destroy disk_write_block example_cache = Done d'
    ∧ ∀ pos, disk_stored d' pos = view disk_stored example_cache pos.
Proof.
  eexists. split; [vm_compute; reflexivity|].
  apply (destroy_flushes disk_write_block disk_stored disk_write_stored
           example_cache).
  - exact example_cache_wf.
  - exact example_cache_clean.
  - vm_compute. reflexivity.
Defined.

End CacheInstances.


(** ** Instances for the parallel segment *)

(** Storing one item in the two-item input buffer of worker 0. *)
Lemma set_input_round_trip_witness :
  Parallel.m_inputBuffers (Parallel.shared example_world) !! 0
  = Some {| Parallel.m_inputSize := 2; Parallel.m_inputBuffer := [2; 3] |}
  ∧ ∃ b', Parallel.m_inputBuffers
            (Parallel.shared (Parallel.set_input 0 [7] example_world).2) !! 0
          = Some b'
          ∧ Parallel.get_input b' = [7].
Proof.
  split; [reflexivity|].
  pose proof (set_input_round_trip 0 [7] _ example_world eq_refl) as H.
  cbn in H. destruct H as (_ & (b' & Hb & Hin & _) & _).
  exists b'. split; [exact Hb|exact Hin].
Defined.

(** The push that fills the buffer of worker 0 flushes it; the producer
    answers by setting the state to [IDLE]. *)
Lemma after_push_room_witness :
  ∃ a' w',
    Parallel.after_push example_env 3 9
      {| Parallel.parId := 0;
         Parallel.m_buffer := {| Parallel.m_outputSize := 1;
                                 Parallel.m_outputBuffer := [4; 6] |} |}
      example_world = (Done a', w')
    ∧ length (Parallel.m_outputBuffer (Parallel.m_buffer a')) = 2.
Proof.
  destruct (Parallel.after_push _ _ _ _ _) as [[a'| |] w'] eqn:H;
    [|vm_compute in H; discriminate..].
  exists a', w'. split; [reflexivity|].
  exact (proj1 (proj2 (after_push_room _ _ _ _ _ _ _ H))).
Defined.

(** A worker that is told to stop before it got any input. *)
Lemma worker_exit_witness :
  let r := ParallelWorker.worker (λ _ st, Parallel.with_done true st)
             {| Parallel.numJobs := 1; Parallel.bufSize := 2 |} 0
             (Parallel.ret tt) (λ _, Parallel.ret tt) 3 0
             {| Parallel.shared :=
                  Parallel.with_states (λ _, [Parallel.IDLE])
                    (Parallel.shared example_world);
                Parallel.clock := 0; Parallel.events := [] |} in
  r.1 = Done tt
  ∧ Parallel.done (Parallel.shared r.2) = true
  ∧ last (Parallel.events r.2)
    = Some (Parallel.EvNotify Parallel.producerCond).
Proof.
  intros r.
  pose proof (worker_exit (λ _ st, Parallel.with_done true st)
                {| Parallel.numJobs := 1; Parallel.bufSize := 2 |} 0
                (Parallel.ret tt) (λ _, Parallel.ret tt) 3 0
                {| Parallel.shared :=
                     Parallel.with_states (λ _, [Parallel.IDLE])
                       (Parallel.shared example_world);
                   Parallel.clock := 0; Parallel.events := [] |}) as H.
  cbn zeta in H. fold r in H.
  assert (r.1 = Done tt) as Hr by reflexivity.
  rewrite Hr in H. split; [exact Hr|].
  destruct H as (Hd & _ & Hl); [intros ? ?; discriminate..|].
  split; [exact Hd|exact Hl].
Defined.

Lemma worker_running_balance_witness :
  let w := {| Parallel.shared :=
                Parallel.with_states (λ _, [Parallel.IDLE])
                  (Parallel.shared example_world);
              Parallel.clock := 0; Parallel.events := [] |} in
  let r := ParallelWorker.worker (λ _ st, Parallel.with_done true st)
             {| Parallel.numJobs := 1; Parallel.bufSize := 2 |} 0
             (Parallel.ret tt) (λ _, Parallel.ret tt) 3 0 w in
  SizeT.fits (S (Parallel.runningWorkers (Parallel.shared w)))
  ∧ r.1 = Done tt
  ∧ Parallel.runningWorkers (Parallel.shared r.2) = 1.
Proof.
  intros w r.
  assert (SizeT.fits (S (Parallel.runningWorkers (Parallel.shared w))))
    as Hfits by reflexivity.
  split; [exact Hfits|]. split; [reflexivity|].
  exact (worker_running_balance (λ _ st, Parallel.with_done true st)
           {| Parallel.numJobs := 1; Parallel.bufSize := 2 |} 0
           (Parallel.ret tt) (λ _, Parallel.ret tt) 3 0 w
           (λ _ _, eq_refl) (λ _, eq_refl) (λ _ _, eq_refl) Hfits).
Defined.

(** One item pushed into the empty two-item buffer that
    [worker_initialize] registers for worker 0. *)
Lemma push_all_batches_witness :
  let a := {| Parallel.parId := 0;
              Parallel.m_buffer := {| Parallel.m_outputSize := 0;
                                      Parallel.m_outputBuffer := [0; 0] |} |} in
  Parallel.after_worker_initialize
    {| Parallel.numJobs := 1; Parallel.bufSize := 2 |} 0 example_after
    example_world = (Done a, example_world)
  ∧ Parallel.m_outputBuffers (Parallel.shared example_world) !! 0
    = Some (Parallel.m_buffer a)
  ∧ ∃ a1 w1,
      ParallelWorker.push_each (Parallel.after_push example_env 3) [5] a
        example_world = (Done a1, w1)
      ∧ Parallel.consume_output 0 w1
        = (Done tt,
           {| Parallel.shared := Parallel.shared w1;
              Parallel.clock := Parallel.clock w1;
              Parallel.events := [Parallel.EvConsume [5]] |})
      ∧ ∃ a', (ParallelWorker.push_all
                 (Parallel.after_push example_env 3)
                 (Parallel.flush_buffer_impl example_env 3) [5] a
                 example_world).1 = Done a'
              ∧ Parallel.m_outputSize (Parallel.m_buffer a') = 0.
Proof.
  intros a. split; [reflexivity|]. split; [reflexivity|].
  destruct (push_all_batches example_env 3 [5] a example_world)
    as (a1 & w1 & k & Hrun & _ & _ & _ & _ & Hcons & _);
    [reflexivity|cbn; lia|cbn; lia|].
  exists a1, w1. split; [exact Hrun|]. split; [exact Hcons|].
  destruct (ParallelWorker.push_all _ _ _ _ _).1 as [a'| |] eqn:Hr;
    [|vm_compute in Hr; discriminate Hr..].
  exists a'. split; [reflexivity|].
  vm_compute in Hr. by injection Hr as <-.
Defined.


(** ** Instances for the B-tree builder *)

Module BTreeInstances.

Import BTree BTreeProps.

Lemma example_sizes_ok : @sizes_ok _ _ _ _ _ _ example_store_ops.
Proof.
  unfold sizes_ok. cbn.
  split; [reflexivity|]. split; [reflexivity|]. lia.
Qed.

(** The fifth value reaches the tipping point of the leaves: a leaf of
    three values is stored and two values stay behind. *)
Lemma push_bounded_witness :
  let b := {| m_items := [1; 2; 3; 4]; m_leaves := [];
              m_internal_nodes := []; m_store := example_empty_store |} in
  @sizes_ok _ _ _ _ _ _ example_store_ops
  ∧ bounded b
  ∧ ∃ b', push 2 5 b = Done b'
          ∧ m_items b' = [4; 5]
          ∧ items_held b' = 5.
Proof.
  intros b.
  assert (bounded b) as Hb.
  { unfold bounded. split; [vm_compute; lia|].
    split; [vm_compute; lia|]. constructor. }
  split; [exact example_sizes_ok|]. split; [exact Hb|].
  destruct (push_bounded 2 5 b example_empty_store example_sizes_ok Hb)
    as (_ & _ & b' & Hpush & _ & Hheld); [cbn; lia|].
  exists b'. split; [exact Hpush|]. split; [|exact Hheld].
  assert (push 2 5 b
          = Done {| m_items := [4; 5];
                    m_leaves := m_leaves b';
                    m_internal_nodes := m_internal_nodes b';
                    m_store := m_store b' |}) as Heq.
  { rewrite Hpush. f_equal. destruct b'. cbn.
    revert Hpush. vm_compute. by intros [= -> _ _ _]. }
  rewrite Hpush in Heq. by injection Heq as ->.
Defined.

(** Sixty values: two levels of internal nodes, and [3 * 3 ^ 2 ≤ 60]. *)
Lemma push_each_height_witness :
  @sizes_ok _ _ _ _ _ _ example_store_ops
  ∧ ∃ b, push_each 61 (seq 1 60) (new_builder example_empty_store) = Done b
         ∧ items_held b = 60
         ∧ length (m_internal_nodes b) = 2.
Proof.
  split; [exact example_sizes_ok|].
  destruct (push_each_height 61 (seq 1 60) example_empty_store
              example_sizes_ok)
    as (b & Hrun & Hheld & _); [cbn; lia|].
  exists b. split; [exact Hrun|]. split; [exact Hheld|].
  revert Hrun. vm_compute. by intros [= <-].
Defined.

(** Twenty-three values: eight leaves under three internal nodes under
    the root. *)
Lemma build_single_root_witness :
  @sizes_ok _ _ _ _ _ _ example_store_ops
  ∧ ∃ b b', push_each 27 (seq 1 23) (new_builder example_empty_store) = Done b
            ∧ build 27 b = Done b'
            ∧ single_root b'
            ∧ st_height (m_store b') = 3.
Proof.
  split; [exact example_sizes_ok|].
  destruct (build_single_root 27 (seq 1 23) example_empty_store
              example_sizes_ok)
    as (b & b' & Hrun & Hbuild & Hroot & _); [cbn; lia|].
  exists b, b'. split; [exact Hrun|]. split; [exact Hbuild|].
  split; [exact Hroot|].
  revert Hrun. vm_compute. intros [= <-].
  revert Hbuild. vm_compute. by intros [= <-].
Defined.

End BTreeInstances.

